(** * three-scatter: a shallow embedding of the chunk-streaming core

    The TypeScript sources are embedded function by function.  A JavaScript
    [number] is an IEEE-754 binary64 value and is modelled by Rocq's primitive
    [float]; instance handles and 32-bit words are modelled by [Z].  The
    pool's set of active handles is an stdpp [gset], the converter's table
    an stdpp [gmap], and the chunk [Map], whose iteration order the
    deactivation pass follows, an association list in insertion order. *)

From Stdlib Require Import ZArith Lia List Bool.
From Stdlib Require Import PrimFloat FloatOps SpecFloat.
From stdpp Require Import base option list gmap sets.

Local Open Scope Z_scope.

(* ===================================================================== *)
(** * JavaScript numbers *)
(* ===================================================================== *)

Module JS.

Abbreviation number := float (only parsing).

(** The mathematical integer [floor x] of a finite number. *)
Definition floorZ (x : number) : option Z :=
  match Prim2SF x with
  | S754_zero _ => Some 0
  | S754_finite s m e => Some (Z.shiftl (if s then Zneg m else Zpos m) e)
  | S754_infinity _ | S754_nan => None
  end.

(** The mathematical integer part of a finite number, rounded toward zero
    (the [truncate] of ECMAScript's ToInt32 and ToUint32). *)
Definition truncZ (x : number) : option Z :=
  match Prim2SF x with
  | S754_zero _ => Some 0
  | S754_finite s m e =>
      let a := Z.shiftl (Zpos m) e in Some (if s then - a else a)
  | S754_infinity _ | S754_nan => None
  end.

(** The number nearest to [m * 2^e]; exact whenever that value is a
    binary64 number. *)
Definition ofZexp (m e : Z) : number :=
  SF2Prim (binary_normalize prec emax m e false).

Definition ofZ (z : Z) : number := ofZexp z 0.

(** [Math.floor]: NaN, the infinities and the two zeros are returned
    unchanged. *)
Definition floor (x : number) : number :=
  match floorZ x with
  | Some z => if is_zero x then x else ofZ z
  | None => x
  end.

(** [Math.ceil x], which ECMAScript defines as [-Math.floor(-x)]. *)
Definition ceil (x : number) : number := (- floor (- x))%float.

(** ECMAScript ToInt32 and ToUint32. *)
Definition toUint32 (x : number) : Z :=
  match truncZ x with
  | Some z => z mod 2 ^ 32
  | None => 0
  end.

Definition toInt32 (x : number) : Z :=
  let u := toUint32 x in if 2 ^ 31 <=? u then u - 2 ^ 32 else u.

(** The bitwise operators work on the ToInt32 images of their operands:
    [a ^ b] is [Z.lxor (toInt32 a) (toInt32 b)], [a & b] is
    [Z.land (toInt32 a) (toInt32 b)], both signed 32-bit integers again.
    [w >>> 0] reads the signed 32-bit integer [w] as unsigned. *)
Definition ushr0 (w : Z) : Z := w mod 2 ^ 32.

(** The remainder operator [x % y]: exact, with the sign of the dividend. *)
Definition rem (x y : number) : number :=
  match Prim2SF x, Prim2SF y with
  | S754_nan, _ | _, S754_nan => nan
  | S754_infinity _, _ => nan
  | _, S754_zero _ => nan
  | S754_zero _, _ => x
  | S754_finite _ _ _, S754_infinity _ => x
  | S754_finite sx mx ex, S754_finite _ my ey =>
      let e := Z.min ex ey in
      let r := Z.rem (Z.shiftl (Zpos mx) (ex - e)) (Z.shiftl (Zpos my) (ey - e)) in
      if r =? 0 then (if sx then neg_zero else zero)
      else ofZexp (if sx then - r else r) e
  end.

(** [Math.min] and [Math.max] (NaN is contagious; [-0 < +0]). *)
Definition min (a b : number) : number :=
  if is_nan a || is_nan b then nan
  else if (a <? b)%float then a
  else if (b <? a)%float then b
  else if get_sign a then a else b.

Definition max (a b : number) : number :=
  if is_nan a || is_nan b then nan
  else if (a <? b)%float then b
  else if (b <? a)%float then a
  else if get_sign a then b else a.

(** The canonical form of a number used as a property key or spelled in
    a template literal: distinct numbers spell distinct strings, except
    that [-0] and [+0] both spell "0". *)
Definition propertyKey (j : number) : spec_float :=
  match Prim2SF j with S754_zero _ => S754_zero false | k => k end.

(** The slot of an array of length [n] named by the key [j]: defined when
    [j] is an integer in [0, n). *)
Definition arrayIndex (n : nat) (j : number) : option nat :=
  match floorZ j with
  | Some z =>
      if (ofZ z =? j)%float && (0 <=? z) && (z <? Z.of_nat n)
      then Some (Z.to_nat z) else None
  | None => None
  end.

End JS.

#[global] Instance spec_float_eq_dec : EqDecision spec_float.
Proof. solve_decision. Defined.

(* ===================================================================== *)
(** * utils/SeededRandom.ts *)
(* ===================================================================== *)

Module SeededRandom.

Record t := mk { seed : JS.number }.

Definition new (seed : JS.number) : t := mk seed.

(** [next()]: advances the state and returns the new state over 233280. *)
Definition next (r : t) : JS.number * t :=
  let s := JS.rem (seed r * 9301 + 49297)%float 233280%float in
  ((s / 233280)%float, mk s).

(** [range(min, max)]. *)
Definition range (lo hi : JS.number) (r : t) : JS.number * t :=
  let (u, r') := next r in ((lo + u * (hi - lo))%float, r').

(** [rangeInt(min, max)]. *)
Definition rangeInt (lo hi : JS.number) (r : t) : JS.number * t :=
  let (v, r') := range lo (hi + 1)%float r in (JS.floor v, r').

(** [setSeed(seed)]. *)
Definition setSeed (s : JS.number) (_ : t) : t := mk s.

End SeededRandom.

(* ===================================================================== *)
(** * utils/PerlinNoise.ts *)
(* ===================================================================== *)

Module PerlinNoise.

(** An array slot holds a number or [undefined]. *)
Inductive value := Undefined | Num (n : JS.number).

(** ToNumber. *)
Definition toNumber (v : value) : JS.number :=
  match v with Undefined => nan | Num n => n end.

(** A JavaScript array read and written through numeric keys: the dense
    slots [0 .. length-1], and the properties created by writes under any
    other key (a negative integer, NaN, ...), kept by the key's canonical
    form ([-0] and [+0] name the same key). *)
Record jsarray := mkArray {
  elems : list value;
  props : list (spec_float * value)
}.

Fixpoint assoc (k : spec_float) (l : list (spec_float * value)) : value :=
  match l with
  | [] => Undefined
  | (k', v) :: l' => if decide (k = k') then v else assoc k l'
  end.

Definition get (a : jsarray) (j : JS.number) : value :=
  match JS.arrayIndex (length (elems a)) j with
  | Some i => nth i (elems a) Undefined
  | None => assoc (JS.propertyKey j) (props a)
  end.

Definition set (a : jsarray) (j : JS.number) (v : value) : jsarray :=
  match JS.arrayIndex (length (elems a)) j with
  | Some i => mkArray (<[i := v]> (elems a)) (props a)
  | None => mkArray (elems a) ((JS.propertyKey j, v) :: props a)
  end.

(** [[p[i], p[j]] = [p[j], p[i]]]. *)
Definition swap (p : jsarray) (i j : JS.number) : jsarray :=
  let pj := get p j in
  let pi := get p i in
  set (set p i pj) j pi.

(** [for (let i = 0; i < 256; i++) p[i] = i]. *)
Definition identity256 : jsarray :=
  mkArray (map (fun i => Num (JS.ofZ (Z.of_nat i))) (seq 0 256)) [].

(** The Fisher-Yates loop [for (let i = 255; i > 0; i--)], entered at [i]. *)
Fixpoint shuffle (i : nat) (rng : SeededRandom.t) (p : jsarray) : jsarray :=
  match i with
  | O => p
  | S i' =>
      let fi := JS.ofZ (Z.of_nat i) in
      let (u, rng') := SeededRandom.next rng in
      let j := JS.floor (u * (fi + 1))%float in
      shuffle i' rng' (swap p fi j)
  end.

Record t := mk { permutation : list value }.

(** The constructor: [permutation[i] = p[i & 255]] for [i] in [0, 512). *)
Definition new (seed : JS.number) : t :=
  let p := shuffle 255 (SeededRandom.new seed) identity256 in
  mk (map (fun i => nth (Z.to_nat (Z.land (Z.of_nat i) 255)) (elems p) Undefined)
          (seq 0 512)).

(** [this.permutation[k]] for a numeric key [k]; the array has no property
    besides its 512 slots. *)
Definition perm (n : t) (k : JS.number) : value :=
  match JS.arrayIndex (length (permutation n)) k with
  | Some i => nth i (permutation n) Undefined
  | None => Undefined
  end.

Definition fade (t : JS.number) : JS.number :=
  (t * t * t * (t * (t * 6 - 15) + 10))%float.

Definition lerp (a b t : JS.number) : JS.number := (a + t * (b - a))%float.

Definition grad (hash : value) (x y : JS.number) : JS.number :=
  let h := Z.land (JS.toInt32 (toNumber hash)) 3 in
  let u := if h <? 2 then x else y in
  let v := if h <? 2 then y else x in
  let gu := if Z.land h 1 =? 0 then u else (- u)%float in
  let gv := if Z.land h 2 =? 0 then (2 * v)%float else ((-2) * v)%float in
  (gu + gv)%float.

Definition noise2D (n : t) (x y : JS.number) : JS.number :=
  let X := JS.ofZ (Z.land (JS.toInt32 (JS.floor x)) 255) in
  let Y := JS.ofZ (Z.land (JS.toInt32 (JS.floor y)) 255) in
  let x := (x - JS.floor x)%float in
  let y := (y - JS.floor y)%float in
  let u := fade x in
  let v := fade y in
  let a := (toNumber (perm n X) + Y)%float in
  let b := (toNumber (perm n (X + 1)%float) + Y)%float in
  ((lerp
      (lerp (grad (perm n a) x y) (grad (perm n b) (x - 1) y) u)
      (lerp (grad (perm n (a + 1)) x (y - 1))
            (grad (perm n (b + 1)) (x - 1) (y - 1)) u)
      v + 1) * 0.5)%float.

Record fbmState := mkFbm {
  value_ : JS.number;
  amplitude : JS.number;
  frequency : JS.number;
  maxValue : JS.number
}.

(** The loop [for (let i = 0; i < octaves; i++)], entered at counter [i].
    [None] when [fuel] iterations do not reach the exit test (an infinite
    [octaves] never does). *)
Fixpoint fbmLoop (fuel : nat) (n : t) (x y octaves persistence lacunarity : JS.number)
    (i : JS.number) (s : fbmState) : option fbmState :=
  if (i <? octaves)%float then
    match fuel with
    | O => None
    | S fuel' =>
        let s' :=
          mkFbm (value_ s + noise2D n (x * frequency s) (y * frequency s) * amplitude s)
                (amplitude s * persistence)
                (frequency s * lacunarity)
                (maxValue s + amplitude s) in
        fbmLoop fuel' n x y octaves persistence lacunarity (i + 1)%float s'
    end
  else Some s.

Definition fbm2D (fuel : nat) (n : t)
    (x y octaves persistence lacunarity scale : JS.number) : option JS.number :=
  let x := (x * scale)%float in
  let y := (y * scale)%float in
  match fbmLoop fuel n x y octaves persistence lacunarity 0 (mkFbm 0 1 1 0) with
  | Some s => Some (value_ s / maxValue s)%float
  | None => None
  end.

End PerlinNoise.

(* ===================================================================== *)
(** * utils/InstancePool.ts *)
(* ===================================================================== *)

Module InstancePool.

Record t := mk {
  activeInstances : gset Z;
  freeIds : list Z;
  nextId : Z;
  maxInstances : Z
}.

Definition new (maxInstances : Z) : t := mk ∅ [] 0 maxInstances.

(** [Array.prototype.pop]: the last element and the array without it. *)
Definition pop {A} (l : list A) : option (A * list A) :=
  match last l with
  | Some x => Some (x, removelast l)
  | None => None
  end.

(** [acquire()]: the handle, or [None] for [null], and the pool after. *)
Definition acquire (p : t) : option Z * t :=
  match pop (freeIds p) with
  | Some (id, rest) =>
      (Some id, mk ({[id]} ∪ activeInstances p) rest (nextId p) (maxInstances p))
  | None =>
      if nextId p <? maxInstances p then
        (Some (nextId p),
         mk ({[nextId p]} ∪ activeInstances p) (freeIds p) (nextId p + 1)
            (maxInstances p))
      else (None, p)
  end.

(** [release(id)]: [Set.delete] answers whether [id] was a member. *)
Definition release (id : Z) (p : t) : t :=
  if decide (id ∈ activeInstances p) then
    mk (activeInstances p ∖ {[id]}) (freeIds p ++ [id]) (nextId p) (maxInstances p)
  else p.

Definition getActiveCount (p : t) : Z := Z.of_nat (size (activeInstances p)).

(** [getStats()]: active, total, max. *)
Definition getStats (p : t) : Z * Z * Z :=
  (getActiveCount p, nextId p, maxInstances p).

Definition clear (p : t) : t := mk ∅ [] 0 (maxInstances p).

Definition hasCapacity (p : t) : bool :=
  negb (Nat.eqb (length (freeIds p)) 0) || (nextId p <? maxInstances p).

(** A call on the pool, and the pool after a sequence of calls. *)
Inductive call := Acquire | Release (id : Z).

Definition step (p : t) (c : call) : t :=
  match c with
  | Acquire => snd (acquire p)
  | Release id => release id p
  end.

Definition run (p : t) (cs : list call) : t := fold_left step cs p.

(** A call of the public interface, [clear()] included, and the pool after
    a sequence of such calls. *)
Inductive request := DoAcquire | DoRelease (id : Z) | DoClear.

Definition serve (p : t) (r : request) : t :=
  match r with
  | DoAcquire => snd (acquire p)
  | DoRelease id => release id p
  | DoClear => clear p
  end.

Definition serveAll (p : t) (rs : list request) : t := fold_left serve rs p.

(** [n] successive calls of [acquire()]: what each returned, in order, and
    the pool after the last. *)
Fixpoint acquireMany (n : nat) (p : t) : list (option Z) * t :=
  match n with
  | O => ([], p)
  | S n' =>
      let (r, p1) := acquire p in
      let (rs, p2) := acquireMany n' p1 in
      (r :: rs, p2)
  end.

End InstancePool.

(* ===================================================================== *)
(** * The THREE.js values the core exchanges with its collaborators *)
(* ===================================================================== *)

Module THREE.

Record Vector2 := vec2 { x2 : JS.number; y2 : JS.number }.
Record Vector3 := vec3 { x : JS.number; y : JS.number; z : JS.number }.
Record Euler := euler { ex : JS.number; ey : JS.number; ez : JS.number }.
Record Box2 := box2 { min2 : Vector2; max2 : Vector2 }.
Record Box3 := box3 { min : Vector3; max : Vector3 }.

(** [Box3.containsPoint]: inclusive on every face (the form of three
    r182, the release the package requires; older releases differ from it
    on NaN coordinates only). *)
Definition containsPoint (b : Box3) (p : Vector3) : bool :=
  (x (min b) <=? x p)%float && (x p <=? x (max b))%float &&
  (y (min b) <=? y p)%float && (y p <=? y (max b))%float &&
  (z (min b) <=? z p)%float && (z p <=? z (max b))%float.

(** [Vector3.normalize()]: division by [length() || 1], a division being
    the multiplication by the inverse. *)
Definition normalize (v : Vector3) : Vector3 :=
  let len := PrimFloat.sqrt (x v * x v + y v * y v + z v * z v)%float in
  let d := if is_nan len || is_zero len then 1%float else len in
  vec3 (x v * (1 / d)) (y v * (1 / d)) (z v * (1 / d))%float.

(** A camera: its world position, and the view frustum that
    [Frustum.setFromProjectionMatrix] derives from its matrices, given by
    the boxes it intersects. *)
Record Camera := camera {
  position : Vector3;
  intersectsBox : Box3 -> bool
}.

(** [Box3.isEmpty], [Box3.getCenter] and [Box3.getSize]. *)
Definition isEmpty (b : Box3) : bool :=
  (x (max b) <? x (min b))%float || (y (max b) <? y (min b))%float
  || (z (max b) <? z (min b))%float.

Definition getCenter (b : Box3) : Vector3 :=
  if isEmpty b then vec3 0 0 0
  else vec3 ((x (min b) + x (max b)) * 0.5) ((y (min b) + y (max b)) * 0.5)
            ((z (min b) + z (max b)) * 0.5)%float.

Definition getSize (b : Box3) : Vector3 :=
  if isEmpty b then vec3 0 0 0
  else vec3 (x (max b) - x (min b)) (y (max b) - y (min b)) (z (max b) - z (min b))%float.

(** [Vector3.length] and [Vector3.distanceTo]. *)
Definition length (v : Vector3) : JS.number :=
  PrimFloat.sqrt (x v * x v + y v * y v + z v * z v)%float.

Definition distanceTo (a b : Vector3) : JS.number :=
  let dx := (x a - x b)%float in
  let dy := (y a - y b)%float in
  let dz := (z a - z b)%float in
  PrimFloat.sqrt (dx * dx + dy * dy + dz * dz)%float.

End THREE.

(* ===================================================================== *)
(** * converter/MeshToInstancedMeshConverter.ts, the transform sink *)
(* ===================================================================== *)

Module Converter.

Record Transform := transform {
  position : THREE.Vector3;
  rotation : THREE.Euler;
  scale : THREE.Vector3
}.

(** [transforms] holds the transforms written so far into
    [_instanceTransforms]; [shown] the instances whose mesh matrix is
    their transform rather than the zero matrix of [hideInstance]. *)
Record t := mk {
  instanceCount : Z;
  transforms : gmap Z Transform;
  shown : gset Z
}.

Definition new (instanceCount : Z) : t := mk instanceCount ∅ ∅.

Definition inRange (c : t) (i : Z) : bool := (0 <=? i) && (i <? instanceCount c).

(** An index outside the current count is logged and ignored. *)
Definition setInstanceTransform (i : Z) (p : THREE.Vector3) (r : THREE.Euler)
    (s : THREE.Vector3) (c : t) : t :=
  if inRange c i then
    mk (instanceCount c) (<[i := transform p r s]> (transforms c)) ({[i]} ∪ shown c)
  else c.

Definition hideInstance (i : Z) (c : t) : t :=
  if inRange c i then mk (instanceCount c) (transforms c) (shown c ∖ {[i]}) else c.

End Converter.

(* ===================================================================== *)
(** * core/types.ts, core/ChunkData.ts, core/BaseScatterSystem.ts *)
(* ===================================================================== *)

(** The decimal constants of the sources denote the nearest binary64
    numbers, as they do in JavaScript. *)
#[local] Set Warnings "-inexact-float".

(** What a call comes to: it returns, it throws a [TypeError] (a property
    read on [undefined]), or the loop fuel of the embedding ran out before
    the call returned ([OutOfFuel]; a loop of the source that never ends has
    this outcome for every fuel). *)
Inductive Outcome (A : Type) : Type :=
| Done (a : A)
| TypeError
| OutOfFuel.
Arguments Done {A} a.
Arguments TypeError {A}.
Arguments OutOfFuel {A}.

Definition bind {A B} (c : Outcome A) (k : A -> Outcome B) : Outcome B :=
  match c with
  | Done a => k a
  | TypeError => TypeError
  | OutOfFuel => OutOfFuel
  end.

Notation "'let*' x ':=' c 'in' k" := (bind c (fun x => k))
  (at level 10, x pattern, c at level 100, k at level 200).

(** A result that only fuel can withhold. *)
Definition ofFuel {A} (o : option A) : Outcome A :=
  match o with Some a => Done a | None => OutOfFuel end.

(** [Math.pow], [Math.cos], [Math.sin] and [Math.atan2] are left to the
    host's numeric library. *)
Record MathLib := mathLib {
  pow : JS.number -> JS.number -> JS.number;
  cos : JS.number -> JS.number;
  sin : JS.number -> JS.number;
  atan2 : JS.number -> JS.number -> JS.number
}.

Module Core.

Record NoiseDistributionConfig := noiseConfig {
  enabled : bool;
  scale : option JS.number;
  octaves : option JS.number;
  persistence : option JS.number;
  lacunarity : option JS.number;
  threshold : option JS.number;
  power : option JS.number;
  offset : option JS.number;
  scaleVariation : option JS.number
}.

Record RequiredNoise := requiredNoise {
  nEnabled : bool;
  nScale : JS.number;
  nOctaves : JS.number;
  nPersistence : JS.number;
  nLacunarity : JS.number;
  nThreshold : JS.number;
  nPower : JS.number;
  nOffset : JS.number;
  nScaleVariation : JS.number
}.

Record LODLevel := lodLevel {
  distance : JS.number;
  densityMultiplier : JS.number;
  scaleMultiplier : option JS.number
}.

Record LODConfig := lodConfig {
  levels : list LODLevel;
  blendDistance : option JS.number
}.

Inductive Channel := ChR | ChG | ChB | ChA.

Record DensityMapConfig := densityMapConfig {
  channel : option Channel;
  worldBounds : THREE.Box2;
  multiplier : option JS.number
}.

(** [BaseScatterConfig]: the optional fields are [None] when absent. *)
Record BaseScatterConfig := baseConfig {
  density : JS.number;
  maxInstances : option Z;
  visibilityRange : JS.number;
  chunkSize : option JS.number;
  scaleRange : option (JS.number * JS.number);
  rotationRange : option (JS.number * JS.number);
  heightOffset : option JS.number;
  alignToNormal : option bool;
  randomSeed : option JS.number;
  noiseDistribution : option NoiseDistributionConfig;
  lod : option LODConfig;
  densityMap : option DensityMapConfig
}.

(** [RequiredScatterConfig]: what the constructor stores in [this.config]. *)
Record Config := requiredConfig {
  cDensity : JS.number;
  cMaxInstances : Z;
  cVisibilityRange : JS.number;
  cChunkSize : JS.number;
  cScaleRange : JS.number * JS.number;
  cRotationRange : JS.number * JS.number;
  cHeightOffset : JS.number;
  cAlignToNormal : bool;
  cRandomSeed : JS.number;
  cNoise : RequiredNoise;
  cLod : option LODConfig;
  cDensityMap : option DensityMapConfig
}.

(** [a ?? b]. *)
Definition orElse {A} (a : option A) (b : A) : A :=
  match a with Some v => v | None => b end.

Definition defaultNoise (n : option NoiseDistributionConfig) : RequiredNoise :=
  match n with
  | None => requiredNoise false 0.1 3 0.5 2.0 0.3 1.0 0.0 0.2
  | Some c =>
      requiredNoise (enabled c) (orElse (scale c) 0.1) (orElse (octaves c) 3)
        (orElse (persistence c) 0.5) (orElse (lacunarity c) 2.0)
        (orElse (threshold c) 0.3) (orElse (power c) 1.0)
        (orElse (offset c) 0.0) (orElse (scaleVariation c) 0.2)
  end%float.

(** [Math.PI * 2]. *)
Definition twoPi : JS.number := (3.141592653589793 * 2)%float.

(** The defaults of the constructor; [now] is the value of [Date.now()]. *)
Definition withDefaults (now : JS.number) (c : BaseScatterConfig) : Config :=
  requiredConfig (density c) (orElse (maxInstances c) 10000) (visibilityRange c)
    (orElse (chunkSize c) 64%float)
    (orElse (scaleRange c) (0.8, 1.2)%float)
    (orElse (rotationRange c) (0%float, twoPi))
    (orElse (heightOffset c) 0%float)
    (orElse (alignToNormal c) true)
    (orElse (randomSeed c) now)
    (defaultNoise (noiseDistribution c))
    (lod c) (densityMap c).

Record ChunkData := chunkData {
  instances : list Z;
  isActive : bool;
  noiseGenerator : option PerlinNoise.t;
  bounds : THREE.Box3
}.

(** A chunk key [`${Math.floor(x)}_${Math.floor(z)}`], kept as the pair of
    numbers it spells. *)
Definition Key : Type := spec_float * spec_float.

(** The invocations of the [events] callbacks, oldest first. *)
Inductive Event :=
| ChunkActivated (key : Key) (instanceCount : nat)
| ChunkDeactivated (key : Key).

Record Image := image { width : JS.number; height : JS.number }.

(** A [Map<string, ChunkData>] in insertion order. *)
Fixpoint mapGet {V} (k : Key) (m : list (Key * V)) : option V :=
  match m with
  | [] => None
  | (k', v) :: m' => if decide (k = k') then Some v else mapGet k m'
  end.

Fixpoint mapSet {V} (k : Key) (v : V) (m : list (Key * V)) : list (Key * V) :=
  match m with
  | [] => [(k, v)]
  | (k', v') :: m' =>
      if decide (k = k') then (k, v) :: m' else (k', v') :: mapSet k v m'
  end.

(** The state of a scatter system.  [currentCamera] is the camera that the
    system's last [update] stored.  The source keeps it in one variable of
    the module, which [update] assigns before [updateChunks] reads it, so
    that within an [update] the two agree; a system that reads the camera
    outside its own [update] (through [regenerateAll]) after another
    system's [update] reads that other camera, which this record does not
    show: the statements about such calls take [updateChunks] as it runs
    then as a parameter. *)
Record System := mkSystem {
  config : Config;
  converter : Converter.t;
  instancePool : InstancePool.t;
  chunks : list (Key * ChunkData);
  isInitialized : bool;
  frustum : THREE.Box3 -> bool;
  frustumCullingEnabled : bool;
  densityMapTexture : option Image;
  densityMapData : option (list Z);
  currentCamera : option THREE.Camera;
  events : list Event
}.

Definition new (now : JS.number) (c : BaseScatterConfig) : System :=
  let cfg := withDefaults now c in
  mkSystem cfg (Converter.new (cMaxInstances cfg)) (InstancePool.new (cMaxInstances cfg))
    [] false (fun _ => true) true None None None [].

(** Field updates. *)
Definition setPool (p : InstancePool.t) (s : System) : System :=
  mkSystem (config s) (converter s) p (chunks s) (isInitialized s) (frustum s)
    (frustumCullingEnabled s) (densityMapTexture s) (densityMapData s)
    (currentCamera s) (events s).

Definition setConverter (c : Converter.t) (s : System) : System :=
  mkSystem (config s) c (instancePool s) (chunks s) (isInitialized s) (frustum s)
    (frustumCullingEnabled s) (densityMapTexture s) (densityMapData s)
    (currentCamera s) (events s).

Definition setChunks (m : list (Key * ChunkData)) (s : System) : System :=
  mkSystem (config s) (converter s) (instancePool s) m (isInitialized s) (frustum s)
    (frustumCullingEnabled s) (densityMapTexture s) (densityMapData s)
    (currentCamera s) (events s).

Definition emit (e : Event) (s : System) : System :=
  mkSystem (config s) (converter s) (instancePool s) (chunks s) (isInitialized s)
    (frustum s) (frustumCullingEnabled s) (densityMapTexture s) (densityMapData s)
    (currentCamera s) (events s ++ [e]).

Definition setCamera (c : THREE.Camera) (s : System) : System :=
  mkSystem (config s) (converter s) (instancePool s) (chunks s) (isInitialized s)
    (THREE.intersectsBox c) (frustumCullingEnabled s) (densityMapTexture s)
    (densityMapData s) (Some c) (events s).

(** [init()], once its awaited steps have completed. *)
Definition init (s : System) : System :=
  mkSystem (config s) (converter s) (instancePool s) (chunks s) true (frustum s)
    (frustumCullingEnabled s) (densityMapTexture s) (densityMapData s)
    (currentCamera s) (events s).

Definition setFrustumCulling (enabled : bool) (s : System) : System :=
  mkSystem (config s) (converter s) (instancePool s) (chunks s) (isInitialized s)
    (frustum s) enabled (densityMapTexture s) (densityMapData s)
    (currentCamera s) (events s).

Definition isChunkInFrustum (s : System) (b : THREE.Box3) : bool :=
  if negb (frustumCullingEnabled s) then true else frustum s b.

End Core.

Module BaseScatterSystem.
Import Core.

(** [loadDensityMap()], once the texture has been read into pixels:
    four bytes per pixel, rows of [width] pixels. *)
Definition loadDensityMap (img : Image) (data : list Z) (s : System) : System :=
  mkSystem (config s) (converter s) (instancePool s) (chunks s) (isInitialized s)
    (frustum s) (frustumCullingEnabled s) (Some img) (Some data)
    (currentCamera s) (events s).

Definition channelOffset (c : Channel) : JS.number :=
  match c with ChR => 0 | ChG => 1 | ChB => 2 | ChA => 3 end%float.

(** The texture coordinates [u] and [v] of a world position. *)
Definition densityUV (dm : DensityMapConfig) (worldX worldZ : JS.number)
    : JS.number * JS.number :=
  let b := worldBounds dm in
  (((worldX - THREE.x2 (THREE.min2 b)) / (THREE.x2 (THREE.max2 b) - THREE.x2 (THREE.min2 b)))%float,
   ((worldZ - THREE.y2 (THREE.min2 b)) / (THREE.y2 (THREE.max2 b) - THREE.y2 (THREE.min2 b)))%float).

(** A [Uint8Array] read: a byte, or [undefined], which arithmetic turns
    into NaN. *)
Definition readByte (data : list Z) (k : JS.number) : JS.number :=
  match JS.arrayIndex (length data) k with
  | Some i => match data !! i with Some b => JS.ofZ b | None => nan end
  | None => nan
  end.

Definition sampleDensityMap (s : System) (worldX worldZ : JS.number) : JS.number :=
  match densityMapData s, densityMapTexture s, cDensityMap (config s) with
  | Some data, Some img, Some dm =>
      let (u, v) := densityUV dm worldX worldZ in
      if (u <? 0)%float || (1 <? u)%float || (v <? 0)%float || (1 <? v)%float
      then 1.0%float
      else
        let px := JS.floor (u * (width img - 1))%float in
        let py := JS.floor ((1 - v) * (height img - 1))%float in
        let idx := ((py * width img + px) * 4)%float in
        let ch := orElse (channel dm) ChR in
        let value := (readByte data (idx + channelOffset ch) / 255)%float in
        (value * orElse (multiplier dm) 1.0)%float
  | _, _, _ => 1.0%float
  end.

(** [update(camera)] first records the camera and its frustum;
    the strategy's [updateChunks] follows. *)
Definition beginUpdate (cam : THREE.Camera) (s : System) : System := setCamera cam s.

(** The planar distance from the camera to a chunk center. *)
Definition planarDistance (cam : THREE.Camera) (cx cz : JS.number) : JS.number :=
  let dx := (cx - THREE.x (THREE.position cam))%float in
  let dz := (cz - THREE.z (THREE.position cam))%float in
  PrimFloat.sqrt (dx * dx + dz * dz)%float.

(** The loop [for (let i = levels.length - 1; i >= 0; i--)] of
    [getLODDensityMultiplier], about to test index [n - 1]. *)
Fixpoint lodDensityScan (lv : list LODLevel) (blend dist : JS.number) (n : nat)
    : JS.number :=
  match n with
  | O => 1.0%float
  | S i =>
      match lv !! i with
      | None => lodDensityScan lv blend dist i
      | Some li =>
          if (distance li <=? dist)%float then
            match (if (0 <? blend)%float then lv !! (i + 1)%nat else None) with
            | Some nextLevel =>
                let transitionStart := distance li in
                let transitionEnd := distance nextLevel in
                if (dist <? transitionStart + blend)%float
                   && (dist <? transitionEnd)%float then
                  let t := ((dist - transitionStart) / blend)%float in
                  let clampedT := JS.min 1 (JS.max 0 t) in
                  (densityMultiplier li * (1 - clampedT)
                   + densityMultiplier nextLevel * clampedT)%float
                else densityMultiplier li
            | None => densityMultiplier li
            end
          else lodDensityScan lv blend dist i
      end
  end.

Definition lodLevelsOf (s : System) : list LODLevel :=
  match cLod (config s) with Some l => levels l | None => [] end.

Definition getLODDensityMultiplier (s : System) (chunkCenterX chunkCenterZ : JS.number)
    : JS.number :=
  match currentCamera s, cLod (config s) with
  | Some cam, Some l =>
      match levels l with
      | [] => 1.0%float
      | lv =>
          lodDensityScan lv (orElse (blendDistance l) 0%float)
            (planarDistance cam chunkCenterX chunkCenterZ) (length lv)
      end
  | _, _ => 1.0%float
  end.

Fixpoint lodScaleScan (lv : list LODLevel) (dist : JS.number) (n : nat) : JS.number :=
  match n with
  | O => 1.0%float
  | S i =>
      match lv !! i with
      | None => lodScaleScan lv dist i
      | Some li =>
          if (distance li <=? dist)%float then orElse (scaleMultiplier li) 1.0%float
          else lodScaleScan lv dist i
      end
  end.

Definition getLODScaleMultiplier (s : System) (chunkCenterX chunkCenterZ : JS.number)
    : JS.number :=
  match currentCamera s, cLod (config s) with
  | Some cam, Some l =>
      match levels l with
      | [] => 1.0%float
      | lv => lodScaleScan lv (planarDistance cam chunkCenterX chunkCenterZ) (length lv)
      end
  | _, _ => 1.0%float
  end.

Definition getChunkKey (x z : JS.number) : Key :=
  (JS.propertyKey (JS.floor x), JS.propertyKey (JS.floor z)).

(** [((x * 73856093) ^ (z * 19349663) ^ randomSeed) >>> 0], the expression
    that [activateChunk] and every [populateChunk] evaluate. *)
Definition chunkSeed (x z randomSeed : JS.number) : Z :=
  JS.ushr0
    (Z.lxor (Z.lxor (JS.toInt32 (x * 73856093)%float) (JS.toInt32 (z * 19349663)%float))
            (JS.toInt32 randomSeed)).

(** The abstract method [populateChunk(chunk, centerX, centerZ)]: it
    updates the system (pool and converter) and the chunk under
    construction. *)
Definition Populate : Type :=
  System -> ChunkData -> JS.number -> JS.number -> Outcome (System * ChunkData).

Definition chunkBoundsOf (chunkSize x z : JS.number) : THREE.Box3 :=
  THREE.box3
    (THREE.vec3 (x - chunkSize / 2) (-1000) (z - chunkSize / 2))%float
    (THREE.vec3 (x + chunkSize / 2) 1000 (z + chunkSize / 2))%float.

Definition freshChunk (s : System) (x z : JS.number) : ChunkData :=
  chunkData [] true
    (Some (PerlinNoise.new (JS.ofZ (chunkSeed x z (cRandomSeed (config s))))))
    (chunkBoundsOf (cChunkSize (config s)) x z).

Definition activateChunk (populateChunk : Populate) (x z : JS.number) (s : System)
    : Outcome System :=
  let key := getChunkKey x z in
  let* (s1, chunk) := populateChunk s (freshChunk s x z) x z in
  Done (emit (ChunkActivated key (length (instances chunk)))
          (setChunks (mapSet key chunk (chunks s1)) s1)).

(** The body of [for (const instanceId of chunk.instances)]. *)
Definition releaseInstance (s : System) (instanceId : Z) : System :=
  setPool (InstancePool.release instanceId (instancePool s))
    (setConverter (Converter.hideInstance instanceId (converter s)) s).

Definition deactivateChunk (key : Key) (s : System) : System :=
  match mapGet key (chunks s) with
  | None => s
  | Some chunk =>
      let s1 := fold_left releaseInstance (instances chunk) s in
      let chunk' := chunkData [] false (noiseGenerator chunk) (bounds chunk) in
      emit (ChunkDeactivated key) (setChunks (mapSet key chunk' (chunks s1)) s1)
  end.

Definition getNoiseValue (m : MathLib) (fuel : nat) (s : System)
    (x z : JS.number) (noise : PerlinNoise.t) : option JS.number :=
  let cfg := cNoise (config s) in
  match PerlinNoise.fbm2D fuel noise x z (nOctaves cfg) (nPersistence cfg)
          (nLacunarity cfg) (nScale cfg) with
  | Some noiseValue => Some (pow m (noiseValue + nOffset cfg)%float (nPower cfg))
  | None => None
  end.

Definition shouldPlaceInstance (m : MathLib) (fuel : nat) (s : System)
    (x z : JS.number) (noise : PerlinNoise.t) : option bool :=
  if negb (nEnabled (cNoise (config s))) then Some true
  else
    match getNoiseValue m fuel s x z noise with
    | Some noiseValue => Some (nThreshold (cNoise (config s)) <=? noiseValue)%float
    | None => None
    end.

(** [getStats()]: the figures of the pool, the number of stored chunks and
    of active ones, and the converter's mesh count, which the source object
    fixes at construction. *)
Record ScatterStats := scatterStats {
  instancesActive : Z;
  instancesTotal : Z;
  instancesMax : Z;
  chunksTotal : nat;
  chunksActive : nat;
  meshes : nat
}.

Definition getStats (meshCount : nat) (s : System) : ScatterStats :=
  let '(active, total, max) := InstancePool.getStats (instancePool s) in
  scatterStats active total max
    (length (chunks s))
    (length (List.filter isActive (map snd (chunks s))))
    meshCount.

(** [this.config = ...] with a new configuration. *)
Definition setConfig (c : Config) (s : System) : System :=
  mkSystem c (converter s) (instancePool s) (chunks s) (isInitialized s) (frustum s)
    (frustumCullingEnabled s) (densityMapTexture s) (densityMapData s)
    (currentCamera s) (events s).

Definition withDensity (density : JS.number) (c : Config) : Config :=
  requiredConfig density (cMaxInstances c) (cVisibilityRange c) (cChunkSize c)
    (cScaleRange c) (cRotationRange c) (cHeightOffset c) (cAlignToNormal c)
    (cRandomSeed c) (cNoise c) (cLod c) (cDensityMap c).

Definition withVisibilityRange (range : JS.number) (c : Config) : Config :=
  requiredConfig (cDensity c) (cMaxInstances c) range (cChunkSize c)
    (cScaleRange c) (cRotationRange c) (cHeightOffset c) (cAlignToNormal c)
    (cRandomSeed c) (cNoise c) (cLod c) (cDensityMap c).

(** The loop [for (const key of this.chunks.keys()) this.deactivateChunk(key)]. *)
Definition deactivateAll (s : System) : System :=
  fold_left (fun s' key => deactivateChunk key s') (map fst (chunks s)) s.

(** [regenerateAll()]: every stored chunk is deactivated, the table is
    cleared, and the strategy's [updateChunks] runs. *)
Definition regenerateAll (updateChunks : System -> Outcome System) (s : System)
    : Outcome System :=
  updateChunks (setChunks [] (deactivateAll s)).

(** [setDensity(density)] and [setVisibilityRange(range)]. *)
Definition setDensity (updateChunks : System -> Outcome System) (density : JS.number)
    (s : System) : Outcome System :=
  regenerateAll updateChunks (setConfig (withDensity density (config s)) s).

Definition setVisibilityRange (range : JS.number) (s : System) : System :=
  setConfig (withVisibilityRange range (config s)) s.

End BaseScatterSystem.

(** The two steps that the [updateChunks] of every strategy repeats around
    its own scan of candidate chunk centers. *)
Module Streaming.
Import Core BaseScatterSystem.

(** A chunk center found visible: its key joins [activeChunkKeys], and the
    chunk is activated unless it is already active. *)
Definition visit (populateChunk : Populate) (chunkX chunkZ : JS.number)
    (st : list Key * System) : Outcome (list Key * System) :=
  let (keys, s) := st in
  let key := getChunkKey chunkX chunkZ in
  let keys' := if decide (key ∈ keys) then keys else keys ++ [key] in
  let inactive :=
    match mapGet key (chunks s) with
    | None => true
    | Some c => negb (isActive c)
    end in
  if inactive then
    let* s' := activateChunk populateChunk chunkX chunkZ s in
    Done (keys', s')
  else Done (keys', s).

(** The body of [for (const [key, chunk] of this.chunks.entries())]. *)
Definition deactivateIfStale (keys : list Key) (s : System) (key : Key) : System :=
  match mapGet key (chunks s) with
  | Some chunk =>
      if negb (bool_decide (key ∈ keys)) && isActive chunk
      then deactivateChunk key s else s
  | None => s
  end.

Definition deactivateStale (keys : list Key) (s : System) : System :=
  fold_left (deactivateIfStale keys) (map fst (chunks s)) s.

(** [updateChunks] with the strategy's scan summarised by the chunk
    centers it finds visible, in scan order: every center is visited,
    then the stale chunks are deactivated. *)
Fixpoint visitAll (populateChunk : Populate) (centers : list (JS.number * JS.number))
    (st : list Key * System) : Outcome (list Key * System) :=
  match centers with
  | [] => Done st
  | (chunkX, chunkZ) :: rest =>
      let* st' := visit populateChunk chunkX chunkZ st in
      visitAll populateChunk rest st'
  end.

Definition streamChunks (populateChunk : Populate)
    (centers : list (JS.number * JS.number)) (s : System) : Outcome System :=
  let* (keys, s') := visitAll populateChunk centers ([], s) in
  Done (deactivateStale keys s').

(** A sequence of frames, each given by the centers visible in it. *)
Fixpoint frames (populateChunk : Populate)
    (fs : list (list (JS.number * JS.number))) (s : System) : Outcome System :=
  match fs with
  | [] => Done s
  | centers :: fs' =>
      let* s' := streamChunks populateChunk centers s in
      frames populateChunk fs' s'
  end.

(** Three expressions that the [populateChunk] of the strategies share:
    [chunk.instances.push(id)], the chunk's horizontal slab, and
    [new SeededRandom(chunkSeed)]. *)
Definition pushInstance (id : Z) (c : ChunkData) : ChunkData :=
  chunkData (instances c ++ [id]) (isActive c) (noiseGenerator c) (bounds c).

Definition populateBounds (chunkSize centerX centerZ : JS.number) : THREE.Box3 :=
  let halfSize := (chunkSize / 2)%float in
  THREE.box3
    (THREE.vec3 (centerX - halfSize) neg_infinity (centerZ - halfSize))%float
    (THREE.vec3 (centerX + halfSize) infinity (centerZ + halfSize))%float.

Definition chunkRng (cfg : Config) (centerX centerZ : JS.number) : SeededRandom.t :=
  SeededRandom.new (JS.ofZ (chunkSeed centerX centerZ (cRandomSeed cfg))).

End Streaming.

(* ===================================================================== *)
(** * systems/GridScatterSystem.ts *)
(* ===================================================================== *)

Module GridScatterSystem.
Import Core BaseScatterSystem Streaming.

Record GridScatterConfig := gridConfig {
  base : BaseScatterConfig;
  cfgGridSize : THREE.Vector2;
  cfgCellSize : JS.number;
  cfgCenter : option THREE.Vector3;
  cfgRandomOffset : option JS.number;
  cfgSkipPattern : option (JS.number -> JS.number -> bool)
}.

(** The private fields of the class. *)
Record Grid := mkGrid {
  gridSize : THREE.Vector2;
  cellSize : JS.number;
  center : THREE.Vector3;
  randomOffset : JS.number;
  skipPattern : option (JS.number -> JS.number -> bool)
}.

Definition newGrid (c : GridScatterConfig) : Grid :=
  mkGrid (cfgGridSize c) (cfgCellSize c)
    (orElse (cfgCenter c) (THREE.vec3 0 0 0))
    (orElse (cfgRandomOffset c) 0.3%float)
    (cfgSkipPattern c).

(** The constructor, [init()] included. *)
Definition new (now : JS.number) (c : GridScatterConfig) : Grid * System :=
  (newGrid c, Core.init (Core.new now (base c))).

(** The state threaded through the loops of [populateChunk]. *)
Record Placing := placing {
  rng : SeededRandom.t;
  sys : System;
  chunk : ChunkData
}.

Inductive Flow := Continue | Break.

(** One pass through the body of the inner loop, at cell [(gx, gz)]. *)
Definition cell (g : Grid) (chunkBounds : THREE.Box3) (gx gz : JS.number)
    (st : Placing) : Flow * Placing :=
  let skipped :=
    match skipPattern g with Some f => f gx gz | None => false end in
  if skipped then (Continue, st)
  else
    let cfg := config (sys st) in
    let halfGridX := (THREE.x2 (gridSize g) * cellSize g / 2)%float in
    let halfGridZ := (THREE.y2 (gridSize g) * cellSize g / 2)%float in
    let gridStartX := (THREE.x (center g) - halfGridX)%float in
    let gridStartZ := (THREE.z (center g) - halfGridZ)%float in
    let cellCenterX := (gridStartX + (gx + 0.5) * cellSize g)%float in
    let cellCenterZ := (gridStartZ + (gz + 0.5) * cellSize g)%float in
    let (u1, r1) := SeededRandom.next (rng st) in
    let offsetX := ((u1 - 0.5) * cellSize g * randomOffset g)%float in
    let (u2, r2) := SeededRandom.next r1 in
    let offsetZ := ((u2 - 0.5) * cellSize g * randomOffset g)%float in
    let x := (cellCenterX + offsetX)%float in
    let z := (cellCenterZ + offsetZ)%float in
    let position := THREE.vec3 x 0 z in
    if negb (THREE.containsPoint chunkBounds position)
    then (Continue, placing r2 (sys st) (chunk st))
    else
      match InstancePool.acquire (instancePool (sys st)) with
      | (None, _) => (Break, placing r2 (sys st) (chunk st))
      | (Some instanceId, pool') =>
          let (ry, r3) :=
            SeededRandom.range (fst (cRotationRange cfg)) (snd (cRotationRange cfg)) r2 in
          let rotation := THREE.euler 0 ry 0 in
          let (baseScale, r4) :=
            SeededRandom.range (fst (cScaleRange cfg)) (snd (cScaleRange cfg)) r3 in
          let scale := THREE.vec3 baseScale baseScale baseScale in
          let position' := THREE.vec3 x (0 + cHeightOffset cfg)%float z in
          let conv' :=
            Converter.setInstanceTransform instanceId position' rotation scale
              (converter (sys st)) in
          (Continue,
           placing r4 (setConverter conv' (setPool pool' (sys st)))
                   (pushInstance instanceId (chunk st)))
      end.

(** [for (let gz = ...; gz < this.gridSize.y; gz++)], entered at [gz]. *)
Fixpoint column (fuel : nat) (g : Grid) (chunkBounds : THREE.Box3)
    (gx gz : JS.number) (st : Placing) : Outcome Placing :=
  if (gz <? THREE.y2 (gridSize g))%float then
    match fuel with
    | O => OutOfFuel
    | S fuel' =>
        match cell g chunkBounds gx gz st with
        | (Break, st') => Done st'
        | (Continue, st') => column fuel' g chunkBounds gx (gz + 1)%float st'
        end
    end
  else Done st.

(** [for (let gx = ...; gx < this.gridSize.x; gx++)], entered at [gx]. *)
Fixpoint columns (fuel : nat) (g : Grid) (chunkBounds : THREE.Box3)
    (gx : JS.number) (st : Placing) : Outcome Placing :=
  if (gx <? THREE.x2 (gridSize g))%float then
    match fuel with
    | O => OutOfFuel
    | S fuel' =>
        let* st' := column (S fuel') g chunkBounds gx 0 st in
        columns fuel' g chunkBounds (gx + 1)%float st'
    end
  else Done st.

Definition populateChunk (fuel : nat) (g : Grid) : Populate :=
  fun s chunk centerX centerZ =>
    let cfg := config s in
    let chunkBounds := populateBounds (cChunkSize cfg) centerX centerZ in
    let* st := columns fuel g chunkBounds 0
            (placing (chunkRng cfg centerX centerZ) s chunk) in
    Done (sys st, GridScatterSystem.chunk st).

(** The body of the inner loop of [updateChunks], at [(x, z)]. *)
Definition scanCell (g : Grid) (cam : THREE.Camera) (pfuel : nat)
    (visRange chunkSize x z : JS.number) (st : list Key * System)
    : Outcome (list Key * System) :=
  let chunkX := (x + chunkSize / 2)%float in
  let chunkZ := (z + chunkSize / 2)%float in
  if (planarDistance cam chunkX chunkZ <=? visRange)%float then
    let chunkBounds :=
      THREE.box3
        (THREE.vec3 (chunkX - chunkSize / 2) (-100) (chunkZ - chunkSize / 2))%float
        (THREE.vec3 (chunkX + chunkSize / 2) 100 (chunkZ + chunkSize / 2))%float in
    if negb (isChunkInFrustum (snd st) chunkBounds) then Done st
    else visit (populateChunk pfuel g) chunkX chunkZ st
  else Done st.

(** The inner loop of [updateChunks], entered at [z]. *)
Fixpoint scanZ (fuel : nat) (g : Grid) (cam : THREE.Camera) (pfuel : nat)
    (visRange chunkSize x z maxZ : JS.number) (st : list Key * System)
    : Outcome (list Key * System) :=
  if (z <=? maxZ)%float then
    match fuel with
    | O => OutOfFuel
    | S fuel' =>
        let* st' := scanCell g cam pfuel visRange chunkSize x z st in
        scanZ fuel' g cam pfuel visRange chunkSize x (z + chunkSize)%float maxZ st'
    end
  else Done st.

(** The outer loop of [updateChunks], entered at [x]. *)
Fixpoint scanX (fuel : nat) (g : Grid) (cam : THREE.Camera) (pfuel : nat)
    (visRange chunkSize x maxX minZ maxZ : JS.number) (st : list Key * System)
    : Outcome (list Key * System) :=
  if (x <=? maxX)%float then
    match fuel with
    | O => OutOfFuel
    | S fuel' =>
        let* st' := scanZ (S fuel') g cam pfuel visRange chunkSize x minZ maxZ st in
        scanX fuel' g cam pfuel visRange chunkSize (x + chunkSize)%float
          maxX minZ maxZ st'
    end
  else Done st.

Definition updateChunks (fuel : nat) (g : Grid) (s : System) : Outcome System :=
  match currentCamera s with
  | None => Done s
  | Some cam =>
      let visRange := cVisibilityRange (config s) in
      let chunkSize := cChunkSize (config s) in
      let halfGridX := (THREE.x2 (gridSize g) * cellSize g / 2)%float in
      let halfGridZ := (THREE.y2 (gridSize g) * cellSize g / 2)%float in
      let minX := (JS.floor ((THREE.x (center g) - halfGridX) / chunkSize) * chunkSize)%float in
      let maxX := (JS.ceil ((THREE.x (center g) + halfGridX) / chunkSize) * chunkSize)%float in
      let minZ := (JS.floor ((THREE.z (center g) - halfGridZ) / chunkSize) * chunkSize)%float in
      let maxZ := (JS.ceil ((THREE.z (center g) + halfGridZ) / chunkSize) * chunkSize)%float in
      let* (keys, s') := scanX fuel g cam fuel visRange chunkSize minX maxX minZ maxZ ([], s) in
      Done (deactivateStale keys s')
  end.

(** [update(camera)]. *)
Definition update (fuel : nat) (g : Grid) (cam : THREE.Camera) (s : System)
    : Outcome System :=
  if negb (isInitialized s) then Done s
  else updateChunks fuel g (beginUpdate cam s).

End GridScatterSystem.

(* ===================================================================== *)
(** * systems/RadialScatterSystem.ts *)
(* ===================================================================== *)

Module RadialScatterSystem.
Import Core BaseScatterSystem Streaming.

(** The private fields of the class. *)
Record Radial := mkRadial {
  center : THREE.Vector3;
  innerRadius : JS.number;
  outerRadius : JS.number;
  angleStart : JS.number;
  angleEnd : JS.number;
  heightRange : JS.number * JS.number;
  radialDensityFalloff : JS.number
}.

(** The variables of the placement loop. *)
Record Placing := placing {
  rng : SeededRandom.t;
  sys : System;
  chunk : ChunkData;
  placed : JS.number;
  attempts : JS.number
}.

(** How the placement loop was left. *)
Inductive Exit := LoopTestFailed | PoolExhausted.

Inductive Flow := Continue | Break.

(** One pass through the body of the [while] loop. *)
Definition attempt (m : MathLib) (fuel : nat) (r : Radial) (chunkBounds : THREE.Box3)
    (st : Placing) : Outcome (Flow * Placing) :=
  let cfg := config (sys st) in
  let attempts' := (attempts st + 1)%float in
  let (angle, r1) := SeededRandom.range (angleStart r) (angleEnd r) (rng st) in
  let (radius, r2) :=
    if (0 <? radialDensityFalloff r)%float then
      let (u, r2) := SeededRandom.next r1 in
      let t := pow m u (1 / (1 + radialDensityFalloff r))%float in
      ((innerRadius r + t * (outerRadius r - innerRadius r))%float, r2)
    else SeededRandom.range (innerRadius r) (outerRadius r) r1 in
  let x := (THREE.x (center r) + radius * cos m angle)%float in
  let z := (THREE.z (center r) + radius * sin m angle)%float in
  let (y, r3) := SeededRandom.range (fst (heightRange r)) (snd (heightRange r)) r2 in
  let position := THREE.vec3 x y z in
  if negb (THREE.containsPoint chunkBounds position)
  then Done (Continue, placing r3 (sys st) (chunk st) (placed st) attempts')
  else
    let* accept :=
      match noiseGenerator (chunk st) with
      | Some noise => ofFuel (shouldPlaceInstance m fuel (sys st) x z noise)
      | None =>
          if negb (nEnabled (cNoise cfg)) then Done true else TypeError
      end in
    if negb accept
    then Done (Continue, placing r3 (sys st) (chunk st) (placed st) attempts')
    else
      match InstancePool.acquire (instancePool (sys st)) with
      | (None, _) => Done (Break, placing r3 (sys st) (chunk st) (placed st) attempts')
      | (Some instanceId, pool') =>
          let directionFromCenter :=
            THREE.normalize (THREE.vec3 (x - THREE.x (center r)) 0 (z - THREE.z (center r)))%float in
          let (ry, r4) :=
            SeededRandom.range (fst (cRotationRange cfg)) (snd (cRotationRange cfg)) r3 in
          let rotation :=
            THREE.euler 0
              (atan2 m (THREE.x directionFromCenter) (THREE.z directionFromCenter) + ry)%float
              0 in
          let (baseScale, r5) :=
            SeededRandom.range (fst (cScaleRange cfg)) (snd (cScaleRange cfg)) r4 in
          let scale := THREE.vec3 baseScale baseScale baseScale in
          let position' := THREE.vec3 x (y + cHeightOffset cfg)%float z in
          let conv' :=
            Converter.setInstanceTransform instanceId position' rotation scale
              (converter (sys st)) in
          Done (Continue,
                placing r5 (setConverter conv' (setPool pool' (sys st)))
                  (pushInstance instanceId (chunk st))
                  (placed st + 1)%float attempts')
      end.

(** [while (placed < targetCount && attempts < maxAttempts)]. *)
Fixpoint placeLoop (fuel : nat) (m : MathLib) (r : Radial) (chunkBounds : THREE.Box3)
    (targetCount maxAttempts : JS.number) (st : Placing) : Outcome (Exit * Placing) :=
  if (placed st <? targetCount)%float && (attempts st <? maxAttempts)%float then
    match fuel with
    | O => OutOfFuel
    | S fuel' =>
        let* (flow, st') := attempt m (S fuel') r chunkBounds st in
        match flow with
        | Break => Done (PoolExhausted, st')
        | Continue => placeLoop fuel' m r chunkBounds targetCount maxAttempts st'
        end
    end
  else Done (LoopTestFailed, st).

Definition populateBounds (r : Radial) (chunkSize centerX centerZ : JS.number)
    : THREE.Box3 :=
  let halfSize := (chunkSize / 2)%float in
  THREE.box3
    (THREE.vec3 (centerX - halfSize) (fst (heightRange r)) (centerZ - halfSize))%float
    (THREE.vec3 (centerX + halfSize) (snd (heightRange r)) (centerZ + halfSize))%float.

(** [populateChunk], with the way its loop was left. *)
Definition populate (fuel : nat) (m : MathLib) (r : Radial)
    (s : System) (c : ChunkData) (centerX centerZ : JS.number)
    : Outcome (Exit * Placing) :=
  let cfg := config s in
  let chunkBounds := populateBounds r (cChunkSize cfg) centerX centerZ in
  let chunkArea := (cChunkSize cfg * cChunkSize cfg)%float in
  let targetCount := JS.floor (chunkArea * cDensity cfg)%float in
  let rng0 := chunkRng cfg centerX centerZ in
  let maxAttempts := (targetCount * 5)%float in
  placeLoop fuel m r chunkBounds targetCount maxAttempts (placing rng0 s c 0 0).

Definition populateChunk (fuel : nat) (m : MathLib) (r : Radial) : Populate :=
  fun s c centerX centerZ =>
    let* (_, st) := populate fuel m r s c centerX centerZ in
    Done (sys st, chunk st).

(** The fields of [RadialScatterConfig] that the strategy adds. *)
Record RadialScatterConfig := radialConfig {
  base : BaseScatterConfig;
  cfgCenter : THREE.Vector3;
  cfgInnerRadius : JS.number;
  cfgOuterRadius : JS.number;
  cfgAngleStart : option JS.number;
  cfgAngleEnd : option JS.number;
  cfgHeightRange : option (JS.number * JS.number);
  cfgRadialDensityFalloff : option JS.number
}.

Definition newRadial (c : RadialScatterConfig) : Radial :=
  mkRadial (cfgCenter c) (cfgInnerRadius c) (cfgOuterRadius c)
    (orElse (cfgAngleStart c) 0%float)
    (orElse (cfgAngleEnd c) twoPi)
    (orElse (cfgHeightRange c) (0, 0)%float)
    (orElse (cfgRadialDensityFalloff c) 0%float).

(** The constructor, [init()] included. *)
Definition new (now : JS.number) (c : RadialScatterConfig) : Radial * System :=
  (newRadial c, Core.init (Core.new now (base c))).

(** The body of the inner loop of [updateChunks], at [(x, z)]. *)
Definition scanCell (m : MathLib) (r : Radial) (cam : THREE.Camera) (pfuel : nat)
    (visRange chunkSize x z : JS.number) (st : list Key * System)
    : Outcome (list Key * System) :=
  let chunkX := (x + chunkSize / 2)%float in
  let chunkZ := (z + chunkSize / 2)%float in
  if (planarDistance cam chunkX chunkZ <=? visRange)%float
  then visit (populateChunk pfuel m r) chunkX chunkZ st
  else Done st.

(** The inner loop of [updateChunks], entered at [z]. *)
Fixpoint scanZ (fuel : nat) (m : MathLib) (r : Radial) (cam : THREE.Camera) (pfuel : nat)
    (visRange chunkSize x z maxZ : JS.number) (st : list Key * System)
    : Outcome (list Key * System) :=
  if (z <=? maxZ)%float then
    match fuel with
    | O => OutOfFuel
    | S fuel' =>
        let* st' := scanCell m r cam pfuel visRange chunkSize x z st in
        scanZ fuel' m r cam pfuel visRange chunkSize x (z + chunkSize)%float maxZ st'
    end
  else Done st.

(** The outer loop of [updateChunks], entered at [x]. *)
Fixpoint scanX (fuel : nat) (m : MathLib) (r : Radial) (cam : THREE.Camera) (pfuel : nat)
    (visRange chunkSize x maxX minZ maxZ : JS.number) (st : list Key * System)
    : Outcome (list Key * System) :=
  if (x <=? maxX)%float then
    match fuel with
    | O => OutOfFuel
    | S fuel' =>
        let* st' := scanZ (S fuel') m r cam pfuel visRange chunkSize x minZ maxZ st in
        scanX fuel' m r cam pfuel visRange chunkSize (x + chunkSize)%float
          maxX minZ maxZ st'
    end
  else Done st.

Definition updateChunks (fuel : nat) (m : MathLib) (r : Radial) (s : System)
    : Outcome System :=
  match currentCamera s with
  | None => Done s
  | Some cam =>
      let visRange := cVisibilityRange (config s) in
      let chunkSize := cChunkSize (config s) in
      let minX := (JS.floor ((THREE.x (center r) - outerRadius r) / chunkSize) * chunkSize)%float in
      let maxX := (JS.ceil ((THREE.x (center r) + outerRadius r) / chunkSize) * chunkSize)%float in
      let minZ := (JS.floor ((THREE.z (center r) - outerRadius r) / chunkSize) * chunkSize)%float in
      let maxZ := (JS.ceil ((THREE.z (center r) + outerRadius r) / chunkSize) * chunkSize)%float in
      let* (keys, s') := scanX fuel m r cam fuel visRange chunkSize minX maxX minZ maxZ ([], s) in
      Done (deactivateStale keys s')
  end.

(** [update(camera)]. *)
Definition update (fuel : nat) (m : MathLib) (r : Radial) (cam : THREE.Camera)
    (s : System) : Outcome System :=
  if negb (isInitialized s) then Done s
  else updateChunks fuel m r (beginUpdate cam s).

End RadialScatterSystem.

(* ===================================================================== *)
(** * systems/CurveScatterSystem.ts *)
(* ===================================================================== *)

Module CurveScatterSystem.
Import Core BaseScatterSystem Streaming.

Record Quaternion := quat { qx : JS.number; qy : JS.number; qz : JS.number; qw : JS.number }.

(** A handle: the fields of [THREE.Object3D] that the system reads. *)
Record Object3D := object3D { quaternion : Quaternion; scale : THREE.Vector3 }.

(** A [THREE.Curve<Vector3>]: the two methods the system calls. *)
Record Curve := mkCurve {
  getLength : JS.number;
  getPoints : JS.number -> list THREE.Vector3
}.

(** The rotations computed by three.js: the Euler angles of the frame
    that looks from the origin along a tangent with [up = (0, 1, 0)], and
    those of the spherical interpolation of two quaternions. *)
Record RotationLib := rotationLib {
  eulerLookingAlong : THREE.Vector3 -> THREE.Euler;
  eulerSlerp : Quaternion -> Quaternion -> JS.number -> THREE.Euler
}.

(** The private fields of the class. *)
Record CurveSystem := mkCurveSystem {
  curve : Curve;
  handles : option (list Object3D);
  curvePoints : list THREE.Vector3;
  curveTangents : list THREE.Vector3;
  segmentCount : JS.number;
  spacing : option JS.number;
  offsetRange : option (JS.number * JS.number);
  width : option JS.number
}.

(** Truthiness of an optional number: defined, not zero, not NaN. *)
Definition truthy (o : option JS.number) : bool :=
  match o with
  | Some v => negb (is_zero v || is_nan v)
  | None => false
  end.

Definition subVectors (a b : THREE.Vector3) : THREE.Vector3 :=
  THREE.vec3 (THREE.x a - THREE.x b) (THREE.y a - THREE.y b) (THREE.z a - THREE.z b)%float.

Definition addScaled (p v : THREE.Vector3) (k : JS.number) : THREE.Vector3 :=
  THREE.vec3 (THREE.x p + THREE.x v * k) (THREE.y p + THREE.y v * k)
             (THREE.z p + THREE.z v * k)%float.

(** The callback of [this.curvePoints.map] at [index]: reading a
    coordinate of the [undefined] that [curvePoints[-1]] is throws. *)
Definition tangentAt (pts : list THREE.Vector3) (index : nat) (pos : THREE.Vector3)
    : Outcome THREE.Vector3 :=
  if Nat.eqb index (length pts - 1) then
    match index with
    | O => TypeError
    | S k =>
        match pts !! k with
        | Some prevPos => Done (THREE.normalize (subVectors pos prevPos))
        | None => TypeError
        end
    end
  else
    match pts !! S index with
    | Some nextPos => Done (THREE.normalize (subVectors nextPos pos))
    | None => TypeError
    end.

Fixpoint tangentsFrom (pts : list THREE.Vector3) (index : nat)
    (rest : list THREE.Vector3) : Outcome (list THREE.Vector3) :=
  match rest with
  | [] => Done []
  | pos :: rest' =>
      let* tg := tangentAt pts index pos in
      let* tgs := tangentsFrom pts (S index) rest' in
      Done (tg :: tgs)
  end.

(** [generateCurvePoints()]. *)
Definition generateCurvePoints (c : CurveSystem) : Outcome CurveSystem :=
  let pointCount :=
    if truthy (spacing c)
    then JS.floor (getLength (curve c) / orElse (spacing c) nan)%float
    else segmentCount c in
  let pts := getPoints (curve c) pointCount in
  let* tgs := tangentsFrom pts 0 pts in
  Done (mkCurveSystem (curve c) (handles c) pts tgs (segmentCount c) (spacing c)
          (offsetRange c) (width c)).

(** [const t = i / (this.curvePoints.length - 1)]. *)
Definition curveParam (i len : nat) : JS.number :=
  (JS.ofZ (Z.of_nat i) / (JS.ofZ (Z.of_nat len) - 1))%float.

(** [this.handles[k]], for a use that reads a field of it. *)
Definition handleAt (hs : list Object3D) (k : JS.number) : Outcome Object3D :=
  match JS.arrayIndex (length hs) k with
  | Some i => match hs !! i with Some h => Done h | None => TypeError end
  | None => TypeError
  end.

(** A tangent that is about to have a coordinate read. *)
Definition defined {A} (o : option A) : Outcome A :=
  match o with Some a => Done a | None => TypeError end.

Definition perpendicularOf (tangent : THREE.Vector3) : THREE.Vector3 :=
  THREE.normalize (THREE.vec3 (- THREE.z tangent) 0 (THREE.x tangent))%float.

Record Placing := placing {
  rng : SeededRandom.t;
  sys : System;
  chunk : ChunkData
}.

Inductive Flow := Continue | Break.

(** The handles that interpolate at curve parameter [t], when there are
    at least two handles. *)
Definition handlesFor (c : CurveSystem) : option (list Object3D) :=
  match handles c with
  | Some hs => if (1 <? length hs)%nat then Some hs else None
  | None => None
  end.

(** One pass through the body of the loop over [w]. *)
Definition place (l : RotationLib) (c : CurveSystem) (point : THREE.Vector3)
    (tangent : option THREE.Vector3) (t distributionsPerPoint w : JS.number)
    (st : Placing) : Outcome (Flow * Placing) :=
  let cfg := config (sys st) in
  match InstancePool.acquire (instancePool (sys st)) with
  | (None, _) => Done (Break, st)
  | (Some instanceId, pool') =>
      let* p1 :=
        if truthy (width c) && (1 <? distributionsPerPoint)%float then
          let widthT := (w / (distributionsPerPoint - 1))%float in
          let widthOffset := ((widthT - 0.5) * orElse (width c) nan)%float in
          let* tg := defined tangent in
          Done (addScaled point (perpendicularOf tg) widthOffset)
        else Done point in
      let* (p2, r1) :=
        match offsetRange c with
        | Some (lo, hi) =>
            let* tg := defined tangent in
            let (off, r1) := SeededRandom.range lo hi (rng st) in
            Done (addScaled p1 (perpendicularOf tg) off, r1)
        | None => Done (p1, rng st)
        end in
      let* rotation :=
        if cAlignToNormal cfg then
          let* tg := defined tangent in Done (eulerLookingAlong l tg)
        else
          match handlesFor c with
          | Some hs =>
              let last := (JS.ofZ (Z.of_nat (length hs)) - 1)%float in
              let handleIndex := JS.floor (t * last)%float in
              let nextHandleIndex := JS.min (handleIndex + 1)%float last in
              let handleT := JS.rem (t * last)%float 1 in
              let* h := handleAt hs handleIndex in
              let* h' := handleAt hs nextHandleIndex in
              Done (eulerSlerp l (quaternion h) (quaternion h') handleT)
          | None => Done (THREE.euler 0 0 0)
          end in
      let (ry, r2) :=
        SeededRandom.range (fst (cRotationRange cfg)) (snd (cRotationRange cfg)) r1 in
      let rotation' :=
        THREE.euler (THREE.ex rotation) (THREE.ey rotation + ry)%float (THREE.ez rotation) in
      let (baseScale0, r3) :=
        SeededRandom.range (fst (cScaleRange cfg)) (snd (cScaleRange cfg)) r2 in
      let* baseScale :=
        match handlesFor c with
        | Some hs =>
            let last := (JS.ofZ (Z.of_nat (length hs)) - 1)%float in
            let handleIndex := JS.floor (t * last)%float in
            let nextHandleIndex := JS.min (handleIndex + 1)%float last in
            let handleT := JS.rem (t * last)%float 1 in
            let* h := handleAt hs handleIndex in
            let* h' := handleAt hs nextHandleIndex in
            let sx := (THREE.x (scale h)
                       + (THREE.x (scale h') - THREE.x (scale h)) * handleT)%float in
            Done (baseScale0 * sx)%float
        | None => Done baseScale0
        end in
      let position :=
        THREE.vec3 (THREE.x p2) (THREE.y p2 + cHeightOffset cfg)%float (THREE.z p2) in
      let conv' :=
        Converter.setInstanceTransform instanceId position rotation'
          (THREE.vec3 baseScale baseScale baseScale) (converter (sys st)) in
      Done (Continue,
            placing r3 (setConverter conv' (setPool pool' (sys st)))
              (pushInstance instanceId (chunk st)))
  end.

(** [for (let w = 0; w < distributionsPerPoint; w++)], entered at [w]. *)
Fixpoint across (fuel : nat) (l : RotationLib) (c : CurveSystem)
    (point : THREE.Vector3) (tangent : option THREE.Vector3)
    (t distributionsPerPoint w : JS.number) (st : Placing) : Outcome Placing :=
  if (w <? distributionsPerPoint)%float then
    match fuel with
    | O => OutOfFuel
    | S fuel' =>
        let* (flow, st') := place l c point tangent t distributionsPerPoint w st in
        match flow with
        | Break => Done st'
        | Continue =>
            across fuel' l c point tangent t distributionsPerPoint (w + 1)%float st'
        end
    end
  else Done st.

(** [for (let i = 0; i < this.curvePoints.length; i++)], entered at [i]
    with the points from [i] on still to come. *)
Fixpoint along (fuel : nat) (l : RotationLib) (c : CurveSystem)
    (chunkBounds : THREE.Box3) (i : nat) (rest : list THREE.Vector3)
    (st : Placing) : Outcome Placing :=
  match rest with
  | [] => Done st
  | point :: rest' =>
      if negb (THREE.containsPoint chunkBounds point)
      then along fuel l c chunkBounds (S i) rest' st
      else
        let tangent := curveTangents c !! i in
        let t := curveParam i (length (curvePoints c)) in
        let distributionsPerPoint :=
          if truthy (width c)
          then JS.max 1 (JS.ceil (orElse (width c) nan * cDensity (config (sys st)))%float)
          else 1%float in
        let* st' := across fuel l c point tangent t distributionsPerPoint 0 st in
        along fuel l c chunkBounds (S i) rest' st'
  end.

Definition populateChunk (fuel : nat) (l : RotationLib) (c : CurveSystem) : Populate :=
  fun s ch centerX centerZ =>
    let cfg := config s in
    let chunkBounds :=
      populateBounds (cChunkSize cfg) centerX centerZ in
    let rng0 := chunkRng cfg centerX centerZ in
    let* st := along fuel l c chunkBounds 0 (curvePoints c) (placing rng0 s ch) in
    Done (sys st, chunk st).

(** [Vector3.distanceTo]. *)
Definition distanceTo (a b : THREE.Vector3) : JS.number :=
  let dx := (THREE.x a - THREE.x b)%float in
  let dy := (THREE.y a - THREE.y b)%float in
  let dz := (THREE.z a - THREE.z b)%float in
  PrimFloat.sqrt (dx * dx + dy * dy + dz * dz)%float.

(** The center of the chunk that holds a curve point. *)
Definition chunkCenterOf (chunkSize : JS.number) (point : THREE.Vector3)
    : JS.number * JS.number :=
  ((JS.floor (THREE.x point / chunkSize) * chunkSize + chunkSize / 2)%float,
   (JS.floor (THREE.z point / chunkSize) * chunkSize + chunkSize / 2)%float).

(** The loop of [updateChunks] over the curve points still to come: a point
    in range whose chunk key is not yet among the active keys has its chunk
    visited. *)
Fixpoint scan (pfuel : nat) (l : RotationLib) (c : CurveSystem) (cam : THREE.Camera)
    (visRange chunkSize : JS.number) (rest : list THREE.Vector3)
    (st : list Key * System) : Outcome (list Key * System) :=
  match rest with
  | [] => Done st
  | point :: rest' =>
      if (distanceTo point (THREE.position cam) <=? visRange)%float then
        let (chunkX, chunkZ) := chunkCenterOf chunkSize point in
        if decide (getChunkKey chunkX chunkZ ∈ fst st)
        then scan pfuel l c cam visRange chunkSize rest' st
        else
          let* st' := visit (populateChunk pfuel l c) chunkX chunkZ st in
          scan pfuel l c cam visRange chunkSize rest' st'
      else scan pfuel l c cam visRange chunkSize rest' st
  end.

Definition updateChunks (fuel : nat) (l : RotationLib) (c : CurveSystem) (s : System)
    : Outcome System :=
  match currentCamera s with
  | None => Done s
  | Some cam =>
      let* (keys, s') :=
        scan fuel l c cam (cVisibilityRange (config s)) (cChunkSize (config s))
          (curvePoints c) ([], s) in
      Done (deactivateStale keys s')
  end.

(** [update(camera)]. *)
Definition update (fuel : nat) (l : RotationLib) (c : CurveSystem) (cam : THREE.Camera)
    (s : System) : Outcome System :=
  if negb (isInitialized s) then Done s
  else updateChunks fuel l c (beginUpdate cam s).

End CurveScatterSystem.

(* ===================================================================== *)
(** * features/ScatterBrush.ts *)
(* ===================================================================== *)

Module ScatterBrush.
Import Core BaseScatterSystem.

Inductive Falloff := Constant | Linear | Smooth.

Record BrushConfig := brushConfig {
  cfgRadius : JS.number;
  cfgStrength : option JS.number;
  cfgDensity : option JS.number;
  cfgFalloff : option Falloff
}.

Record PaintedInstance := paintedInstance {
  id : JS.number;
  position : THREE.Vector3;
  rotation : THREE.Euler;
  scale : THREE.Vector3
}.

(** The brush. [paintedInstances] is the [Map<number, PaintedInstance>]
    from instance handle to painted instance, in insertion order. The
    scatter system that the brush paints on is shared with its other
    users, so [paint], [erase] and [clearAll] take it and return it. *)
Record t := mk {
  paintedInstances : list (Z * PaintedInstance);
  radius : JS.number;
  strength : JS.number;
  density : JS.number;
  falloff : Falloff;
  rng : SeededRandom.t;
  nextPaintedId : JS.number
}.

(** The constructor; [now] is the value of [Date.now()]. *)
Definition new (now : JS.number) (c : BrushConfig) : t :=
  mk [] (cfgRadius c) (orElse (cfgStrength c) 1.0%float) (orElse (cfgDensity c) 5%float)
    (orElse (cfgFalloff c) Smooth) (SeededRandom.new now) 0.

Definition setRadius (r : JS.number) (b : t) : t :=
  mk (paintedInstances b) (JS.max 0.1 r) (strength b) (density b) (falloff b) (rng b)
    (nextPaintedId b).

Definition setStrength (s : JS.number) (b : t) : t :=
  mk (paintedInstances b) (radius b) (JS.max 0 (JS.min 1 s)) (density b) (falloff b)
    (rng b) (nextPaintedId b).

Definition setDensity (d : JS.number) (b : t) : t :=
  mk (paintedInstances b) (radius b) (strength b) (JS.max 1 (JS.floor d)) (falloff b)
    (rng b) (nextPaintedId b).

Definition setRng (r : SeededRandom.t) (b : t) : t :=
  mk (paintedInstances b) (radius b) (strength b) (density b) (falloff b) r
    (nextPaintedId b).

Definition setPainted (m : list (Z * PaintedInstance)) (b : t) : t :=
  mk m (radius b) (strength b) (density b) (falloff b) (rng b) (nextPaintedId b).

(** [getFalloff(distance)]. *)
Definition getFalloff (b : t) (distance : JS.number) : JS.number :=
  let t := (distance / radius b)%float in
  if (1 <=? t)%float then 0%float
  else
    match falloff b with
    | Constant => 1%float
    | Linear => (1 - t)%float
    | Smooth => (1 - (3 * t * t - 2 * t * t * t))%float
    end.

(** [Map.prototype.set] and [Map.prototype.delete] on the painted
    instances. *)
Fixpoint paintedSet (k : Z) (v : PaintedInstance) (m : list (Z * PaintedInstance))
    : list (Z * PaintedInstance) :=
  match m with
  | [] => [(k, v)]
  | (k', v') :: m' =>
      if decide (k = k') then (k, v) :: m' else (k', v') :: paintedSet k v m'
  end.

Definition paintedDelete (k : Z) (m : list (Z * PaintedInstance))
    : list (Z * PaintedInstance) :=
  List.filter (fun kv => negb (bool_decide (fst kv = k))) m.

(** The state of a [paint] call inside its loop. *)
Record Stroke := stroke {
  brush : t;
  sys : System;
  newInstances : list PaintedInstance
}.

Inductive Flow := Continue | Break.

(** One iteration of the loop of [paint]. [heightProvider] is the optional
    callback, taken to be a function of its arguments. *)
Definition paintOne (m : MathLib) (center : THREE.Vector3)
    (heightProvider : option (JS.number -> JS.number -> JS.number))
    (st : Stroke) : Flow * Stroke :=
  let b := brush st in
  let cfg := config (sys st) in
  let (angle, r1) := SeededRandom.range 0 twoPi (rng b) in
  let (u, r2) := SeededRandom.next r1 in
  let r := (radius b * PrimFloat.sqrt u)%float in
  let x := (THREE.x center + r * cos m angle)%float in
  let z := (THREE.z center + r * sin m angle)%float in
  let distance :=
    PrimFloat.sqrt (pow m (x - THREE.x center) 2 + pow m (z - THREE.z center) 2)%float in
  let (p, r3) := SeededRandom.next r2 in
  if (getFalloff b distance <? p)%float
  then (Continue, stroke (setRng r3 b) (sys st) (newInstances st))
  else
    let y := match heightProvider with
             | Some h => h x z
             | None => THREE.y center
             end in
    match InstancePool.acquire (instancePool (sys st)) with
    | (None, _) => (Break, stroke (setRng r3 b) (sys st) (newInstances st))
    | (Some instanceId, pool') =>
        let position := THREE.vec3 x (y + cHeightOffset cfg)%float z in
        let (ry, r4) := SeededRandom.range 0 twoPi r3 in
        let rotation := THREE.euler 0 ry 0 in
        let (baseScale, r5) :=
          SeededRandom.range (fst (cScaleRange cfg)) (snd (cScaleRange cfg)) r4 in
        let scale := THREE.vec3 baseScale baseScale baseScale in
        let conv' :=
          Converter.setInstanceTransform instanceId position rotation scale
            (converter (sys st)) in
        let painted := paintedInstance (nextPaintedId b) position rotation scale in
        (Continue,
         stroke
           (mk (paintedSet instanceId painted (paintedInstances b)) (radius b)
               (strength b) (density b) (falloff b) r5 (nextPaintedId b + 1)%float)
           (setConverter conv' (setPool pool' (sys st)))
           (newInstances st ++ [painted]))
    end.

(** [for (let i = 0; i < count; i++)], entered at counter [i]. *)
Fixpoint paintLoop (fuel : nat) (m : MathLib) (center : THREE.Vector3)
    (heightProvider : option (JS.number -> JS.number -> JS.number))
    (count i : JS.number) (st : Stroke) : Outcome Stroke :=
  if (i <? count)%float then
    match fuel with
    | O => OutOfFuel
    | S fuel' =>
        match paintOne m center heightProvider st with
        | (Break, st') => Done st'
        | (Continue, st') =>
            paintLoop fuel' m center heightProvider count (i + 1)%float st'
        end
    end
  else Done st.

(** [paint(center, heightProvider)]: the instances painted by this call,
    the brush and the system after it. *)
Definition paint (fuel : nat) (m : MathLib) (center : THREE.Vector3)
    (heightProvider : option (JS.number -> JS.number -> JS.number))
    (b : t) (s : System) : Outcome (list PaintedInstance * t * System) :=
  let count := JS.floor (density b * strength b)%float in
  let* st := paintLoop fuel m center heightProvider count 0 (stroke b s []) in
  Done (newInstances st, brush st, sys st).

(** The first loop of [erase]: the handles to remove, and the generator
    after the draws. *)
Definition eraseTest (center : THREE.Vector3) (b : t)
    (acc : list Z * SeededRandom.t) (entry : Z * PaintedInstance)
    : list Z * SeededRandom.t :=
  let (toRemove, r) := acc in
  let (instanceId, painted) := entry in
  let dx := (THREE.x (position painted) - THREE.x center)%float in
  let dz := (THREE.z (position painted) - THREE.z center)%float in
  let distance := PrimFloat.sqrt (dx * dx + dz * dz)%float in
  if (distance <=? radius b)%float then
    let (u, r') := SeededRandom.next r in
    if (u <=? getFalloff b distance * strength b)%float
    then (toRemove ++ [instanceId], r')
    else (toRemove, r')
  else (toRemove, r).

Definition eraseScan (center : THREE.Vector3) (b : t) : list Z * SeededRandom.t :=
  fold_left (eraseTest center b) (paintedInstances b) ([], rng b).

(** The body of the second loop of [erase]. *)
Definition eraseOne (st : t * System) (instanceId : Z) : t * System :=
  let (b, s) := st in
  (setPainted (paintedDelete instanceId (paintedInstances b)) b,
   releaseInstance s instanceId).

(** [erase(center)]: the count it returns, the brush and the system. *)
Definition erase (center : THREE.Vector3) (b : t) (s : System) : nat * t * System :=
  let (toRemove, r) := eraseScan center b in
  let (b', s') := fold_left eraseOne toRemove (setRng r b, s) in
  (length toRemove, b', s').

(** [clearAll()]. *)
Definition clearAll (b : t) (s : System) : t * System :=
  (setPainted [] b, fold_left releaseInstance (map fst (paintedInstances b)) s).

Definition getPaintedCount (b : t) : nat := length (paintedInstances b).

Definition getPaintedPositions (b : t) : list THREE.Vector3 :=
  map (fun kv => position (snd kv)) (paintedInstances b).

(** A call on the brush, and a session of calls on one brush and its
    system. *)
Inductive BrushCall :=
| Paint (center : THREE.Vector3)
        (heightProvider : option (JS.number -> JS.number -> JS.number))
| Erase (center : THREE.Vector3)
| ClearAll
| SetRadius (r : JS.number)
| SetStrength (s : JS.number)
| SetDensity (d : JS.number).

Definition call (fuel : nat) (m : MathLib) (c : BrushCall) (st : t * System)
    : Outcome (t * System) :=
  let (b, s) := st in
  match c with
  | Paint center heightProvider =>
      let* (_, b', s') := paint fuel m center heightProvider b s in Done (b', s')
  | Erase center => let '(_, b', s') := erase center b s in Done (b', s')
  | ClearAll => Done (clearAll b s)
  | SetRadius r => Done (setRadius r b, s)
  | SetStrength w => Done (setStrength w b, s)
  | SetDensity d => Done (setDensity d b, s)
  end.

Fixpoint calls (fuel : nat) (m : MathLib) (cs : list BrushCall) (st : t * System)
    : Outcome (t * System) :=
  match cs with
  | [] => Done st
  | c :: cs' => let* st' := call fuel m c st in calls fuel m cs' st'
  end.

End ScatterBrush.

(* ===================================================================== *)
(** * features/ScatterBlender.ts *)
(* ===================================================================== *)

Module ScatterBlender.
Import Core.

(** A layer. Its [system] is an object of some subclass of
    [BaseScatterSystem]: the state of the system and the [update] method
    of its class. *)
Record ScatterLayer := scatterLayer {
  name : String.string;
  system : System;
  systemUpdate : THREE.Camera -> System -> Outcome System;
  weight : JS.number
}.

Record BlenderConfig := blenderConfig {
  cfgWorldBounds : option THREE.Box2;
  cfgUpdateInterval : option JS.number
}.

(** The blender; [scatterLayers] is the [Map<string, ScatterLayer>] in
    insertion order. The scene graph that [THREE.Group] keeps of the
    systems added to it plays no part in what follows and is left out. *)
Record t := mk {
  scatterLayers : list (String.string * ScatterLayer);
  blendMask : option Image;
  blendMaskData : option (list Z);
  worldBounds : THREE.Box2;
  updateInterval : JS.number;
  frameCount : JS.number;
  isInitialized : bool
}.

Definition new (c : BlenderConfig) : t :=
  mk [] None None
    (orElse (cfgWorldBounds c)
       (THREE.box2 (THREE.vec2 (-500) (-500)) (THREE.vec2 500 500)))
    (orElse (cfgUpdateInterval c) 1%float) 0 false.

Definition setLayers (m : list (String.string * ScatterLayer)) (b : t) : t :=
  mk m (blendMask b) (blendMaskData b) (worldBounds b) (updateInterval b)
    (frameCount b) (isInitialized b).

(** [loadBlendMask(url)], once the texture has been read into pixels. *)
Definition loadBlendMask (img : Image) (data : list Z) (b : t) : t :=
  mk (scatterLayers b) (Some img) (Some data) (worldBounds b) (updateInterval b)
    (frameCount b) (isInitialized b).

(** [init(blendMaskUrl)], once its awaited steps have completed. *)
Definition init (mask : option (Image * list Z)) (b : t) : t :=
  let b1 := match mask with
            | Some (img, data) => loadBlendMask img data b
            | None => b
            end in
  mk (scatterLayers b1) (blendMask b1) (blendMaskData b1) (worldBounds b1)
    (updateInterval b1) (frameCount b1) true.

(** [Map.prototype.get], [set] and [delete] on the layers. *)
Fixpoint layerGet (k : String.string) (m : list (String.string * ScatterLayer))
    : option ScatterLayer :=
  match m with
  | [] => None
  | (k', v) :: m' => if decide (k = k') then Some v else layerGet k m'
  end.

Fixpoint layerSet (k : String.string) (v : ScatterLayer)
    (m : list (String.string * ScatterLayer)) : list (String.string * ScatterLayer) :=
  match m with
  | [] => [(k, v)]
  | (k', v') :: m' =>
      if decide (k = k') then (k, v) :: m' else (k', v') :: layerSet k v m'
  end.

Definition layerDelete (k : String.string) (m : list (String.string * ScatterLayer))
    : list (String.string * ScatterLayer) :=
  List.filter (fun kv => negb (bool_decide (fst kv = k))) m.

(** [addLayer(name, system, weight = 1.0)]; [weight] is [None] when the
    argument is left out. *)
Definition addLayer (n : String.string) (s : System)
    (upd : THREE.Camera -> System -> Outcome System) (w : option JS.number) (b : t) : t :=
  setLayers (layerSet n (scatterLayer n s upd (orElse w 1.0%float)) (scatterLayers b)) b.

Definition removeLayer (n : String.string) (b : t) : t :=
  match layerGet n (scatterLayers b) with
  | Some _ => setLayers (layerDelete n (scatterLayers b)) b
  | None => b
  end.

Definition getLayer (n : String.string) (b : t) : option ScatterLayer :=
  layerGet n (scatterLayers b).

(** [setLayerWeight(name, weight)]: the layer object is updated in place. *)
Definition setLayerWeight (n : String.string) (w : JS.number) (b : t) : t :=
  match layerGet n (scatterLayers b) with
  | Some layer =>
      setLayers
        (layerSet n
           (scatterLayer (name layer) (system layer) (systemUpdate layer)
              (JS.max 0 (JS.min 1 w)))
           (scatterLayers b)) b
  | None => b
  end.

Record RGBA := rgba { r : JS.number; g : JS.number; b_ : JS.number; a : JS.number }.

(** [sampleBlendMask(worldX, worldZ)]. *)
Definition sampleBlendMask (b : t) (worldX worldZ : JS.number) : RGBA :=
  match blendMaskData b, blendMask b with
  | Some data, Some img =>
      let wb := worldBounds b in
      let u := ((worldX - THREE.x2 (THREE.min2 wb))
                / (THREE.x2 (THREE.max2 wb) - THREE.x2 (THREE.min2 wb)))%float in
      let v := ((worldZ - THREE.y2 (THREE.min2 wb))
                / (THREE.y2 (THREE.max2 wb) - THREE.y2 (THREE.min2 wb)))%float in
      if (u <? 0)%float || (1 <? u)%float || (v <? 0)%float || (1 <? v)%float
      then rgba 1 1 1 1
      else
        let px := JS.floor (u * (width img - 1))%float in
        let py := JS.floor ((1 - v) * (height img - 1))%float in
        let idx := ((py * width img + px) * 4)%float in
        rgba (BaseScatterSystem.readByte data idx / 255)%float
             (BaseScatterSystem.readByte data (idx + 1) / 255)%float
             (BaseScatterSystem.readByte data (idx + 2) / 255)%float
             (BaseScatterSystem.readByte data (idx + 3) / 255)%float
  | _, _ => rgba 1 1 1 1
  end.

(** The loop [for (const layer of this.scatterLayers.values())] of
    [update]: each layer's system is updated in turn. *)
Fixpoint updateLayers (camera : THREE.Camera) (m : list (String.string * ScatterLayer))
    : Outcome (list (String.string * ScatterLayer)) :=
  match m with
  | [] => Done []
  | (k, layer) :: m' =>
      let* s' := systemUpdate layer camera (system layer) in
      let* rest := updateLayers camera m' in
      Done ((k, scatterLayer (name layer) s' (systemUpdate layer) (weight layer)) :: rest)
  end.

(** [update(camera)]. *)
Definition update (camera : THREE.Camera) (b : t) : Outcome t :=
  if negb (isInitialized b) then Done b
  else
    let frameCount' := (frameCount b + 1)%float in
    let b1 := mk (scatterLayers b) (blendMask b) (blendMaskData b) (worldBounds b)
                (updateInterval b) frameCount' (isInitialized b) in
    if negb (JS.rem frameCount' (updateInterval b) =? 0)%float then Done b1
    else
      let* layers' := updateLayers camera (scatterLayers b) in
      Done (setLayers layers' b1).

Definition getLayerNames (b : t) : list String.string := map fst (scatterLayers b).

End ScatterBlender.

(* ===================================================================== *)
(** * systems/VolumeScatterSystem.ts *)
(* ===================================================================== *)

Module VolumeScatterSystem.
Import Core BaseScatterSystem Streaming.

Inductive VolumeType := Box | Sphere | Cylinder.

(** The fields of [VolumeScatterConfig] that the strategy adds. *)
Record VolumeScatterConfig := volumeConfig {
  base : BaseScatterConfig;
  cfgBounds : THREE.Box3;
  cfgVolumeType : option VolumeType;
  cfgHollowness : option JS.number;
  cfgFalloffDistance : option JS.number
}.

(** The private fields of the class. *)
Record Volume := mkVolume {
  bounds : THREE.Box3;
  volumeType : VolumeType;
  hollowness : JS.number;
  falloffDistance : JS.number;
  center : THREE.Vector3;
  radius : JS.number
}.

(** [Math.max] of three numbers and [Math.min] of six. *)
Definition max3 (a b c : JS.number) : JS.number := JS.max (JS.max a b) c.

Definition min6 (a b c d e f : JS.number) : JS.number :=
  JS.min (JS.min (JS.min (JS.min (JS.min a b) c) d) e) f.

(** [Math.max(size.x, size.y, size.z) / 2] for the size of a box. *)
Definition radiusOf (b : THREE.Box3) : JS.number :=
  let size := THREE.getSize b in
  (max3 (THREE.x size) (THREE.y size) (THREE.z size) / 2)%float.

Definition newVolume (c : VolumeScatterConfig) : Volume :=
  mkVolume (cfgBounds c) (orElse (cfgVolumeType c) Box)
    (orElse (cfgHollowness c) 0%float) (orElse (cfgFalloffDistance c) 0%float)
    (THREE.getCenter (cfgBounds c)) (radiusOf (cfgBounds c)).

(** The constructor, [init()] included. *)
Definition new (now : JS.number) (c : VolumeScatterConfig) : Volume * System :=
  (newVolume c, Core.init (Core.new now (base c))).

(** [isPointInVolume(point, rng)]: the answer, and the generator after the
    draw that the falloff of a sphere may make. *)
Definition isPointInVolume (v : Volume) (point : THREE.Vector3) (rng : SeededRandom.t)
    : bool * SeededRandom.t :=
  match volumeType v with
  | Sphere =>
      let distanceFromCenter := THREE.distanceTo point (center v) in
      let normalizedDistance := (distanceFromCenter / radius v)%float in
      if (1 <? normalizedDistance)%float then (false, rng)
      else if (0 <? hollowness v)%float && (normalizedDistance <? hollowness v)%float
      then (false, rng)
      else if (0 <? falloffDistance v)%float then
        let falloffStart := (1 - falloffDistance v / radius v)%float in
        if (falloffStart <? normalizedDistance)%float then
          let falloffT :=
            ((normalizedDistance - falloffStart) / (1 - falloffStart))%float in
          let (u, rng') := SeededRandom.next rng in
          if (1 - falloffT <? u)%float then (false, rng') else (true, rng')
        else (true, rng)
      else (true, rng)
  | Cylinder =>
      let dx := (THREE.x point - THREE.x (center v))%float in
      let dz := (THREE.z point - THREE.z (center v))%float in
      let radialDist := PrimFloat.sqrt (dx * dx + dz * dz)%float in
      let normalizedDistance := (radialDist / radius v)%float in
      if (1 <? normalizedDistance)%float then (false, rng)
      else if (0 <? hollowness v)%float && (normalizedDistance <? hollowness v)%float
      then (false, rng)
      else if (THREE.y point <? THREE.y (THREE.min (bounds v)))%float
              || (THREE.y (THREE.max (bounds v)) <? THREE.y point)%float
      then (false, rng)
      else (true, rng)
  | Box =>
      if negb (THREE.containsPoint (bounds v) point) then (false, rng)
      else if (0 <? hollowness v)%float then
        let size := THREE.getSize (bounds v) in
        let minDist :=
          min6 (THREE.x point - THREE.x (THREE.min (bounds v)))
               (THREE.x (THREE.max (bounds v)) - THREE.x point)
               (THREE.y point - THREE.y (THREE.min (bounds v)))
               (THREE.y (THREE.max (bounds v)) - THREE.y point)
               (THREE.z point - THREE.z (THREE.min (bounds v)))
               (THREE.z (THREE.max (bounds v)) - THREE.z point)%float in
        let maxSize := max3 (THREE.x size) (THREE.y size) (THREE.z size) in
        if (1 - hollowness v <? minDist / maxSize)%float then (false, rng)
        else (true, rng)
      else (true, rng)
  end.

(** The variables of the placement loop. *)
Record Placing := placing {
  rng : SeededRandom.t;
  sys : System;
  chunk : ChunkData;
  placed : JS.number;
  attempts : JS.number
}.

Inductive Flow := Continue | Break.

(** One pass through the body of the [while] loop. *)
Definition attempt (m : MathLib) (fuel : nat) (v : Volume) (chunkBounds : THREE.Box3)
    (st : Placing) : Outcome (Flow * Placing) :=
  let cfg := config (sys st) in
  let attempts' := (attempts st + 1)%float in
  let (x, r1) :=
    SeededRandom.range (THREE.x (THREE.min chunkBounds)) (THREE.x (THREE.max chunkBounds))
      (rng st) in
  let (y, r2) :=
    SeededRandom.range (THREE.y (THREE.min chunkBounds)) (THREE.y (THREE.max chunkBounds))
      r1 in
  let (z, r3) :=
    SeededRandom.range (THREE.z (THREE.min chunkBounds)) (THREE.z (THREE.max chunkBounds))
      r2 in
  let position := THREE.vec3 x y z in
  let (inside, r4) := isPointInVolume v position r3 in
  if negb inside
  then Done (Continue, placing r4 (sys st) (chunk st) (placed st) attempts')
  else
    let* accept :=
      match noiseGenerator (chunk st) with
      | Some noise => ofFuel (shouldPlaceInstance m fuel (sys st) x z noise)
      | None =>
          if negb (nEnabled (cNoise cfg)) then Done true else TypeError
      end in
    if negb accept
    then Done (Continue, placing r4 (sys st) (chunk st) (placed st) attempts')
    else
      match InstancePool.acquire (instancePool (sys st)) with
      | (None, _) => Done (Break, placing r4 (sys st) (chunk st) (placed st) attempts')
      | (Some instanceId, pool') =>
          let (rx, r5) := SeededRandom.range 0 twoPi r4 in
          let (ry, r6) := SeededRandom.range 0 twoPi r5 in
          let (rz, r7) := SeededRandom.range 0 twoPi r6 in
          let rotation := THREE.euler rx ry rz in
          let (baseScale, r8) :=
            SeededRandom.range (fst (cScaleRange cfg)) (snd (cScaleRange cfg)) r7 in
          let scale := THREE.vec3 baseScale baseScale baseScale in
          let position' := THREE.vec3 x (y + cHeightOffset cfg)%float z in
          let conv' :=
            Converter.setInstanceTransform instanceId position' rotation scale
              (converter (sys st)) in
          Done (Continue,
                placing r8 (setConverter conv' (setPool pool' (sys st)))
                  (pushInstance instanceId (chunk st))
                  (placed st + 1)%float attempts')
      end.

(** [while (placed < targetCount && attempts < maxAttempts)]. *)
Fixpoint placeLoop (fuel : nat) (m : MathLib) (v : Volume) (chunkBounds : THREE.Box3)
    (targetCount maxAttempts : JS.number) (st : Placing) : Outcome Placing :=
  if (placed st <? targetCount)%float && (attempts st <? maxAttempts)%float then
    match fuel with
    | O => OutOfFuel
    | S fuel' =>
        let* (flow, st') := attempt m (S fuel') v chunkBounds st in
        match flow with
        | Break => Done st'
        | Continue => placeLoop fuel' m v chunkBounds targetCount maxAttempts st'
        end
    end
  else Done st.

Definition populateBounds (v : Volume) (chunkSize centerX centerZ : JS.number)
    : THREE.Box3 :=
  let halfSize := (chunkSize / 2)%float in
  THREE.box3
    (THREE.vec3 (centerX - halfSize) (THREE.y (THREE.min (bounds v))) (centerZ - halfSize))%float
    (THREE.vec3 (centerX + halfSize) (THREE.y (THREE.max (bounds v))) (centerZ + halfSize))%float.

Definition populateChunk (fuel : nat) (m : MathLib) (v : Volume) : Populate :=
  fun s c centerX centerZ =>
    let cfg := config s in
    let chunkBounds := populateBounds v (cChunkSize cfg) centerX centerZ in
    let chunkVolume := THREE.length (THREE.getSize chunkBounds) in
    let targetCount := JS.floor (chunkVolume * cDensity cfg)%float in
    let rng0 := chunkRng cfg centerX centerZ in
    let maxAttempts := (targetCount * 5)%float in
    let* st := placeLoop fuel m v chunkBounds targetCount maxAttempts
                 (placing rng0 s c 0 0) in
    Done (sys st, chunk st).

(** The body of the inner loop of [updateChunks], at [(x, z)]. *)
Definition scanCell (m : MathLib) (v : Volume) (cam : THREE.Camera) (pfuel : nat)
    (visRange chunkSize x z : JS.number) (st : list Key * System)
    : Outcome (list Key * System) :=
  let chunkX := (x + chunkSize / 2)%float in
  let chunkZ := (z + chunkSize / 2)%float in
  if (planarDistance cam chunkX chunkZ <=? visRange)%float
  then visit (populateChunk pfuel m v) chunkX chunkZ st
  else Done st.

(** The inner loop of [updateChunks], entered at [z]. *)
Fixpoint scanZ (fuel : nat) (m : MathLib) (v : Volume) (cam : THREE.Camera) (pfuel : nat)
    (visRange chunkSize x z maxZ : JS.number) (st : list Key * System)
    : Outcome (list Key * System) :=
  if (z <=? maxZ)%float then
    match fuel with
    | O => OutOfFuel
    | S fuel' =>
        let* st' := scanCell m v cam pfuel visRange chunkSize x z st in
        scanZ fuel' m v cam pfuel visRange chunkSize x (z + chunkSize)%float maxZ st'
    end
  else Done st.

(** The outer loop of [updateChunks], entered at [x]. *)
Fixpoint scanX (fuel : nat) (m : MathLib) (v : Volume) (cam : THREE.Camera) (pfuel : nat)
    (visRange chunkSize x maxX minZ maxZ : JS.number) (st : list Key * System)
    : Outcome (list Key * System) :=
  if (x <=? maxX)%float then
    match fuel with
    | O => OutOfFuel
    | S fuel' =>
        let* st' := scanZ (S fuel') m v cam pfuel visRange chunkSize x minZ maxZ st in
        scanX fuel' m v cam pfuel visRange chunkSize (x + chunkSize)%float
          maxX minZ maxZ st'
    end
  else Done st.

Definition updateChunks (fuel : nat) (m : MathLib) (v : Volume) (s : System)
    : Outcome System :=
  match currentCamera s with
  | None => Done s
  | Some cam =>
      let visRange := cVisibilityRange (config s) in
      let chunkSize := cChunkSize (config s) in
      let minX := (JS.floor (THREE.x (THREE.min (bounds v)) / chunkSize) * chunkSize)%float in
      let maxX := (JS.ceil (THREE.x (THREE.max (bounds v)) / chunkSize) * chunkSize)%float in
      let minZ := (JS.floor (THREE.z (THREE.min (bounds v)) / chunkSize) * chunkSize)%float in
      let maxZ := (JS.ceil (THREE.z (THREE.max (bounds v)) / chunkSize) * chunkSize)%float in
      let* (keys, s') := scanX fuel m v cam fuel visRange chunkSize minX maxX minZ maxZ ([], s) in
      Done (deactivateStale keys s')
  end.

(** [update(camera)]. *)
Definition update (fuel : nat) (m : MathLib) (v : Volume) (cam : THREE.Camera)
    (s : System) : Outcome System :=
  if negb (isInitialized s) then Done s
  else updateChunks fuel m v (beginUpdate cam s).

(** [updateBounds(bounds)]: the new private fields, and the system that
    [regenerateAll] leaves; [updateChunks] is the method as it runs then,
    with the camera that the last [update] of any system recorded. *)
Definition updateBounds (updateChunks : Volume -> System -> Outcome System)
    (b : THREE.Box3) (v : Volume) (s : System) : Volume * Outcome System :=
  let v' := mkVolume b (volumeType v) (hollowness v) (falloffDistance v)
              (THREE.getCenter b) (radiusOf b) in
  (v', regenerateAll (updateChunks v') s).

End VolumeScatterSystem.

(* ===================================================================== *)
(** * systems/HeightmapScatterSystem.ts *)
(* ===================================================================== *)

Module HeightmapScatterSystem.
Import Core BaseScatterSystem Streaming.

(** The fields of [HeightmapScatterConfig] that the strategy adds; the
    two URLs are kept by what [initializeDistribution] loads from them. *)
Record HeightmapScatterConfig := heightmapConfig {
  base : BaseScatterConfig;
  cfgWorldSize : JS.number;
  cfgHeightMapScale : option JS.number;
  cfgSlopeLimit : option JS.number
}.

(** The private fields of the class. A texture and its pixel data are set
    together, four bytes per pixel in rows of [width] pixels. *)
Record Heightmap := mkHeightmap {
  heightMap : option (Image * list Z);
  maskMap : option (Image * list Z);
  worldSize : JS.number;
  heightMapScale : JS.number;
  slopeLimit : JS.number
}.

(** [Math.acos] of the host, and the Euler angles that three.js computes
    for the quaternion turning the first unit vector into the second. *)
Record AngleLib := angleLib {
  acos : JS.number -> JS.number;
  eulerFromUnitVectors : THREE.Vector3 -> THREE.Vector3 -> THREE.Euler
}.

Definition newHeightmap (c : HeightmapScatterConfig) : Heightmap :=
  mkHeightmap None None (cfgWorldSize c) (orElse (cfgHeightMapScale c) 0.2%float)
    (orElse (cfgSlopeLimit c) 45%float).

(** [initializeDistribution()], once the textures of the configured URLs
    have been read into pixels. *)
Definition initializeDistribution (height mask : option (Image * list Z))
    (h : Heightmap) : Heightmap :=
  mkHeightmap (match height with Some t => Some t | None => heightMap h end)
    (match mask with Some t => Some t | None => maskMap h end)
    (worldSize h) (heightMapScale h) (slopeLimit h).

(** The constructor, [init()] included. *)
Definition new (now : JS.number) (height mask : option (Image * list Z))
    (c : HeightmapScatterConfig) : Heightmap * System :=
  (initializeDistribution height mask (newHeightmap c), Core.init (Core.new now (base c))).

Definition worldToUV (h : Heightmap) (worldX worldZ : JS.number) : JS.number * JS.number :=
  let halfWorld := (worldSize h / 2)%float in
  (((worldX + halfWorld) / worldSize h)%float, ((worldZ + halfWorld) / worldSize h)%float).

Definition outsideUnit (u v : JS.number) : bool :=
  (u <? 0)%float || (1 <? u)%float || (v <? 0)%float || (1 <? v)%float.

(** The byte of the first channel of the pixel under [(u, v)]. *)
Definition pixelByte (img : Image) (data : list Z) (u v : JS.number) : JS.number :=
  let px := JS.floor (u * (width img - 1))%float in
  let py := JS.floor ((1 - v) * (height img - 1))%float in
  readByte data ((py * width img + px) * 4)%float.

(** [sampleHeight(x, z)]; [None] is [null]. *)
Definition sampleHeight (h : Heightmap) (x z : JS.number) : option JS.number :=
  match heightMap h with
  | None => Some 0%float
  | Some (img, data) =>
      let (u, v) := worldToUV h x z in
      if outsideUnit u v then None
      else
        let heightValue := (pixelByte img data u v / 255)%float in
        Some (heightValue * heightMapScale h)%float
  end.

(** [sampleNormal(x, z)]. *)
Definition sampleNormal (h : Heightmap) (x z : JS.number) : THREE.Vector3 :=
  match heightMap h with
  | None => THREE.vec3 0 1 0
  | Some _ =>
      let delta := 1%float in
      let hL := orElse (sampleHeight h (x - delta)%float z) 0%float in
      let hR := orElse (sampleHeight h (x + delta)%float z) 0%float in
      let hD := orElse (sampleHeight h x (z - delta)%float) 0%float in
      let hU := orElse (sampleHeight h x (z + delta)%float) 0%float in
      THREE.normalize
        (THREE.vec3 ((hL - hR) / (2 * delta)) 1 ((hD - hU) / (2 * delta)))%float
  end.

(** [THREE.MathUtils.radToDeg]: the multiplication by [180 / Math.PI]. *)
Definition radToDeg (radians : JS.number) : JS.number :=
  (radians * (180 / 3.141592653589793))%float.

Definition calculateSlope (a : AngleLib) (normal : THREE.Vector3) : JS.number :=
  radToDeg (acos a (THREE.y normal)).

(** [checkMask(x, z)]. *)
Definition checkMask (h : Heightmap) (x z : JS.number) : bool :=
  match maskMap h with
  | None => true
  | Some (img, data) =>
      let (u, v) := worldToUV h x z in
      if outsideUnit u v then false
      else (128 <? pixelByte img data u v)%float
  end.

(** [createInstanceTransform(position, rng, normal)] of the base class,
    called with a normal: the position, the rotation and the scale it
    returns, and the generator after its draws. *)
Definition createInstanceTransform (a : AngleLib) (cfg : Config)
    (position normal : THREE.Vector3) (rng : SeededRandom.t)
    : THREE.Vector3 * THREE.Euler * THREE.Vector3 * SeededRandom.t :=
  let position' :=
    THREE.vec3 (THREE.x position) (THREE.y position + cHeightOffset cfg)%float
      (THREE.z position) in
  let (ry, r1) :=
    SeededRandom.range (fst (cRotationRange cfg)) (snd (cRotationRange cfg)) rng in
  let (rotation, r2) :=
    if cAlignToNormal cfg then
      let e := eulerFromUnitVectors a (THREE.vec3 0 1 0) normal in
      let (ry', r2) :=
        SeededRandom.range (fst (cRotationRange cfg)) (snd (cRotationRange cfg)) r1 in
      (THREE.euler (THREE.ex e) (THREE.ey e + ry')%float (THREE.ez e), r2)
    else (THREE.euler 0 ry 0, r1) in
  let (baseScale, r3) :=
    SeededRandom.range (fst (cScaleRange cfg)) (snd (cScaleRange cfg)) r2 in
  (position', rotation, THREE.vec3 baseScale baseScale baseScale, r3).

(** The variables of the placement loop. *)
Record Placing := placing {
  rng : SeededRandom.t;
  sys : System;
  chunk : ChunkData;
  placed : JS.number;
  attempts : JS.number
}.

Inductive Flow := Continue | Break.

(** One pass through the body of the [while] loop, between the bounds
    [minX], [maxX], [minZ] and [maxZ] of the chunk. *)
Definition attempt (m : MathLib) (a : AngleLib) (fuel : nat) (h : Heightmap)
    (minX maxX minZ maxZ : JS.number) (st : Placing) : Outcome (Flow * Placing) :=
  let cfg := config (sys st) in
  let attempts' := (attempts st + 1)%float in
  let (x, r1) := SeededRandom.range minX maxX (rng st) in
  let (z, r2) := SeededRandom.range minZ maxZ r1 in
  let skip := Done (Continue, placing r2 (sys st) (chunk st) (placed st) attempts') in
  let* accept :=
    match noiseGenerator (chunk st) with
    | Some noise => ofFuel (shouldPlaceInstance m fuel (sys st) x z noise)
    | None =>
        if negb (nEnabled (cNoise cfg)) then Done true else TypeError
    end in
  if negb accept then skip
  else if negb (checkMask h x z) then skip
  else
    match sampleHeight h x z with
    | None => skip
    | Some height =>
        let normal := sampleNormal h x z in
        let slope := calculateSlope a normal in
        if (slopeLimit h <? slope)%float then skip
        else
          match InstancePool.acquire (instancePool (sys st)) with
          | (None, _) =>
              Done (Break, placing r2 (sys st) (chunk st) (placed st) attempts')
          | (Some instanceId, pool') =>
              let '(position, rotation, scale, r3) :=
                createInstanceTransform a cfg (THREE.vec3 x height z) normal r2 in
              let conv' :=
                Converter.setInstanceTransform instanceId position rotation scale
                  (converter (sys st)) in
              Done (Continue,
                    placing r3 (setConverter conv' (setPool pool' (sys st)))
                      (pushInstance instanceId (chunk st))
                      (placed st + 1)%float attempts')
          end
    end.

(** [while (placed < targetCount && attempts < maxAttempts)]. *)
Fixpoint placeLoop (fuel : nat) (m : MathLib) (a : AngleLib) (h : Heightmap)
    (minX maxX minZ maxZ targetCount maxAttempts : JS.number) (st : Placing)
    : Outcome Placing :=
  if (placed st <? targetCount)%float && (attempts st <? maxAttempts)%float then
    match fuel with
    | O => OutOfFuel
    | S fuel' =>
        let* (flow, st') := attempt m a (S fuel') h minX maxX minZ maxZ st in
        match flow with
        | Break => Done st'
        | Continue =>
            placeLoop fuel' m a h minX maxX minZ maxZ targetCount maxAttempts st'
        end
    end
  else Done st.

Definition populateChunk (fuel : nat) (m : MathLib) (a : AngleLib) (h : Heightmap)
    : Populate :=
  fun s c centerX centerZ =>
    let cfg := config s in
    let halfSize := (cChunkSize cfg / 2)%float in
    let minX := (centerX - halfSize)%float in
    let maxX := (centerX + halfSize)%float in
    let minZ := (centerZ - halfSize)%float in
    let maxZ := (centerZ + halfSize)%float in
    let chunkArea := (cChunkSize cfg * cChunkSize cfg)%float in
    let lodMultiplier := getLODDensityMultiplier s centerX centerZ in
    let targetCount := JS.floor (chunkArea * cDensity cfg * lodMultiplier)%float in
    let rng0 := chunkRng cfg centerX centerZ in
    let maxAttempts := (targetCount * 3)%float in
    let* st := placeLoop fuel m a h minX maxX minZ maxZ targetCount maxAttempts
                 (placing rng0 s c 0 0) in
    Done (sys st, chunk st).

(** The body of the inner loop of [updateChunks], at [(x, z)]. *)
Definition scanCell (m : MathLib) (a : AngleLib) (h : Heightmap) (cam : THREE.Camera)
    (pfuel : nat) (visRange chunkSize x z : JS.number) (st : list Key * System)
    : Outcome (list Key * System) :=
  let halfWorld := (worldSize h / 2)%float in
  let chunkX := (x + chunkSize / 2)%float in
  let chunkZ := (z + chunkSize / 2)%float in
  if (halfWorld <? abs chunkX)%float || (halfWorld <? abs chunkZ)%float then Done st
  else if (planarDistance cam chunkX chunkZ <=? visRange)%float then
    let chunkBounds :=
      THREE.box3
        (THREE.vec3 (chunkX - chunkSize / 2) (-1000) (chunkZ - chunkSize / 2))%float
        (THREE.vec3 (chunkX + chunkSize / 2) 1000 (chunkZ + chunkSize / 2))%float in
    if negb (isChunkInFrustum (snd st) chunkBounds) then Done st
    else visit (populateChunk pfuel m a h) chunkX chunkZ st
  else Done st.

(** The inner loop of [updateChunks], entered at [z]. *)
Fixpoint scanZ (fuel : nat) (m : MathLib) (a : AngleLib) (h : Heightmap)
    (cam : THREE.Camera) (pfuel : nat)
    (visRange chunkSize x z endZ : JS.number) (st : list Key * System)
    : Outcome (list Key * System) :=
  if (z <=? endZ)%float then
    match fuel with
    | O => OutOfFuel
    | S fuel' =>
        let* st' := scanCell m a h cam pfuel visRange chunkSize x z st in
        scanZ fuel' m a h cam pfuel visRange chunkSize x (z + chunkSize)%float endZ st'
    end
  else Done st.

(** The outer loop of [updateChunks], entered at [x]. *)
Fixpoint scanX (fuel : nat) (m : MathLib) (a : AngleLib) (h : Heightmap)
    (cam : THREE.Camera) (pfuel : nat)
    (visRange chunkSize x endX startZ endZ : JS.number) (st : list Key * System)
    : Outcome (list Key * System) :=
  if (x <=? endX)%float then
    match fuel with
    | O => OutOfFuel
    | S fuel' =>
        let* st' := scanZ (S fuel') m a h cam pfuel visRange chunkSize x startZ endZ st in
        scanX fuel' m a h cam pfuel visRange chunkSize (x + chunkSize)%float
          endX startZ endZ st'
    end
  else Done st.

Definition updateChunks (fuel : nat) (m : MathLib) (a : AngleLib) (h : Heightmap)
    (s : System) : Outcome System :=
  match currentCamera s with
  | None => Done s
  | Some cam =>
      let cameraPos := THREE.position cam in
      let visRange := cVisibilityRange (config s) in
      let chunkSize := cChunkSize (config s) in
      let startX := (JS.floor ((THREE.x cameraPos - visRange) / chunkSize) * chunkSize)%float in
      let endX := (JS.ceil ((THREE.x cameraPos + visRange) / chunkSize) * chunkSize)%float in
      let startZ := (JS.floor ((THREE.z cameraPos - visRange) / chunkSize) * chunkSize)%float in
      let endZ := (JS.ceil ((THREE.z cameraPos + visRange) / chunkSize) * chunkSize)%float in
      let* (keys, s') :=
        scanX fuel m a h cam fuel visRange chunkSize startX endX startZ endZ ([], s) in
      Done (deactivateStale keys s')
  end.

(** [update(camera)]. *)
Definition update (fuel : nat) (m : MathLib) (a : AngleLib) (h : Heightmap)
    (cam : THREE.Camera) (s : System) : Outcome System :=
  if negb (isInitialized s) then Done s
  else updateChunks fuel m a h (beginUpdate cam s).

End HeightmapScatterSystem.

(* ===================================================================== *)
(** * The vocabulary of the properties *)
(* ===================================================================== *)

Module Props.
Import Core BaseScatterSystem Streaming.

(** ** The pool *)

(** The representation invariant: every handle handed out so far lies
    below the counter, the counter never passes the capacity, and a handle
    is either active or on the free list, never both and never twice. *)
Record wf (p : InstancePool.t) : Prop := mkWf {
  wf_next : 0 <= InstancePool.nextId p <= Z.max 0 (InstancePool.maxInstances p);
  wf_active : forall id, id ∈ InstancePool.activeInstances p -> 0 <= id < InstancePool.nextId p;
  wf_free : forall id, id ∈ InstancePool.freeIds p -> 0 <= id < InstancePool.nextId p;
  wf_nodup : NoDup (InstancePool.freeIds p);
  wf_disjoint : forall id, id ∈ InstancePool.freeIds p -> id ∉ InstancePool.activeInstances p
}.

(** ** The chunk seed *)

(** The integer that a number stands for under a bitwise operator: its
    integer part, and zero for NaN and the infinities. *)
Definition integerPart (x : JS.number) : Z :=
  match JS.truncZ x with Some z => z | None => 0 end.

(** The seed in the words of the specification: the unsigned 32-bit value
    of [(x * 73856093) XOR (z * 19349663) XOR globalSeed]. *)
Definition chunkSeedSpec (x z globalSeed : JS.number) : Z :=
  Z.lxor (Z.lxor (integerPart (x * 73856093)%float) (integerPart (z * 19349663)%float))
         (integerPart globalSeed)
  mod 2 ^ 32.

(** ** The life cycle of handles *)

(** [acquired p ids p']: starting from [p], successive calls of [acquire]
    hand out the handles [ids], in this order, and leave the pool [p']. *)
Fixpoint acquired (p : InstancePool.t) (ids : list Z) (p' : InstancePool.t) : Prop :=
  match ids with
  | [] => p' = p
  | id :: ids' =>
      exists p1, InstancePool.acquire p = (Some id, p1) /\ acquired p1 ids' p'
  end.

(** [grows s c s' c']: from the system [s] and the chunk [c], a
    population step has reached [s'] and [c'] by acquiring handles and
    pushing each of them on the chunk, the chunk map and the event log
    left as they were. *)
Definition grows (s : System) (c : ChunkData) (s' : System) (c' : ChunkData) : Prop :=
  chunks s' = chunks s /\ events s' = events s /\ isActive c' = isActive c /\
  exists ids, instances c' = instances c ++ ids /\
              acquired (instancePool s) ids (instancePool s').

(** The pool discipline of a [populateChunk]. *)
Definition Disciplined (populateChunk : Populate) : Prop :=
  forall s c x z s' c', populateChunk s c x z = Done (s', c') -> grows s c s' c'.

(** The handles held by the chunks of a map. *)
Definition heldBy (m : list (Key * ChunkData)) : list Z :=
  flat_map (fun kc => instances (snd kc)) m.

(** The books balance: the handles active in the pool are exactly the
    handles held by chunks, each held once, and only active chunks hold
    any. *)
Record Balanced (s : System) : Prop := mkBalanced {
  bal_pool : wf (instancePool s);
  bal_keys : NoDup (map fst (chunks s));
  bal_nodup : NoDup (heldBy (chunks s));
  bal_active : forall id,
    id ∈ heldBy (chunks s) <-> id ∈ InstancePool.activeInstances (instancePool s);
  bal_inactive : forall k c,
    (k, c) ∈ chunks s -> isActive c = false -> instances c = []
}.

(** The pool after releasing the handles [ids] in order. *)
Definition releaseAll (ids : list Z) (p : InstancePool.t) : InstancePool.t :=
  fold_left (fun q id => InstancePool.release id q) ids p.

(** The guard under which [updateChunks] activates a chunk. *)
Definition dormant (key : Key) (s : System) : bool :=
  match mapGet key (chunks s) with
  | None => true
  | Some c => negb (isActive c)
  end.

(** Every chunk stored under a key of [K] is inactive. *)
Definition inactiveOn (K : list Key) (s : System) : Prop :=
  forall k c, k ∈ K -> mapGet k (chunks s) = Some c -> isActive c = false.
(** ** The pool's ledger *)

(** Every handle allocated so far is either active or on the free list. *)
Definition conserved (p : InstancePool.t) : Prop :=
  Z.of_nat (size (InstancePool.activeInstances p))
  + Z.of_nat (length (InstancePool.freeIds p))
  = InstancePool.nextId p.

(** ** Frames *)

(** The keys of the chunk centers that a frame finds visible. *)
Definition keysOf (centers : list (JS.number * JS.number)) : list Key :=
  map (fun c => getChunkKey (fst c) (snd c)) centers.

(** The event log read back from the start: an activation reported for a
    chunk that is live, or a deactivation reported for a chunk that is not,
    does not pair up ([None]); otherwise the result is the list of the
    chunks live after the last event. *)
Fixpoint replay (log : list Event) (live : list Key) : option (list Key) :=
  match log with
  | [] => Some live
  | ChunkActivated key _ :: log' =>
      if decide (key ∈ live) then None else replay log' (key :: live)
  | ChunkDeactivated key :: log' =>
      if decide (key ∈ live) then replay log' (filter (fun k => k <> key) live)
      else None
  end.

(** [activeChunkKeys.add(key)]. *)
Definition addKey (key : Key) (keys : list Key) : list Key :=
  if decide (key ∈ keys) then keys else keys ++ [key].

(** The keys that a frame collects depend on its centers alone. *)
Fixpoint collect (centers : list (JS.number * JS.number)) (keys : list Key) : list Key :=
  match centers with
  | [] => keys
  | (x, z) :: rest => collect rest (addKey (getChunkKey x z) keys)
  end.

(** The log pairs up, and the chunks it leaves live are the active ones. *)
Definition paired (s : System) : Prop :=
  exists live, replay (events s) [] = Some live /\
               forall k, k ∈ live <-> dormant k s = false.

(** ** What a population step may touch *)

(** The configuration, the camera, the frustum and the density map are the
    same in [s'] as in [s]. *)
Definition sameSetup (s s' : System) : Prop :=
  config s' = config s /\ isInitialized s' = isInitialized s /\
  frustum s' = frustum s /\ frustumCullingEnabled s' = frustumCullingEnabled s /\
  densityMapTexture s' = densityMapTexture s /\ densityMapData s' = densityMapData s /\
  currentCamera s' = currentCamera s.

(** From the converter [c] to [c'] the instance count is unchanged, every
    handle of [ids] that is a valid index has had a transform written, and
    no transform written before is lost. *)
Definition written (c c' : Converter.t) (ids : list Z) : Prop :=
  Converter.instanceCount c' = Converter.instanceCount c /\
  (forall id, id ∈ ids -> Converter.inRange c id = true ->
     is_Some (Converter.transforms c' !! id)) /\
  (forall id, is_Some (Converter.transforms c !! id) ->
     is_Some (Converter.transforms c' !! id)).

(** [places s c s' c']: [grows s c s' c'], and besides the step has left
    the setup alone and has written a transform for each handle it
    acquired. *)
Definition places (s : System) (c : ChunkData) (s' : System) (c' : ChunkData) : Prop :=
  chunks s' = chunks s /\ events s' = events s /\ isActive c' = isActive c /\
  sameSetup s s' /\
  exists ids, instances c' = instances c ++ ids /\
              acquired (instancePool s) ids (instancePool s') /\
              written (converter s) (converter s') ids.

Definition Tidy (populateChunk : Populate) : Prop :=
  forall s c x z s' c', populateChunk s c x z = Done (s', c') -> places s c s' c'.

(** The converter fits the pool: it has room for exactly the handles of the
    pool, and every handle held by a chunk has a transform. *)
Record Fitted (s : System) : Prop := mkFitted {
  fit_count : Converter.instanceCount (converter s)
              = InstancePool.maxInstances (instancePool s);
  fit_written : forall id, id ∈ heldBy (chunks s) ->
                  is_Some (Converter.transforms (converter s) !! id)
}.

(** ** The strategies *)

(** The strategies embedded here, each with the private fields of its
    class and the numeric library it calls. *)
Inductive Strategy :=
| GridStrategy (g : GridScatterSystem.Grid)
| RadialStrategy (m : MathLib) (r : RadialScatterSystem.Radial)
| CurveStrategy (l : CurveScatterSystem.RotationLib) (c : CurveScatterSystem.CurveSystem)
| VolumeStrategy (m : MathLib) (v : VolumeScatterSystem.Volume)
| HeightmapStrategy (m : MathLib) (a : HeightmapScatterSystem.AngleLib)
    (h : HeightmapScatterSystem.Heightmap).

(** The strategy's [populateChunk] and [update(camera)]. *)
Definition populateWith (fuel : nat) (st : Strategy) : Populate :=
  match st with
  | GridStrategy g => GridScatterSystem.populateChunk fuel g
  | RadialStrategy m r => RadialScatterSystem.populateChunk fuel m r
  | CurveStrategy l c => CurveScatterSystem.populateChunk fuel l c
  | VolumeStrategy m v => VolumeScatterSystem.populateChunk fuel m v
  | HeightmapStrategy m a h => HeightmapScatterSystem.populateChunk fuel m a h
  end.

Definition updateWith (fuel : nat) (st : Strategy) (cam : THREE.Camera) (s : System)
    : Outcome System :=
  match st with
  | GridStrategy g => GridScatterSystem.update fuel g cam s
  | RadialStrategy m r => RadialScatterSystem.update fuel m r cam s
  | CurveStrategy l c => CurveScatterSystem.update fuel l c cam s
  | VolumeStrategy m v => VolumeScatterSystem.update fuel m v cam s
  | HeightmapStrategy m a h => HeightmapScatterSystem.update fuel m a h cam s
  end.

(** One [update(camera)] per camera of the list, in order. *)
Fixpoint updatesWith (fuel : nat) (st : Strategy) (cams : list THREE.Camera)
    (s : System) : Outcome System :=
  match cams with
  | [] => Done s
  | cam :: cams' =>
      let* s' := updateWith fuel st cam s in
      updatesWith fuel st cams' s'
  end.

(** The test by which a strategy's [updateChunks] finds the chunk centered
    at [(x, z)] visible from the camera: the grid, the radial, the volume
    and the heightmap strategy measure the planar distance to the center
    (the grid and the heightmap cull by the frustum besides, and the
    heightmap keeps to its world square), the curve strategy looks for a
    curve point of the chunk within range. *)
Definition inView (st : Strategy) (cam : THREE.Camera) (s : System) (x z : JS.number)
    : Prop :=
  let visRange := cVisibilityRange (config s) in
  let chunkSize := cChunkSize (config s) in
  match st with
  | GridStrategy _ =>
      (planarDistance cam x z <=? visRange)%float = true /\
      isChunkInFrustum (beginUpdate cam s)
        (THREE.box3
           (THREE.vec3 (x - chunkSize / 2) (-100) (z - chunkSize / 2))%float
           (THREE.vec3 (x + chunkSize / 2) 100 (z + chunkSize / 2))%float) = true
  | RadialStrategy _ _ | VolumeStrategy _ _ =>
      (planarDistance cam x z <=? visRange)%float = true
  | HeightmapStrategy _ _ h =>
      (HeightmapScatterSystem.worldSize h / 2 <? abs x)%float
        || (HeightmapScatterSystem.worldSize h / 2 <? abs z)%float = false /\
      (planarDistance cam x z <=? visRange)%float = true /\
      isChunkInFrustum (beginUpdate cam s)
        (THREE.box3
           (THREE.vec3 (x - chunkSize / 2) (-1000) (z - chunkSize / 2))%float
           (THREE.vec3 (x + chunkSize / 2) 1000 (z + chunkSize / 2))%float) = true
  | CurveStrategy _ c =>
      exists point,
        point ∈ CurveScatterSystem.curvePoints c /\
        (CurveScatterSystem.distanceTo point (THREE.position cam) <=? visRange)%float = true /\
        CurveScatterSystem.chunkCenterOf chunkSize point = (x, z)
  end.

(** The key of the chunk that holds a curve point. *)
Definition keyOfPoint (chunkSize : JS.number) (point : THREE.Vector3) : Key :=
  getChunkKey (fst (CurveScatterSystem.chunkCenterOf chunkSize point))
              (snd (CurveScatterSystem.chunkCenterOf chunkSize point)).

(** Balanced, and fitted. *)
Definition Sound (s : System) : Prop := Balanced s /\ Fitted s.

(** The centers that a scan visits, with what the scan has established of
    each. *)
Definition Visits (populateChunk : Populate) (Q : JS.number -> JS.number -> Prop)
    (s0 : System) (st st' : list Key * System) : Prop :=
  exists centers,
    visitAll populateChunk centers st = Done st' /\
    Forall (fun c => Q (fst c) (snd c)) centers /\
    sameSetup s0 (snd st').

(** ** The books of the brush *)

(** The handles under which the brush stores painted instances. *)
Definition paintedKeys (b : ScatterBrush.t) : list Z :=
  map fst (ScatterBrush.paintedInstances b).

(** [Owns others b s]: the pool of [s] is well formed, the brush [b]
    stores each of its handles once, and the active handles are those of
    the brush together with [others], which the brush holds none of. *)
Record Owns (others : gset Z) (b : ScatterBrush.t) (s : System) : Prop := mkOwns {
  own_pool : wf (instancePool s);
  own_nodup : NoDup (paintedKeys b);
  own_fresh : forall id, id ∈ paintedKeys b -> id ∉ others;
  own_active :
    InstancePool.activeInstances (instancePool s) = others ∪ list_to_set (paintedKeys b)
}.

(** ** Noise *)

(** The four linear forms of which [grad] evaluates one, by the two low
    bits [h] of the hash. *)
Definition gradForm (h : Z) (x y : JS.number) : JS.number :=
  let u := if h <? 2 then x else y in
  let v := if h <? 2 then y else x in
  let gu := if Z.land h 1 =? 0 then u else (- u)%float in
  let gv := if Z.land h 2 =? 0 then (2 * v)%float else ((-2) * v)%float in
  (gu + gv)%float.

(** ** The blender *)

(** A layer with another weight. *)
Definition reweigh (w : JS.number) (layer : ScatterBlender.ScatterLayer)
    : ScatterBlender.ScatterLayer :=
  ScatterBlender.scatterLayer (ScatterBlender.name layer) (ScatterBlender.system layer)
    (ScatterBlender.systemUpdate layer) w.

(** ** Where the instances are *)

(** The point [p] lies between the faces of the box [b] along x and z. *)
Definition insideXZ (b : THREE.Box3) (p : THREE.Vector3) : Prop :=
  (THREE.x (THREE.min b) <=? THREE.x p)%float = true /\
  (THREE.x p <=? THREE.x (THREE.max b))%float = true /\
  (THREE.z (THREE.min b) <=? THREE.z p)%float = true /\
  (THREE.z p <=? THREE.z (THREE.max b))%float = true.

(** [Located Q s]: every handle that a chunk holds has a transform, whose
    position stands in the relation [Q] to the bounds of the chunk. *)
Definition Located (Q : THREE.Box3 -> THREE.Vector3 -> Prop) (s : System) : Prop :=
  forall k c id, (k, c) ∈ chunks s -> id ∈ instances c ->
    exists t, Converter.transforms (converter s) !! id = Some t /\
              Q (bounds c) (Converter.position t).

(** [settles P s c s' c']: from a well-formed pool, a population step has
    reached [s'] and [c'] by acquiring handles, pushing them on the chunk
    and writing for each of them that is a valid index a transform whose
    position satisfies [P]; it has touched no other transform, nor the
    chunk table or the bounds of the chunk. *)
Definition settles (P : THREE.Vector3 -> Prop) (s : System) (c : ChunkData)
    (s' : System) (c' : ChunkData) : Prop :=
  wf (instancePool s) ->
  chunks s' = chunks s /\ bounds c' = bounds c /\
  Converter.instanceCount (converter s') = Converter.instanceCount (converter s) /\
  exists ids,
    instances c' = instances c ++ ids /\
    acquired (instancePool s) ids (instancePool s') /\
    (forall id, id ∉ ids ->
       Converter.transforms (converter s') !! id = Converter.transforms (converter s) !! id) /\
    (forall id, id ∈ ids -> Converter.inRange (converter s) id = true ->
       exists t, Converter.transforms (converter s') !! id = Some t /\
                 P (Converter.position t)).

(** The strategies whose [populateChunk] tests the position of an instance
    against the bounds of the chunk before it places it. *)
Definition testsPosition (st : Strategy) : bool :=
  match st with
  | GridStrategy _ | RadialStrategy _ _ => true
  | CurveStrategy _ _ | VolumeStrategy _ _ | HeightmapStrategy _ _ _ => false
  end.

End Props.

Module Determinism.
(** A call on a [SeededRandom] and the numbers a sequence of calls returns
    ([setSeed] returns nothing). *)
Inductive call :=
| Next
| Range (lo hi : JS.number)
| RangeInt (lo hi : JS.number)
| SetSeed (seed : JS.number).

Definition perform (c : call) (r : SeededRandom.t) : option JS.number * SeededRandom.t :=
  match c with
  | Next => let (v, r') := SeededRandom.next r in (Some v, r')
  | Range lo hi => let (v, r') := SeededRandom.range lo hi r in (Some v, r')
  | RangeInt lo hi => let (v, r') := SeededRandom.rangeInt lo hi r in (Some v, r')
  | SetSeed s => (None, SeededRandom.setSeed s r)
  end.

Fixpoint drive (cs : list call) (r : SeededRandom.t) : list (option JS.number) :=
  match cs with
  | [] => []
  | c :: cs' => let (o, r') := perform c r in o :: drive cs' r'
  end.

(** ** Objects, the clock and [Math.random()]

    What code of the library can reach besides its arguments: the objects
    on the heap, the clock behind [Date.now()] and the stream of numbers
    behind [Math.random()].  A [SeededRandom] is an object whose methods
    read and assign its field [seed]; it is reached through a reference,
    and two references may be driven in any interleaving. *)
Record world := mkWorld {
  generators : gmap nat SeededRandom.t;
  nextRef : nat;
  clock : JS.number;
  randomStream : nat -> JS.number;
  randomUsed : nat
}.

(** A world without objects, with its clock and its stream of random
    numbers. *)
Definition genesis (now : JS.number) (stream : nat -> JS.number) : world :=
  mkWorld ∅ 0 now stream 0.

Definition setGenerators (g : gmap nat SeededRandom.t) (w : world) : world :=
  mkWorld g (nextRef w) (clock w) (randomStream w) (randomUsed w).

(** A piece of code run in a world; [None] when it goes through a reference
    that names no generator. *)
Definition Prog (A : Type) : Type := world -> option (A * world).

Definition ret {A} (a : A) : Prog A := fun w => Some (a, w).

Definition andThen {A B} (c : Prog A) (k : A -> Prog B) : Prog B :=
  fun w => match c w with Some (a, w') => k a w' | None => None end.

Notation "'let+' x ':=' c 'in' k" := (andThen c (fun x => k))
  (at level 10, x pattern, c at level 100, k at level 200).

(** [Date.now()], [Math.random()], and time passing. *)
Definition dateNow : Prog JS.number := fun w => Some (clock w, w).

Definition mathRandom : Prog JS.number := fun w =>
  Some (randomStream w (randomUsed w),
        mkWorld (generators w) (nextRef w) (clock w) (randomStream w) (S (randomUsed w))).

Definition tick (now : JS.number) : Prog unit := fun w =>
  Some (tt, mkWorld (generators w) (nextRef w) now (randomStream w) (randomUsed w)).

(** [this.seed] and [this.seed = s]. *)
Definition getSeed (this : nat) : Prog JS.number := fun w =>
  match generators w !! this with
  | Some r => Some (SeededRandom.seed r, w)
  | None => None
  end.

Definition putSeed (this : nat) (s : JS.number) : Prog unit := fun w =>
  match generators w !! this with
  | Some _ => Some (tt, setGenerators (<[this := SeededRandom.mk s]> (generators w)) w)
  | None => None
  end.

(** [new SeededRandom(seed)]: a new object, whose reference is returned. *)
Definition newSeededRandom (seed : JS.number) : Prog nat := fun w =>
  Some (nextRef w,
        mkWorld (<[nextRef w := SeededRandom.new seed]> (generators w)) (S (nextRef w))
                (clock w) (randomStream w) (randomUsed w)).

(** The methods of [SeededRandom], on the object [this]. *)
Definition next (this : nat) : Prog JS.number :=
  let+ s := getSeed this in
  let+ _ := putSeed this (JS.rem (s * 9301 + 49297)%float 233280%float) in
  let+ s' := getSeed this in
  ret (s' / 233280)%float.

Definition range (this : nat) (lo hi : JS.number) : Prog JS.number :=
  let+ u := next this in ret (lo + u * (hi - lo))%float.

Definition rangeInt (this : nat) (lo hi : JS.number) : Prog JS.number :=
  let+ v := range this lo (hi + 1)%float in ret (JS.floor v).

Definition setSeed (this : nat) (seed : JS.number) : Prog unit := putSeed this seed.

(** The Fisher-Yates loop of the constructor of [PerlinNoise], entered at
    [i], drawing from the generator object [rng]. *)
Fixpoint shuffle (i : nat) (rng : nat) (p : PerlinNoise.jsarray) : Prog PerlinNoise.jsarray :=
  match i with
  | O => ret p
  | S i' =>
      let fi := JS.ofZ (Z.of_nat i) in
      let+ u := next rng in
      let j := JS.floor (u * (fi + 1))%float in
      shuffle i' rng (PerlinNoise.swap p fi j)
  end.

(** [new PerlinNoise(seed)]: the generator it builds is an object of its
    own; the noise field keeps the permutation, which no method assigns. *)
Definition newPerlinNoise (seed : JS.number) : Prog PerlinNoise.t :=
  let+ rng := newSeededRandom seed in
  let+ p := shuffle 255 rng PerlinNoise.identity256 in
  ret (PerlinNoise.mk
         (map (fun i => nth (Z.to_nat (Z.land (Z.of_nat i) 255)) (PerlinNoise.elems p)
                            PerlinNoise.Undefined)
              (seq 0 512))).

(** A call of a method on the generator object [this]. *)
Definition invoke (this : nat) (c : call) : Prog (option JS.number) :=
  match c with
  | Next => let+ v := next this in ret (Some v)
  | Range lo hi => let+ v := range this lo hi in ret (Some v)
  | RangeInt lo hi => let+ v := rangeInt this lo hi in ret (Some v)
  | SetSeed s => let+ _ := setSeed this s in ret None
  end.

(** What a program does, step by step, and what each step gives back. *)
Inductive action :=
| NewSeededRandom (seed : JS.number)
| NewPerlinNoise (seed : JS.number)
| Invoke (this : nat) (c : call)
| DateNow
| MathRandom
| Tick (now : JS.number).

Inductive result :=
| Ref (this : nat)
| Field (n : PerlinNoise.t)
| Returned (v : option JS.number).

Definition act (a : action) : Prog result :=
  match a with
  | NewSeededRandom seed => let+ this := newSeededRandom seed in ret (Ref this)
  | NewPerlinNoise seed => let+ n := newPerlinNoise seed in ret (Field n)
  | Invoke this c => let+ v := invoke this c in ret (Returned v)
  | DateNow => let+ v := dateNow in ret (Returned (Some v))
  | MathRandom => let+ v := mathRandom in ret (Returned (Some v))
  | Tick now => let+ _ := tick now in ret (Returned None)
  end.

Fixpoint run (sc : list action) : Prog (list result) :=
  match sc with
  | [] => ret []
  | a :: sc' =>
      let+ o := act a in
      let+ os := run sc' in
      ret (o :: os)
  end.

(** The calls a script makes on the object [this], and what they returned. *)
Fixpoint callsOn (this : nat) (sc : list action) : list call :=
  match sc with
  | [] => []
  | Invoke a c :: sc' =>
      if decide (a = this) then c :: callsOn this sc' else callsOn this sc'
  | _ :: sc' => callsOn this sc'
  end.

Fixpoint answersOn (this : nat) (sc : list action) (outs : list result)
    : list (option JS.number) :=
  match sc, outs with
  | Invoke a _ :: sc', Returned v :: outs' =>
      if decide (a = this) then v :: answersOn this sc' outs'
      else answersOn this sc' outs'
  | _ :: sc', _ :: outs' => answersOn this sc' outs'
  | _, _ => []
  end.

(** How many times a script calls [Math.random()]. *)
Fixpoint randomCalls (sc : list action) : nat :=
  match sc with
  | [] => O
  | MathRandom :: sc' => S (randomCalls sc')
  | _ :: sc' => randomCalls sc'
  end.

(** Every object lies below the next fresh reference. *)
Definition wellFormed (w : world) : Prop :=
  forall a r, generators w !! a = Some r -> (a < nextRef w)%nat.
End Determinism.

Module Scenarios.
Import Core BaseScatterSystem Streaming.

(** A configuration that sets only the required fields and the seed. *)
Definition plainConfig (seed : JS.number) : BaseScatterConfig :=
  baseConfig 1 None 200 None None None None None (Some seed) None None None.

Definition originCamera : THREE.Camera :=
  THREE.camera (THREE.vec3 0 0 0) (fun _ => true).

(** LOD levels [{0: 1.0, 100: 0.5}] with [blendDistance] 20, seen by a
    camera at the origin. *)
Definition lodSystem : System :=
  let c := plainConfig 42 in
  let lodc := lodConfig [lodLevel 0 1.0 None; lodLevel 100 0.5 None] (Some 20%float) in
  beginUpdate originCamera
    (Core.init
       (Core.new 0
          (baseConfig (density c) None (visibilityRange c) None None None None None
             (randomSeed c) None (Some lodc) None))).

(** The grid scenario: [gridSize] (2,2), [cellSize] 10, [randomOffset] 0,
    seed 42, center at the origin, every other setting at its default. *)
Definition gridScenario : GridScatterSystem.GridScatterConfig :=
  GridScatterSystem.gridConfig (plainConfig 42) (THREE.vec2 2 2) 10 None (Some 0%float) None.

(** The instances that the chunks hold, chunk by chunk in insertion order,
    each with the position the converter stores for it. *)
Definition placements (s : System) : list (Z * option THREE.Vector3) :=
  flat_map
    (fun kc =>
       map (fun id => (id, Converter.position <$> (Converter.transforms (converter s) !! id)))
           (instances (snd kc)))
    (chunks s).

Definition gridAfterUpdate : Outcome System :=
  let (g, s) := GridScatterSystem.new 0 gridScenario in
  GridScatterSystem.update 8 g originCamera s.

(** A density map of 2 x 2 pixels over the world square [0, 10] x [0, 10]. *)
Definition mappedSystem : System :=
  let c := plainConfig 42 in
  let dm := densityMapConfig None
              (THREE.box2 (THREE.vec2 0 0) (THREE.vec2 10 10)) None in
  loadDensityMap (image 2 2) [0; 0; 0; 255; 0; 0; 0; 255; 0; 0; 0; 255; 0; 0; 0; 255]
    (Core.new 0
       (baseConfig (density c) None (visibilityRange c) None None None None None
          (randomSeed c) None None (Some dm))).

(** [Curve.getPoints(divisions)] of three.js on the segment from [v1] to
    [v2]: the points at [d / divisions] for [d = 0 .. divisions]. *)
Definition segmentPoint (v1 v2 : THREE.Vector3) (t : JS.number) : THREE.Vector3 :=
  if (t =? 1)%float then v2
  else THREE.vec3
         ((THREE.x v2 - THREE.x v1) * t + THREE.x v1)
         ((THREE.y v2 - THREE.y v1) * t + THREE.y v1)
         ((THREE.z v2 - THREE.z v1) * t + THREE.z v1)%float.

Definition segmentPoints (v1 v2 : THREE.Vector3) (divisions : JS.number)
    : list THREE.Vector3 :=
  match JS.floorZ divisions with
  | Some n =>
      map (fun d => segmentPoint v1 v2 (JS.ofZ d / divisions)%float) (seqZ 0 (n + 1))
  | None => []
  end.

Definition unitSegment : CurveScatterSystem.Curve :=
  CurveScatterSystem.mkCurve 1
    (segmentPoints (THREE.vec3 0 0 0) (THREE.vec3 1 0 0)).

(** A curve system on a segment of length 1 with [spacing] 5, before
    [generateCurvePoints] has run. *)
Definition sparseCurve : CurveScatterSystem.CurveSystem :=
  CurveScatterSystem.mkCurveSystem unitSegment None [] [] 50 (Some 5%float) None None.

Definition identityHandle : CurveScatterSystem.Object3D :=
  CurveScatterSystem.object3D (CurveScatterSystem.quat 0 0 0 1) (THREE.vec3 1 1 1).

(** A curve system whose point list is the single point at the origin,
    with two handles. *)
Definition onePointCurve : CurveScatterSystem.CurveSystem :=
  CurveScatterSystem.mkCurveSystem unitSegment (Some [identityHandle; identityHandle])
    [THREE.vec3 0 0 0] [] 50 None None None.

Definition unalignedSystem : System :=
  let c := plainConfig 42 in
  Core.init
    (Core.new 0
       (baseConfig (density c) None (visibilityRange c) None None None None (Some false)
          (randomSeed c) None None None)).

(** Three frames of the grid scenario's strategy: two chunks visible, then
    none, then one of them again. *)
Definition toggling : list (list (JS.number * JS.number)) :=
  [[(-32, -32); (32, 32)]; []; [(32, 32)]]%float.

Definition gridPopulate : Populate :=
  GridScatterSystem.populateChunk 8 (GridScatterSystem.newGrid Scenarios.gridScenario).

(** A ring of radius 1 around the origin sampled at angle 0 only, in a
    system whose pool holds a single handle. *)
Definition ring : RadialScatterSystem.Radial :=
  RadialScatterSystem.mkRadial (THREE.vec3 0 0 0) 1 1 0 0 (0, 0)%float 0.

Definition tightSystem : System :=
  Core.init
    (Core.new 0
       (baseConfig 1 (Some 1) 200 None None None None None (Some 42%float)
          None None None)).

(** The values of [Math.cos], [Math.sin] and [Math.atan2] at the only
    arguments the ring passes: [cos 0], [sin 0] and [atan2 1 0]. *)
Definition atAngleZero : MathLib :=
  mathLib (fun x _ => x) (fun _ => 1%float) (fun _ => 0%float)
          (fun _ _ => 1.5707963267948966%float).
(** A program with two generators of seed 42 and two noise fields of seed
    7, built at different times and called in turns, between a call of
    [Math.random()], a tick of the clock and a call of [Date.now()]. *)
Definition twins : list Determinism.action :=
  [ Determinism.NewSeededRandom 42;
    Determinism.Invoke 0 Determinism.Next;
    Determinism.NewPerlinNoise 7;
    Determinism.MathRandom;
    Determinism.Tick 2000;
    Determinism.NewSeededRandom 42;
    Determinism.Invoke 2 Determinism.Next;
    Determinism.Invoke 0 (Determinism.Range 0 10);
    Determinism.DateNow;
    Determinism.NewPerlinNoise 7;
    Determinism.Invoke 2 (Determinism.Range 0 10) ]%float.


(** A curve system on the unit segment sampled at three points, once
    [generateCurvePoints] has run, and a rotation library that answers the
    zero rotation. *)
Definition threePointCurve : CurveScatterSystem.CurveSystem :=
  let c0 := CurveScatterSystem.mkCurveSystem unitSegment None [] [] 2 None None None in
  match CurveScatterSystem.generateCurvePoints c0 with
  | Done c => c
  | _ => c0
  end.

Definition levelLib : CurveScatterSystem.RotationLib :=
  CurveScatterSystem.rotationLib (fun _ => THREE.euler 0 0 0)
    (fun _ _ _ => THREE.euler 0 0 0).

(** The grid scenario seen from close by: a camera above the center of the
    chunk at (-32, -32) and a visibility range of 40, so that this chunk
    alone is in view. *)
Definition cornerCamera : THREE.Camera :=
  THREE.camera (THREE.vec3 (-32) 0 (-32)) (fun _ => true).

Definition cornerScenario : GridScatterSystem.GridScatterConfig :=
  GridScatterSystem.gridConfig
    (baseConfig 1 None 40 None None None None None (Some 42%float) None None None)
    (THREE.vec2 2 2) 10 None (Some 0%float) None.

(** A brush of radius 5 with the default strength, density and falloff,
    a stroke at the origin followed by an erasure there, and a numeric
    library that answers [x * x] for [Math.pow(x, 2)], 1 for every cosine
    and 0 for every sine. *)
Definition roundBrush : ScatterBrush.BrushConfig :=
  ScatterBrush.brushConfig 5 None None None.

Definition strokeAndErase : list ScatterBrush.BrushCall :=
  [ScatterBrush.Paint (THREE.vec3 0 0 0) None; ScatterBrush.Erase (THREE.vec3 0 0 0)].

Definition eastward : MathLib :=
  mathLib (fun x _ => (x * x)%float) (fun _ => 1%float) (fun _ => 0%float)
          (fun _ _ => 0%float).

Import Stdlib.Strings.String.StringSyntax.
Local Open Scope string_scope.
(** A blender with [updateInterval] 0, initialised, holding the grid
    scenario's system as its layer "meadow". *)
Definition meadowLayer : ScatterBlender.t :=
  ScatterBlender.init None
    (ScatterBlender.addLayer "meadow"
       (Core.init (Core.new 0 (GridScatterSystem.base Scenarios.cornerScenario)))
       (GridScatterSystem.update 8 (GridScatterSystem.newGrid Scenarios.cornerScenario))
       None
       (ScatterBlender.new (ScatterBlender.blenderConfig None (Some 0%float)))).

(** A box volume over the square of the corner chunk, four units high,
    with the default type, hollowness and falloff. *)
Definition crate : VolumeScatterSystem.VolumeScatterConfig :=
  VolumeScatterSystem.volumeConfig
    (baseConfig 0.05 None 40 None None None None None (Some 42%float) None None None)
    (THREE.box3 (THREE.vec3 (-64) 0 (-64)) (THREE.vec3 0 4 0)) None None None.

End Scenarios.

(* ===================================================================== *)
(** * Lemmas *)
(* ===================================================================== *)

#[local] Set Warnings "-clear-no-such-hyp".

Module PoolFacts.
Import InstancePool Props.

Lemma pop_snoc {A} (l : list A) (x : A) : pop (l ++ [x]) = Some (x, l).
Proof. unfold pop. by rewrite last_snoc, removelast_last. Qed.

Lemma pop_Some {A} (l r : list A) (x : A) : pop l = Some (x, r) -> l = r ++ [x].
Proof.
  destruct l as [|a l _] using rev_ind; [discriminate|].
  rewrite pop_snoc. by intros [= -> ->].
Qed.

Lemma pop_None {A} (l : list A) : pop l = None -> l = [].
Proof.
  destruct l as [|a l _] using rev_ind; [done|]. by rewrite pop_snoc.
Qed.

Lemma wf_new (n : Z) : wf (new n).
Proof.
  split; simpl; try set_solver; try lia. constructor.
Qed.

(** What [acquire] does when it returns a handle. *)
Lemma acquire_Some (p p' : t) (id : Z) :
  wf p -> acquire p = (Some id, p') ->
  (id ∉ activeInstances p) /\
  activeInstances p' = {[id]} ∪ activeInstances p /\
  maxInstances p' = maxInstances p /\
  wf p'.
Proof.
  intros [Hn Ha Hf Hnd Hd]. unfold acquire.
  destruct (pop (freeIds p)) as [[x rest]|] eqn:Hpop.
  - apply pop_Some in Hpop. intros [= <- <-]. simpl.
    rewrite Hpop in *. apply NoDup_app in Hnd as (Hnd & Hni & _).
    split; [apply Hd; set_solver|]. do 2 (split; [done|]).
    split; simpl; [done | | | done |].
    + intros i [->%elem_of_singleton | Hi]%elem_of_union; [|by apply Ha].
      apply Hf. set_solver.
    + intros i Hi. apply Hf. set_solver.
    + intros i Hi [->%elem_of_singleton | Hi']%elem_of_union.
      * apply (Hni x); set_solver.
      * apply (Hd i); set_solver.
  - destruct (nextId p <? maxInstances p) eqn:Hlt; [|discriminate].
    intros [= <- <-]. simpl. apply Z.ltb_lt in Hlt.
    split; [intros Hin%Ha; lia|]. do 2 (split; [done|]).
    split; simpl; [lia | | | done |].
    + intros i [->%elem_of_singleton | Hi%Ha]%elem_of_union; lia.
    + intros i Hi%Hf. lia.
    + intros i Hi [->%elem_of_singleton | Hi']%elem_of_union.
      * apply Hf in Hi. lia.
      * by apply (Hd i).
Qed.

Lemma acquire_None (p p' : t) : acquire p = (None, p') -> p' = p.
Proof.
  unfold acquire. destruct (pop (freeIds p)) as [[x rest]|]; [discriminate|].
  destruct (nextId p <? maxInstances p); [discriminate|]. by intros [= <-].
Qed.

(** [acquire] answers [null] exactly when the free list is empty and the
    counter is not below the capacity. *)
Lemma acquire_None_iff (p : t) :
  fst (acquire p) = None <-> freeIds p = [] /\ maxInstances p <= nextId p.
Proof.
  unfold acquire. split.
  - destruct (pop (freeIds p)) as [[x rest]|] eqn:Hpop; [discriminate|].
    apply pop_None in Hpop.
    destruct (nextId p <? maxInstances p) eqn:Hlt; [discriminate|].
    apply Z.ltb_ge in Hlt. done.
  - intros [-> Hge]. simpl. apply Z.ltb_ge in Hge. by rewrite Hge.
Qed.

Lemma wf_acquire (p : t) : wf p -> wf (snd (acquire p)).
Proof.
  intros Hwf. destruct (acquire p) as [[id|] p'] eqn:Hacq; simpl.
  - by apply (acquire_Some p p' id).
  - by rewrite (acquire_None p p').
Qed.

(** Releasing an active handle moves it to the end of the free list. *)
Lemma release_active (p : t) (id : Z) :
  id ∈ activeInstances p ->
  release id p =
    mk (activeInstances p ∖ {[id]}) (freeIds p ++ [id]) (nextId p) (maxInstances p).
Proof. intros Hin. unfold release. by rewrite decide_True. Qed.

(** Releasing a handle that is not active changes nothing. *)
Lemma release_inactive (p : t) (id : Z) :
  id ∉ activeInstances p -> release id p = p.
Proof. intros Hin. unfold release. by rewrite decide_False. Qed.

Lemma wf_release (p : t) (id : Z) : wf p -> wf (release id p).
Proof.
  intros [Hn Ha Hf Hnd Hd]. unfold release.
  destruct (decide (id ∈ activeInstances p)) as [Hin|Hin]; [|done].
  split; simpl; [done | | | |].
  - intros i Hi. apply Ha. set_solver.
  - intros i [Hi | ->%list_elem_of_singleton]%elem_of_app; [by apply Hf | by apply Ha].
  - apply NoDup_app. split; [done|]. split; [|apply NoDup_singleton].
    intros i Hi ->%list_elem_of_singleton. by apply (Hd id).
  - intros i [Hi | ->%list_elem_of_singleton]%elem_of_app; [|set_solver].
    specialize (Hd i Hi). set_solver.
Qed.

Lemma wf_step (p : t) (c : call) : wf p -> wf (step p c).
Proof. destruct c; [apply wf_acquire | apply wf_release]. Qed.

Lemma wf_run (cs : list call) (p : t) : wf p -> wf (run p cs).
Proof.
  revert p. induction cs as [|c cs IH]; intros p Hwf; [done|].
  apply IH. by apply wf_step.
Qed.

Lemma maxInstances_step (p : t) (c : call) : maxInstances (step p c) = maxInstances p.
Proof.
  destruct c as [|id]; simpl.
  - unfold acquire. destruct (pop (freeIds p)) as [[x rest]|]; [done|].
    by destruct (nextId p <? maxInstances p).
  - unfold release. by destruct (decide (id ∈ activeInstances p)).
Qed.

Lemma maxInstances_run (cs : list call) (p : t) :
  maxInstances (run p cs) = maxInstances p.
Proof.
  unfold run. revert p. induction cs as [|c cs IH]; intros p; [done|].
  simpl. rewrite IH. apply maxInstances_step.
Qed.

(** A set of integers drawn from [0, n) has at most [n] elements. *)
Lemma size_below (X : gset Z) (n : Z) :
  0 <= n -> (forall i, i ∈ X -> 0 <= i < n) -> Z.of_nat (size X) <= n.
Proof.
  intros Hn Hall.
  assert (Hsub : X ⊆ list_to_set (seqZ 0 n)).
  { intros i Hi. apply elem_of_list_to_set, elem_of_seqZ. specialize (Hall i Hi). lia. }
  apply subseteq_size in Hsub.
  rewrite size_list_to_set in Hsub by apply NoDup_seqZ.
  rewrite length_seqZ in Hsub. lia.
Qed.

Lemma wf_active_count (p : t) : wf p -> getActiveCount p <= Z.max 0 (maxInstances p).
Proof.
  intros [Hn Ha _ _ _]. unfold getActiveCount.
  etrans; [apply (size_below _ (nextId p)); [lia | done] | lia].
Qed.

End PoolFacts.

Module SeedFacts.
Import Core BaseScatterSystem Streaming Props.

Lemma lxor_mod_pow2 (a b n : Z) :
  0 <= n -> Z.lxor a b mod 2 ^ n = Z.lxor (a mod 2 ^ n) (b mod 2 ^ n).
Proof.
  intros Hn. apply Z.bits_inj'. intros i Hi.
  rewrite Z.lxor_spec, !Z.testbit_mod_pow2, Z.lxor_spec by lia.
  destruct (i <? n); simpl; reflexivity.
Qed.

Lemma toInt32_mod (a : JS.number) :
  JS.toInt32 a mod 2 ^ 32 = integerPart a mod 2 ^ 32.
Proof.
  unfold JS.toInt32, JS.toUint32, integerPart.
  destruct (JS.truncZ a) as [t|]; [|reflexivity].
  destruct (2 ^ 31 <=? t mod 2 ^ 32).
  - rewrite <- (Z.mod_add _ 1) by lia.
    replace (t mod 2 ^ 32 - 2 ^ 32 + 1 * 2 ^ 32) with (t mod 2 ^ 32) by lia.
    apply Z.mod_mod. lia.
  - apply Z.mod_mod. lia.
Qed.

Lemma chunkSeed_spec (x z globalSeed : JS.number) :
  chunkSeed x z globalSeed = chunkSeedSpec x z globalSeed.
Proof.
  unfold chunkSeed, chunkSeedSpec, JS.ushr0.
  rewrite !(lxor_mod_pow2 _ _ 32), !toInt32_mod by lia. reflexivity.
Qed.
End SeedFacts.

Module HeapFacts.
Import Determinism.

Lemma wellFormed_genesis now stream : wellFormed (genesis now stream).
Proof. intros a r H. simpl in H. by rewrite lookup_empty in H. Qed.

(** The methods on the heap are the state-passing methods applied to the
    object. *)
Lemma next_spec this r w :
  generators w !! this = Some r ->
  next this w
  = Some (fst (SeededRandom.next r),
          setGenerators (<[this := snd (SeededRandom.next r)]> (generators w)) w).
Proof.
  intros H. unfold next, andThen, getSeed, putSeed, SeededRandom.next, ret.
  rewrite H. cbn beta iota. rewrite H.
  cbn [setGenerators generators fst snd]. rewrite lookup_insert_eq. reflexivity.
Qed.

Lemma invoke_spec this c r w :
  generators w !! this = Some r ->
  invoke this c w
  = Some (fst (perform c r),
          setGenerators (<[this := snd (perform c r)]> (generators w)) w).
Proof.
  intros H. destruct c; unfold invoke, rangeInt, range, setSeed, andThen.
  - rewrite (next_spec _ _ _ H). unfold perform, ret.
    by destruct (SeededRandom.next r).
  - rewrite (next_spec _ _ _ H). unfold perform, SeededRandom.range, ret.
    by destruct (SeededRandom.next r).
  - rewrite (next_spec _ _ _ H).
    unfold perform, SeededRandom.rangeInt, SeededRandom.range, ret.
    by destruct (SeededRandom.next r).
  - unfold putSeed. rewrite H. reflexivity.
Qed.

Lemma invoke_known this c w v w' :
  invoke this c w = Some (v, w') -> is_Some (generators w !! this).
Proof.
  intros H. destruct (generators w !! this) as [r|] eqn:E; [by eexists|].
  exfalso. destruct c;
    unfold invoke, rangeInt, range, next, setSeed, andThen, getSeed, putSeed in H;
    rewrite E in H; discriminate.
Qed.

Lemma shuffle_spec i rng p r w :
  generators w !! rng = Some r ->
  exists r',
    shuffle i rng p w
    = Some (PerlinNoise.shuffle i r p,
            setGenerators (<[rng := r']> (generators w)) w).
Proof.
  revert p r w. induction i as [|i IH]; intros p r w H.
  - exists r. cbn [shuffle PerlinNoise.shuffle]. unfold ret. do 2 f_equal.
    destruct w. unfold setGenerators. cbn. f_equal. symmetry. by apply insert_id.
  - cbn [shuffle PerlinNoise.shuffle]. unfold andThen.
    rewrite (next_spec _ _ _ H).
    destruct (SeededRandom.next r) as [u r1] eqn:E. cbn [fst snd].
    destruct (IH (PerlinNoise.swap p (JS.ofZ (Z.of_nat (S i)))
                    (JS.floor (u * (JS.ofZ (Z.of_nat (S i)) + 1))%float)) r1
                 (setGenerators (<[rng := r1]> (generators w)) w)) as [r' Hr'].
    { cbn. by rewrite lookup_insert_eq. }
    exists r'. rewrite Hr'. do 2 f_equal.
    unfold setGenerators. cbn. f_equal. by rewrite insert_insert_eq.
Qed.

Lemma newPerlinNoise_spec seed w :
  exists r',
    newPerlinNoise seed w
    = Some (PerlinNoise.new seed,
            mkWorld (<[nextRef w := r']> (generators w)) (S (nextRef w))
                    (clock w) (randomStream w) (randomUsed w)).
Proof.
  unfold newPerlinNoise, andThen, newSeededRandom.
  destruct (shuffle_spec 255 (nextRef w) PerlinNoise.identity256 (SeededRandom.new seed)
              (mkWorld (<[nextRef w := SeededRandom.new seed]> (generators w))
                 (S (nextRef w)) (clock w) (randomStream w) (randomUsed w))) as [r' Hr'].
  { cbn. by rewrite lookup_insert_eq. }
  exists r'. rewrite Hr'. unfold ret, setGenerators.
  cbn [generators nextRef clock randomStream randomUsed].
  by rewrite insert_insert_eq.
Qed.

(** One step: the objects it does not name stay as they are, no object
    appears below the fresh reference, and only [Math.random()] draws from
    the stream. *)
Lemma act_frame x w o w' :
  wellFormed w -> act x w = Some (o, w') ->
  wellFormed w' /\ (nextRef w <= nextRef w')%nat /\
  (forall a r, generators w !! a = Some r ->
     (forall c, x <> Invoke a c) -> generators w' !! a = Some r) /\
  randomUsed w' = (randomUsed w + randomCalls [x])%nat.
Proof.
  intros Hwf H. unfold wellFormed in *. destruct x; unfold act, andThen in H.
  - unfold newSeededRandom, ret in H. injection H as <- <-. cbn.
    split; [|split; [lia|split; [|lia]]].
    + intros a r Ha. cbn in Ha. destruct (decide (a = nextRef w)) as [->|Hne]; [lia|].
      rewrite lookup_insert_ne in Ha by done. specialize (Hwf _ _ Ha). lia.
    + intros a r Ha _. pose proof (Hwf _ _ Ha).
      rewrite lookup_insert_ne by lia. done.
  - destruct (newPerlinNoise_spec seed w) as [r' Hr']. rewrite Hr' in H.
    unfold ret in H. injection H as <- <-. cbn.
    split; [|split; [lia|split; [|lia]]].
    + intros a r Ha. cbn in Ha. destruct (decide (a = nextRef w)) as [->|Hne]; [lia|].
      rewrite lookup_insert_ne in Ha by done. specialize (Hwf _ _ Ha). lia.
    + intros a r Ha _. pose proof (Hwf _ _ Ha).
      rewrite lookup_insert_ne by lia. done.
  - destruct (invoke this c w) as [[v w1]|] eqn:E; [|discriminate].
    unfold ret in H. injection H as <- <-.
    destruct (invoke_known _ _ _ _ _ E) as [r0 Hr0].
    rewrite (invoke_spec _ _ _ _ Hr0) in E. injection E as _ <-. cbn.
    split; [|split; [lia|split; [|lia]]].
    + intros a r Ha. cbn in Ha. destruct (decide (a = this)) as [->|Hne].
      * by apply (Hwf _ _ Hr0).
      * rewrite lookup_insert_ne in Ha by done. by apply (Hwf _ _ Ha).
    + intros a r Ha Hne. rewrite lookup_insert_ne; [done|].
      intros ->. by apply (Hne c).
  - unfold dateNow, ret in H. injection H as <- <-. cbn.
    split; [done|]. split; [lia|]. split; [by intros|lia].
  - unfold mathRandom, ret in H. injection H as <- <-. cbn.
    split; [done|]. split; [lia|]. split; [by intros|lia].
  - unfold tick, ret in H. injection H as <- <-. cbn.
    split; [done|]. split; [lia|]. split; [by intros|lia].
Qed.

Lemma run_cons x sc w outs w' :
  run (x :: sc) w = Some (outs, w') ->
  exists o w1 os,
    act x w = Some (o, w1) /\ run sc w1 = Some (os, w') /\ outs = o :: os.
Proof.
  cbn [run]. unfold andThen. intros H.
  destruct (act x w) as [[o w1]|] eqn:E1; [|discriminate].
  destruct (run sc w1) as [[os w2]|] eqn:E2; [|discriminate].
  unfold ret in H. injection H as <- <-. by exists o, w1, os.
Qed.

Lemma run_app sc1 sc2 w outs w' :
  run (sc1 ++ sc2) w = Some (outs, w') ->
  exists o1 w1 o2,
    run sc1 w = Some (o1, w1) /\ run sc2 w1 = Some (o2, w') /\
    outs = o1 ++ o2 /\ length o1 = length sc1.
Proof.
  revert w outs. induction sc1 as [|x sc1 IH]; intros w outs H.
  - exists [], w, outs. by repeat split.
  - rewrite <- app_comm_cons in H.
    destruct (run_cons _ _ _ _ _ H) as (o & w1 & os & Hact & Hrun & ->).
    destruct (IH _ _ Hrun) as (o1 & w2 & o2 & H1 & H2 & -> & Hlen).
    exists (o :: o1), w2, o2. cbn [run]. unfold andThen. rewrite Hact, H1.
    repeat split; [done|]. cbn. by rewrite Hlen.
Qed.

Lemma run_frame sc w outs w' :
  wellFormed w -> run sc w = Some (outs, w') ->
  wellFormed w' /\ (nextRef w <= nextRef w')%nat /\
  randomUsed w' = (randomUsed w + randomCalls sc)%nat.
Proof.
  revert w outs. induction sc as [|x sc IH]; intros w outs Hwf H.
  - cbn in H. unfold ret in H. injection H as <- <-. cbn. split; [done|lia].
  - destruct (run_cons _ _ _ _ _ H) as (o & w1 & os & Hact & Hrun & ->).
    destruct (act_frame _ _ _ _ Hwf Hact) as (Hwf1 & Hle1 & _ & Hr1).
    destruct (IH _ _ Hwf1 Hrun) as (Hwf' & Hle' & Hr').
    split; [done|]. split; [lia|]. rewrite Hr', Hr1.
    destruct x; cbn; lia.
Qed.

(** What the calls on an object return is what the state-passing methods
    return from the object's state, whatever the script does besides. *)
Lemma answers_of_object this sc : forall w r outs w',
  wellFormed w -> generators w !! this = Some r ->
  run sc w = Some (outs, w') ->
  answersOn this sc outs = drive (callsOn this sc) r.
Proof.
  induction sc as [|x sc IH]; intros w r outs w' Hwf Hr H.
  - reflexivity.
  - destruct (run_cons _ _ _ _ _ H) as (o & w1 & os & Hact & Hrun & ->).
    destruct (act_frame _ _ _ _ Hwf Hact) as (Hwf1 & _ & Hkeep & _).
    destruct x as [seed|seed|a c| | |t].
    1,2,4,5,6:
      (cbn [answersOn callsOn];
       apply (IH w1 r os w' Hwf1); [by apply Hkeep|done]).
    unfold act, andThen in Hact.
    destruct (invoke a c w) as [[v w2]|] eqn:E; [|discriminate].
    unfold ret in Hact. injection Hact as <- <-.
    cbn [answersOn callsOn]. destruct (decide (a = this)) as [->|Hne].
    + rewrite (invoke_spec _ _ _ _ Hr) in E. injection E as <- <-.
      cbn [drive]. destruct (perform c r) as [v r1] eqn:Ep. cbn [fst snd] in *.
      f_equal. apply (IH _ r1 os w' Hwf1); [|done].
      cbn. by rewrite lookup_insert_eq.
    + apply (IH w2 r os w' Hwf1); [|done].
      apply Hkeep; [done|]. intros c' [= -> _]. done.
Qed.

(** An object is not called before it exists. *)
Lemma no_call_before_birth this sc : forall w outs w',
  wellFormed w -> run sc w = Some (outs, w') -> (nextRef w' <= this)%nat ->
  callsOn this sc = [] /\ answersOn this sc outs = [].
Proof.
  induction sc as [|x sc IH]; intros w outs w' Hwf H Hle.
  - done.
  - destruct (run_cons _ _ _ _ _ H) as (o & w1 & os & Hact & Hrun & ->).
    destruct (act_frame _ _ _ _ Hwf Hact) as (Hwf1 & Hle1 & _ & _).
    destruct (run_frame _ _ _ _ Hwf1 Hrun) as (_ & Hle2 & _).
    destruct (IH _ _ _ Hwf1 Hrun Hle) as [Hc Ha].
    destruct x as [seed|seed|a c| | |t]; cbn [answersOn callsOn]; try done.
    unfold act, andThen in Hact.
    destruct (invoke a c w) as [[v w2]|] eqn:E; [|discriminate].
    unfold ret in Hact. injection Hact as <- <-.
    destruct (invoke_known _ _ _ _ _ E) as [r0 Hr0]. pose proof (Hwf _ _ Hr0).
    rewrite !decide_False by lia. done.
Qed.

Lemma callsOn_app this sc1 sc2 :
  callsOn this (sc1 ++ sc2) = callsOn this sc1 ++ callsOn this sc2.
Proof.
  induction sc1 as [|x sc1 IH]; [done|].
  destruct x; cbn [callsOn app]; try done.
  destruct (decide (this0 = this)); cbn; by rewrite IH.
Qed.

Lemma answersOn_app this sc1 sc2 o1 o2 :
  length o1 = length sc1 ->
  answersOn this (sc1 ++ sc2) (o1 ++ o2)
  = answersOn this sc1 o1 ++ answersOn this sc2 o2.
Proof.
  revert o1. induction sc1 as [|x sc1 IH]; intros [|o o1] Hlen; try discriminate.
  - done.
  - injection Hlen as Hlen. specialize (IH o1 Hlen).
    destruct x, o; cbn [answersOn app]; try done.
    destruct (decide (this0 = this)); cbn; by rewrite IH.
Qed.

(** The script around its [i]-th step. *)
Lemma run_at sc i x w outs w' :
  sc !! i = Some x -> run sc w = Some (outs, w') ->
  exists o1 w1 o w2 o2,
    run (take i sc) w = Some (o1, w1) /\ act x w1 = Some (o, w2) /\
    run (drop (S i) sc) w2 = Some (o2, w') /\
    outs = o1 ++ o :: o2 /\ length o1 = i /\ outs !! i = Some o.
Proof.
  intros Hi H. rewrite <- (take_drop_middle sc i x Hi) in H.
  destruct (run_app _ _ _ _ _ H) as (o1 & w1 & o2' & H1 & H2 & -> & Hlen).
  destruct (run_cons _ _ _ _ _ H2) as (o & w2 & o2 & Hact & H3 & ->).
  assert (Hl : length o1 = i).
  { rewrite Hlen, length_take. apply lookup_lt_Some in Hi. lia. }
  exists o1, w1, o, w2, o2. repeat split; try done.
  rewrite lookup_app_r by lia. by rewrite Hl, Nat.sub_diag.
Qed.

(** A generator built by a script answers as the state-passing generator
    of its seed does. *)
Lemma answers_of_built sc i seed this w outs w' :
  wellFormed w -> run sc w = Some (outs, w') ->
  sc !! i = Some (NewSeededRandom seed) -> outs !! i = Some (Ref this) ->
  answersOn this sc outs = drive (callsOn this sc) (SeededRandom.new seed).
Proof.
  intros Hwf H Hi Ho.
  destruct (run_at _ _ _ _ _ _ Hi H)
    as (o1 & w1 & o & w2 & o2 & H1 & Hact & H2 & -> & Hlen & Ho').
  rewrite Ho' in Ho. injection Ho as ->.
  destruct (run_frame _ _ _ _ Hwf H1) as (Hwf1 & _ & _).
  destruct (act_frame _ _ _ _ Hwf1 Hact) as (Hwf2 & _ & _ & _).
  unfold act, andThen, newSeededRandom, ret in Hact. injection Hact as Hthis <-.
  destruct (no_call_before_birth this _ _ _ _ Hwf H1 ltac:(lia)) as [Hc Ha].
  rewrite <- (take_drop_middle sc i _ Hi) at 1 2.
  rewrite callsOn_app, Hc.
  rewrite answersOn_app by (rewrite length_take; apply lookup_lt_Some in Hi; lia).
  rewrite Ha. cbn [app answersOn callsOn].
  eapply answers_of_object; [exact Hwf2| |exact H2].
  cbn. rewrite Hthis. by rewrite lookup_insert_eq.
Qed.

(** A noise field built by a script is the field of its seed. *)
Lemma field_of_built sc i seed n w outs w' :
  run sc w = Some (outs, w') ->
  sc !! i = Some (NewPerlinNoise seed) -> outs !! i = Some (Field n) ->
  n = PerlinNoise.new seed.
Proof.
  intros H Hi Ho.
  destruct (run_at _ _ _ _ _ _ Hi H)
    as (o1 & w1 & o & w2 & o2 & H1 & Hact & H2 & -> & Hlen & Ho').
  rewrite Ho' in Ho. injection Ho as ->.
  unfold act, andThen in Hact.
  destruct (newPerlinNoise_spec seed w1) as [r' Hr']. rewrite Hr' in Hact.
  unfold ret in Hact. by injection Hact as <- _.
Qed.

End HeapFacts.

Module Lifecycle.
Import Core BaseScatterSystem Streaming Props.

Lemma acquired_app p ids1 p1 ids2 p2 :
  acquired p ids1 p1 -> acquired p1 ids2 p2 -> acquired p (ids1 ++ ids2) p2.
Proof.
  revert p. induction ids1 as [|id ids1 IH]; simpl; intros p.
  - by intros ->.
  - intros (q & Hq & Hrest) H2. exists q. split; [done|]. by apply IH.
Qed.

Lemma acquired_facts p ids p' :
  Props.wf p -> acquired p ids p' ->
  Props.wf p' /\ NoDup ids /\
  (forall id, id ∈ ids -> id ∉ InstancePool.activeInstances p) /\
  InstancePool.activeInstances p'
    = list_to_set ids ∪ InstancePool.activeInstances p.
Proof.
  revert p. induction ids as [|id ids IH]; simpl; intros p Hwf.
  - intros ->. split; [done|]. split; [constructor|]. split; set_solver.
  - intros (q & Hq & Hrest).
    destruct (PoolFacts.acquire_Some p q id Hwf Hq) as (Hfresh & Hact & _ & Hwfq).
    destruct (IH q Hwfq Hrest) as (Hwf' & Hnd & Hnot & Hact').
    split; [done|]. split; [|split].
    + constructor; [|done]. intros Hin. apply (Hnot id Hin). set_solver.
    + intros i [->|Hi]%elem_of_cons; [done|].
      intros Hia. apply (Hnot i Hi). set_solver.
    + rewrite Hact', Hact. set_solver.
Qed.

Lemma releaseAll_facts ids p :
  Props.wf p -> NoDup ids ->
  (forall id, id ∈ ids -> id ∈ InstancePool.activeInstances p) ->
  Props.wf (releaseAll ids p) /\
  InstancePool.freeIds (releaseAll ids p) = InstancePool.freeIds p ++ ids /\
  InstancePool.activeInstances (releaseAll ids p)
    = InstancePool.activeInstances p ∖ list_to_set ids.
Proof.
  unfold releaseAll. revert p.
  induction ids as [|id ids IH]; simpl; intros p Hwf Hnd Hall.
  - rewrite app_nil_r. split; [done|]. split; [done | set_solver].
  - apply NoDup_cons in Hnd as [Hni Hnd].
    assert (Hid : id ∈ InstancePool.activeInstances p) by (apply Hall; set_solver).
    destruct (IH (InstancePool.release id p)) as (Hwf' & Hfree & Hact).
    + by apply PoolFacts.wf_release.
    + done.
    + intros i Hi. rewrite PoolFacts.release_active by done. simpl.
      assert (i <> id) by (intros ->; done).
      specialize (Hall i). set_solver.
    + split; [done|]. rewrite Hfree, Hact, PoolFacts.release_active by done. simpl.
      split; [by rewrite <- app_assoc | set_solver].
Qed.

(** ** The chunk map *)

Lemma mapGet_mapSet_eq {V} (k : Key) (v : V) m : mapGet k (mapSet k v m) = Some v.
Proof.
  induction m as [|[k' v'] m IH]; simpl.
  - by rewrite decide_True.
  - destruct (decide (k = k')) as [->|Hne]; simpl.
    + by rewrite decide_True.
    + by rewrite decide_False.
Qed.

Lemma mapGet_mapSet_ne {V} (k k' : Key) (v : V) m :
  k <> k' -> mapGet k' (mapSet k v m) = mapGet k' m.
Proof.
  intros Hne. induction m as [|[k0 v0] m IH]; simpl.
  - by rewrite decide_False.
  - destruct (decide (k = k0)) as [->|Hne0]; simpl.
    + by rewrite !decide_False.
    + destruct (decide (k' = k0)); [done | apply IH].
Qed.

Lemma mapGet_None {V} (k : Key) (m : list (Key * V)) :
  mapGet k m = None -> forall v, mapSet k v m = m ++ [(k, v)].
Proof.
  induction m as [|[k' v'] m IH]; simpl; [done|].
  destruct (decide (k = k')); [discriminate|].
  intros Hm v. by rewrite (IH Hm).
Qed.

Lemma mapGet_Some {V} (k : Key) (v0 : V) (m : list (Key * V)) :
  mapGet k m = Some v0 ->
  exists m1 m2 : list (Key * V),
    m = m1 ++ ((k, v0) :: m2) /\
    (forall v, mapSet k v m = m1 ++ ((k, v) :: m2)).
Proof.
  induction m as [|[k' v'] m IH]; simpl; [discriminate|].
  destruct (decide (k = k')) as [->|Hne].
  - intros [= ->]. by exists [], m.
  - intros Hm. destruct (IH Hm) as (m1 & m2 & -> & Hset).
    exists ((k', v') :: m1), m2. split; [done|]. intros v. by rewrite Hset.
Qed.

Lemma mapGet_elem {V} (k : Key) (v : V) (m : list (Key * V)) :
  mapGet k m = Some v -> (k, v) ∈ m.
Proof.
  intros (m1 & m2 & -> & _)%mapGet_Some. set_solver.
Qed.

Lemma elem_mapGet {V} (k : Key) (v : V) (m : list (Key * V)) :
  NoDup (map fst m) -> (k, v) ∈ m -> mapGet k m = Some v.
Proof.
  induction m as [|[k' v'] m IH]; simpl; [by intros _ ?%elem_of_nil|].
  intros [Hni Hnd]%NoDup_cons [[= -> ->]|Hin]%elem_of_cons.
  - by rewrite decide_True.
  - rewrite decide_False; [by apply IH|].
    intros ->. apply Hni. apply list_elem_of_fmap. by exists (k', v).
Qed.

Lemma keys_mapSet {V} (k : Key) (v : V) (m : list (Key * V)) :
  map fst (mapSet k v m)
  = match mapGet k m with Some _ => map fst m | None => map fst m ++ [k] end.
Proof.
  induction m as [|[k' v'] m IH]; simpl; [done|].
  destruct (decide (k = k')) as [->|Hne]; simpl; [done|].
  rewrite IH. by destruct (mapGet k m).
Qed.

Lemma NoDup_keys_mapSet {V} (k : Key) (v : V) (m : list (Key * V)) :
  NoDup (map fst m) -> NoDup (map fst (mapSet k v m)).
Proof.
  intros Hnd. rewrite keys_mapSet. destruct (mapGet k m) eqn:Hget; [done|].
  apply NoDup_app. split; [done|]. split; [|apply NoDup_singleton].
  intros k' Hin ->%list_elem_of_singleton.
  apply list_elem_of_fmap in Hin as ([k0 v0] & -> & Hin). simpl in Hget.
  apply elem_mapGet in Hin; [congruence | done].
Qed.

Lemma elem_mapSet {V} (k k' : Key) (v v' : V) (m : list (Key * V)) :
  (k', v') ∈ mapSet k v m -> (k', v') = (k, v) \/ (k', v') ∈ m.
Proof.
  induction m as [|[k0 v0] m IH]; simpl.
  - intros ->%list_elem_of_singleton. by left.
  - destruct (decide (k = k0)) as [->|Hne].
    + intros [->|Hin]%elem_of_cons; [by left | right; set_solver].
    + intros [->|Hin]%elem_of_cons; [right; set_solver|].
      destruct (IH Hin); [by left | right; set_solver].
Qed.

(** Storing a chunk under a key trades the handles of the chunk it
    replaces, if any, for its own. *)
Lemma heldBy_mapSet (k : Key) (c : ChunkData) (m : list (Key * ChunkData)) :
  match mapGet k m with Some c0 => instances c0 | None => [] end
    ++ heldBy (mapSet k c m)
  ≡ₚ instances c ++ heldBy m.
Proof.
  unfold heldBy. destruct (mapGet k m) as [c0|] eqn:Hget.
  - destruct (mapGet_Some k c0 m Hget) as (m1 & m2 & -> & Hset).
    rewrite Hset, !flat_map_app. simpl.
    rewrite !(Permutation_app_swap_app _ (flat_map _ m1)).
    apply Permutation_app_head. apply Permutation_app_swap_app.
  - rewrite (mapGet_None k m Hget), flat_map_app. simpl.
    rewrite app_nil_r. apply Permutation_app_comm.
Qed.

(** ** Activation and deactivation *)

#[local] Arguments visit : simpl never.
#[local] Arguments activateChunk : simpl never.
#[local] Arguments deactivateChunk : simpl never.
#[local] Arguments streamChunks : simpl never.
#[local] Arguments deactivateIfStale : simpl never.

Lemma Balanced_ext (s s' : System) :
  instancePool s' = instancePool s -> chunks s' = chunks s ->
  Balanced s -> Balanced s'.
Proof. intros Hp Hc [? ? ? ? ?]. split; rewrite ?Hp, ?Hc; done. Qed.

Lemma Balanced_new (now : JS.number) (c : BaseScatterConfig) :
  Balanced (Core.new now c).
Proof.
  split; simpl.
  - apply PoolFacts.wf_new.
  - constructor.
  - constructor.
  - intros id. set_solver.
  - intros k ch Hin. by apply elem_of_nil in Hin.
Qed.

Lemma activateChunk_Balanced populateChunk x z s s' :
  Disciplined populateChunk -> Balanced s ->
  dormant (getChunkKey x z) s = true ->
  activateChunk populateChunk x z s = Done s' -> Balanced s'.
Proof.
  intros Hd Hb Hdorm Hact. unfold activateChunk in Hact.
  destruct (populateChunk s (freshChunk s x z) x z) as [[s1 chunk]| |] eqn:Hpop;
    simpl in Hact; try discriminate.
  injection Hact as <-.
  destruct (Hd _ _ _ _ _ _ Hpop) as (Hchunks & _ & Hactive & ids & Hinst & Hacq).
  simpl in Hinst, Hactive.
  destruct (acquired_facts _ _ _ (bal_pool s Hb) Hacq) as (Hwf' & Hnd & Hfresh & Hact').
  set (key := getChunkKey x z) in *.
  assert (Hold : match mapGet key (chunks s) with
                 | Some c0 => instances c0 | None => [] end = []).
  { unfold dormant in Hdorm. destruct (mapGet key (chunks s)) as [c0|] eqn:E; [|done].
    apply (bal_inactive s Hb key); [by apply mapGet_elem | by apply negb_true_iff]. }
  pose proof (heldBy_mapSet key chunk (chunks s)) as Hperm.
  rewrite Hold, Hinst in Hperm. simpl in Hperm.
  split; simpl; rewrite ?Hchunks.
  - done.
  - apply NoDup_keys_mapSet, Hb.
  - rewrite Hperm. apply NoDup_app. split; [done|]. split; [|apply Hb].
    intros id Hid Hheld. apply (Hfresh id Hid). by apply (bal_active s Hb).
  - intros id. rewrite Hperm, Hact', elem_of_app, elem_of_union, elem_of_list_to_set.
    by rewrite (bal_active s Hb).
  - intros k c [[= -> ->]|Hin]%elem_mapSet Hfalse; [congruence|].
    by apply (bal_inactive s Hb k).
Qed.

Lemma releaseInstance_fold (ids : list Z) (s : System) :
  instancePool (fold_left releaseInstance ids s) = releaseAll ids (instancePool s) /\
  chunks (fold_left releaseInstance ids s) = chunks s /\
  events (fold_left releaseInstance ids s) = events s.
Proof.
  unfold releaseAll. revert s. induction ids as [|id ids IH]; intros s; simpl; [done|].
  destruct (IH (releaseInstance s id)) as (-> & -> & ->). done.
Qed.

(** What [deactivateChunk] does to a chunk of the map. *)
Lemma deactivateChunk_spec (key : Key) (chunk : ChunkData) (s : System) :
  Balanced s -> mapGet key (chunks s) = Some chunk ->
  Balanced (deactivateChunk key s) /\
  InstancePool.freeIds (instancePool (deactivateChunk key s))
    = InstancePool.freeIds (instancePool s) ++ instances chunk /\
  InstancePool.activeInstances (instancePool (deactivateChunk key s))
    = InstancePool.activeInstances (instancePool s) ∖ list_to_set (instances chunk) /\
  chunks (deactivateChunk key s)
    = mapSet key (chunkData [] false (noiseGenerator chunk) (bounds chunk)) (chunks s).
Proof.
  intros Hb Hget. unfold deactivateChunk. rewrite Hget.
  destruct (releaseInstance_fold (instances chunk) s) as (Hpool & Hchunks & _).
  set (s1 := fold_left releaseInstance (instances chunk) s) in *.
  set (chunk' := chunkData [] false (noiseGenerator chunk) (bounds chunk)).
  pose proof (heldBy_mapSet key chunk' (chunks s)) as Hperm.
  rewrite Hget in Hperm. simpl in Hperm.
  pose proof (bal_nodup s Hb) as Hnd. rewrite <- Hperm in Hnd.
  apply NoDup_app in Hnd as (Hnd1 & Hdisj & Hnd2).
  destruct (releaseAll_facts (instances chunk) (instancePool s)) as (Hwf' & Hfree & Hact).
  { apply Hb. } { done. }
  { intros id Hid. apply (bal_active s Hb). rewrite <- Hperm. set_solver. }
  simpl. rewrite Hpool, Hchunks. split; [|done].
  split; simpl; rewrite ?Hpool, ?Hchunks.
  - done.
  - apply NoDup_keys_mapSet, Hb.
  - done.
  - intros id. rewrite Hact, elem_of_difference, elem_of_list_to_set.
    rewrite <- (bal_active s Hb), <- Hperm, elem_of_app.
    split; [intros Hid; split; [by right | intros Hin; by apply (Hdisj id)] | tauto].
  - intros k c [[= -> ->]|Hin]%elem_mapSet Hfalse; [done|].
    by apply (bal_inactive s Hb k).
Qed.

Lemma deactivateChunk_Balanced (key : Key) (s : System) :
  Balanced s -> Balanced (deactivateChunk key s).
Proof.
  intros Hb. destruct (mapGet key (chunks s)) as [chunk|] eqn:Hget.
  - by apply (deactivateChunk_spec key chunk).
  - unfold deactivateChunk. by rewrite Hget.
Qed.

Lemma visit_Balanced populateChunk x z keys s keys' s' :
  Disciplined populateChunk -> Balanced s ->
  visit populateChunk x z (keys, s) = Done (keys', s') -> Balanced s'.
Proof.
  intros Hd Hb. unfold visit.
  destruct (match mapGet (getChunkKey x z) (chunks s) with
            | Some c => negb (isActive c) | None => true end) eqn:Hdorm.
  - destruct (activateChunk populateChunk x z s) as [s1| |] eqn:Hact; simpl; try discriminate.
    intros [= _ <-]. by apply (activateChunk_Balanced populateChunk x z s).
  - by intros [= _ <-].
Qed.

Lemma visitAll_Balanced populateChunk centers keys s keys' s' :
  Disciplined populateChunk -> Balanced s ->
  visitAll populateChunk centers (keys, s) = Done (keys', s') -> Balanced s'.
Proof.
  intros Hd. revert keys s.
  induction centers as [|[x z] centers IH]; simpl; intros keys s Hb.
  - by intros [= _ <-].
  - destruct (visit populateChunk x z (keys, s)) as [[keys1 s1]| |] eqn:Hv;
      simpl; try discriminate.
    apply IH. by apply (visit_Balanced populateChunk x z keys s keys1).
Qed.

Lemma deactivateIfStale_Balanced keys key s :
  Balanced s -> Balanced (deactivateIfStale keys s key).
Proof.
  intros Hb. unfold deactivateIfStale.
  destruct (mapGet key (chunks s)) as [c|]; [|done].
  destruct (negb (bool_decide (key ∈ keys)) && isActive c); [|done].
  by apply deactivateChunk_Balanced.
Qed.

Lemma deactivateStale_Balanced keys s : Balanced s -> Balanced (deactivateStale keys s).
Proof.
  unfold deactivateStale. generalize (map fst (chunks s)). intros ks. revert s.
  induction ks as [|k ks IH]; simpl; intros s Hb; [done|].
  by apply IH, deactivateIfStale_Balanced.
Qed.

Lemma streamChunks_Balanced populateChunk centers s s' :
  Disciplined populateChunk -> Balanced s ->
  streamChunks populateChunk centers s = Done s' -> Balanced s'.
Proof.
  intros Hd Hb. unfold streamChunks.
  destruct (visitAll populateChunk centers ([], s)) as [[keys s1]| |] eqn:Hv;
    simpl; try discriminate.
  intros [= <-]. apply deactivateStale_Balanced.
  by apply (visitAll_Balanced populateChunk centers [] s keys).
Qed.

Lemma frames_Balanced populateChunk fs s s' :
  Disciplined populateChunk -> Balanced s ->
  frames populateChunk fs s = Done s' -> Balanced s'.
Proof.
  intros Hd. revert s. induction fs as [|centers fs IH]; simpl; intros s Hb.
  - by intros [= <-].
  - destruct (streamChunks populateChunk centers s) as [s1| |] eqn:Hs;
      simpl; try discriminate.
    apply IH. by apply (streamChunks_Balanced populateChunk centers s).
Qed.

(** ** When no chunk is visible *)

Lemma deactivateChunk_chunks (key : Key) (s : System) :
  chunks (deactivateChunk key s)
  = match mapGet key (chunks s) with
    | Some chunk =>
        mapSet key (chunkData [] false (noiseGenerator chunk) (bounds chunk)) (chunks s)
    | None => chunks s
    end.
Proof.
  unfold deactivateChunk. destruct (mapGet key (chunks s)) as [chunk|]; [|done].
  simpl. by destruct (releaseInstance_fold (instances chunk) s) as (_ & -> & _).
Qed.

Lemma deactivateIfStale_nil_keys (k : Key) (s : System) :
  map fst (chunks (deactivateIfStale [] s k)) = map fst (chunks s).
Proof.
  unfold deactivateIfStale. destruct (mapGet k (chunks s)) as [c|] eqn:Hget; [|done].
  destruct (negb (bool_decide (k ∈ [])) && isActive c); [|done].
  by rewrite deactivateChunk_chunks, Hget, keys_mapSet, Hget.
Qed.

Lemma deactivateIfStale_nil_inactive (K : list Key) (k : Key) (s : System) :
  inactiveOn K s -> inactiveOn (k :: K) (deactivateIfStale [] s k).
Proof.
  intros HK k' c' Hin. unfold deactivateIfStale.
  destruct (mapGet k (chunks s)) as [c|] eqn:Hget.
  - rewrite bool_decide_false by apply not_elem_of_nil. simpl.
    destruct (isActive c) eqn:Hact.
    + rewrite deactivateChunk_chunks, Hget.
      destruct (decide (k = k')) as [<-|Hne].
      * rewrite mapGet_mapSet_eq. by intros [= <-].
      * rewrite mapGet_mapSet_ne by done. apply HK. set_solver.
    + destruct (decide (k = k')) as [<-|Hne]; [congruence|]. apply HK. set_solver.
  - destruct (decide (k = k')) as [<-|Hne]; [congruence|]. apply HK. set_solver.
Qed.

Lemma deactivateStale_nil_fold (ks K : list Key) (s : System) :
  inactiveOn K s ->
  inactiveOn (ks ++ K) (fold_left (deactivateIfStale []) ks s) /\
  map fst (chunks (fold_left (deactivateIfStale []) ks s)) = map fst (chunks s).
Proof.
  revert K s. induction ks as [|k ks IH]; simpl; intros K s HK; [done|].
  destruct (IH (k :: K) (deactivateIfStale [] s k)) as (Hin & Hkeys).
  { by apply deactivateIfStale_nil_inactive. }
  split.
  - intros k' c' Hk'. apply Hin. set_solver.
  - by rewrite Hkeys, deactivateIfStale_nil_keys.
Qed.

(** Once a frame finds no chunk visible, no handle is active. *)
Lemma streamChunks_nil populateChunk (s : System) :
  Balanced s ->
  exists s', streamChunks populateChunk [] s = Done s' /\
             Balanced s' /\
             (forall k c, (k, c) ∈ chunks s' -> isActive c = false) /\
             InstancePool.getActiveCount (instancePool s') = 0.
Proof.
  intros Hb. exists (deactivateStale [] s). split; [done|].
  pose proof (deactivateStale_Balanced [] s Hb) as Hb'.
  assert (Hall : forall k c, (k, c) ∈ chunks (deactivateStale [] s) -> isActive c = false).
  { unfold deactivateStale in *.
    destruct (deactivateStale_nil_fold (map fst (chunks s)) [] s) as (Hin & Hkeys).
    { intros k c Hk. by apply elem_of_nil in Hk. }
    intros k c Hkc. apply (Hin k c).
    - rewrite app_nil_r, <- Hkeys. apply list_elem_of_fmap. by exists (k, c).
    - apply elem_mapGet; [apply Hb' | done]. }
  split; [done|]. split; [done|].
  assert (Hheld : heldBy (chunks (deactivateStale [] s)) = []).
  { unfold heldBy. generalize (bal_inactive _ Hb'). revert Hall.
    generalize (chunks (deactivateStale [] s)). intros m.
    induction m as [|[k c] m IH]; simpl; intros Hall Hinact; [done|].
    rewrite (Hinact k c), IH; [done | | | set_solver | ].
    - intros k' c' Hin. apply (Hall k' c'). set_solver.
    - intros k' c' Hin. apply (Hinact k' c'). set_solver.
    - apply (Hall k c). set_solver. }
  unfold InstancePool.getActiveCount.
  assert (Hempty : InstancePool.activeInstances (instancePool (deactivateStale [] s)) = ∅).
  { apply set_eq. intros id. rewrite <- (bal_active _ Hb'), Hheld. set_solver. }
  by rewrite Hempty, size_empty.
Qed.

(** ** The strategies keep the pool discipline *)

Lemma grows_refl s c : grows s c s c.
Proof. do 3 (split; [done|]). exists []. by rewrite app_nil_r. Qed.

Lemma grows_trans s1 c1 s2 c2 s3 c3 :
  grows s1 c1 s2 c2 -> grows s2 c2 s3 c3 -> grows s1 c1 s3 c3.
Proof.
  intros (Hc1 & He1 & Ha1 & ids1 & Hi1 & Hq1) (Hc2 & He2 & Ha2 & ids2 & Hi2 & Hq2).
  do 3 (split; [congruence|]).
  exists (ids1 ++ ids2). split; [by rewrite Hi2, Hi1, app_assoc|].
  by apply (acquired_app _ _ (instancePool s2)).
Qed.

Lemma grows_push s c id pool' conv :
  InstancePool.acquire (instancePool s) = (Some id, pool') ->
  grows s c (setConverter conv (setPool pool' s)) (pushInstance id c).
Proof.
  intros Hacq. do 3 (split; [done|]).
  exists [id]. split; [done|]. simpl. by exists pool'.
Qed.
End Lifecycle.

Module Discipline.
Import Core BaseScatterSystem Streaming Props Lifecycle.

(** Splits the pairs that the generator calls of a step return. *)
Ltac draw :=
  repeat match goal with
  | |- context [SeededRandom.range ?a ?b ?r] =>
      destruct (SeededRandom.range a b r) as [? ?]
  | |- context [SeededRandom.next ?r] =>
      destruct (SeededRandom.next r) as [? ?]
  end.

Lemma grid_cell_grows g b gx gz st flow st' :
  GridScatterSystem.cell g b gx gz st = (flow, st') ->
  grows (GridScatterSystem.sys st) (GridScatterSystem.chunk st)
        (GridScatterSystem.sys st') (GridScatterSystem.chunk st').
Proof.
  unfold GridScatterSystem.cell.
  destruct (match GridScatterSystem.skipPattern g with
            | Some f => f gx gz | None => false end).
  { intros [= _ <-]. apply grows_refl. }
  draw.
  destruct (negb (THREE.containsPoint b _)).
  { intros [= _ <-]. apply grows_refl. }
  destruct (InstancePool.acquire _) as [[id|] pool'] eqn:Hacq.
  - draw. intros [= _ <-]. simpl. by apply grows_push.
  - intros [= _ <-]. apply grows_refl.
Qed.

Lemma grid_column_grows fuel g b gx gz st st' :
  GridScatterSystem.column fuel g b gx gz st = Done st' ->
  grows (GridScatterSystem.sys st) (GridScatterSystem.chunk st)
        (GridScatterSystem.sys st') (GridScatterSystem.chunk st').
Proof.
  revert gz st. induction fuel as [|fuel IH]; simpl; intros gz st.
  - destruct (gz <? _)%float; [discriminate|]. intros [= <-]. apply grows_refl.
  - destruct (gz <? _)%float; [|intros [= <-]; apply grows_refl].
    destruct (GridScatterSystem.cell g b gx gz st) as [[|] st1] eqn:Hcell.
    + intros H. eapply grows_trans; [by eapply grid_cell_grows | by eapply IH].
    + intros [= <-]. by eapply grid_cell_grows.
Qed.

Lemma grid_columns_grows fuel g b gx st st' :
  GridScatterSystem.columns fuel g b gx st = Done st' ->
  grows (GridScatterSystem.sys st) (GridScatterSystem.chunk st)
        (GridScatterSystem.sys st') (GridScatterSystem.chunk st').
Proof.
  revert gx st. induction fuel as [|fuel IH]; intros gx st.
  - simpl. destruct (gx <? _)%float; [discriminate|]. intros [= <-]. apply grows_refl.
  - cbn [GridScatterSystem.columns].
    destruct (gx <? _)%float; [|intros [= <-]; apply grows_refl].
    destruct (GridScatterSystem.column (S fuel) g b gx 0 st) as [st1| |] eqn:Hcol;
      try discriminate.
    cbn [bind]. intros H.
    eapply grows_trans; [by eapply grid_column_grows | by eapply IH].
Qed.

Lemma grid_disciplined fuel g : Disciplined (GridScatterSystem.populateChunk fuel g).
Proof.
  intros s c x z s' c'. unfold GridScatterSystem.populateChunk.
  destruct (GridScatterSystem.columns _ _ _ _ _) as [st| |] eqn:Hcols; try discriminate.
  cbn [bind]. intros [= <- <-]. by apply grid_columns_grows in Hcols.
Qed.

Lemma radial_attempt_grows m fuel r b st flow st' :
  RadialScatterSystem.attempt m fuel r b st = Done (flow, st') ->
  grows (RadialScatterSystem.sys st) (RadialScatterSystem.chunk st)
        (RadialScatterSystem.sys st') (RadialScatterSystem.chunk st').
Proof.
  unfold RadialScatterSystem.attempt. draw.
  destruct (if (0 <? _)%float then _ else _) as [radius r2]. draw.
  destruct (negb (THREE.containsPoint b _)).
  { intros [= _ <-]. apply grows_refl. }
  destruct (match noiseGenerator _ with Some _ => _ | None => _ end) as [accept| |];
    try discriminate.
  cbn [bind]. destruct (negb accept).
  { intros [= _ <-]. apply grows_refl. }
  destruct (InstancePool.acquire _) as [[id|] pool'] eqn:Hacq.
  - draw. intros [= _ <-]. simpl. by apply grows_push.
  - intros [= _ <-]. apply grows_refl.
Qed.

Lemma radial_placeLoop_grows fuel m r b target maxAttempts st e st' :
  RadialScatterSystem.placeLoop fuel m r b target maxAttempts st = Done (e, st') ->
  grows (RadialScatterSystem.sys st) (RadialScatterSystem.chunk st)
        (RadialScatterSystem.sys st') (RadialScatterSystem.chunk st').
Proof.
  revert st. induction fuel as [|fuel IH]; intros st.
  - simpl. destruct (_ && _); [discriminate|]. intros [= _ <-]. apply grows_refl.
  - cbn [RadialScatterSystem.placeLoop].
    destruct (_ && _); [|intros [= _ <-]; apply grows_refl].
    destruct (RadialScatterSystem.attempt m (S fuel) r b st) as [[[|] st1]| |] eqn:Hatt;
      try discriminate; cbn [bind].
    + intros H. eapply grows_trans; [by eapply radial_attempt_grows | by eapply IH].
    + intros [= _ <-]. by eapply radial_attempt_grows.
Qed.

Lemma radial_disciplined fuel m r :
  Disciplined (RadialScatterSystem.populateChunk fuel m r).
Proof.
  intros s c x z s' c'. unfold RadialScatterSystem.populateChunk, RadialScatterSystem.populate.
  destruct (RadialScatterSystem.placeLoop _ _ _ _ _ _ _) as [[e st]| |] eqn:Hloop;
    try discriminate.
  cbn [bind]. intros [= <- <-]. by apply radial_placeLoop_grows in Hloop.
Qed.

Lemma curve_place_grows l c point tangent t dpp w st flow st' :
  CurveScatterSystem.place l c point tangent t dpp w st = Done (flow, st') ->
  grows (CurveScatterSystem.sys st) (CurveScatterSystem.chunk st)
        (CurveScatterSystem.sys st') (CurveScatterSystem.chunk st').
Proof.
  unfold CurveScatterSystem.place.
  destruct (InstancePool.acquire _) as [[id|] pool'] eqn:Hacq.
  2: { intros [= _ <-]. apply grows_refl. }
  destruct (if _ && _ then _ else _) as [p1| |]; try discriminate. cbn [bind].
  destruct (match CurveScatterSystem.offsetRange c with
            | Some _ => _ | None => _ end) as [[p2 r1]| |]; try discriminate.
  cbn [bind].
  destruct (if cAlignToNormal _ then _ else _) as [rotation| |]; try discriminate.
  cbn [bind]. draw.
  destruct (match CurveScatterSystem.handlesFor c with
            | Some _ => _ | None => _ end) as [baseScale| |]; try discriminate.
  cbn [bind]. intros [= _ <-]. simpl. by apply grows_push.
Qed.

Lemma curve_across_grows fuel l c point tangent t dpp w st st' :
  CurveScatterSystem.across fuel l c point tangent t dpp w st = Done st' ->
  grows (CurveScatterSystem.sys st) (CurveScatterSystem.chunk st)
        (CurveScatterSystem.sys st') (CurveScatterSystem.chunk st').
Proof.
  revert w st. induction fuel as [|fuel IH]; intros w st.
  - simpl. destruct (w <? dpp)%float; [discriminate|]. intros [= <-]. apply grows_refl.
  - cbn [CurveScatterSystem.across].
    destruct (w <? dpp)%float; [|intros [= <-]; apply grows_refl].
    destruct (CurveScatterSystem.place l c point tangent t dpp w st)
      as [[[|] st1]| |] eqn:Hplace; try discriminate; cbn [bind].
    + intros H. eapply grows_trans; [by eapply curve_place_grows | by eapply IH].
    + intros [= <-]. by eapply curve_place_grows.
Qed.

Lemma curve_along_grows fuel l c b i rest st st' :
  CurveScatterSystem.along fuel l c b i rest st = Done st' ->
  grows (CurveScatterSystem.sys st) (CurveScatterSystem.chunk st)
        (CurveScatterSystem.sys st') (CurveScatterSystem.chunk st').
Proof.
  revert i st. induction rest as [|point rest IH]; intros i st.
  - intros [= <-]. apply grows_refl.
  - cbn [CurveScatterSystem.along].
    destruct (negb (THREE.containsPoint b point)); [apply IH|].
    destruct (CurveScatterSystem.across _ _ _ _ _ _ _ _ _) as [st1| |] eqn:Hacross;
      try discriminate.
    cbn [bind]. intros H.
    eapply grows_trans; [by eapply curve_across_grows | by eapply IH].
Qed.

Lemma curve_disciplined fuel l c :
  Disciplined (CurveScatterSystem.populateChunk fuel l c).
Proof.
  intros s ch x z s' c'. unfold CurveScatterSystem.populateChunk.
  destruct (CurveScatterSystem.along _ _ _ _ _ _ _) as [st| |] eqn:Halong;
    try discriminate.
  cbn [bind]. intros [= <- <-]. by apply curve_along_grows in Halong.
Qed.

(** ** The grid's [updateChunks] is a frame over the centers it scans *)

Lemma visitAll_app populateChunk cs1 cs2 st st1 st2 :
  visitAll populateChunk cs1 st = Done st1 ->
  visitAll populateChunk cs2 st1 = Done st2 ->
  visitAll populateChunk (cs1 ++ cs2) st = Done st2.
Proof.
  revert st. induction cs1 as [|[x z] cs1 IH]; intros st; cbn [visitAll app].
  - by intros [= <-].
  - destruct (visit populateChunk x z st) as [st'| |]; try discriminate.
    cbn [bind]. apply IH.
Qed.

Lemma grid_scanCell_visits g cam pfuel visRange chunkSize x z st st' :
  GridScatterSystem.scanCell g cam pfuel visRange chunkSize x z st = Done st' ->
  exists centers,
    visitAll (GridScatterSystem.populateChunk pfuel g) centers st = Done st'.
Proof.
  unfold GridScatterSystem.scanCell.
  destruct (_ <=? visRange)%float; [|intros [= <-]; by exists []].
  destruct (negb _); [intros [= <-]; by exists []|].
  intros Hv. eexists [(_, _)]. cbn [visitAll]. rewrite Hv. done.
Qed.

Lemma grid_scanZ_visits fuel g cam pfuel visRange chunkSize x z maxZ st st' :
  GridScatterSystem.scanZ fuel g cam pfuel visRange chunkSize x z maxZ st = Done st' ->
  exists centers,
    visitAll (GridScatterSystem.populateChunk pfuel g) centers st = Done st'.
Proof.
  revert z st. induction fuel as [|fuel IH]; intros z st; cbn [GridScatterSystem.scanZ].
  - destruct (z <=? maxZ)%float; [discriminate|]. intros [= <-]. by exists [].
  - destruct (z <=? maxZ)%float; [|intros [= <-]; by exists []].
    destruct (GridScatterSystem.scanCell _ _ _ _ _ _ _ _) as [st1| |] eqn:Hcell;
      try discriminate.
    cbn [bind]. intros Hrest.
    destruct (grid_scanCell_visits _ _ _ _ _ _ _ _ _ Hcell) as (cs1 & H1).
    destruct (IH _ _ Hrest) as (cs2 & H2).
    exists (cs1 ++ cs2). by eapply visitAll_app.
Qed.

Lemma grid_scanX_visits fuel g cam pfuel visRange chunkSize x maxX minZ maxZ st st' :
  GridScatterSystem.scanX fuel g cam pfuel visRange chunkSize x maxX minZ maxZ st
    = Done st' ->
  exists centers,
    visitAll (GridScatterSystem.populateChunk pfuel g) centers st = Done st'.
Proof.
  revert x st. induction fuel as [|fuel IH]; intros x st; cbn [GridScatterSystem.scanX].
  - destruct (x <=? maxX)%float; [discriminate|]. intros [= <-]. by exists [].
  - destruct (x <=? maxX)%float; [|intros [= <-]; by exists []].
    destruct (GridScatterSystem.scanZ _ _ _ _ _ _ _ _ _ _) as [st1| |] eqn:Hz;
      try discriminate.
    cbn [bind]. intros Hrest.
    destruct (grid_scanZ_visits _ _ _ _ _ _ _ _ _ _ _ Hz) as (cs1 & H1).
    destruct (IH _ _ Hrest) as (cs2 & H2).
    exists (cs1 ++ cs2). by eapply visitAll_app.
Qed.

(** A frame of the grid system is a frame of the streaming core over the
    chunk centers that the grid's scan finds visible. *)
Lemma grid_update_streams fuel g cam s s' :
  GridScatterSystem.update fuel g cam s = Done s' ->
  (isInitialized s = false /\ s' = s) \/
  exists centers,
    streamChunks (GridScatterSystem.populateChunk fuel g) centers (beginUpdate cam s)
      = Done s'.
Proof.
  unfold GridScatterSystem.update.
  destruct (isInitialized s); [|intros [= <-]; by left].
  cbn [negb]. unfold GridScatterSystem.updateChunks. cbn [beginUpdate setCamera currentCamera].
  destruct (GridScatterSystem.scanX _ _ _ _ _ _ _ _ _ _ _) as [[keys s1]| |] eqn:Hx;
    try discriminate.
  cbn [bind]. intros [= <-]. right.
  destruct (grid_scanX_visits _ _ _ _ _ _ _ _ _ _ _ _ Hx) as (centers & Hv).
  exists centers. unfold streamChunks. by rewrite Hv.
Qed.
End Discipline.

Module RadialFacts.
Import Core BaseScatterSystem Streaming Props RadialScatterSystem.

(** An attempt that breaks out of the loop found the pool empty and left
    the system, the chunk and the placed count as they were. *)
Lemma attempt_break m fuel r b st st' :
  attempt m fuel r b st = Done (Break, st') ->
  fst (InstancePool.acquire (instancePool (sys st))) = None /\
  sys st' = sys st /\ chunk st' = chunk st /\ placed st' = placed st.
Proof.
  unfold attempt. Discipline.draw.
  destruct (if (0 <? _)%float then _ else _) as [radius r2]. Discipline.draw.
  destruct (negb (THREE.containsPoint b _)); [discriminate|].
  destruct (match noiseGenerator _ with Some _ => _ | None => _ end) as [accept| |];
    try discriminate.
  cbn [bind]. destruct (negb accept); [discriminate|].
  destruct (InstancePool.acquire _) as [[id|] pool'] eqn:Hacq.
  - Discipline.draw. discriminate.
  - by intros [= <-].
Qed.

(** A loop left through [break] ends in the state of the attempt that
    found the pool empty: nothing is done after it. *)
Lemma placeLoop_exhausted fuel m r b target maxAttempts st st' :
  placeLoop fuel m r b target maxAttempts st = Done (PoolExhausted, st') ->
  exists fuel0 st0,
    attempt m fuel0 r b st0 = Done (Break, st') /\
    fst (InstancePool.acquire (instancePool (sys st'))) = None /\
    sys st' = sys st0 /\ chunk st' = chunk st0 /\ placed st' = placed st0.
Proof.
  revert st. induction fuel as [|fuel IH]; intros st.
  - simpl. destruct (_ && _); discriminate.
  - cbn [placeLoop]. destruct (_ && _); [|discriminate].
    destruct (attempt m (S fuel) r b st) as [[[|] st1]| |] eqn:Hatt;
      try discriminate; cbn [bind].
    + apply IH.
    + intros [= <-]. exists (S fuel), st.
      destruct (attempt_break _ _ _ _ _ _ Hatt) as (Hnone & Hsys & Hchunk & Hplaced).
      split; [done|]. by rewrite Hsys.
Qed.

(** An attempt on a chunk that has its noise field does not throw, and the
    chunk keeps its noise field. *)
Lemma attempt_does_not_throw m fuel r b st :
  noiseGenerator (chunk st) <> None ->
  match attempt m fuel r b st with
  | Done (_, st') => noiseGenerator (chunk st') = noiseGenerator (chunk st)
  | TypeError => False
  | OutOfFuel => True
  end.
Proof.
  intros Hnoise. unfold attempt. Discipline.draw.
  destruct (if (0 <? _)%float then _ else _) as [radius r2]. Discipline.draw.
  destruct (negb (THREE.containsPoint b _)); [done|].
  destruct (noiseGenerator (chunk st)) as [noise|] eqn:Hn; [|done].
  destruct (shouldPlaceInstance m fuel (sys st) _ _ noise) as [accept|]; [|done].
  cbn [ofFuel bind]. destruct (negb accept); [exact Hn|].
  destruct (InstancePool.acquire _) as [[id|] pool']; [|exact Hn].
  Discipline.draw. exact Hn.
Qed.

Lemma placeLoop_does_not_throw fuel m r b target maxAttempts st :
  noiseGenerator (chunk st) <> None ->
  placeLoop fuel m r b target maxAttempts st <> TypeError.
Proof.
  revert st. induction fuel as [|fuel IH]; intros st Hnoise.
  - simpl. by destruct (_ && _).
  - cbn [placeLoop]. destruct (_ && _); [|done].
    pose proof (attempt_does_not_throw m (S fuel) r b st Hnoise) as Hatt.
    destruct (attempt m (S fuel) r b st) as [[[|] st1]| |]; cbn [bind]; try done.
    apply IH. by rewrite Hatt.
Qed.

(** Activating a chunk of the radial strategy never throws. *)
Lemma radial_activation_does_not_throw fuel m r x z s :
  activateChunk (populateChunk fuel m r) x z s <> TypeError.
Proof.
  unfold activateChunk, populateChunk, populate.
  pose proof (placeLoop_does_not_throw fuel m r
    (populateBounds r (cChunkSize (config s)) x z)
    (JS.floor (cChunkSize (config s) * cChunkSize (config s) * cDensity (config s)))
    (JS.floor (cChunkSize (config s) * cChunkSize (config s) * cDensity (config s)) * 5)
    (placing (chunkRng (config s) x z) s (freshChunk s x z) 0 0)) as Hloop.
  destruct (placeLoop _ _ _ _ _ _ _) as [[e st]| |]; cbn [bind]; try done.
  intros _. by apply Hloop.
Qed.

(** When the attempt made at the head of the loop finds the pool empty,
    the loop returns at once, whatever fuel is left. *)
Lemma break_exits_at_once fuel m r b target maxAttempts st st' :
  (placed st <? target)%float && (attempts st <? maxAttempts)%float = true ->
  attempt m (S fuel) r b st = Done (Break, st') ->
  placeLoop (S fuel) m r b target maxAttempts st = Done (PoolExhausted, st').
Proof. intros Htest Hatt. cbn [placeLoop]. by rewrite Htest, Hatt. Qed.
End RadialFacts.

Module PoolLedger.
Import InstancePool Props PoolFacts.

Lemma wf_clear (p : t) : wf (clear p).
Proof. split; simpl; try set_solver; try lia. constructor. Qed.

Lemma wf_serve (p : t) (r : request) : wf p -> wf (serve p r).
Proof.
  destruct r; simpl; [apply wf_acquire | apply wf_release | intros _; apply wf_clear].
Qed.

Lemma wf_serveAll (rs : list request) (p : t) : wf p -> wf (serveAll p rs).
Proof.
  unfold serveAll. revert p. induction rs as [|r rs IH]; simpl; [done|].
  intros p Hp. apply IH, wf_serve, Hp.
Qed.

Lemma maxInstances_serve (p : t) (r : request) : maxInstances (serve p r) = maxInstances p.
Proof.
  destruct r as [|id|]; simpl; [| |done].
  - unfold acquire. destruct (pop (freeIds p)) as [[i rest]|]; [done|].
    by destruct (nextId p <? maxInstances p).
  - unfold release. by destruct (decide (id ∈ activeInstances p)).
Qed.

Lemma maxInstances_serveAll (rs : list request) (p : t) :
  maxInstances (serveAll p rs) = maxInstances p.
Proof.
  unfold serveAll. revert p. induction rs as [|r rs IH]; simpl; [done|].
  intros p. by rewrite IH, maxInstances_serve.
Qed.

(** An active handle stays active until it is released or the pool is
    cleared. *)
Lemma held_serve (p : t) (r : request) (id : Z) :
  wf p -> id ∈ activeInstances p -> r <> DoRelease id -> r <> DoClear ->
  id ∈ activeInstances (serve p r).
Proof.
  intros Hwf Hin Hrel Hclear. destruct r as [|id'|]; simpl; [| |done].
  - destruct (acquire p) as [[got|] p'] eqn:Hacq; simpl.
    + destruct (acquire_Some p p' got Hwf Hacq) as (_ & -> & _). set_solver.
    + by rewrite (acquire_None p p' Hacq).
  - unfold release. destruct (decide (id' ∈ activeInstances p)); [|done].
    simpl. assert (id <> id') by congruence. set_solver.
Qed.

Lemma held_serveAll (rs : list request) (p : t) (id : Z) :
  wf p -> id ∈ activeInstances p ->
  Forall (fun r => r <> DoRelease id /\ r <> DoClear) rs ->
  id ∈ activeInstances (serveAll p rs).
Proof.
  unfold serveAll. revert p. induction rs as [|r rs IH]; simpl; [done|].
  intros p Hwf Hin Hall. apply Forall_cons in Hall as [[Hrel Hclear] Hall].
  apply IH; [by apply wf_serve | by apply held_serve | done].
Qed.

Lemma conserved_acquire (p : t) : wf p -> conserved p -> conserved (snd (acquire p)).
Proof.
  intros Hwf Hc. unfold conserved, acquire in *.
  destruct (pop (freeIds p)) as [[i rest]|] eqn:Hpop.
  - apply pop_Some in Hpop. simpl. rewrite Hpop in Hc.
    rewrite length_app in Hc. simpl in Hc.
    assert (i ∉ activeInstances p).
    { apply (wf_disjoint p Hwf). rewrite Hpop. set_solver. }
    rewrite size_union by set_solver. rewrite size_singleton. lia.
  - destruct (nextId p <? maxInstances p); [|done]. simpl.
    assert (nextId p ∉ activeInstances p).
    { intros Hin. apply (wf_active p Hwf) in Hin. lia. }
    rewrite size_union by set_solver. rewrite size_singleton. lia.
Qed.

Lemma conserved_release (p : t) (id : Z) : conserved p -> conserved (release id p).
Proof.
  intros Hc. unfold conserved, release in *.
  destruct (decide (id ∈ activeInstances p)) as [Hin|]; [|done]. simpl.
  rewrite length_app. simpl.
  assert (Hs : size (activeInstances p) = S (size (activeInstances p ∖ {[id]}))).
  { rewrite (union_difference_singleton_L id (activeInstances p) Hin) at 1.
    rewrite size_union by set_solver. by rewrite size_singleton. }
  lia.
Qed.

Lemma conserved_serveAll (rs : list request) (p : t) :
  wf p -> conserved p -> conserved (serveAll p rs).
Proof.
  unfold serveAll. revert p. induction rs as [|r rs IH]; simpl; [done|].
  intros p Hwf Hc. apply IH; [by apply wf_serve|].
  destruct r; simpl; [by apply conserved_acquire | by apply conserved_release | done].
Qed.

Lemma conserved_new (n : Z) : conserved (new n).
Proof. done. Qed.

(** The pool in which the handles below [k] are all active. *)
Lemma acquireMany_fresh (m extra : nat) (p : t) (k : nat) :
  freeIds p = [] -> nextId p = Z.of_nat k -> maxInstances p = Z.of_nat (k + m) ->
  fst (acquireMany (m + extra) p)
  = map (fun i => Some (Z.of_nat i)) (seq k m) ++ repeat None extra.
Proof.
  revert p k. induction m as [|m IH]; intros [act free next max] k; simpl;
    intros -> -> ->.
  - induction extra as [|e IHe]; [done|].
    simpl. unfold acquire. simpl.
    replace (Z.of_nat k <? Z.of_nat (k + 0)) with false by (symmetry; apply Z.ltb_ge; lia).
    destruct (acquireMany e _) as [rs p2]. simpl in *. by rewrite IHe.
  - unfold acquire at 1. simpl.
    replace (Z.of_nat k <? Z.of_nat (k + S m)) with true by (symmetry; apply Z.ltb_lt; lia).
    specialize (IH (mk ({[Z.of_nat k]} ∪ act) [] (Z.of_nat k + 1) (Z.of_nat (k + S m)))
                  (S k) eq_refl).
    destruct (acquireMany (m + extra) _) as [rs p2]. simpl in *.
    rewrite IH; [done | lia | lia].
Qed.

End PoolLedger.

Module FrameFacts.
Import Core BaseScatterSystem Streaming Props Lifecycle.

#[local] Arguments visit : simpl never.
#[local] Arguments activateChunk : simpl never.
#[local] Arguments deactivateChunk : simpl never.
#[local] Arguments streamChunks : simpl never.
#[local] Arguments deactivateIfStale : simpl never.

Lemma elem_addKey (k key : Key) (keys : list Key) :
  k ∈ addKey key keys <-> k ∈ keys \/ k = key.
Proof.
  unfold addKey. destruct (decide (key ∈ keys)); [|set_solver].
  split; [auto|]. intros [?| ->]; done.
Qed.

Lemma dormant_false (key : Key) (s : System) :
  dormant key s = false <-> exists c, mapGet key (chunks s) = Some c /\ isActive c = true.
Proof.
  unfold dormant. destruct (mapGet key (chunks s)) as [c|].
  - rewrite negb_false_iff. split; [by exists c | by intros (? & [= <-] & ?)].
  - split; [done | by intros (? & ? & _)].
Qed.

Lemma dormant_ext (key : Key) (s s' : System) :
  chunks s' = chunks s -> dormant key s' = dormant key s.
Proof. unfold dormant. by intros ->. Qed.

(** What [activateChunk] does to the chunk table and the event log. *)
Lemma activateChunk_spec populateChunk x z s s' :
  Disciplined populateChunk ->
  activateChunk populateChunk x z s = Done s' ->
  exists chunk,
    chunks s' = mapSet (getChunkKey x z) chunk (chunks s) /\
    isActive chunk = true /\
    events s' = events s ++ [ChunkActivated (getChunkKey x z) (length (instances chunk))].
Proof.
  intros Hd Hact. unfold activateChunk in Hact.
  destruct (populateChunk s (freshChunk s x z) x z) as [[s1 chunk]| |] eqn:Hpop;
    simpl in Hact; try discriminate.
  injection Hact as <-.
  destruct (Hd _ _ _ _ _ _ Hpop) as (Hchunks & Hevents & Hactive & _).
  exists chunk. simpl. rewrite Hchunks, Hevents. done.
Qed.

Lemma activateChunk_dormant populateChunk x z s s' (k : Key) :
  Disciplined populateChunk ->
  activateChunk populateChunk x z s = Done s' ->
  dormant k s' = if decide (k = getChunkKey x z) then false else dormant k s.
Proof.
  intros Hd Hact.
  destruct (activateChunk_spec _ _ _ _ _ Hd Hact) as (chunk & Hchunks & Hactive & _).
  unfold dormant. rewrite Hchunks.
  destruct (decide (k = getChunkKey x z)) as [->|Hne].
  - by rewrite mapGet_mapSet_eq, Hactive.
  - by rewrite mapGet_mapSet_ne.
Qed.

(** What [deactivateChunk] does to the chunk table and the event log. *)
Lemma deactivateChunk_events (key : Key) (s : System) :
  events (deactivateChunk key s)
  = match mapGet key (chunks s) with
    | Some _ => events s ++ [ChunkDeactivated key]
    | None => events s
    end.
Proof.
  unfold deactivateChunk. destruct (mapGet key (chunks s)) as [chunk|]; [|done].
  simpl. by destruct (releaseInstance_fold (instances chunk) s) as (_ & _ & ->).
Qed.

Lemma deactivateChunk_dormant (key k : Key) (s : System) :
  dormant k (deactivateChunk key s) = if decide (k = key) then true else dormant k s.
Proof.
  unfold dormant at 1. rewrite deactivateChunk_chunks. unfold dormant.
  destruct (mapGet key (chunks s)) as [chunk|] eqn:Hget.
  - destruct (decide (k = key)) as [->|Hne].
    + by rewrite mapGet_mapSet_eq.
    + by rewrite mapGet_mapSet_ne.
  - destruct (decide (k = key)) as [->|Hne]; [by rewrite Hget | done].
Qed.

(** ** One visit *)

Lemma visit_spec populateChunk x z keys s keys' s' :
  visit populateChunk x z (keys, s) = Done (keys', s') ->
  keys' = addKey (getChunkKey x z) keys /\
  (if dormant (getChunkKey x z) s
   then activateChunk populateChunk x z s = Done s'
   else s' = s).
Proof.
  unfold visit, dormant, addKey.
  destruct (match mapGet (getChunkKey x z) (chunks s) with
            | Some c => negb (isActive c) | None => true end).
  - destruct (activateChunk populateChunk x z s) as [s1| |]; simpl; try discriminate.
    by intros [= <- <-].
  - by intros [= <- <-].
Qed.

Lemma visit_awake populateChunk x z keys s :
  dormant (getChunkKey x z) s = false ->
  visit populateChunk x z (keys, s) = Done (addKey (getChunkKey x z) keys, s).
Proof. unfold visit, dormant, addKey. by intros ->. Qed.

Lemma visit_dormant populateChunk x z keys s keys' s' (k : Key) :
  Disciplined populateChunk ->
  visit populateChunk x z (keys, s) = Done (keys', s') ->
  dormant k s' = if decide (k = getChunkKey x z) then false else dormant k s.
Proof.
  intros Hd Hv. destruct (visit_spec _ _ _ _ _ _ _ Hv) as (_ & Hs).
  destruct (dormant (getChunkKey x z) s) eqn:Hdorm.
  - by apply (activateChunk_dormant populateChunk).
  - subst s'. destruct (decide (k = getChunkKey x z)) as [->|]; done.
Qed.

(** ** All the visits of a frame *)

Lemma visitAll_spec populateChunk centers keys s keys' s' :
  Disciplined populateChunk ->
  visitAll populateChunk centers (keys, s) = Done (keys', s') ->
  (forall k, k ∈ keys' <-> k ∈ keys \/ k ∈ keysOf centers) /\
  (forall k, dormant k s' = false <-> dormant k s = false \/ k ∈ keysOf centers).
Proof.
  intros Hd. revert keys s.
  induction centers as [|[x z] centers IH]; intros keys s; simpl.
  - intros [= <- <-]. unfold keysOf. simpl. split; intros k; set_solver.
  - destruct (visit populateChunk x z (keys, s)) as [[keys1 s1]| |] eqn:Hv;
      simpl; try discriminate.
    intros Hrest. destruct (IH _ _ Hrest) as (Hk & Hdm).
    destruct (visit_spec _ _ _ _ _ _ _ Hv) as (-> & _).
    unfold keysOf in *. simpl. split; intros k.
    + rewrite Hk, elem_addKey, elem_of_cons. tauto.
    + rewrite Hdm, (visit_dormant _ _ _ _ _ _ _ k Hd Hv), elem_of_cons.
      destruct (decide (k = getChunkKey x z)); tauto.
Qed.

Lemma visitAll_keys populateChunk centers keys s keys' s' :
  visitAll populateChunk centers (keys, s) = Done (keys', s') ->
  keys' = collect centers keys.
Proof.
  revert keys s. induction centers as [|[x z] centers IH]; intros keys s; simpl.
  - by intros [= <- <-].
  - destruct (visit populateChunk x z (keys, s)) as [[keys1 s1]| |] eqn:Hv;
      simpl; try discriminate.
    intros Hrest. destruct (visit_spec _ _ _ _ _ _ _ Hv) as (-> & _).
    by apply IH in Hrest.
Qed.

Lemma visitAll_awake populateChunk centers keys s :
  (forall k, k ∈ keysOf centers -> dormant k s = false) ->
  visitAll populateChunk centers (keys, s) = Done (collect centers keys, s).
Proof.
  revert keys. induction centers as [|[x z] centers IH]; intros keys Haw; simpl; [done|].
  rewrite visit_awake by (apply Haw; unfold keysOf; simpl; set_solver).
  simpl. apply IH. intros k Hk. apply Haw. unfold keysOf in *. simpl. set_solver.
Qed.

(** ** The deactivation pass *)

Lemma deactivateIfStale_dormant (keys : list Key) (s : System) (k0 k : Key) :
  dormant k (deactivateIfStale keys s k0)
  = dormant k s || (bool_decide (k = k0) && negb (bool_decide (k0 ∈ keys))).
Proof.
  unfold deactivateIfStale.
  destruct (mapGet k0 (chunks s)) as [chunk|] eqn:Hget.
  - destruct (bool_decide (k0 ∈ keys)) eqn:Hin; simpl.
    + by rewrite andb_false_r, orb_false_r.
    + destruct (isActive chunk) eqn:Hact.
      * rewrite deactivateChunk_dormant, andb_true_r.
        destruct (decide (k = k0)) as [->|Hne].
        -- rewrite bool_decide_eq_true_2 by done. by rewrite orb_true_r.
        -- rewrite (bool_decide_eq_false_2 _ Hne). by rewrite orb_false_r.
      * rewrite andb_true_r. destruct (decide (k = k0)) as [->|Hne].
        -- rewrite bool_decide_eq_true_2 by done. rewrite orb_true_r.
           unfold dormant. by rewrite Hget, Hact.
        -- rewrite (bool_decide_eq_false_2 _ Hne). by rewrite orb_false_r.
  - destruct (decide (k = k0)) as [->|Hne].
    + unfold dormant. rewrite Hget. done.
    + rewrite (bool_decide_eq_false_2 _ Hne). by rewrite orb_false_r.
Qed.

Lemma deactivateStale_fold_dormant (keys ks : list Key) (s : System) (k : Key) :
  dormant k (fold_left (deactivateIfStale keys) ks s)
  = dormant k s || (bool_decide (k ∈ ks) && negb (bool_decide (k ∈ keys))).
Proof.
  revert s. induction ks as [|k0 ks IH]; intros s; simpl.
  - by rewrite orb_false_r.
  - rewrite IH, deactivateIfStale_dormant.
    destruct (dormant k s); simpl; [done|].
    destruct (decide (k = k0)) as [->|Hne].
    + rewrite (bool_decide_eq_true_2 (k0 = k0)) by done.
      rewrite (bool_decide_eq_true_2 (k0 ∈ k0 :: ks)) by set_solver. simpl.
      destruct (bool_decide (k0 ∈ keys)); simpl; [|done].
      by rewrite andb_false_r.
    + rewrite (bool_decide_eq_false_2 _ Hne). simpl.
      destruct (decide (k ∈ ks)).
      * rewrite (bool_decide_eq_true_2 (k ∈ ks)) by done.
        by rewrite (bool_decide_eq_true_2 (k ∈ k0 :: ks)) by set_solver.
      * rewrite (bool_decide_eq_false_2 (k ∈ ks)) by done.
        by rewrite (bool_decide_eq_false_2 (k ∈ k0 :: ks)) by set_solver.
Qed.

Lemma mapGet_key {V} (k : Key) (m : list (Key * V)) :
  is_Some (mapGet k m) -> k ∈ map fst m.
Proof.
  intros [v Hv]. apply mapGet_elem in Hv.
  by apply (list_elem_of_fmap_2 fst _ (k, v)).
Qed.

Lemma deactivateStale_dormant (keys : list Key) (s : System) (k : Key) :
  dormant k (deactivateStale keys s) = dormant k s || negb (bool_decide (k ∈ keys)).
Proof.
  unfold deactivateStale. rewrite deactivateStale_fold_dormant.
  destruct (dormant k s) eqn:Hd; simpl; [done|].
  rewrite bool_decide_eq_true_2; [done|].
  apply mapGet_key. unfold dormant in Hd.
  by destruct (mapGet k (chunks s)).
Qed.

Lemma deactivateIfStale_settled (keys : list Key) (s : System) (k0 : Key) :
  (forall k, dormant k s = false -> k ∈ keys) ->
  deactivateIfStale keys s k0 = s.
Proof.
  intros Hs. unfold deactivateIfStale.
  destruct (mapGet k0 (chunks s)) as [chunk|] eqn:Hget; [|done].
  destruct (decide (k0 ∈ keys)) as [Hin|Hout].
  - by rewrite bool_decide_eq_true_2.
  - rewrite bool_decide_eq_false_2 by done. simpl.
    destruct (isActive chunk) eqn:Hact; [|done].
    exfalso. apply Hout, Hs. unfold dormant. by rewrite Hget, Hact.
Qed.

Lemma deactivateStale_settled (keys : list Key) (s : System) :
  (forall k, dormant k s = false -> k ∈ keys) ->
  deactivateStale keys s = s.
Proof.
  intros Hs. unfold deactivateStale.
  induction (map fst (chunks s)) as [|k0 ks IH]; simpl; [done|].
  by rewrite deactivateIfStale_settled.
Qed.

(** ** A frame *)

Lemma streamChunks_spec populateChunk centers s s' :
  streamChunks populateChunk centers s = Done s' ->
  exists s1,
    visitAll populateChunk centers ([], s) = Done (collect centers [], s1) /\
    s' = deactivateStale (collect centers []) s1.
Proof.
  unfold streamChunks.
  destruct (visitAll populateChunk centers ([], s)) as [[keys s1]| |] eqn:Hv;
    simpl; try discriminate.
  intros [= <-]. exists s1. by rewrite (visitAll_keys _ _ _ _ _ _ Hv).
Qed.

Lemma streamChunks_dormant populateChunk centers s s' (k : Key) :
  Disciplined populateChunk ->
  streamChunks populateChunk centers s = Done s' ->
  dormant k s' = false <-> k ∈ keysOf centers.
Proof.
  intros Hd Hs. destruct (streamChunks_spec _ _ _ _ Hs) as (s1 & Hv & ->).
  destruct (visitAll_spec _ _ _ _ _ _ Hd Hv) as (Hk & Hdm).
  rewrite deactivateStale_dormant, orb_false_iff, negb_false_iff, bool_decide_eq_true.
  rewrite Hdm, Hk. set_solver.
Qed.

(** ** The event log *)

Lemma replay_app (l1 l2 : list Event) (live : list Key) :
  replay (l1 ++ l2) live
  = match replay l1 live with Some live' => replay l2 live' | None => None end.
Proof.
  revert live. induction l1 as [|[key n|key] l1 IH]; intros live; simpl; [done| |].
  - destruct (decide (key ∈ live)); [done | apply IH].
  - destruct (decide (key ∈ live)); [apply IH | done].
Qed.

Lemma paired_new (now : JS.number) (c : BaseScatterConfig) : paired (Core.init (Core.new now c)).
Proof. exists []. split; [done|]. intros k. unfold dormant. simpl. set_solver. Qed.

Lemma paired_activate populateChunk x z s s' :
  Disciplined populateChunk -> paired s ->
  dormant (getChunkKey x z) s = true ->
  activateChunk populateChunk x z s = Done s' -> paired s'.
Proof.
  intros Hd (live & Hrep & Hlive) Hdorm Hact.
  destruct (activateChunk_spec _ _ _ _ _ Hd Hact) as (chunk & _ & _ & Hev).
  exists (getChunkKey x z :: live). split.
  - rewrite Hev, replay_app, Hrep. simpl.
    destruct (decide (getChunkKey x z ∈ live)) as [Hin|]; [|done].
    apply Hlive in Hin. congruence.
  - intros k. rewrite (activateChunk_dormant _ _ _ _ _ k Hd Hact), elem_of_cons, Hlive.
    destruct (decide (k = getChunkKey x z)); tauto.
Qed.

Lemma paired_visit populateChunk x z keys s keys' s' :
  Disciplined populateChunk -> paired s ->
  visit populateChunk x z (keys, s) = Done (keys', s') -> paired s'.
Proof.
  intros Hd Hp Hv. destruct (visit_spec _ _ _ _ _ _ _ Hv) as (_ & Hs).
  destruct (dormant (getChunkKey x z) s) eqn:Hdorm.
  - by eapply paired_activate.
  - by subst s'.
Qed.

Lemma paired_visitAll populateChunk centers keys s keys' s' :
  Disciplined populateChunk -> paired s ->
  visitAll populateChunk centers (keys, s) = Done (keys', s') -> paired s'.
Proof.
  intros Hd. revert keys s.
  induction centers as [|[x z] centers IH]; intros keys s Hp; simpl.
  - by intros [= <- <-].
  - destruct (visit populateChunk x z (keys, s)) as [[keys1 s1]| |] eqn:Hv;
      simpl; try discriminate.
    apply IH. by eapply paired_visit.
Qed.

Lemma paired_deactivateIfStale (keys : list Key) (s : System) (k0 : Key) :
  paired s -> paired (deactivateIfStale keys s k0).
Proof.
  intros (live & Hrep & Hlive). unfold deactivateIfStale.
  destruct (mapGet k0 (chunks s)) as [chunk|] eqn:Hget; [|by exists live].
  destruct (negb (bool_decide (k0 ∈ keys)) && isActive chunk) eqn:Hstale; [|by exists live].
  apply andb_true_iff in Hstale as (_ & Hact).
  exists (filter (fun k => k <> k0) live). split.
  - rewrite deactivateChunk_events, Hget, replay_app, Hrep. simpl.
    destruct (decide (k0 ∈ live)) as [|Hout]; [done|].
    exfalso. apply Hout, Hlive. unfold dormant. by rewrite Hget, Hact.
  - intros k. rewrite deactivateChunk_dormant, list_elem_of_filter, Hlive.
    destruct (decide (k = k0)); [split; [tauto | done] | tauto].
Qed.

Lemma paired_deactivateStale (keys : list Key) (s : System) :
  paired s -> paired (deactivateStale keys s).
Proof.
  unfold deactivateStale. generalize (map fst (chunks s)) as ks. intros ks. revert s.
  induction ks as [|k0 ks IH]; intros s Hp; simpl; [done|].
  by apply IH, paired_deactivateIfStale.
Qed.

Lemma paired_streamChunks populateChunk centers s s' :
  Disciplined populateChunk -> paired s ->
  streamChunks populateChunk centers s = Done s' -> paired s'.
Proof.
  intros Hd Hp Hs. destruct (streamChunks_spec _ _ _ _ Hs) as (s1 & Hv & ->).
  apply paired_deactivateStale. by eapply paired_visitAll.
Qed.

Lemma paired_frames populateChunk fs s s' :
  Disciplined populateChunk -> paired s ->
  frames populateChunk fs s = Done s' -> paired s'.
Proof.
  intros Hd. revert s. induction fs as [|centers fs IH]; intros s Hp; simpl.
  - by intros [= <-].
  - destruct (streamChunks populateChunk centers s) as [s1| |] eqn:Hs;
      simpl; try discriminate.
    apply IH. by eapply paired_streamChunks.
Qed.

Lemma elem_collect (centers : list (JS.number * JS.number)) (keys : list Key) (k : Key) :
  k ∈ collect centers keys <-> k ∈ keys \/ k ∈ keysOf centers.
Proof.
  revert keys. induction centers as [|[x z] centers IH]; intros keys; simpl.
  - unfold keysOf. simpl. set_solver.
  - rewrite IH, elem_addKey. unfold keysOf. simpl. rewrite elem_of_cons. tauto.
Qed.

End FrameFacts.

Module Placement.
Import Core BaseScatterSystem Streaming Props Lifecycle Discipline.

(** ** The population loops, for any relation that steps compose *)

Section Steps.
Variable R : System -> ChunkData -> System -> ChunkData -> Prop.
Hypothesis R_refl : forall s c, R s c s c.
Hypothesis R_trans : forall s1 c1 s2 c2 s3 c3,
  R s1 c1 s2 c2 -> R s2 c2 s3 c3 -> R s1 c1 s3 c3.
Hypothesis R_push : forall s c id pool' p r sc,
  InstancePool.acquire (instancePool s) = (Some id, pool') ->
  R s c
    (setConverter (Converter.setInstanceTransform id p r sc (converter s)) (setPool pool' s))
    (pushInstance id c).

Lemma grid_cell_steps g b gx gz st flow st' :
  GridScatterSystem.cell g b gx gz st = (flow, st') ->
  R (GridScatterSystem.sys st) (GridScatterSystem.chunk st)
    (GridScatterSystem.sys st') (GridScatterSystem.chunk st').
Proof.
  unfold GridScatterSystem.cell.
  destruct (match GridScatterSystem.skipPattern g with
            | Some f => f gx gz | None => false end).
  { intros [= _ <-]. apply R_refl. }
  draw.
  destruct (negb (THREE.containsPoint b _)).
  { intros [= _ <-]. apply R_refl. }
  destruct (InstancePool.acquire _) as [[id|] pool'] eqn:Hacq.
  - draw. intros [= _ <-]. simpl. by apply R_push.
  - intros [= _ <-]. apply R_refl.
Qed.

Lemma grid_column_steps fuel g b gx gz st st' :
  GridScatterSystem.column fuel g b gx gz st = Done st' ->
  R (GridScatterSystem.sys st) (GridScatterSystem.chunk st)
    (GridScatterSystem.sys st') (GridScatterSystem.chunk st').
Proof.
  revert gz st. induction fuel as [|fuel IH]; simpl; intros gz st.
  - destruct (gz <? _)%float; [discriminate|]. intros [= <-]. apply R_refl.
  - destruct (gz <? _)%float; [|intros [= <-]; apply R_refl].
    destruct (GridScatterSystem.cell g b gx gz st) as [[|] st1] eqn:Hcell.
    + intros H. eapply R_trans; [by eapply grid_cell_steps | by eapply IH].
    + intros [= <-]. by eapply grid_cell_steps.
Qed.

Lemma grid_columns_steps fuel g b gx st st' :
  GridScatterSystem.columns fuel g b gx st = Done st' ->
  R (GridScatterSystem.sys st) (GridScatterSystem.chunk st)
    (GridScatterSystem.sys st') (GridScatterSystem.chunk st').
Proof.
  revert gx st. induction fuel as [|fuel IH]; intros gx st.
  - simpl. destruct (gx <? _)%float; [discriminate|]. intros [= <-]. apply R_refl.
  - cbn [GridScatterSystem.columns].
    destruct (gx <? _)%float; [|intros [= <-]; apply R_refl].
    destruct (GridScatterSystem.column (S fuel) g b gx 0 st) as [st1| |] eqn:Hcol;
      try discriminate.
    cbn [bind]. intros H.
    eapply R_trans; [by eapply grid_column_steps | by eapply IH].
Qed.

Lemma grid_populate_steps fuel g s c x z s' c' :
  GridScatterSystem.populateChunk fuel g s c x z = Done (s', c') -> R s c s' c'.
Proof.
  unfold GridScatterSystem.populateChunk.
  destruct (GridScatterSystem.columns _ _ _ _ _) as [st| |] eqn:Hcols; try discriminate.
  cbn [bind]. intros [= <- <-]. by apply grid_columns_steps in Hcols.
Qed.

Lemma radial_attempt_steps m fuel r b st flow st' :
  RadialScatterSystem.attempt m fuel r b st = Done (flow, st') ->
  R (RadialScatterSystem.sys st) (RadialScatterSystem.chunk st)
    (RadialScatterSystem.sys st') (RadialScatterSystem.chunk st').
Proof.
  unfold RadialScatterSystem.attempt. draw.
  destruct (if (0 <? _)%float then _ else _) as [radius r2]. draw.
  destruct (negb (THREE.containsPoint b _)).
  { intros [= _ <-]. apply R_refl. }
  destruct (match noiseGenerator _ with Some _ => _ | None => _ end) as [accept| |];
    try discriminate.
  cbn [bind]. destruct (negb accept).
  { intros [= _ <-]. apply R_refl. }
  destruct (InstancePool.acquire _) as [[id|] pool'] eqn:Hacq.
  - draw. intros [= _ <-]. simpl. by apply R_push.
  - intros [= _ <-]. apply R_refl.
Qed.

Lemma radial_placeLoop_steps fuel m r b target maxAttempts st e st' :
  RadialScatterSystem.placeLoop fuel m r b target maxAttempts st = Done (e, st') ->
  R (RadialScatterSystem.sys st) (RadialScatterSystem.chunk st)
    (RadialScatterSystem.sys st') (RadialScatterSystem.chunk st').
Proof.
  revert st. induction fuel as [|fuel IH]; intros st.
  - simpl. destruct (_ && _); [discriminate|]. intros [= _ <-]. apply R_refl.
  - cbn [RadialScatterSystem.placeLoop].
    destruct (_ && _); [|intros [= _ <-]; apply R_refl].
    destruct (RadialScatterSystem.attempt m (S fuel) r b st) as [[[|] st1]| |] eqn:Hatt;
      try discriminate; cbn [bind].
    + intros H. eapply R_trans; [by eapply radial_attempt_steps | by eapply IH].
    + intros [= _ <-]. by eapply radial_attempt_steps.
Qed.

Lemma radial_populate_steps fuel m r s c x z s' c' :
  RadialScatterSystem.populateChunk fuel m r s c x z = Done (s', c') -> R s c s' c'.
Proof.
  unfold RadialScatterSystem.populateChunk, RadialScatterSystem.populate.
  destruct (RadialScatterSystem.placeLoop _ _ _ _ _ _ _) as [[e st]| |] eqn:Hloop;
    try discriminate.
  cbn [bind]. intros [= <- <-]. by apply radial_placeLoop_steps in Hloop.
Qed.

Lemma curve_place_steps l c point tangent t dpp w st flow st' :
  CurveScatterSystem.place l c point tangent t dpp w st = Done (flow, st') ->
  R (CurveScatterSystem.sys st) (CurveScatterSystem.chunk st)
    (CurveScatterSystem.sys st') (CurveScatterSystem.chunk st').
Proof.
  unfold CurveScatterSystem.place.
  destruct (InstancePool.acquire _) as [[id|] pool'] eqn:Hacq.
  2: { intros [= _ <-]. apply R_refl. }
  destruct (if _ && _ then _ else _) as [p1| |]; try discriminate. cbn [bind].
  destruct (match CurveScatterSystem.offsetRange c with
            | Some _ => _ | None => _ end) as [[p2 r1]| |]; try discriminate.
  cbn [bind].
  destruct (if cAlignToNormal _ then _ else _) as [rotation| |]; try discriminate.
  cbn [bind]. draw.
  destruct (match CurveScatterSystem.handlesFor c with
            | Some _ => _ | None => _ end) as [baseScale| |]; try discriminate.
  cbn [bind]. intros [= _ <-]. simpl. by apply R_push.
Qed.

Lemma curve_across_steps fuel l c point tangent t dpp w st st' :
  CurveScatterSystem.across fuel l c point tangent t dpp w st = Done st' ->
  R (CurveScatterSystem.sys st) (CurveScatterSystem.chunk st)
    (CurveScatterSystem.sys st') (CurveScatterSystem.chunk st').
Proof.
  revert w st. induction fuel as [|fuel IH]; intros w st.
  - simpl. destruct (w <? dpp)%float; [discriminate|]. intros [= <-]. apply R_refl.
  - cbn [CurveScatterSystem.across].
    destruct (w <? dpp)%float; [|intros [= <-]; apply R_refl].
    destruct (CurveScatterSystem.place l c point tangent t dpp w st)
      as [[[|] st1]| |] eqn:Hplace; try discriminate; cbn [bind].
    + intros H. eapply R_trans; [by eapply curve_place_steps | by eapply IH].
    + intros [= <-]. by eapply curve_place_steps.
Qed.

Lemma curve_along_steps fuel l c b i rest st st' :
  CurveScatterSystem.along fuel l c b i rest st = Done st' ->
  R (CurveScatterSystem.sys st) (CurveScatterSystem.chunk st)
    (CurveScatterSystem.sys st') (CurveScatterSystem.chunk st').
Proof.
  revert i st. induction rest as [|point rest IH]; intros i st.
  - intros [= <-]. apply R_refl.
  - cbn [CurveScatterSystem.along].
    destruct (negb (THREE.containsPoint b point)); [apply IH|].
    destruct (CurveScatterSystem.across _ _ _ _ _ _ _ _ _) as [st1| |] eqn:Hacross;
      try discriminate.
    cbn [bind]. intros H.
    eapply R_trans; [by eapply curve_across_steps | by eapply IH].
Qed.

Lemma curve_populate_steps fuel l c s ch x z s' c' :
  CurveScatterSystem.populateChunk fuel l c s ch x z = Done (s', c') -> R s ch s' c'.
Proof.
  unfold CurveScatterSystem.populateChunk.
  destruct (CurveScatterSystem.along _ _ _ _ _ _ _) as [st| |] eqn:Halong;
    try discriminate.
  cbn [bind]. intros [= <- <-]. by apply curve_along_steps in Halong.
Qed.

Lemma volume_attempt_steps m fuel v b st flow st' :
  VolumeScatterSystem.attempt m fuel v b st = Done (flow, st') ->
  R (VolumeScatterSystem.sys st) (VolumeScatterSystem.chunk st)
    (VolumeScatterSystem.sys st') (VolumeScatterSystem.chunk st').
Proof.
  unfold VolumeScatterSystem.attempt. draw.
  destruct (VolumeScatterSystem.isPointInVolume _ _ _) as [inside r4].
  destruct (negb inside).
  { intros [= _ <-]. apply R_refl. }
  destruct (match noiseGenerator _ with Some _ => _ | None => _ end) as [accept| |];
    try discriminate.
  cbn [bind]. destruct (negb accept).
  { intros [= _ <-]. apply R_refl. }
  destruct (InstancePool.acquire _) as [[id|] pool'] eqn:Hacq.
  - draw. intros [= _ <-]. simpl. by apply R_push.
  - intros [= _ <-]. apply R_refl.
Qed.

Lemma volume_placeLoop_steps fuel m v b target maxAttempts st st' :
  VolumeScatterSystem.placeLoop fuel m v b target maxAttempts st = Done st' ->
  R (VolumeScatterSystem.sys st) (VolumeScatterSystem.chunk st)
    (VolumeScatterSystem.sys st') (VolumeScatterSystem.chunk st').
Proof.
  revert st. induction fuel as [|fuel IH]; intros st.
  - simpl. destruct (_ && _); [discriminate|]. intros [= <-]. apply R_refl.
  - cbn [VolumeScatterSystem.placeLoop].
    destruct (_ && _); [|intros [= <-]; apply R_refl].
    destruct (VolumeScatterSystem.attempt m (S fuel) v b st) as [[[|] st1]| |] eqn:Hatt;
      try discriminate; cbn [bind].
    + intros H. eapply R_trans; [by eapply volume_attempt_steps | by eapply IH].
    + intros [= <-]. by eapply volume_attempt_steps.
Qed.

Lemma volume_populate_steps fuel m v s c x z s' c' :
  VolumeScatterSystem.populateChunk fuel m v s c x z = Done (s', c') -> R s c s' c'.
Proof.
  unfold VolumeScatterSystem.populateChunk.
  destruct (VolumeScatterSystem.placeLoop _ _ _ _ _ _ _) as [st| |] eqn:Hloop;
    try discriminate.
  cbn [bind]. intros [= <- <-]. by apply volume_placeLoop_steps in Hloop.
Qed.

Lemma heightmap_attempt_steps m a fuel h minX maxX minZ maxZ st flow st' :
  HeightmapScatterSystem.attempt m a fuel h minX maxX minZ maxZ st = Done (flow, st') ->
  R (HeightmapScatterSystem.sys st) (HeightmapScatterSystem.chunk st)
    (HeightmapScatterSystem.sys st') (HeightmapScatterSystem.chunk st').
Proof.
  unfold HeightmapScatterSystem.attempt. draw.
  destruct (match noiseGenerator _ with Some _ => _ | None => _ end) as [accept| |];
    try discriminate.
  cbn [bind]. destruct (negb accept).
  { intros [= _ <-]. apply R_refl. }
  destruct (negb (HeightmapScatterSystem.checkMask _ _ _)).
  { intros [= _ <-]. apply R_refl. }
  destruct (HeightmapScatterSystem.sampleHeight _ _ _) as [height|].
  2: { intros [= _ <-]. apply R_refl. }
  destruct (_ <? _)%float.
  { intros [= _ <-]. apply R_refl. }
  destruct (InstancePool.acquire _) as [[id|] pool'] eqn:Hacq.
  - destruct (HeightmapScatterSystem.createInstanceTransform _ _ _ _ _)
      as [[[position rotation] scale] r3].
    intros [= _ <-]. simpl. by apply R_push.
  - intros [= _ <-]. apply R_refl.
Qed.

Lemma heightmap_placeLoop_steps fuel m a h minX maxX minZ maxZ target maxAttempts st st' :
  HeightmapScatterSystem.placeLoop fuel m a h minX maxX minZ maxZ target maxAttempts st
    = Done st' ->
  R (HeightmapScatterSystem.sys st) (HeightmapScatterSystem.chunk st)
    (HeightmapScatterSystem.sys st') (HeightmapScatterSystem.chunk st').
Proof.
  revert st. induction fuel as [|fuel IH]; intros st.
  - simpl. destruct (_ && _); [discriminate|]. intros [= <-]. apply R_refl.
  - cbn [HeightmapScatterSystem.placeLoop].
    destruct (_ && _); [|intros [= <-]; apply R_refl].
    destruct (HeightmapScatterSystem.attempt m a (S fuel) h minX maxX minZ maxZ st)
      as [[[|] st1]| |] eqn:Hatt; try discriminate; cbn [bind].
    + intros H. eapply R_trans; [by eapply heightmap_attempt_steps | by eapply IH].
    + intros [= <-]. by eapply heightmap_attempt_steps.
Qed.

Lemma heightmap_populate_steps fuel m a h s c x z s' c' :
  HeightmapScatterSystem.populateChunk fuel m a h s c x z = Done (s', c') -> R s c s' c'.
Proof.
  unfold HeightmapScatterSystem.populateChunk.
  destruct (HeightmapScatterSystem.placeLoop _ _ _ _ _ _ _ _ _ _ _) as [st| |] eqn:Hloop;
    try discriminate.
  cbn [bind]. intros [= <- <-]. by apply heightmap_placeLoop_steps in Hloop.
Qed.

Lemma strategy_populate_steps fuel st s c x z s' c' :
  populateWith fuel st s c x z = Done (s', c') -> R s c s' c'.
Proof.
  destruct st; simpl;
    [apply grid_populate_steps | apply radial_populate_steps | apply curve_populate_steps
    | apply volume_populate_steps | apply heightmap_populate_steps].
Qed.

End Steps.

(** ** [places] is such a relation *)

Lemma sameSetup_refl s : sameSetup s s.
Proof. by repeat split. Qed.

Lemma sameSetup_trans s1 s2 s3 : sameSetup s1 s2 -> sameSetup s2 s3 -> sameSetup s1 s3.
Proof.
  intros (?&?&?&?&?&?&?) (?&?&?&?&?&?&?). repeat split; congruence.
Qed.

Lemma written_refl c : written c c [].
Proof. split; [done|]. split; [|done]. intros id Hin. by apply elem_of_nil in Hin. Qed.

Lemma inRange_count c c' id :
  Converter.instanceCount c' = Converter.instanceCount c ->
  Converter.inRange c' id = Converter.inRange c id.
Proof. unfold Converter.inRange. by intros ->. Qed.

Lemma written_trans c1 c2 c3 ids1 ids2 :
  written c1 c2 ids1 -> written c2 c3 ids2 -> written c1 c3 (ids1 ++ ids2).
Proof.
  intros (Hn1 & Hw1 & Hk1) (Hn2 & Hw2 & Hk2). split; [congruence|]. split.
  - intros id [Hin|Hin]%elem_of_app Hr.
    + by apply Hk2, Hw1.
    + apply Hw2; [done|]. by rewrite (inRange_count c1 c2).
  - intros id H. by apply Hk2, Hk1.
Qed.

Lemma written_set c id p r sc :
  written c (Converter.setInstanceTransform id p r sc c) [id].
Proof.
  unfold Converter.setInstanceTransform.
  destruct (Converter.inRange c id) eqn:Hr; simpl.
  - split; [done|]. split.
    + intros id' ->%list_elem_of_singleton _. simpl. by rewrite lookup_insert_eq.
    + intros id' H. simpl. destruct (decide (id = id')) as [->|Hne].
      * by rewrite lookup_insert_eq.
      * by rewrite lookup_insert_ne.
  - split; [done|]. split; [|done].
    intros id' ->%list_elem_of_singleton Hr'. congruence.
Qed.

Lemma places_refl s c : places s c s c.
Proof.
  do 3 (split; [done|]). split; [apply sameSetup_refl|].
  exists []. rewrite app_nil_r. split; [done|]. split; [done | apply written_refl].
Qed.

Lemma places_trans s1 c1 s2 c2 s3 c3 :
  places s1 c1 s2 c2 -> places s2 c2 s3 c3 -> places s1 c1 s3 c3.
Proof.
  intros (Hc1 & He1 & Ha1 & Hs1 & ids1 & Hi1 & Hq1 & Hw1)
         (Hc2 & He2 & Ha2 & Hs2 & ids2 & Hi2 & Hq2 & Hw2).
  do 3 (split; [congruence|]). split; [by eapply sameSetup_trans|].
  exists (ids1 ++ ids2). split; [by rewrite Hi2, Hi1, app_assoc|]. split.
  - by apply (acquired_app _ _ (instancePool s2)).
  - by eapply written_trans.
Qed.

Lemma places_push s c id pool' p r sc :
  InstancePool.acquire (instancePool s) = (Some id, pool') ->
  places s c
    (setConverter (Converter.setInstanceTransform id p r sc (converter s)) (setPool pool' s))
    (pushInstance id c).
Proof.
  intros Hacq. do 3 (split; [done|]). split; [by repeat split|].
  exists [id]. split; [done|]. split; [simpl; by exists pool'|]. apply written_set.
Qed.

Lemma places_grows s c s' c' : places s c s' c' -> grows s c s' c'.
Proof.
  intros (Hc & He & Ha & _ & ids & Hi & Hq & _). do 3 (split; [done|]). by exists ids.
Qed.

Lemma Tidy_Disciplined populateChunk : Tidy populateChunk -> Disciplined populateChunk.
Proof. intros Ht s c x z s' c' H. by apply places_grows, (Ht s c x z). Qed.

(** Each strategy's [populateChunk] is tidy. *)
Lemma strategy_tidy fuel st : Tidy (populateWith fuel st).
Proof.
  intros s c x z s' c'.
  apply (strategy_populate_steps places places_refl places_trans places_push).
Qed.

End Placement.

Module Upkeep.
Import Core BaseScatterSystem Streaming Props Lifecycle Discipline FrameFacts Placement.

#[local] Arguments visit : simpl never.
#[local] Arguments activateChunk : simpl never.
#[local] Arguments deactivateChunk : simpl never.
#[local] Arguments streamChunks : simpl never.
#[local] Arguments deactivateIfStale : simpl never.

(** ** The pool along a population step *)

Lemma acquired_maxInstances p ids p' :
  wf p -> acquired p ids p' ->
  InstancePool.maxInstances p' = InstancePool.maxInstances p.
Proof.
  revert p. induction ids as [|id ids IH]; intros p Hwf; simpl.
  - by intros ->.
  - intros (p1 & Hacq & Hrest).
    destruct (PoolFacts.acquire_Some p p1 id Hwf Hacq) as (_ & _ & Hmax & Hwf1).
    rewrite (IH p1 Hwf1 Hrest). done.
Qed.

(** A handle that the pool has handed out is an index below the capacity. *)
Lemma acquired_below p ids p' id :
  wf p -> acquired p ids p' -> id ∈ ids ->
  0 <= id < InstancePool.maxInstances p.
Proof.
  intros Hwf Hacq Hin.
  destruct (acquired_facts p ids p' Hwf Hacq) as (Hwf' & _ & _ & Hact).
  assert (Hid : id ∈ InstancePool.activeInstances p').
  { rewrite Hact. apply elem_of_union_l, elem_of_list_to_set, Hin. }
  pose proof (wf_active p' Hwf' id Hid). pose proof (wf_next p' Hwf').
  rewrite (acquired_maxInstances p ids p' Hwf Hacq) in *. lia.
Qed.

Lemma releaseAll_maxInstances ids p :
  InstancePool.maxInstances (releaseAll ids p) = InstancePool.maxInstances p.
Proof.
  unfold releaseAll. revert p. induction ids as [|id ids IH]; intros p; simpl; [done|].
  rewrite IH. unfold InstancePool.release.
  by destruct (decide (id ∈ InstancePool.activeInstances p)).
Qed.

(** ** The converter along a deactivation *)

Lemma hideInstance_keeps id c :
  Converter.instanceCount (Converter.hideInstance id c) = Converter.instanceCount c /\
  Converter.transforms (Converter.hideInstance id c) = Converter.transforms c.
Proof. unfold Converter.hideInstance. by destruct (Converter.inRange c id). Qed.

Lemma releaseInstance_fold_converter (ids : list Z) (s : System) :
  Converter.instanceCount (converter (fold_left releaseInstance ids s))
    = Converter.instanceCount (converter s) /\
  Converter.transforms (converter (fold_left releaseInstance ids s))
    = Converter.transforms (converter s) /\
  sameSetup s (fold_left releaseInstance ids s).
Proof.
  revert s. induction ids as [|id ids IH]; intros s; simpl.
  - split; [done|]. split; [done | apply sameSetup_refl].
  - destruct (IH (releaseInstance s id)) as (-> & -> & Hs).
    destruct (hideInstance_keeps id (converter s)) as (Hn & Ht).
    split; [done|]. split; [done|].
    eapply sameSetup_trans; [|exact Hs]. by repeat split.
Qed.

(** ** The setup along a frame *)

Lemma activateChunk_sameSetup populateChunk x z s s' :
  Tidy populateChunk -> activateChunk populateChunk x z s = Done s' -> sameSetup s s'.
Proof.
  intros Ht Hact. unfold activateChunk in Hact.
  destruct (populateChunk s (freshChunk s x z) x z) as [[s1 chunk]| |] eqn:Hpop;
    simpl in Hact; try discriminate.
  injection Hact as <-.
  destruct (Ht _ _ _ _ _ _ Hpop) as (_ & _ & _ & Hs & _).
  eapply sameSetup_trans; [exact Hs|]. by repeat split.
Qed.

Lemma deactivateChunk_sameSetup key s : sameSetup s (deactivateChunk key s).
Proof.
  unfold deactivateChunk. destruct (mapGet key (chunks s)) as [chunk|];
    [|apply sameSetup_refl].
  destruct (releaseInstance_fold_converter (instances chunk) s) as (_ & _ & Hs).
  eapply sameSetup_trans; [exact Hs|]. by repeat split.
Qed.

Lemma visit_sameSetup populateChunk x z keys s keys' s' :
  Tidy populateChunk ->
  visit populateChunk x z (keys, s) = Done (keys', s') -> sameSetup s s'.
Proof.
  intros Ht Hv. destruct (visit_spec _ _ _ _ _ _ _ Hv) as (_ & Hs).
  destruct (dormant (getChunkKey x z) s).
  - by eapply activateChunk_sameSetup.
  - subst. apply sameSetup_refl.
Qed.

Lemma visitAll_sameSetup populateChunk centers keys s keys' s' :
  Tidy populateChunk ->
  visitAll populateChunk centers (keys, s) = Done (keys', s') -> sameSetup s s'.
Proof.
  intros Ht. revert keys s.
  induction centers as [|[x z] centers IH]; intros keys s; simpl.
  - intros [= <- <-]. apply sameSetup_refl.
  - destruct (visit populateChunk x z (keys, s)) as [[keys1 s1]| |] eqn:Hv;
      simpl; try discriminate.
    intros Hrest. eapply sameSetup_trans; [by eapply visit_sameSetup | by eapply IH].
Qed.

Lemma deactivateStale_sameSetup keys s : sameSetup s (deactivateStale keys s).
Proof.
  unfold deactivateStale. generalize (map fst (chunks s)) as ks. intros ks. revert s.
  induction ks as [|k0 ks IH]; intros s; simpl; [apply sameSetup_refl|].
  eapply sameSetup_trans; [|apply IH].
  unfold deactivateIfStale. destruct (mapGet k0 (chunks s)) as [chunk|];
    [|apply sameSetup_refl].
  destruct (_ && _); [apply deactivateChunk_sameSetup | apply sameSetup_refl].
Qed.

(** ** The converter fits the pool along a frame *)

Lemma Sound_new (now : JS.number) (c : BaseScatterConfig) :
  Sound (Core.init (Core.new now c)).
Proof.
  split.
  - apply (Balanced_ext (Core.new now c)); [done | done | apply Balanced_new].
  - split; [done|]. simpl. intros id Hin. by apply elem_of_nil in Hin.
Qed.

Lemma elem_heldBy_mapSet (k : Key) (c : ChunkData) (m : list (Key * ChunkData)) (id : Z) :
  id ∈ heldBy (mapSet k c m) -> id ∈ instances c \/ id ∈ heldBy m.
Proof.
  intros Hin. apply elem_of_app.
  rewrite <- (heldBy_mapSet k c m). apply elem_of_app. by right.
Qed.

Lemma activateChunk_Fitted populateChunk x z s s' :
  Tidy populateChunk -> Balanced s -> Fitted s ->
  activateChunk populateChunk x z s = Done s' -> Fitted s'.
Proof.
  intros Ht Hb Hf Hact. unfold activateChunk in Hact.
  destruct (populateChunk s (freshChunk s x z) x z) as [[s1 chunk]| |] eqn:Hpop;
    simpl in Hact; try discriminate.
  injection Hact as <-.
  destruct (Ht _ _ _ _ _ _ Hpop)
    as (Hchunks & _ & _ & _ & ids & Hinst & Hacq & Hn & Hw & Hk).
  simpl in Hinst. split; simpl.
  - rewrite Hn, (fit_count s Hf).
    symmetry. apply (acquired_maxInstances _ ids); [apply Hb | done].
  - rewrite Hchunks. intros id [Hin|Hin]%elem_heldBy_mapSet.
    + rewrite Hinst in Hin. apply Hw; [done|].
      pose proof (acquired_below _ _ _ id (bal_pool s Hb) Hacq Hin) as Hlt.
      unfold Converter.inRange. rewrite (fit_count s Hf).
      apply andb_true_iff. split; [apply Z.leb_le | apply Z.ltb_lt]; lia.
    + by apply Hk, (fit_written s Hf).
Qed.

Lemma deactivateChunk_Fitted key s : Fitted s -> Fitted (deactivateChunk key s).
Proof.
  intros Hf. pose proof (deactivateChunk_chunks key s) as Hchunks.
  unfold deactivateChunk in *.
  destruct (mapGet key (chunks s)) as [chunk|] eqn:Hget; [|done].
  destruct (releaseInstance_fold (instances chunk) s) as (Hp & Hc & _).
  destruct (releaseInstance_fold_converter (instances chunk) s) as (Hn & Htr & _).
  split; simpl.
  - rewrite Hn, Hp, releaseAll_maxInstances. apply Hf.
  - rewrite Hc, Htr. intros id [Hin|Hin]%elem_heldBy_mapSet.
    + simpl in Hin. by apply elem_of_nil in Hin.
    + by apply (fit_written s Hf).
Qed.

Lemma visit_Sound populateChunk x z keys s keys' s' :
  Tidy populateChunk -> Sound s ->
  visit populateChunk x z (keys, s) = Done (keys', s') -> Sound s'.
Proof.
  intros Ht [Hb Hf] Hv. split.
  - by apply (visit_Balanced populateChunk x z keys s keys'); [apply Tidy_Disciplined| |].
  - destruct (visit_spec _ _ _ _ _ _ _ Hv) as (_ & Hs).
    destruct (dormant (getChunkKey x z) s).
    + by eapply activateChunk_Fitted.
    + by subst.
Qed.

Lemma visitAll_Sound populateChunk centers keys s keys' s' :
  Tidy populateChunk -> Sound s ->
  visitAll populateChunk centers (keys, s) = Done (keys', s') -> Sound s'.
Proof.
  intros Ht. revert keys s.
  induction centers as [|[x z] centers IH]; intros keys s Hs; simpl.
  - by intros [= <- <-].
  - destruct (visit populateChunk x z (keys, s)) as [[keys1 s1]| |] eqn:Hv;
      simpl; try discriminate.
    apply IH. by eapply visit_Sound.
Qed.

Lemma deactivateStale_Sound keys s : Sound s -> Sound (deactivateStale keys s).
Proof.
  intros [Hb Hf]. split; [by apply deactivateStale_Balanced|].
  clear Hb. unfold deactivateStale. generalize (map fst (chunks s)) as ks. intros ks.
  revert s Hf. induction ks as [|k0 ks IH]; intros s Hf; simpl; [done|].
  apply IH. unfold deactivateIfStale.
  destruct (mapGet k0 (chunks s)) as [chunk|]; [|done].
  destruct (_ && _); [by apply deactivateChunk_Fitted | done].
Qed.

Lemma streamChunks_Sound populateChunk centers s s' :
  Tidy populateChunk -> Sound s ->
  streamChunks populateChunk centers s = Done s' -> Sound s'.
Proof.
  intros Ht Hs Hrun. destruct (streamChunks_spec _ _ _ _ Hrun) as (s1 & Hv & ->).
  apply deactivateStale_Sound. by eapply visitAll_Sound.
Qed.

Lemma frames_Sound populateChunk fs s s' :
  Tidy populateChunk -> Sound s ->
  frames populateChunk fs s = Done s' -> Sound s'.
Proof.
  intros Ht. revert s. induction fs as [|centers fs IH]; intros s Hs; simpl.
  - by intros [= <-].
  - destruct (streamChunks populateChunk centers s) as [s1| |] eqn:Hrun;
      simpl; try discriminate.
    apply IH. by eapply streamChunks_Sound.
Qed.

Lemma Sound_beginUpdate cam s : Sound s -> Sound (beginUpdate cam s).
Proof.
  intros [Hb [Hn Hw]]. split; [by apply (Balanced_ext s) | by split].
Qed.

Lemma Sound_held (s : System) (key : Key) (chunk : ChunkData) (id : Z) :
  Sound s -> mapGet key (chunks s) = Some chunk -> id ∈ instances chunk ->
  Converter.inRange (converter s) id = true /\
  is_Some (Converter.transforms (converter s) !! id).
Proof.
  intros [Hb Hf] Hget Hin.
  assert (Hheld : id ∈ heldBy (chunks s)).
  { destruct (mapGet_Some key chunk (chunks s) Hget) as (m1 & m2 & Hm & _).
    unfold heldBy. rewrite Hm, flat_map_app. simpl. set_solver. }
  split; [|by apply (fit_written s Hf)].
  apply (bal_active s Hb) in Hheld.
  pose proof (wf_active _ (bal_pool s Hb) id Hheld).
  pose proof (wf_next _ (bal_pool s Hb)).
  unfold Converter.inRange. rewrite (fit_count s Hf).
  apply andb_true_iff. split; [apply Z.leb_le | apply Z.ltb_lt]; lia.
Qed.

End Upkeep.

Module Views.
Import Core BaseScatterSystem Streaming Props Lifecycle Discipline FrameFacts Placement Upkeep.

#[local] Arguments visit : simpl never.
#[local] Arguments streamChunks : simpl never.

Lemma isChunkInFrustum_sameSetup s s' b :
  sameSetup s s' -> isChunkInFrustum s' b = isChunkInFrustum s b.
Proof.
  intros (_ & _ & Hf & Hc & _). unfold isChunkInFrustum. by rewrite Hf, Hc.
Qed.

Lemma Visits_nil populateChunk Q s0 st :
  sameSetup s0 (snd st) -> Visits populateChunk Q s0 st st.
Proof. intros Hs. by exists []. Qed.

Lemma Visits_one populateChunk Q s0 x z st st' :
  Tidy populateChunk -> sameSetup s0 (snd st) -> Q x z ->
  visit populateChunk x z st = Done st' -> Visits populateChunk Q s0 st st'.
Proof.
  intros Ht Hs Hq Hv. exists [(x, z)]. split; [cbn [visitAll]; by rewrite Hv|].
  split; [by constructor|].
  destruct st as [keys s], st' as [keys' s'].
  eapply sameSetup_trans; [exact Hs | by eapply visit_sameSetup].
Qed.

Lemma Visits_trans populateChunk Q s0 st1 st2 st3 :
  Visits populateChunk Q s0 st1 st2 -> Visits populateChunk Q s0 st2 st3 ->
  Visits populateChunk Q s0 st1 st3.
Proof.
  intros (cs1 & H1 & Hq1 & _) (cs2 & H2 & Hq2 & Hs). exists (cs1 ++ cs2).
  split; [by eapply visitAll_app|]. split; [by apply Forall_app|done].
Qed.

Lemma Visits_setup populateChunk Q s0 st st' :
  Visits populateChunk Q s0 st st' -> sameSetup s0 (snd st').
Proof. by intros (? & _ & _ & ?). Qed.

(** ** The grid *)

Section Grid.
Variables (g : GridScatterSystem.Grid) (cam : THREE.Camera) (pfuel : nat) (s : System).
Let P := GridScatterSystem.populateChunk pfuel g.
Let Q := inView (GridStrategy g) cam s.
Let s0 := beginUpdate cam s.
Let visRange := cVisibilityRange (config s).
Let chunkSize := cChunkSize (config s).

Lemma grid_scanCell_views x z st st' :
  sameSetup s0 (snd st) ->
  GridScatterSystem.scanCell g cam pfuel visRange chunkSize x z st = Done st' ->
  Visits P Q s0 st st'.
Proof.
  intros Hs. unfold GridScatterSystem.scanCell.
  destruct (_ <=? visRange)%float eqn:Hd; [|intros [= <-]; by apply Visits_nil].
  destruct (isChunkInFrustum (snd st) _) eqn:Hf; cbn [negb];
    [|intros [= <-]; by apply Visits_nil].
  intros Hv. eapply Visits_one; [apply (strategy_tidy pfuel (GridStrategy g)) | done | | exact Hv].
  split; [exact Hd|]. rewrite <- Hf. symmetry. by apply isChunkInFrustum_sameSetup.
Qed.

Lemma grid_scanZ_views fuel x z maxZ st st' :
  sameSetup s0 (snd st) ->
  GridScatterSystem.scanZ fuel g cam pfuel visRange chunkSize x z maxZ st = Done st' ->
  Visits P Q s0 st st'.
Proof.
  revert z st. induction fuel as [|fuel IH]; intros z st Hs;
    cbn [GridScatterSystem.scanZ].
  - destruct (z <=? maxZ)%float; [discriminate|]. intros [= <-]. by apply Visits_nil.
  - destruct (z <=? maxZ)%float; [|intros [= <-]; by apply Visits_nil].
    destruct (GridScatterSystem.scanCell _ _ _ _ _ _ _ _) as [st1| |] eqn:Hcell;
      try discriminate.
    cbn [bind]. intros Hrest.
    pose proof (grid_scanCell_views _ _ _ _ Hs Hcell) as H1.
    eapply Visits_trans; [exact H1|]. apply (IH _ _ (Visits_setup _ _ _ _ _ H1) Hrest).
Qed.

Lemma grid_scanX_views fuel x maxX minZ maxZ st st' :
  sameSetup s0 (snd st) ->
  GridScatterSystem.scanX fuel g cam pfuel visRange chunkSize x maxX minZ maxZ st
    = Done st' ->
  Visits P Q s0 st st'.
Proof.
  revert x st. induction fuel as [|fuel IH]; intros x st Hs;
    cbn [GridScatterSystem.scanX].
  - destruct (x <=? maxX)%float; [discriminate|]. intros [= <-]. by apply Visits_nil.
  - destruct (x <=? maxX)%float; [|intros [= <-]; by apply Visits_nil].
    destruct (GridScatterSystem.scanZ _ _ _ _ _ _ _ _ _ _) as [st1| |] eqn:Hz;
      try discriminate.
    cbn [bind]. intros Hrest.
    pose proof (grid_scanZ_views _ _ _ _ _ _ Hs Hz) as H1.
    eapply Visits_trans; [exact H1|]. apply (IH _ _ (Visits_setup _ _ _ _ _ H1) Hrest).
Qed.

End Grid.

(** ** The radial strategy *)

Section Radial.
Variables (m : MathLib) (r : RadialScatterSystem.Radial) (cam : THREE.Camera)
  (pfuel : nat) (s : System).
Let P := RadialScatterSystem.populateChunk pfuel m r.
Let Q := inView (RadialStrategy m r) cam s.
Let s0 := beginUpdate cam s.
Let visRange := cVisibilityRange (config s).
Let chunkSize := cChunkSize (config s).

Lemma radial_scanCell_views x z st st' :
  sameSetup s0 (snd st) ->
  RadialScatterSystem.scanCell m r cam pfuel visRange chunkSize x z st = Done st' ->
  Visits P Q s0 st st'.
Proof.
  intros Hs. unfold RadialScatterSystem.scanCell.
  destruct (_ <=? visRange)%float eqn:Hd; [|intros [= <-]; by apply Visits_nil].
  intros Hv.
  eapply Visits_one; [apply (strategy_tidy pfuel (RadialStrategy m r)) | done | | exact Hv].
  exact Hd.
Qed.

Lemma radial_scanZ_views fuel x z maxZ st st' :
  sameSetup s0 (snd st) ->
  RadialScatterSystem.scanZ fuel m r cam pfuel visRange chunkSize x z maxZ st = Done st' ->
  Visits P Q s0 st st'.
Proof.
  revert z st. induction fuel as [|fuel IH]; intros z st Hs;
    cbn [RadialScatterSystem.scanZ].
  - destruct (z <=? maxZ)%float; [discriminate|]. intros [= <-]. by apply Visits_nil.
  - destruct (z <=? maxZ)%float; [|intros [= <-]; by apply Visits_nil].
    destruct (RadialScatterSystem.scanCell _ _ _ _ _ _ _ _ _) as [st1| |] eqn:Hcell;
      try discriminate.
    cbn [bind]. intros Hrest.
    pose proof (radial_scanCell_views _ _ _ _ Hs Hcell) as H1.
    eapply Visits_trans; [exact H1|]. apply (IH _ _ (Visits_setup _ _ _ _ _ H1) Hrest).
Qed.

Lemma radial_scanX_views fuel x maxX minZ maxZ st st' :
  sameSetup s0 (snd st) ->
  RadialScatterSystem.scanX fuel m r cam pfuel visRange chunkSize x maxX minZ maxZ st
    = Done st' ->
  Visits P Q s0 st st'.
Proof.
  revert x st. induction fuel as [|fuel IH]; intros x st Hs;
    cbn [RadialScatterSystem.scanX].
  - destruct (x <=? maxX)%float; [discriminate|]. intros [= <-]. by apply Visits_nil.
  - destruct (x <=? maxX)%float; [|intros [= <-]; by apply Visits_nil].
    destruct (RadialScatterSystem.scanZ _ _ _ _ _ _ _ _ _ _ _) as [st1| |] eqn:Hz;
      try discriminate.
    cbn [bind]. intros Hrest.
    pose proof (radial_scanZ_views _ _ _ _ _ _ Hs Hz) as H1.
    eapply Visits_trans; [exact H1|]. apply (IH _ _ (Visits_setup _ _ _ _ _ H1) Hrest).
Qed.

End Radial.

(** ** The volume strategy *)

Section Volume.
Variables (m : MathLib) (v : VolumeScatterSystem.Volume) (cam : THREE.Camera)
  (pfuel : nat) (s : System).
Let P := VolumeScatterSystem.populateChunk pfuel m v.
Let Q := inView (VolumeStrategy m v) cam s.
Let s0 := beginUpdate cam s.
Let visRange := cVisibilityRange (config s).
Let chunkSize := cChunkSize (config s).

Lemma volume_scanCell_views x z st st' :
  sameSetup s0 (snd st) ->
  VolumeScatterSystem.scanCell m v cam pfuel visRange chunkSize x z st = Done st' ->
  Visits P Q s0 st st'.
Proof.
  intros Hs. unfold VolumeScatterSystem.scanCell.
  destruct (_ <=? visRange)%float eqn:Hd; [|intros [= <-]; by apply Visits_nil].
  intros Hv.
  eapply Visits_one; [apply (strategy_tidy pfuel (VolumeStrategy m v)) | done | | exact Hv].
  exact Hd.
Qed.

Lemma volume_scanZ_views fuel x z maxZ st st' :
  sameSetup s0 (snd st) ->
  VolumeScatterSystem.scanZ fuel m v cam pfuel visRange chunkSize x z maxZ st = Done st' ->
  Visits P Q s0 st st'.
Proof.
  revert z st. induction fuel as [|fuel IH]; intros z st Hs;
    cbn [VolumeScatterSystem.scanZ].
  - destruct (z <=? maxZ)%float; [discriminate|]. intros [= <-]. by apply Visits_nil.
  - destruct (z <=? maxZ)%float; [|intros [= <-]; by apply Visits_nil].
    destruct (VolumeScatterSystem.scanCell _ _ _ _ _ _ _ _ _) as [st1| |] eqn:Hcell;
      try discriminate.
    cbn [bind]. intros Hrest.
    pose proof (volume_scanCell_views _ _ _ _ Hs Hcell) as H1.
    eapply Visits_trans; [exact H1|]. apply (IH _ _ (Visits_setup _ _ _ _ _ H1) Hrest).
Qed.

Lemma volume_scanX_views fuel x maxX minZ maxZ st st' :
  sameSetup s0 (snd st) ->
  VolumeScatterSystem.scanX fuel m v cam pfuel visRange chunkSize x maxX minZ maxZ st
    = Done st' ->
  Visits P Q s0 st st'.
Proof.
  revert x st. induction fuel as [|fuel IH]; intros x st Hs;
    cbn [VolumeScatterSystem.scanX].
  - destruct (x <=? maxX)%float; [discriminate|]. intros [= <-]. by apply Visits_nil.
  - destruct (x <=? maxX)%float; [|intros [= <-]; by apply Visits_nil].
    destruct (VolumeScatterSystem.scanZ _ _ _ _ _ _ _ _ _ _ _) as [st1| |] eqn:Hz;
      try discriminate.
    cbn [bind]. intros Hrest.
    pose proof (volume_scanZ_views _ _ _ _ _ _ Hs Hz) as H1.
    eapply Visits_trans; [exact H1|]. apply (IH _ _ (Visits_setup _ _ _ _ _ H1) Hrest).
Qed.

End Volume.

(** ** The heightmap strategy *)

Section Heightmap.
Variables (m : MathLib) (a : HeightmapScatterSystem.AngleLib)
  (h : HeightmapScatterSystem.Heightmap) (cam : THREE.Camera) (pfuel : nat) (s : System).
Let P := HeightmapScatterSystem.populateChunk pfuel m a h.
Let Q := inView (HeightmapStrategy m a h) cam s.
Let s0 := beginUpdate cam s.
Let visRange := cVisibilityRange (config s).
Let chunkSize := cChunkSize (config s).

Lemma heightmap_scanCell_views x z st st' :
  sameSetup s0 (snd st) ->
  HeightmapScatterSystem.scanCell m a h cam pfuel visRange chunkSize x z st = Done st' ->
  Visits P Q s0 st st'.
Proof.
  intros Hs. unfold HeightmapScatterSystem.scanCell.
  destruct (_ || _) eqn:Hw; [intros [= <-]; by apply Visits_nil|].
  destruct (_ <=? visRange)%float eqn:Hd; [|intros [= <-]; by apply Visits_nil].
  destruct (isChunkInFrustum (snd st) _) eqn:Hf; cbn [negb];
    [|intros [= <-]; by apply Visits_nil].
  intros Hv.
  eapply Visits_one;
    [apply (strategy_tidy pfuel (HeightmapStrategy m a h)) | done | | exact Hv].
  split; [exact Hw|]. split; [exact Hd|].
  rewrite <- Hf. symmetry. by apply isChunkInFrustum_sameSetup.
Qed.

Lemma heightmap_scanZ_views fuel x z endZ st st' :
  sameSetup s0 (snd st) ->
  HeightmapScatterSystem.scanZ fuel m a h cam pfuel visRange chunkSize x z endZ st
    = Done st' ->
  Visits P Q s0 st st'.
Proof.
  revert z st. induction fuel as [|fuel IH]; intros z st Hs;
    cbn [HeightmapScatterSystem.scanZ].
  - destruct (z <=? endZ)%float; [discriminate|]. intros [= <-]. by apply Visits_nil.
  - destruct (z <=? endZ)%float; [|intros [= <-]; by apply Visits_nil].
    destruct (HeightmapScatterSystem.scanCell _ _ _ _ _ _ _ _ _ _) as [st1| |] eqn:Hcell;
      try discriminate.
    cbn [bind]. intros Hrest.
    pose proof (heightmap_scanCell_views _ _ _ _ Hs Hcell) as H1.
    eapply Visits_trans; [exact H1|]. apply (IH _ _ (Visits_setup _ _ _ _ _ H1) Hrest).
Qed.

Lemma heightmap_scanX_views fuel x endX startZ endZ st st' :
  sameSetup s0 (snd st) ->
  HeightmapScatterSystem.scanX fuel m a h cam pfuel visRange chunkSize x endX startZ endZ st
    = Done st' ->
  Visits P Q s0 st st'.
Proof.
  revert x st. induction fuel as [|fuel IH]; intros x st Hs;
    cbn [HeightmapScatterSystem.scanX].
  - destruct (x <=? endX)%float; [discriminate|]. intros [= <-]. by apply Visits_nil.
  - destruct (x <=? endX)%float; [|intros [= <-]; by apply Visits_nil].
    destruct (HeightmapScatterSystem.scanZ _ _ _ _ _ _ _ _ _ _ _ _) as [st1| |] eqn:Hz;
      try discriminate.
    cbn [bind]. intros Hrest.
    pose proof (heightmap_scanZ_views _ _ _ _ _ _ Hs Hz) as H1.
    eapply Visits_trans; [exact H1|]. apply (IH _ _ (Visits_setup _ _ _ _ _ H1) Hrest).
Qed.

End Heightmap.

(** ** The curve strategy *)

Section Curve.
Variables (l : CurveScatterSystem.RotationLib) (c : CurveScatterSystem.CurveSystem)
  (cam : THREE.Camera) (pfuel : nat) (s : System).
Let P := CurveScatterSystem.populateChunk pfuel l c.
Let Q := inView (CurveStrategy l c) cam s.
Let s0 := beginUpdate cam s.
Let visRange := cVisibilityRange (config s).
Let chunkSize := cChunkSize (config s).

Lemma curve_scan_views rest st st' :
  (forall point, point ∈ rest -> point ∈ CurveScatterSystem.curvePoints c) ->
  sameSetup s0 (snd st) ->
  CurveScatterSystem.scan pfuel l c cam visRange chunkSize rest st = Done st' ->
  Visits P Q s0 st st' /\
  (forall k, k ∈ fst st -> k ∈ fst st') /\
  (forall point, point ∈ rest ->
     (CurveScatterSystem.distanceTo point (THREE.position cam) <=? visRange)%float = true ->
     keyOfPoint chunkSize point ∈ fst st').
Proof.
  revert st. induction rest as [|point rest IH]; intros st Hin Hs;
    cbn [CurveScatterSystem.scan].
  - intros [= <-]. split; [by apply Visits_nil|]. split; [done|].
    intros point Hp. by apply elem_of_nil in Hp.
  - assert (Hin' : forall p, p ∈ rest -> p ∈ CurveScatterSystem.curvePoints c)
      by (intros p Hp; apply Hin; set_solver).
    destruct (_ <=? visRange)%float eqn:Hd.
    + destruct (CurveScatterSystem.chunkCenterOf chunkSize point) as [chunkX chunkZ] eqn:Hc.
      destruct (decide (getChunkKey chunkX chunkZ ∈ fst st)) as [Hk|Hk].
      * intros Hrest. destruct (IH st Hin' Hs Hrest) as (Hv & Hmono & Hall).
        split; [done|]. split; [done|].
        intros p [->|Hp]%elem_of_cons Hr; [|by apply Hall].
        apply Hmono. unfold keyOfPoint. by rewrite Hc.
      * destruct (visit _ chunkX chunkZ st) as [st1| |] eqn:Hvisit; try discriminate.
        cbn [bind]. intros Hrest.
        assert (H1 : Visits P Q s0 st st1).
        { eapply Visits_one; [apply (strategy_tidy pfuel (CurveStrategy l c)) | done | | exact Hvisit].
          exists point. split; [apply Hin; set_solver|]. by split. }
        destruct (IH st1 Hin' (Visits_setup _ _ _ _ _ H1) Hrest) as (Hv & Hmono & Hall).
        destruct st as [keys sy], st1 as [keys1 sy1].
        destruct (visit_spec _ _ _ _ _ _ _ Hvisit) as (-> & _).
        split; [by eapply Visits_trans|]. split.
        -- intros k Hk'. apply Hmono. simpl in *. apply elem_addKey. by left.
        -- intros p [->|Hp]%elem_of_cons Hr; [|by apply Hall].
           apply Hmono. unfold keyOfPoint. rewrite Hc. simpl. apply elem_addKey. by right.
    + intros Hrest. destruct (IH st Hin' Hs Hrest) as (Hv & Hmono & Hall).
      split; [done|]. split; [done|].
      intros p [->|Hp]%elem_of_cons Hr; [congruence | by apply Hall].
Qed.

End Curve.

(** ** An update is a frame over centers in view, or does nothing *)

Lemma update_streams fuel st cam s s' :
  updateWith fuel st cam s = Done s' ->
  (isInitialized s = false /\ s' = s) \/
  exists centers,
    streamChunks (populateWith fuel st) centers (beginUpdate cam s) = Done s' /\
    Forall (fun c => inView st cam s (fst c) (snd c)) centers.
Proof.
  destruct st as [g|m r|l c|m v|m a h]; cbn [updateWith populateWith].
  - unfold GridScatterSystem.update.
    destruct (isInitialized s); [|intros [= <-]; by left].
    cbn [negb]. unfold GridScatterSystem.updateChunks.
    cbn [beginUpdate setCamera currentCamera config].
    destruct (GridScatterSystem.scanX _ _ _ _ _ _ _ _ _ _ _) as [[keys s1]| |] eqn:Hx;
      try discriminate.
    cbn [bind]. intros [= <-]. right.
    eapply (grid_scanX_views g cam fuel s) in Hx as (centers & Hv & Hq & _); [|apply sameSetup_refl].
    exists centers. split; [|done]. unfold streamChunks. by rewrite Hv.
  - unfold RadialScatterSystem.update.
    destruct (isInitialized s); [|intros [= <-]; by left].
    cbn [negb]. unfold RadialScatterSystem.updateChunks.
    cbn [beginUpdate setCamera currentCamera config].
    destruct (RadialScatterSystem.scanX _ _ _ _ _ _ _ _ _ _ _ _) as [[keys s1]| |] eqn:Hx;
      try discriminate.
    cbn [bind]. intros [= <-]. right.
    eapply (radial_scanX_views m r cam fuel s) in Hx as (centers & Hv & Hq & _); [|apply sameSetup_refl].
    exists centers. split; [|done]. unfold streamChunks. by rewrite Hv.
  - unfold CurveScatterSystem.update.
    destruct (isInitialized s); [|intros [= <-]; by left].
    cbn [negb]. unfold CurveScatterSystem.updateChunks.
    cbn [beginUpdate setCamera currentCamera config].
    destruct (CurveScatterSystem.scan _ _ _ _ _ _ _ _) as [[keys s1]| |] eqn:Hx;
      try discriminate.
    cbn [bind]. intros [= <-]. right.
    eapply (curve_scan_views l c cam fuel s) in Hx as ((centers & Hv & Hq & _) & _);
      [|done|apply sameSetup_refl].
    exists centers. split; [|done]. unfold streamChunks. by rewrite Hv.
  - unfold VolumeScatterSystem.update.
    destruct (isInitialized s); [|intros [= <-]; by left].
    cbn [negb]. unfold VolumeScatterSystem.updateChunks.
    cbn [beginUpdate setCamera currentCamera config].
    destruct (VolumeScatterSystem.scanX _ _ _ _ _ _ _ _ _ _ _ _) as [[keys s1]| |] eqn:Hx;
      try discriminate.
    cbn [bind]. intros [= <-]. right.
    eapply (volume_scanX_views m v cam fuel s) in Hx as (centers & Hv & Hq & _); [|apply sameSetup_refl].
    exists centers. split; [|done]. unfold streamChunks. by rewrite Hv.
  - unfold HeightmapScatterSystem.update.
    destruct (isInitialized s); [|intros [= <-]; by left].
    cbn [negb]. unfold HeightmapScatterSystem.updateChunks.
    cbn [beginUpdate setCamera currentCamera config].
    destruct (HeightmapScatterSystem.scanX _ _ _ _ _ _ _ _ _ _ _ _ _) as [[keys s1]| |] eqn:Hx;
      try discriminate.
    cbn [bind]. intros [= <-]. right.
    eapply (heightmap_scanX_views m a h cam fuel s) in Hx as (centers & Hv & Hq & _);
      [|apply sameSetup_refl].
    exists centers. split; [|done]. unfold streamChunks. by rewrite Hv.
Qed.

(** After an update of the curve strategy, the chunk of every curve point
    within range is active. *)
Lemma curve_update_complete fuel l c cam s s' point :
  isInitialized s = true ->
  CurveScatterSystem.update fuel l c cam s = Done s' ->
  point ∈ CurveScatterSystem.curvePoints c ->
  (CurveScatterSystem.distanceTo point (THREE.position cam)
     <=? cVisibilityRange (config s))%float = true ->
  dormant (keyOfPoint (cChunkSize (config s)) point) s' = false.
Proof.
  intros Hinit. unfold CurveScatterSystem.update. rewrite Hinit. cbn [negb].
  unfold CurveScatterSystem.updateChunks.
  cbn [beginUpdate setCamera currentCamera config].
  destruct (CurveScatterSystem.scan _ _ _ _ _ _ _ _) as [[keys s1]| |] eqn:Hx;
    try discriminate.
  cbn [bind]. intros [= <-] Hin Hr.
  eapply (curve_scan_views l c cam fuel s) in Hx as ((centers & Hv & _ & _) & _ & Hall);
    [|done|apply sameSetup_refl].
  specialize (Hall point Hin Hr). simpl in Hall.
  pose proof (visitAll_keys _ _ _ _ _ _ Hv) as ->.
  apply elem_collect in Hall as [Hnil|Hk]; [by apply elem_of_nil in Hnil|].
  apply (streamChunks_dormant (CurveScatterSystem.populateChunk fuel l c) centers
           (beginUpdate cam s));
    [apply Tidy_Disciplined, (strategy_tidy fuel (CurveStrategy l c)) | | done].
  unfold streamChunks. rewrite Hv. done.
Qed.

End Views.

Module UpdateFacts.
Import Core BaseScatterSystem Streaming Props Lifecycle Discipline FrameFacts Placement Upkeep Views.

Lemma updateWith_Sound fuel st cam s s' :
  Sound s -> updateWith fuel st cam s = Done s' -> Sound s'.
Proof.
  intros Hs Hu. destruct (update_streams _ _ _ _ _ Hu) as [[_ ->]|(centers & Hrun & _)];
    [done|].
  eapply streamChunks_Sound; [apply strategy_tidy | | exact Hrun].
  by apply Sound_beginUpdate.
Qed.

Lemma updatesWith_Sound fuel st cams s s' :
  Sound s -> updatesWith fuel st cams s = Done s' -> Sound s'.
Proof.
  revert s. induction cams as [|cam cams IH]; intros s Hs; simpl.
  - by intros [= <-].
  - destruct (updateWith fuel st cam s) as [s1| |] eqn:Hu; simpl; try discriminate.
    apply IH. by eapply updateWith_Sound.
Qed.

(** The active count is the number of handles that the chunks hold. *)
Lemma Balanced_count (s : System) :
  Balanced s ->
  InstancePool.getActiveCount (instancePool s) = Z.of_nat (length (heldBy (chunks s))).
Proof.
  intros Hb. unfold InstancePool.getActiveCount. f_equal.
  rewrite <- (size_list_to_set (C := gset Z) (heldBy (chunks s))) by apply Hb.
  f_equal. apply set_eq. intros id.
  rewrite elem_of_list_to_set. symmetry. apply (bal_active s Hb).
Qed.

Lemma filter_length_le {A} (f : A -> bool) (l : list A) :
  (length (List.filter f l) <= length l)%nat.
Proof. induction l as [|a l IH]; simpl; [lia|]. destruct (f a); simpl; lia. Qed.

End UpdateFacts.

(** ** Regenerating the chunks *)

Module Regeneration.
Import Core BaseScatterSystem Streaming Props Lifecycle FrameFacts Placement Upkeep.

#[local] Arguments deactivateChunk : simpl never.

Lemma mapGet_of_key {V} (k : Key) (m : list (Key * V)) :
  k ∈ map fst m -> is_Some (mapGet k m).
Proof.
  induction m as [|[k' v] m IH]; simpl; [by intros ?%elem_of_nil|].
  destruct (decide (k = k')); [done|].
  intros [?|?]%elem_of_cons; [done | by apply IH].
Qed.

Lemma keys_deactivateChunk (key : Key) (s : System) :
  map fst (chunks (deactivateChunk key s)) = map fst (chunks s).
Proof.
  rewrite deactivateChunk_chunks.
  destruct (mapGet key (chunks s)) as [chunk|] eqn:Hget; [|done].
  by rewrite keys_mapSet, Hget.
Qed.

(** What the loop of [regenerateAll] has done after the keys [ks]. *)
Lemma deactivate_fold (ks : list Key) (s : System) :
  Balanced s -> (forall k, k ∈ ks -> k ∈ map fst (chunks s)) ->
  let s' := fold_left (fun s' key => deactivateChunk key s') ks s in
  Balanced s' /\
  map fst (chunks s') = map fst (chunks s) /\
  events s' = events s ++ map ChunkDeactivated ks /\
  (forall k, dormant k s' = dormant k s || bool_decide (k ∈ ks)) /\
  sameSetup s s'.
Proof.
  revert s. induction ks as [|key ks IH]; intros s Hb Hks; simpl.
  - split; [done|]. split; [done|]. split; [by rewrite app_nil_r|].
    split; [|apply sameSetup_refl].
    intros k. by rewrite orb_false_r.
  - destruct (IH (deactivateChunk key s)) as (Hb' & Hkeys & Hev & Hd & Hs).
    { by apply deactivateChunk_Balanced. }
    { intros k Hk. rewrite keys_deactivateChunk. apply Hks. set_solver. }
    split; [done|]. split; [by rewrite Hkeys, keys_deactivateChunk|]. split.
    + rewrite Hev, deactivateChunk_events.
      destruct (mapGet_of_key key (chunks s)) as [chunk ->]; [apply Hks; set_solver|].
      by rewrite <- app_assoc.
    + split; [|eapply sameSetup_trans; [apply deactivateChunk_sameSetup | exact Hs]].
      intros k. rewrite Hd, deactivateChunk_dormant.
      destruct (decide (k = key)) as [->|Hne].
      * rewrite (bool_decide_eq_true_2 (key ∈ key :: ks)) by set_solver.
        by rewrite orb_true_r.
      * destruct (decide (k ∈ ks)).
        -- rewrite (bool_decide_eq_true_2 (k ∈ ks)) by done.
           by rewrite (bool_decide_eq_true_2 (k ∈ key :: ks)) by set_solver.
        -- rewrite (bool_decide_eq_false_2 (k ∈ ks)) by done.
           by rewrite (bool_decide_eq_false_2 (k ∈ key :: ks)) by set_solver.
Qed.

(** A balanced system whose chunks are all inactive has no active handle. *)
Lemma Balanced_all_dormant (s : System) :
  Balanced s -> (forall k, dormant k s = true) ->
  InstancePool.activeInstances (instancePool s) = ∅.
Proof.
  intros Hb Hd. apply set_eq. intros id. rewrite <- (bal_active s Hb).
  split; [|by intros ?%elem_of_empty].
  unfold heldBy. intros ([k c] & Hkc & Hin)%list_elem_of_In%in_flat_map.
  apply list_elem_of_In in Hkc, Hin. simpl in Hin.
  assert (Hinst : instances c = []).
  { apply (bal_inactive s Hb k c Hkc).
    pose proof (elem_mapGet k c (chunks s) (bal_keys s Hb) Hkc) as Hget.
    specialize (Hd k). unfold dormant in Hd. rewrite Hget in Hd.
    by apply negb_true_iff. }
  rewrite Hinst in Hin. by apply elem_of_nil in Hin.
Qed.

(** The system that [regenerateAll] hands to [updateChunks]. *)
Lemma regenerate_clears (s : System) :
  Balanced s ->
  let s1 := setChunks [] (deactivateAll s) in
  chunks s1 = [] /\
  InstancePool.getActiveCount (instancePool s1) = 0 /\
  events s1 = events s ++ map ChunkDeactivated (map fst (chunks s)) /\
  sameSetup s s1 /\
  Balanced s1.
Proof.
  intros Hb s1. subst s1. unfold deactivateAll.
  destruct (deactivate_fold (map fst (chunks s)) s Hb (fun _ H => H))
    as (Hb' & Hkeys & Hev & Hd & Hs).
  assert (Hempty : InstancePool.activeInstances
                     (instancePool (fold_left (fun s' key => deactivateChunk key s')
                                      (map fst (chunks s)) s)) = ∅).
  { apply Balanced_all_dormant; [done|]. intros k. rewrite Hd.
    destruct (dormant k s) eqn:Hk; [done|]. simpl.
    apply bool_decide_eq_true_2, mapGet_key. unfold dormant in Hk.
    by destruct (mapGet k (chunks s)). }
  split; [done|]. split.
  { unfold InstancePool.getActiveCount. simpl. by rewrite Hempty, size_empty. }
  split; [done|]. split.
  { eapply sameSetup_trans; [exact Hs|]. by repeat split. }
  split; simpl.
  - apply Hb'.
  - constructor.
  - constructor.
  - intros id. rewrite Hempty. set_solver.
  - intros k c Hin. by apply elem_of_nil in Hin.
Qed.

End Regeneration.

(** ** Numbers *)

From Stdlib Require FloatAxioms.

Module FloatFacts.
Import FloatAxioms.

Lemma SFcompare_refl (f : spec_float) : f <> S754_nan -> SFcompare f f = Some Eq.
Proof.
  destruct f as [s|s| |s m e]; simpl; try done; intros _.
  - by destruct s.
  - rewrite Z.compare_refl, Pos.compare_cont_refl. by destruct s.
Qed.

Lemma compare_cont_swap (m1 m2 : positive) :
  Pos.compare_cont Eq m2 m1 = CompOpp (Pos.compare_cont Eq m1 m2).
Proof. symmetry. apply (Pos.compare_cont_antisym m1 m2 Eq). Qed.

Lemma SFcompare_swap (a b : spec_float) :
  SFcompare b a = option_map CompOpp (SFcompare a b).
Proof.
  destruct a as [s1|s1| |s1 m1 e1], b as [s2|s2| |s2 m2 e2]; simpl; try done;
    try (by destruct s1); try (by destruct s2); try (by destruct s1, s2).
  f_equal. rewrite (Z.compare_antisym e1 e2), (compare_cont_swap m1 m2).
  destruct s1, s2; simpl; try done; destruct (e1 ?= e2); simpl; try done.
Qed.

Lemma SFcompare_None (a b : spec_float) :
  SFcompare a b = None <-> a = S754_nan \/ b = S754_nan.
Proof.
  destruct a as [s1|s1| |s1 m1 e1], b as [s2|s2| |s2 m2 e2]; simpl;
    split; try done; try (intros [?|?]; done); try (by left); try (by right).
Qed.

Lemma is_nan_spec (x : float) : is_nan x = true <-> Prim2SF x = S754_nan.
Proof.
  unfold is_nan. rewrite FloatAxioms.eqb_spec. unfold SFeqb. split.
  - intros H. destruct (decide (Prim2SF x = S754_nan)) as [|Hne]; [done|].
    rewrite (SFcompare_refl _ Hne) in H. done.
  - by intros ->.
Qed.

Lemma is_nan_false (x : float) : is_nan x = false <-> Prim2SF x <> S754_nan.
Proof.
  rewrite <- is_nan_spec. by destruct (is_nan x).
Qed.

Lemma is_nan_eq (x : float) : is_nan x = true -> x = nan.
Proof.
  intros H%is_nan_spec. apply Prim2SF_inj. by rewrite H.
Qed.

(** Comparisons with NaN are false. *)
Lemma ltb_nan_l (x y : float) : is_nan x = true -> (x <? y)%float = false.
Proof. intros H%is_nan_spec. by rewrite ltb_spec, H. Qed.

Lemma ltb_nan_r (x y : float) : is_nan y = true -> (x <? y)%float = false.
Proof.
  intros H%is_nan_spec. rewrite ltb_spec, H. unfold SFltb.
  by destruct (Prim2SF x).
Qed.

Lemma leb_nan_l (x y : float) : is_nan x = true -> (x <=? y)%float = false.
Proof. intros H%is_nan_spec. by rewrite leb_spec, H. Qed.

Lemma leb_nan_r (x y : float) : is_nan y = true -> (x <=? y)%float = false.
Proof.
  intros H%is_nan_spec. rewrite leb_spec, H. unfold SFleb.
  by destruct (Prim2SF x).
Qed.

Lemma ltb_not_nan (x y : float) :
  (x <? y)%float = true -> is_nan x = false /\ is_nan y = false.
Proof.
  intros H. split.
  - destruct (is_nan x) eqn:Hx; [|done]. by rewrite (ltb_nan_l x y Hx) in H.
  - destruct (is_nan y) eqn:Hy; [|done]. by rewrite (ltb_nan_r x y Hy) in H.
Qed.

Lemma ltb_leb (x y : float) : (x <? y)%float = true -> (x <=? y)%float = true.
Proof.
  rewrite ltb_spec, leb_spec. unfold SFltb, SFleb.
  by destruct (SFcompare (Prim2SF x) (Prim2SF y)) as [[| |]|].
Qed.

(** Among numbers, what is not greater is less or equal. *)
Lemma not_gtb_leb (x y : float) :
  is_nan x = false -> is_nan y = false ->
  (y <? x)%float = false -> (x <=? y)%float = true.
Proof.
  intros Hx%is_nan_false Hy%is_nan_false. rewrite ltb_spec, leb_spec.
  unfold SFltb, SFleb. rewrite (SFcompare_swap (Prim2SF x) (Prim2SF y)).
  destruct (SFcompare (Prim2SF x) (Prim2SF y)) as [[| |]|] eqn:Hc; simpl; try done.
  apply SFcompare_None in Hc. by destruct Hc.
Qed.

Lemma leb_refl (x : float) : is_nan x = false -> (x <=? x)%float = true.
Proof.
  intros Hx%is_nan_false. rewrite leb_spec. unfold SFleb.
  by rewrite SFcompare_refl.
Qed.

(** NaN is contagious in arithmetic. *)
Lemma add_nan_l (x y : float) : is_nan x = true -> is_nan (x + y)%float = true.
Proof. intros H%is_nan_spec. apply is_nan_spec. by rewrite add_spec, H. Qed.

Lemma add_nan_r (x y : float) : is_nan y = true -> is_nan (x + y)%float = true.
Proof.
  intros H%is_nan_spec. apply is_nan_spec. rewrite add_spec, H.
  by destruct (Prim2SF x).
Qed.

Lemma sub_nan_l (x y : float) : is_nan x = true -> is_nan (x - y)%float = true.
Proof. intros H%is_nan_spec. apply is_nan_spec. by rewrite sub_spec, H. Qed.

Lemma mul_nan_l (x y : float) : is_nan x = true -> is_nan (x * y)%float = true.
Proof. intros H%is_nan_spec. apply is_nan_spec. by rewrite mul_spec, H. Qed.

Lemma mul_nan_r (x y : float) : is_nan y = true -> is_nan (x * y)%float = true.
Proof.
  intros H%is_nan_spec. apply is_nan_spec. rewrite mul_spec, H.
  by destruct (Prim2SF x).
Qed.

Lemma div_nan_l (x y : float) : is_nan x = true -> is_nan (x / y)%float = true.
Proof. intros H%is_nan_spec. apply is_nan_spec. by rewrite div_spec, H. Qed.

Lemma floor_nan (x : float) : is_nan x = true -> is_nan (JS.floor x) = true.
Proof.
  intros H. pose proof H as H'%is_nan_spec. unfold JS.floor, JS.floorZ.
  by rewrite H'.
Qed.

(** [Math.min] and [Math.max]. *)
Lemma min_nan (a b : float) :
  is_nan a || is_nan b = true -> JS.min a b = nan.
Proof. unfold JS.min. by intros ->. Qed.

Lemma max_nan (a b : float) :
  is_nan a || is_nan b = true -> JS.max a b = nan.
Proof. unfold JS.max. by intros ->. Qed.

Lemma min_spec (a b : float) :
  is_nan a = false -> is_nan b = false ->
  (JS.min a b = a \/ JS.min a b = b) /\
  (JS.min a b <=? a)%float = true /\ (JS.min a b <=? b)%float = true.
Proof.
  intros Ha Hb. unfold JS.min. rewrite Ha, Hb. simpl.
  destruct (a <? b)%float eqn:Hab.
  { split; [by left|]. split; [by apply leb_refl | by apply ltb_leb]. }
  destruct (b <? a)%float eqn:Hba.
  { split; [by right|]. split; [by apply ltb_leb | by apply leb_refl]. }
  destruct (get_sign a).
  - split; [by left|]. split; [by apply leb_refl | by apply not_gtb_leb].
  - split; [by right|]. split; [by apply not_gtb_leb | by apply leb_refl].
Qed.

Lemma max_spec (a b : float) :
  is_nan a = false -> is_nan b = false ->
  (JS.max a b = a \/ JS.max a b = b) /\
  (a <=? JS.max a b)%float = true /\ (b <=? JS.max a b)%float = true.
Proof.
  intros Ha Hb. unfold JS.max. rewrite Ha, Hb. simpl.
  destruct (a <? b)%float eqn:Hab.
  { split; [by right|]. split; [by apply ltb_leb | by apply leb_refl]. }
  destruct (b <? a)%float eqn:Hba.
  { split; [by left|]. split; [by apply leb_refl | by apply ltb_leb]. }
  destruct (get_sign a).
  - split; [by right|]. split; [by apply not_gtb_leb | by apply leb_refl].
  - split; [by left|]. split; [by apply leb_refl | by apply not_gtb_leb].
Qed.

Lemma leb_not_gtb (x y : float) : (x <=? y)%float = true -> (y <? x)%float = false.
Proof.
  rewrite ltb_spec, leb_spec. unfold SFltb, SFleb.
  rewrite (SFcompare_swap (Prim2SF x) (Prim2SF y)).
  by destruct (SFcompare (Prim2SF x) (Prim2SF y)) as [[| |]|].
Qed.

Lemma leb_not_nan (x y : float) :
  (x <=? y)%float = true -> is_nan x = false /\ is_nan y = false.
Proof.
  intros H. split.
  - destruct (is_nan x) eqn:Hx; [|done]. by rewrite (leb_nan_l x y Hx) in H.
  - destruct (is_nan y) eqn:Hy; [|done]. by rewrite (leb_nan_r x y Hy) in H.
Qed.

(** Numbers of which neither is less than the other compare equal. *)
Lemma neither_less_eqb (x y : float) :
  is_nan x = false -> is_nan y = false ->
  (x <? y)%float = false -> (y <? x)%float = false -> (x =? y)%float = true.
Proof.
  intros Hx%is_nan_false Hy%is_nan_false.
  rewrite !ltb_spec, FloatAxioms.eqb_spec. unfold SFltb, SFeqb.
  rewrite (SFcompare_swap (Prim2SF x) (Prim2SF y)).
  destruct (SFcompare (Prim2SF x) (Prim2SF y)) as [[| |]|] eqn:Hc; simpl; try done.
  apply SFcompare_None in Hc. by destruct Hc.
Qed.

Lemma eqb_refl (x : float) : is_nan x = false -> (x =? x)%float = true.
Proof.
  intros Hx%is_nan_false. rewrite FloatAxioms.eqb_spec. unfold SFeqb.
  by rewrite SFcompare_refl.
Qed.

(** [Math.max(0, Math.min(1, w))]: NaN for NaN, else a number of [0, 1],
    and [w] itself (up to the sign of zero) when [w] is one. *)
Lemma clamp_unit (w : float) :
  let c := JS.max 0 (JS.min 1 w) in
  if is_nan w then is_nan c = true
  else (0 <=? c)%float = true /\ (c <=? 1)%float = true /\
       ((0 <=? w)%float = true -> (w <=? 1)%float = true -> (c =? w)%float = true).
Proof.
  intros c. subst c. destruct (is_nan w) eqn:Hw.
  { rewrite (min_nan 1 w) by (by rewrite Hw, orb_true_r). done. }
  destruct (min_spec 1 w eq_refl Hw) as (Hm & Hm1 & Hmw).
  assert (Hmn : is_nan (JS.min 1 w) = false) by (by destruct Hm as [-> | ->]).
  destruct (max_spec 0 (JS.min 1 w) eq_refl Hmn) as (Hr & Hr0 & Hrm).
  split; [done|]. split.
  { destruct Hr as [-> | ->]; done. }
  intros Hlo Hhi.
  assert (Hmin : JS.min 1 w = w).
  { unfold JS.min. rewrite Hw. simpl. rewrite (leb_not_gtb _ _ Hhi).
    by destruct (w <? 1)%float. }
  rewrite Hmin. unfold JS.max. rewrite Hw. simpl.
  destruct (0 <? w)%float eqn:H0w; [by apply eqb_refl|].
  rewrite (leb_not_gtb _ _ Hlo).
  change (get_sign 0) with false. simpl.
  apply neither_less_eqb; [reflexivity | exact Hw | exact H0w | by apply leb_not_gtb].
Qed.

End FloatFacts.

(** ** Noise and levels of detail *)

Module NoiseFacts.
Import PerlinNoise Props.

Lemma land3_cases (a : Z) :
  Z.land a 3 = 0 \/ Z.land a 3 = 1 \/ Z.land a 3 = 2 \/ Z.land a 3 = 3.
Proof.
  change 3 with (Z.ones 2). rewrite Z.land_ones by lia.
  change (2 ^ 2) with 4. change (Z.ones 2) with 3.
  pose proof (Z.mod_pos_bound a 4 ltac:(lia)). lia.
Qed.

Lemma grad_form (hash : value) (x y : JS.number) :
  exists h, (h = 0 \/ h = 1 \/ h = 2 \/ h = 3) /\ grad hash x y = gradForm h x y.
Proof.
  exists (Z.land (JS.toInt32 (toNumber hash)) 3). split; [apply land3_cases | done].
Qed.

(** At a lattice point the four corner gradients are evaluated at offsets
    0 and -1 and interpolated with weight [fade 0 = 0]. *)
Lemma lattice_value (h1 h2 h3 h4 : value) :
  ((lerp (lerp (grad h1 0 0) (grad h2 (0 - 1) 0) (fade 0))
         (lerp (grad h3 0 (0 - 1)) (grad h4 (0 - 1) (0 - 1)) (fade 0))
         (fade 0) + 1) * 0.5)%float = 0.5%float.
Proof.
  destruct (grad_form h1 0 0) as (k1 & H1 & ->).
  destruct (grad_form h2 (0 - 1) 0) as (k2 & H2 & ->).
  destruct (grad_form h3 0 (0 - 1)) as (k3 & H3 & ->).
  destruct (grad_form h4 (0 - 1) (0 - 1)) as (k4 & H4 & ->).
  destruct H1 as [-> | [-> | [-> | ->]]], H2 as [-> | [-> | [-> | ->]]],
           H3 as [-> | [-> | [-> | ->]]], H4 as [-> | [-> | [-> | ->]]];
    vm_compute; reflexivity.
Qed.

Lemma fbmLoop_no_octave (fuel : nat) (n : t) (x y octaves p l i : JS.number)
    (s : fbmState) :
  (i <? octaves)%float = false -> fbmLoop fuel n x y octaves p l i s = Some s.
Proof. intros H. destruct fuel; simpl; by rewrite H. Qed.

End NoiseFacts.

Module LodFacts.
Import Core BaseScatterSystem.

Lemma scale_scan (lv : list LODLevel) (dist : JS.number) (n : nat) :
  (n <= length lv)%nat ->
  lodScaleScan lv dist n =
    match find (fun lvl => (distance lvl <=? dist)%float) (rev (take n lv)) with
    | Some lvl => orElse (scaleMultiplier lvl) 1.0%float
    | None => 1.0%float
    end.
Proof.
  induction n as [|i IH]; intros Hn; [by rewrite take_0|].
  simpl lodScaleScan.
  destruct (lookup_lt_is_Some_2 lv i ltac:(lia)) as [li Hli].
  rewrite Hli, (take_S_r lv i li Hli), rev_app_distr. simpl.
  destruct (distance li <=? dist)%float; [done|]. apply IH. lia.
Qed.

Lemma density_scan (lv : list LODLevel) (blend dist : JS.number) (n : nat) :
  (0 <? blend)%float = false -> (n <= length lv)%nat ->
  lodDensityScan lv blend dist n =
    match find (fun lvl => (distance lvl <=? dist)%float) (rev (take n lv)) with
    | Some lvl => densityMultiplier lvl
    | None => 1.0%float
    end.
Proof.
  intros Hb. induction n as [|i IH]; intros Hn; [by rewrite take_0|].
  simpl lodDensityScan.
  destruct (lookup_lt_is_Some_2 lv i ltac:(lia)) as [li Hli].
  rewrite Hli, Hb, (take_S_r lv i li Hli), rev_app_distr. simpl.
  destruct (distance li <=? dist)%float; [done|]. apply IH. lia.
Qed.

End LodFacts.

(** ** The brush *)

Module BrushFacts.
Import Core BaseScatterSystem Props.

Lemma keys_paintedSet (k : Z) (v : ScatterBrush.PaintedInstance)
    (m : list (Z * ScatterBrush.PaintedInstance)) :
  k ∉ map fst m -> map fst (ScatterBrush.paintedSet k v m) = map fst m ++ [k].
Proof.
  induction m as [|[k' v'] m IH]; simpl; [done|]. intros Hk.
  destruct (decide (k = k')) as [->|Hne]; [set_solver|].
  simpl. f_equal. apply IH. set_solver.
Qed.

Lemma keys_paintedDelete (k : Z) (m : list (Z * ScatterBrush.PaintedInstance)) :
  map fst (ScatterBrush.paintedDelete k m)
  = List.filter (fun i => negb (bool_decide (i = k))) (map fst m).
Proof.
  unfold ScatterBrush.paintedDelete.
  induction m as [|[k' v'] m IH]; simpl; [done|].
  destruct (bool_decide (k' = k)); simpl; by rewrite IH.
Qed.

Lemma filter_out_absent (k : Z) (l : list Z) :
  k ∉ l -> List.filter (fun i => negb (bool_decide (i = k))) l = l.
Proof.
  induction l as [|i l IH]; simpl; [done|]. intros Hk.
  rewrite bool_decide_eq_false_2 by set_solver. simpl. f_equal. apply IH. set_solver.
Qed.

(** Deleting a key of a table without duplicates. *)
Lemma filter_out_present (k : Z) (l : list Z) :
  NoDup l -> k ∈ l ->
  let l' := List.filter (fun i => negb (bool_decide (i = k))) l in
  NoDup l' /\ S (length l') = length l /\
  (forall i, i ∈ l' <-> i ∈ l /\ i <> k).
Proof.
  induction l as [|i l IH]; simpl; [by intros _ ?%elem_of_nil|].
  intros [Hi Hnd]%NoDup_cons Hk.
  destruct (decide (i = k)) as [->|Hne].
  - rewrite bool_decide_eq_true_2 by done. simpl.
    rewrite filter_out_absent by done. split; [done|]. split; [done|].
    intros j. split; [intros Hj; split; [set_solver | by intros ->] | set_solver].
  - rewrite bool_decide_eq_false_2 by done. simpl.
    destruct IH as (Hnd' & Hlen & Hmem); [done | set_solver |].
    split.
    { constructor; [|done]. rewrite Hmem. by intros [? _]. }
    split; [lia|]. intros j. rewrite !elem_of_cons, Hmem. naive_solver.
Qed.

Lemma Owns_ext (others : gset Z) (b b' : ScatterBrush.t) (s s' : System) :
  ScatterBrush.paintedInstances b' = ScatterBrush.paintedInstances b ->
  instancePool s' = instancePool s ->
  Owns others b s -> Owns others b' s'.
Proof.
  intros Hp Hs [H1 H2 H3 H4]. unfold paintedKeys in *.
  split; unfold paintedKeys; rewrite ?Hp, ?Hs; done.
Qed.

Lemma Owns_new (now : JS.number) (cfg : ScatterBrush.BrushConfig) (s : System) :
  wf (instancePool s) ->
  Owns (InstancePool.activeInstances (instancePool s)) (ScatterBrush.new now cfg) s.
Proof.
  intros Hwf. split; simpl; [done | constructor | by intros ? ?%elem_of_nil | set_solver].
Qed.

(** One iteration of [paint]: the books are kept, the chunks are not
    touched, and the brush stores one handle for each instance it
    reports. *)
Lemma paintOne_Owns (m : MathLib) (center : THREE.Vector3)
    (hp : option (JS.number -> JS.number -> JS.number))
    (others : gset Z) (st st' : ScatterBrush.Stroke) (flow : ScatterBrush.Flow) :
  Owns others (ScatterBrush.brush st) (ScatterBrush.sys st) ->
  ScatterBrush.paintOne m center hp st = (flow, st') ->
  Owns others (ScatterBrush.brush st') (ScatterBrush.sys st') /\
  chunks (ScatterBrush.sys st') = chunks (ScatterBrush.sys st) /\
  (length (paintedKeys (ScatterBrush.brush st'))
     + length (ScatterBrush.newInstances st)
   = length (paintedKeys (ScatterBrush.brush st))
     + length (ScatterBrush.newInstances st'))%nat.
Proof.
  intros Hown. unfold ScatterBrush.paintOne.
  destruct (SeededRandom.range 0 twoPi _) as [angle r1].
  destruct (SeededRandom.next r1) as [u r2].
  destruct (SeededRandom.next r2) as [p r3].
  destruct (_ <? p)%float.
  { intros [= <- <-]. simpl. split; [by apply (Owns_ext _ (ScatterBrush.brush st) _ (ScatterBrush.sys st))|]. done. }
  destruct (InstancePool.acquire _) as [[instanceId|] pool'] eqn:Hacq.
  2:{ intros [= <- <-]. simpl. split; [by apply (Owns_ext _ (ScatterBrush.brush st) _ (ScatterBrush.sys st))|]. done. }
  destruct (SeededRandom.range 0 twoPi r3) as [ry r4].
  destruct (SeededRandom.range _ _ r4) as [baseScale r5].
  intros [= <- <-]. simpl.
  destruct Hown as [Hwf Hnd Hfresh Hact].
  destruct (PoolFacts.acquire_Some _ _ _ Hwf Hacq) as (Hnew & Hact' & _ & Hwf').
  assert (Hk : instanceId ∉ paintedKeys (ScatterBrush.brush st)).
  { intros Hin. apply Hnew. rewrite Hact. set_solver. }
  unfold paintedKeys in *. simpl. rewrite (keys_paintedSet _ _ _ Hk).
  split; [|split; [done|]].
  - split; unfold paintedKeys; simpl; rewrite ?(keys_paintedSet _ _ _ Hk).
    + done.
    + apply NoDup_app. split; [done|]. split; [|apply NoDup_singleton].
      intros i Hi ->%list_elem_of_singleton. done.
    + intros i [Hi | ->%list_elem_of_singleton]%elem_of_app; [by apply Hfresh|].
      intros Hin. apply Hnew. rewrite Hact. set_solver.
    + rewrite Hact', Hact, list_to_set_app_L. set_solver.
  - rewrite !length_app. simpl. lia.
Qed.

Lemma paintLoop_Owns (fuel : nat) (m : MathLib) (center : THREE.Vector3)
    (hp : option (JS.number -> JS.number -> JS.number)) (count : JS.number)
    (others : gset Z) (i : JS.number) (st st' : ScatterBrush.Stroke) :
  Owns others (ScatterBrush.brush st) (ScatterBrush.sys st) ->
  ScatterBrush.paintLoop fuel m center hp count i st = Done st' ->
  Owns others (ScatterBrush.brush st') (ScatterBrush.sys st') /\
  chunks (ScatterBrush.sys st') = chunks (ScatterBrush.sys st) /\
  (length (paintedKeys (ScatterBrush.brush st'))
     + length (ScatterBrush.newInstances st)
   = length (paintedKeys (ScatterBrush.brush st))
     + length (ScatterBrush.newInstances st'))%nat.
Proof.
  revert i st. induction fuel as [|fuel IH]; intros i st Hown; simpl;
    destruct (i <? count)%float; try done; try (by intros [= <-]).
  destruct (ScatterBrush.paintOne m center hp st) as [flow st1] eqn:Hone.
  destruct (paintOne_Owns _ _ _ _ _ _ _ Hown Hone) as (Hown1 & Hch1 & Hlen1).
  destruct flow.
  - intros Hrest. destruct (IH _ _ Hown1 Hrest) as (Hown' & Hch' & Hlen').
    split; [done|]. split; [congruence | lia].
  - by intros [= <-].
Qed.

Lemma paint_Owns (fuel : nat) (m : MathLib) (center : THREE.Vector3)
    (hp : option (JS.number -> JS.number -> JS.number))
    (others : gset Z) (b b' : ScatterBrush.t) (s s' : System)
    (painted : list ScatterBrush.PaintedInstance) :
  Owns others b s ->
  ScatterBrush.paint fuel m center hp b s = Done (painted, b', s') ->
  Owns others b' s' /\ chunks s' = chunks s /\
  ScatterBrush.getPaintedCount b' = (ScatterBrush.getPaintedCount b + length painted)%nat.
Proof.
  intros Hown. unfold ScatterBrush.paint.
  destruct (ScatterBrush.paintLoop _ _ _ _ _ _ _) as [st'| |] eqn:Hloop; simpl; try done.
  intros [= <- <- <-].
  destruct (paintLoop_Owns _ _ _ _ _ others _ (ScatterBrush.stroke b s []) _ Hown Hloop)
    as (Hown' & Hch & Hlen).
  split; [done|]. split; [done|]. simpl in Hlen.
  unfold ScatterBrush.getPaintedCount, paintedKeys in *.
  rewrite !length_map in Hlen. lia.
Qed.

(** The handles that the first loop of [erase] selects are taken from
    the table, in its order. *)
Lemma eraseTest_cases (center : THREE.Vector3) (b : ScatterBrush.t)
    (acc : list Z) (r : SeededRandom.t) (k : Z) (v : ScatterBrush.PaintedInstance) :
  fst (ScatterBrush.eraseTest center b (acc, r) (k, v)) = acc \/
  fst (ScatterBrush.eraseTest center b (acc, r) (k, v)) = acc ++ [k].
Proof.
  unfold ScatterBrush.eraseTest.
  destruct (_ <=? ScatterBrush.radius b)%float; [|by left].
  destruct (SeededRandom.next r) as [u r'].
  destruct (u <=? _)%float; [by right | by left].
Qed.

Lemma eraseScan_fold (center : THREE.Vector3) (b : ScatterBrush.t)
    (entries : list (Z * ScatterBrush.PaintedInstance))
    (acc : list Z) (r : SeededRandom.t) :
  exists picked,
    fst (fold_left (ScatterBrush.eraseTest center b) entries (acc, r)) = acc ++ picked /\
    sublist picked (map fst entries).
Proof.
  revert acc r. induction entries as [|[k v] entries IH]; intros acc r.
  { exists []. simpl. by rewrite app_nil_r. }
  change (fold_left (ScatterBrush.eraseTest center b) ((k, v) :: entries) (acc, r))
    with (fold_left (ScatterBrush.eraseTest center b) entries
            (ScatterBrush.eraseTest center b (acc, r) (k, v))).
  pose proof (eraseTest_cases center b acc r k v) as Hc.
  destruct (ScatterBrush.eraseTest center b (acc, r) (k, v)) as [acc' r'].
  simpl in Hc. destruct (IH acc' r') as (picked & -> & Hsub).
  destruct Hc as [-> | ->].
  - exists picked. split; [done|]. simpl. by constructor.
  - exists (k :: picked). rewrite <- app_assoc. split; [done|]. simpl. by constructor.
Qed.

Lemma eraseScan_sublist (center : THREE.Vector3) (b : ScatterBrush.t) :
  sublist (fst (ScatterBrush.eraseScan center b)) (paintedKeys b).
Proof.
  unfold ScatterBrush.eraseScan.
  destruct (eraseScan_fold center b (ScatterBrush.paintedInstances b) [] (ScatterBrush.rng b))
    as (picked & -> & Hsub). done.
Qed.

(** The second loop of [erase], for handles that the brush stores. *)
Lemma eraseOne_Owns (others : gset Z) (b : ScatterBrush.t) (s : System) (instanceId : Z) :
  Owns others b s -> instanceId ∈ paintedKeys b ->
  let '(b', s') := ScatterBrush.eraseOne (b, s) instanceId in
  Owns others b' s' /\ chunks s' = chunks s /\
  S (length (paintedKeys b')) = length (paintedKeys b) /\
  (forall i, i ∈ paintedKeys b' <-> i ∈ paintedKeys b /\ i <> instanceId) /\
  InstancePool.freeIds (instancePool s')
    = InstancePool.freeIds (instancePool s) ++ [instanceId].
Proof.
  intros [Hwf Hnd Hfresh Hact] Hin. simpl.
  destruct (filter_out_present instanceId (paintedKeys b) Hnd Hin) as (Hnd' & Hlen & Hmem).
  assert (Hkeys : paintedKeys
            (ScatterBrush.setPainted
               (ScatterBrush.paintedDelete instanceId (ScatterBrush.paintedInstances b)) b)
          = List.filter (fun i => negb (bool_decide (i = instanceId))) (paintedKeys b)).
  { unfold paintedKeys. simpl. apply keys_paintedDelete. }
  assert (Hactive : instanceId ∈ InstancePool.activeInstances (instancePool s)).
  { rewrite Hact. set_solver. }
  rewrite Hkeys. split; [|split; [done|]; split; [done|]; split; [done|]].
  - split; rewrite ?Hkeys; simpl.
    + by apply PoolFacts.wf_release.
    + done.
    + intros i Hi%Hmem. apply Hfresh, Hi.
    + rewrite (PoolFacts.release_active _ _ Hactive). simpl. rewrite Hact.
      apply set_eq. intros i. rewrite elem_of_difference, !elem_of_union,
        !elem_of_list_to_set, Hmem, elem_of_singleton.
      split.
      * intros [[Hi|Hi] Hne]; [by left | by right].
      * intros [Hi|[Hi Hne]]; [|by split; [right|]].
        split; [by left|]. intros ->. by apply (Hfresh instanceId).
  - simpl. by rewrite (PoolFacts.release_active _ _ Hactive).
Qed.

Lemma eraseAll_Owns (others : gset Z) (ids : list Z) (b : ScatterBrush.t) (s : System) :
  Owns others b s -> NoDup ids -> (forall i, i ∈ ids -> i ∈ paintedKeys b) ->
  let '(b', s') := fold_left ScatterBrush.eraseOne ids (b, s) in
  Owns others b' s' /\ chunks s' = chunks s /\
  (length (paintedKeys b') + length ids = length (paintedKeys b))%nat /\
  (forall i, i ∈ paintedKeys b' <-> i ∈ paintedKeys b /\ i ∉ ids) /\
  InstancePool.freeIds (instancePool s') = InstancePool.freeIds (instancePool s) ++ ids.
Proof.
  revert b s. induction ids as [|id ids IH]; intros b s Hown Hnd Hall.
  { simpl. split; [done|]. split; [done|]. split; [lia|]. split; [set_solver|].
    by rewrite app_nil_r. }
  apply NoDup_cons in Hnd as [Hid Hnd].
  change (fold_left ScatterBrush.eraseOne (id :: ids) (b, s))
    with (fold_left ScatterBrush.eraseOne ids (ScatterBrush.eraseOne (b, s) id)).
  pose proof (eraseOne_Owns others b s id Hown ltac:(apply Hall; set_solver)) as H1.
  destruct (ScatterBrush.eraseOne (b, s) id) as [b1 s1].
  destruct H1 as (Hown1 & Hch1 & Hlen1 & Hmem1 & Hfree1).
  specialize (IH b1 s1 Hown1 Hnd).
  destruct (fold_left ScatterBrush.eraseOne ids (b1, s1)) as [b' s'].
  destruct IH as (Hown' & Hch' & Hlen' & Hmem' & Hfree').
  { intros i Hi. apply Hmem1. split; [apply Hall; set_solver|]. by intros ->. }
  split; [done|]. split; [congruence|]. split; [simpl; lia|]. split.
  - intros i. rewrite Hmem', Hmem1, elem_of_cons. naive_solver.
  - by rewrite Hfree', Hfree1, <- app_assoc.
Qed.

Lemma erase_Owns (others : gset Z) (center : THREE.Vector3)
    (b b' : ScatterBrush.t) (s s' : System) (n : nat) :
  Owns others b s ->
  ScatterBrush.erase center b s = (n, b', s') ->
  Owns others b' s' /\ chunks s' = chunks s /\
  (ScatterBrush.getPaintedCount b' + n = ScatterBrush.getPaintedCount b)%nat.
Proof.
  intros Hown. unfold ScatterBrush.erase.
  pose proof (eraseScan_sublist center b) as Hsub.
  destruct (ScatterBrush.eraseScan center b) as [toRemove r]. simpl in Hsub.
  assert (Hown0 : Owns others (ScatterBrush.setRng r b) s) by (by apply (Owns_ext _ b _ s)).
  pose proof (eraseAll_Owns others toRemove _ s Hown0) as H.
  destruct (fold_left ScatterBrush.eraseOne toRemove (ScatterBrush.setRng r b, s))
    as [b1 s1].
  intros [= <- <- <-].
  destruct H as (Hown' & Hch & Hlen & _).
  { exact (sublist_NoDup _ _ (own_nodup _ _ _ Hown) Hsub). }
  { intros i Hi. exact (sublist_subseteq _ _ Hsub i Hi). }
  split; [done|]. split; [done|].
  unfold ScatterBrush.getPaintedCount, paintedKeys in *.
  rewrite !length_map in Hlen. simpl in Hlen. lia.
Qed.

Lemma clearAll_Owns (others : gset Z) (b : ScatterBrush.t) (s : System) :
  Owns others b s ->
  let '(b', s') := ScatterBrush.clearAll b s in
  Owns others b' s' /\ chunks s' = chunks s /\
  ScatterBrush.paintedInstances b' = [] /\
  InstancePool.activeInstances (instancePool s') = others /\
  InstancePool.freeIds (instancePool s')
    = InstancePool.freeIds (instancePool s) ++ paintedKeys b.
Proof.
  intros [Hwf Hnd Hfresh Hact]. simpl.
  destruct (Lifecycle.releaseInstance_fold (paintedKeys b) s) as (Hpool & Hch & _).
  fold (paintedKeys b).
  destruct (Lifecycle.releaseAll_facts (paintedKeys b) (instancePool s) Hwf Hnd)
    as (Hwf' & Hfree & Hact').
  { intros i Hi. rewrite Hact. set_solver. }
  assert (Hothers : InstancePool.activeInstances
                      (instancePool (fold_left releaseInstance (paintedKeys b) s)) = others).
  { rewrite Hpool, Hact', Hact. apply set_eq. intros i.
    rewrite elem_of_difference, elem_of_union, elem_of_list_to_set.
    split; [by intros [[?|?] ?] | intros Hi; split; [by left|]].
    intros Hin. by apply (Hfresh i). }
  split.
  { split; simpl; [by rewrite Hpool | constructor | by intros ? ?%elem_of_nil|].
    rewrite Hothers. set_solver. }
  split; [done|]. split; [done|]. split; [done|]. by rewrite Hpool.
Qed.

Lemma call_Owns (fuel : nat) (m : MathLib) (c : ScatterBrush.BrushCall)
    (others : gset Z) (b b' : ScatterBrush.t) (s s' : System) :
  Owns others b s ->
  ScatterBrush.call fuel m c (b, s) = Done (b', s') ->
  Owns others b' s' /\ chunks s' = chunks s.
Proof.
  intros Hown. destruct c as [center hp|center| |r|w|d]; simpl.
  - destruct (ScatterBrush.paint fuel m center hp b s) as [[[painted b1] s1]| |] eqn:Hp;
      simpl; try done.
    intros [= <- <-]. destruct (paint_Owns _ _ _ _ _ _ _ _ _ _ Hown Hp) as (? & ? & _).
    done.
  - destruct (ScatterBrush.erase center b s) as [[n b1] s1] eqn:He.
    intros [= <- <-]. destruct (erase_Owns _ _ _ _ _ _ _ Hown He) as (? & ? & _). done.
  - pose proof (clearAll_Owns others b s Hown) as H.
    destruct (ScatterBrush.clearAll b s) as [b1 s1]. intros [= <- <-].
    destruct H as (? & ? & _). done.
  - intros [= <- <-]. split; [by apply (Owns_ext _ b _ s) | done].
  - intros [= <- <-]. split; [by apply (Owns_ext _ b _ s) | done].
  - intros [= <- <-]. split; [by apply (Owns_ext _ b _ s) | done].
Qed.

#[local] Arguments ScatterBrush.call : simpl never.

Lemma calls_Owns (fuel : nat) (m : MathLib) (cs : list ScatterBrush.BrushCall)
    (others : gset Z) (b b' : ScatterBrush.t) (s s' : System) :
  Owns others b s ->
  ScatterBrush.calls fuel m cs (b, s) = Done (b', s') ->
  Owns others b' s' /\ chunks s' = chunks s.
Proof.
  revert b s. induction cs as [|c cs IH]; intros b s Hown; simpl.
  { by intros [= <- <-]. }
  destruct (ScatterBrush.call fuel m c (b, s)) as [[b1 s1]| |] eqn:Hc; simpl; try done.
  destruct (call_Owns _ _ _ _ _ _ _ _ Hown Hc) as (Hown1 & Hch1).
  intros Hrest. destruct (IH _ _ Hown1 Hrest) as (Hown' & Hch').
  split; [done | congruence].
Qed.

(** The count of active handles under the books. *)
Lemma Owns_count (others : gset Z) (b : ScatterBrush.t) (s : System) :
  Owns others b s ->
  InstancePool.getActiveCount (instancePool s)
  = Z.of_nat (size others) + Z.of_nat (ScatterBrush.getPaintedCount b).
Proof.
  intros [Hwf Hnd Hfresh Hact]. unfold InstancePool.getActiveCount.
  rewrite Hact, size_union.
  - rewrite size_list_to_set by done.
    unfold ScatterBrush.getPaintedCount, paintedKeys. rewrite length_map. lia.
  - intros i Hi Hk%elem_of_list_to_set. by apply (Hfresh i).
Qed.

End BrushFacts.

(** ** The blender *)

Module BlenderFacts.
Import Core Props.

#[local] Abbreviation Layers := (list (String.string * ScatterBlender.ScatterLayer)).

Lemma layerGet_layerSet_eq (n : String.string) (v : ScatterBlender.ScatterLayer)
    (m : Layers) :
  ScatterBlender.layerGet n (ScatterBlender.layerSet n v m) = Some v.
Proof.
  induction m as [|[k l] m IH]; simpl; [by rewrite decide_True|].
  destruct (decide (n = k)) as [->|Hne]; simpl; [by rewrite decide_True|].
  by rewrite decide_False.
Qed.

Lemma layerGet_layerSet_ne (n n' : String.string) (v : ScatterBlender.ScatterLayer)
    (m : Layers) :
  n' <> n ->
  ScatterBlender.layerGet n' (ScatterBlender.layerSet n v m) = ScatterBlender.layerGet n' m.
Proof.
  intros Hne. induction m as [|[k l] m IH]; simpl; [by rewrite decide_False|].
  destruct (decide (n = k)) as [->|Hnk]; simpl.
  - by rewrite !decide_False.
  - by rewrite IH.
Qed.

Lemma keys_layerSet (n : String.string) (v : ScatterBlender.ScatterLayer) (m : Layers) :
  is_Some (ScatterBlender.layerGet n m) ->
  map fst (ScatterBlender.layerSet n v m) = map fst m.
Proof.
  induction m as [|[k l] m IH]; simpl; [by intros [? ?]|].
  destruct (decide (n = k)) as [->|Hnk]; simpl; [done|].
  intros H. by rewrite IH.
Qed.

(** Updating the layers reads no weight and keeps every layer under its
    name: a new weight may be stored before the update or after it. *)
Lemma updateLayers_reweigh (camera : THREE.Camera) (n : String.string)
    (w : JS.number) (m : Layers) :
  match ScatterBlender.layerGet n m with
  | Some layer =>
      ScatterBlender.updateLayers camera (ScatterBlender.layerSet n (reweigh w layer) m)
      = let* m' := ScatterBlender.updateLayers camera m in
        match ScatterBlender.layerGet n m' with
        | Some layer' => Done (ScatterBlender.layerSet n (reweigh w layer') m')
        | None => Done m'
        end
  | None =>
      forall m', ScatterBlender.updateLayers camera m = Done m' ->
                 ScatterBlender.layerGet n m' = None
  end.
Proof.
  induction m as [|[k l] m IH]; simpl.
  { by intros m' [= <-]. }
  destruct (decide (n = k)) as [->|Hnk].
  - simpl. destruct (ScatterBlender.systemUpdate l camera (ScatterBlender.system l));
      simpl; try done.
    destruct (ScatterBlender.updateLayers camera m); simpl; try done.
    by rewrite !decide_True by done.
  - destruct (ScatterBlender.layerGet n m) as [layer|] eqn:Hget.
    + simpl. destruct (ScatterBlender.systemUpdate l camera (ScatterBlender.system l));
        simpl; try done.
      rewrite IH. destruct (ScatterBlender.updateLayers camera m) as [m'| |]; simpl;
        try done.
      rewrite decide_False by done.
      destruct (ScatterBlender.layerGet n m'); simpl; [|done].
      by rewrite decide_False.
    + intros m'.
      destruct (ScatterBlender.systemUpdate l camera (ScatterBlender.system l));
        simpl; try done.
      destruct (ScatterBlender.updateLayers camera m) as [m1| |]; simpl; try done.
      intros [= <-]. simpl. rewrite decide_False by done. by apply IH.
Qed.

(** A remainder by zero is NaN. *)
Lemma eqb_zero (y : float) :
  (y =? 0)%float = true -> exists s, Prim2SF y = S754_zero s.
Proof.
  rewrite FloatAxioms.eqb_spec. unfold SFeqb.
  destruct (Prim2SF y) as [s|s| |s m e]; simpl; try done; [by exists s | by destruct s | by destruct s].
Qed.

Lemma rem_zero (x y : float) : (y =? 0)%float = true -> JS.rem x y = nan.
Proof.
  intros [s Hy]%eqb_zero. unfold JS.rem. rewrite Hy.
  by destruct (Prim2SF x).
Qed.

Lemma rem_nan (x y : float) : is_nan y = true -> JS.rem x y = nan.
Proof.
  intros Hy%FloatFacts.is_nan_spec. unfold JS.rem. rewrite Hy.
  by destruct (Prim2SF x).
Qed.

End BlenderFacts.

(** ** Where the instances are *)

Module Whereabouts.
Import Core BaseScatterSystem Streaming Props Lifecycle Discipline FrameFacts Placement Upkeep.

#[local] Arguments visit : simpl never.
#[local] Arguments activateChunk : simpl never.
#[local] Arguments deactivateChunk : simpl never.
#[local] Arguments streamChunks : simpl never.
#[local] Arguments deactivateIfStale : simpl never.

(** ** The population loops that test the position against a box *)

Section TestedSteps.
Variable b : THREE.Box3.
Variable R : System -> ChunkData -> System -> ChunkData -> Prop.
Hypothesis R_refl : forall s c, R s c s c.
Hypothesis R_trans : forall s1 c1 s2 c2 s3 c3,
  R s1 c1 s2 c2 -> R s2 c2 s3 c3 -> R s1 c1 s3 c3.
Hypothesis R_push : forall s c id pool' x y z dy r sc,
  InstancePool.acquire (instancePool s) = (Some id, pool') ->
  THREE.containsPoint b (THREE.vec3 x y z) = true ->
  R s c
    (setConverter
       (Converter.setInstanceTransform id (THREE.vec3 x (y + dy)%float z) r sc (converter s))
       (setPool pool' s))
    (pushInstance id c).

Lemma grid_cell_tested g gx gz st flow st' :
  GridScatterSystem.cell g b gx gz st = (flow, st') ->
  R (GridScatterSystem.sys st) (GridScatterSystem.chunk st)
    (GridScatterSystem.sys st') (GridScatterSystem.chunk st').
Proof.
  unfold GridScatterSystem.cell.
  destruct (match GridScatterSystem.skipPattern g with
            | Some f => f gx gz | None => false end).
  { intros [= _ <-]. apply R_refl. }
  draw.
  destruct (THREE.containsPoint b _) eqn:Hin; simpl.
  2: { intros [= _ <-]. apply R_refl. }
  destruct (InstancePool.acquire _) as [[id|] pool'] eqn:Hacq.
  - draw. intros [= _ <-]. simpl. by apply R_push.
  - intros [= _ <-]. apply R_refl.
Qed.

Lemma grid_column_tested fuel g gx gz st st' :
  GridScatterSystem.column fuel g b gx gz st = Done st' ->
  R (GridScatterSystem.sys st) (GridScatterSystem.chunk st)
    (GridScatterSystem.sys st') (GridScatterSystem.chunk st').
Proof.
  revert gz st. induction fuel as [|fuel IH]; simpl; intros gz st.
  - destruct (gz <? _)%float; [discriminate|]. intros [= <-]. apply R_refl.
  - destruct (gz <? _)%float; [|intros [= <-]; apply R_refl].
    destruct (GridScatterSystem.cell g b gx gz st) as [[|] st1] eqn:Hcell.
    + intros H. eapply R_trans; [by eapply grid_cell_tested | by eapply IH].
    + intros [= <-]. by eapply grid_cell_tested.
Qed.

Lemma grid_columns_tested fuel g gx st st' :
  GridScatterSystem.columns fuel g b gx st = Done st' ->
  R (GridScatterSystem.sys st) (GridScatterSystem.chunk st)
    (GridScatterSystem.sys st') (GridScatterSystem.chunk st').
Proof.
  revert gx st. induction fuel as [|fuel IH]; intros gx st.
  - simpl. destruct (gx <? _)%float; [discriminate|]. intros [= <-]. apply R_refl.
  - cbn [GridScatterSystem.columns].
    destruct (gx <? _)%float; [|intros [= <-]; apply R_refl].
    destruct (GridScatterSystem.column (S fuel) g b gx 0 st) as [st1| |] eqn:Hcol;
      try discriminate.
    cbn [bind]. intros H.
    eapply R_trans; [by eapply grid_column_tested | by eapply IH].
Qed.

Lemma radial_attempt_tested m fuel r st flow st' :
  RadialScatterSystem.attempt m fuel r b st = Done (flow, st') ->
  R (RadialScatterSystem.sys st) (RadialScatterSystem.chunk st)
    (RadialScatterSystem.sys st') (RadialScatterSystem.chunk st').
Proof.
  unfold RadialScatterSystem.attempt. draw.
  destruct (if (0 <? _)%float then _ else _) as [radius r2]. draw.
  destruct (THREE.containsPoint b _) eqn:Hin; simpl.
  2: { intros [= _ <-]. apply R_refl. }
  destruct (match noiseGenerator _ with Some _ => _ | None => _ end) as [accept| |];
    try discriminate.
  cbn [bind]. destruct (negb accept).
  { intros [= _ <-]. apply R_refl. }
  destruct (InstancePool.acquire _) as [[id|] pool'] eqn:Hacq.
  - draw. intros [= _ <-]. simpl. by apply R_push.
  - intros [= _ <-]. apply R_refl.
Qed.

Lemma radial_placeLoop_tested fuel m r target maxAttempts st e st' :
  RadialScatterSystem.placeLoop fuel m r b target maxAttempts st = Done (e, st') ->
  R (RadialScatterSystem.sys st) (RadialScatterSystem.chunk st)
    (RadialScatterSystem.sys st') (RadialScatterSystem.chunk st').
Proof.
  revert st. induction fuel as [|fuel IH]; intros st.
  - simpl. destruct (_ && _); [discriminate|]. intros [= _ <-]. apply R_refl.
  - cbn [RadialScatterSystem.placeLoop].
    destruct (_ && _); [|intros [= _ <-]; apply R_refl].
    destruct (RadialScatterSystem.attempt m (S fuel) r b st) as [[[|] st1]| |] eqn:Hatt;
      try discriminate; cbn [bind].
    + intros H. eapply R_trans; [by eapply radial_attempt_tested | by eapply IH].
    + intros [= _ <-]. by eapply radial_attempt_tested.
Qed.

(** A box volume accepts no point outside its bounds. *)
Lemma box_accepts_inside v point rng rng' :
  VolumeScatterSystem.volumeType v = VolumeScatterSystem.Box ->
  VolumeScatterSystem.isPointInVolume v point rng = (true, rng') ->
  THREE.containsPoint (VolumeScatterSystem.bounds v) point = true.
Proof.
  intros Hbox. unfold VolumeScatterSystem.isPointInVolume. rewrite Hbox.
  destruct (THREE.containsPoint _ point); [done|]. simpl. by intros [= ].
Qed.

Lemma volume_attempt_tested m fuel v cb st flow st' :
  VolumeScatterSystem.volumeType v = VolumeScatterSystem.Box ->
  VolumeScatterSystem.bounds v = b ->
  VolumeScatterSystem.attempt m fuel v cb st = Done (flow, st') ->
  R (VolumeScatterSystem.sys st) (VolumeScatterSystem.chunk st)
    (VolumeScatterSystem.sys st') (VolumeScatterSystem.chunk st').
Proof.
  intros Hbox Hb. unfold VolumeScatterSystem.attempt. draw.
  destruct (VolumeScatterSystem.isPointInVolume _ _ _) as [[|] r4] eqn:Hin; simpl.
  2: { intros [= _ <-]. apply R_refl. }
  apply (box_accepts_inside _ _ _ _ Hbox) in Hin. rewrite Hb in Hin.
  destruct (match noiseGenerator _ with Some _ => _ | None => _ end) as [accept| |];
    try discriminate.
  cbn [bind]. destruct (negb accept).
  { intros [= _ <-]. apply R_refl. }
  destruct (InstancePool.acquire _) as [[id|] pool'] eqn:Hacq.
  - draw. intros [= _ <-]. simpl. by apply R_push.
  - intros [= _ <-]. apply R_refl.
Qed.

Lemma volume_placeLoop_tested fuel m v cb target maxAttempts st st' :
  VolumeScatterSystem.volumeType v = VolumeScatterSystem.Box ->
  VolumeScatterSystem.bounds v = b ->
  VolumeScatterSystem.placeLoop fuel m v cb target maxAttempts st = Done st' ->
  R (VolumeScatterSystem.sys st) (VolumeScatterSystem.chunk st)
    (VolumeScatterSystem.sys st') (VolumeScatterSystem.chunk st').
Proof.
  intros Hbox Hb. revert st. induction fuel as [|fuel IH]; intros st.
  - simpl. destruct (_ && _); [discriminate|]. intros [= <-]. apply R_refl.
  - cbn [VolumeScatterSystem.placeLoop].
    destruct (_ && _); [|intros [= <-]; apply R_refl].
    destruct (VolumeScatterSystem.attempt m (S fuel) v cb st) as [[[|] st1]| |] eqn:Hatt;
      try discriminate; cbn [bind].
    + intros H. eapply R_trans; [by eapply volume_attempt_tested | by eapply IH].
    + intros [= <-]. by eapply volume_attempt_tested.
Qed.

End TestedSteps.

(** ** [settles] is such a relation *)

Lemma settles_refl P s c : settles P s c s c.
Proof.
  intros _. split; [done|]. split; [done|]. split; [done|].
  exists []. rewrite app_nil_r. split; [done|]. split; [done|]. split; [done|].
  by intros id ?%elem_of_nil.
Qed.

Lemma settles_trans P s1 c1 s2 c2 s3 c3 :
  settles P s1 c1 s2 c2 -> settles P s2 c2 s3 c3 -> settles P s1 c1 s3 c3.
Proof.
  intros H1 H2 Hwf1.
  destruct (H1 Hwf1) as (Hch1 & Hb1 & Hn1 & ids1 & Hi1 & Ha1 & Hk1 & Hw1).
  destruct (acquired_facts _ _ _ Hwf1 Ha1) as (Hwf2 & _ & _ & Hact2).
  destruct (H2 Hwf2) as (Hch2 & Hb2 & Hn2 & ids2 & Hi2 & Ha2 & Hk2 & Hw2).
  destruct (acquired_facts _ _ _ Hwf2 Ha2) as (_ & _ & Hfresh2 & _).
  split; [congruence|]. split; [congruence|]. split; [congruence|].
  exists (ids1 ++ ids2). split; [by rewrite Hi2, Hi1, app_assoc|].
  split; [by eapply acquired_app|]. split.
  - intros id Hid. rewrite Hk2, Hk1; [done | set_solver | set_solver].
  - intros id [Hid|Hid]%elem_of_app Hr.
    + rewrite Hk2; [by apply Hw1|].
      intros Hid2. apply (Hfresh2 id Hid2). rewrite Hact2. set_solver.
    + apply Hw2; [done|]. by rewrite (inRange_count _ _ id Hn1).
Qed.

Lemma settles_push b s c id pool' x y z dy r sc :
  InstancePool.acquire (instancePool s) = (Some id, pool') ->
  THREE.containsPoint b (THREE.vec3 x y z) = true ->
  settles (insideXZ b) s c
    (setConverter
       (Converter.setInstanceTransform id (THREE.vec3 x (y + dy)%float z) r sc (converter s))
       (setPool pool' s))
    (pushInstance id c).
Proof.
  intros Hacq Hin Hwf. simpl. split; [done|]. split; [done|]. split.
  { unfold Converter.setInstanceTransform. by destruct (Converter.inRange _ id). }
  exists [id]. split; [done|]. split; [by exists pool'|]. split.
  - intros i Hi. unfold Converter.setInstanceTransform.
    destruct (Converter.inRange _ id); [|done]. simpl.
    rewrite lookup_insert_ne; [done | set_solver].
  - intros i ->%list_elem_of_singleton Hr. unfold Converter.setInstanceTransform.
    rewrite Hr. simpl. rewrite lookup_insert_eq. eexists. split; [done|]. simpl.
    unfold THREE.containsPoint in Hin. simpl in Hin.
    repeat (apply andb_true_iff in Hin as [Hin ?]). by repeat split.
Qed.

(** What is settled under a property is settled under a weaker one. *)
Lemma settles_weaken (P P' : THREE.Vector3 -> Prop) s c s' c' :
  (forall p, P p -> P' p) -> settles P s c s' c' -> settles P' s c s' c'.
Proof.
  intros HP H Hwf.
  destruct (H Hwf) as (Hch & Hb & Hn & ids & Hi & Ha & Hk & Hw).
  split; [done|]. split; [done|]. split; [done|]. exists ids.
  split; [done|]. split; [done|]. split; [done|].
  intros id Hid Hr. destruct (Hw id Hid Hr) as (t & Ht & Hin).
  exists t. split; [done | by apply HP].
Qed.

(** ** Along a frame *)

Section Frames.
Variable Q : THREE.Box3 -> THREE.Vector3 -> Prop.
Variables (fuel : nat) (st : Strategy).
Hypothesis populate_settles : forall s c x z s' c',
  populateWith fuel st s c x z = Done (s', c') ->
  settles (Q (chunkBoundsOf (cChunkSize (config s)) x z)) s c s' c'.

Lemma activateChunk_Located x z s s' :
  Sound s -> Located Q s ->
  activateChunk (populateWith fuel st) x z s = Done s' -> Located Q s'.
Proof.
  intros [Hb Hf] Hl Hact. unfold activateChunk in Hact.
  destruct (populateWith fuel st s (freshChunk s x z) x z) as [[s1 chunk]| |] eqn:Hpop;
    simpl in Hact; try discriminate.
  injection Hact as <-.
  destruct (populate_settles _ _ _ _ _ _ Hpop (bal_pool s Hb))
    as (Hch & Hbd & Hn & ids & Hi & Ha & Hk & Hw).
  destruct (acquired_facts _ _ _ (bal_pool s Hb) Ha) as (_ & _ & Hfresh & _).
  simpl in Hi, Hbd. intros k c id. simpl. rewrite Hch.
  intros [[= -> ->]|Hkc]%elem_mapSet Hid.
  - rewrite Hi in Hid. rewrite Hbd. apply Hw; [done|].
    pose proof (acquired_below _ _ _ id (bal_pool s Hb) Ha Hid) as Hlt.
    unfold Converter.inRange. rewrite (fit_count s Hf).
    apply andb_true_iff. split; [apply Z.leb_le | apply Z.ltb_lt]; lia.
  - rewrite Hk; [by apply (Hl k c)|].
    intros Hin. apply (Hfresh id Hin), (bal_active s Hb).
    unfold heldBy. apply list_elem_of_In, in_flat_map. exists (k, c).
    split; by apply list_elem_of_In.
Qed.

Lemma deactivateChunk_Located key s : Located Q s -> Located Q (deactivateChunk key s).
Proof.
  intros Hl. pose proof (deactivateChunk_chunks key s) as Hchunks.
  unfold deactivateChunk in *.
  destruct (mapGet key (chunks s)) as [chunk|] eqn:Hget; [|done].
  destruct (releaseInstance_fold_converter (instances chunk) s) as (_ & Htr & _).
  intros k c id. simpl in *. rewrite Hchunks, Htr.
  intros [[= -> ->]|Hkc]%elem_mapSet Hid.
  - simpl in Hid. by apply elem_of_nil in Hid.
  - by apply (Hl k c).
Qed.

Lemma visit_Located x z keys s keys' s' :
  Sound s -> Located Q s ->
  visit (populateWith fuel st) x z (keys, s) = Done (keys', s') -> Located Q s'.
Proof.
  intros Hs Hl Hv. destruct (visit_spec _ _ _ _ _ _ _ Hv) as (_ & H).
  destruct (dormant (getChunkKey x z) s).
  - by eapply activateChunk_Located.
  - by subst.
Qed.

Lemma visitAll_Located centers keys s keys' s' :
  Sound s -> Located Q s ->
  visitAll (populateWith fuel st) centers (keys, s) = Done (keys', s') -> Located Q s'.
Proof.
  revert keys s.
  induction centers as [|[x z] centers IH]; intros keys s Hs Hl; simpl.
  - by intros [= <- <-].
  - destruct (visit (populateWith fuel st) x z (keys, s)) as [[keys1 s1]| |] eqn:Hv;
      simpl; try discriminate.
    apply IH.
    + eapply visit_Sound; [apply strategy_tidy | exact Hs | exact Hv].
    + by eapply visit_Located.
Qed.

Lemma deactivateStale_Located keys s : Located Q s -> Located Q (deactivateStale keys s).
Proof.
  unfold deactivateStale. generalize (map fst (chunks s)) as ks. intros ks.
  revert s. induction ks as [|k0 ks IH]; intros s Hl; simpl; [done|].
  apply IH. unfold deactivateIfStale.
  destruct (mapGet k0 (chunks s)) as [chunk|]; [|done].
  destruct (_ && _); [by apply deactivateChunk_Located | done].
Qed.

Lemma updateWith_Located cam s s' :
  Sound s -> Located Q s ->
  updateWith fuel st cam s = Done s' -> Located Q s'.
Proof.
  intros Hs Hl Hu.
  destruct (Views.update_streams _ _ _ _ _ Hu) as [[_ ->]|(centers & Hrun & _)]; [done|].
  destruct (streamChunks_spec _ _ _ _ Hrun) as (s1 & Hv & ->).
  apply deactivateStale_Located.
  eapply visitAll_Located; [ | | exact Hv].
  - by apply Sound_beginUpdate.
  - exact Hl.
Qed.

Lemma updatesWith_Located cams s s' :
  Sound s -> Located Q s ->
  updatesWith fuel st cams s = Done s' -> Located Q s'.
Proof.
  revert s. induction cams as [|cam cams IH]; intros s Hs Hl; simpl.
  - by intros [= <-].
  - destruct (updateWith fuel st cam s) as [s1| |] eqn:Hu; simpl; try discriminate.
    apply IH.
    + by eapply UpdateFacts.updateWith_Sound.
    + by eapply updateWith_Located.
Qed.

End Frames.

Lemma Located_new Q now cfg : Located Q (Core.init (Core.new now cfg)).
Proof. intros k c id Hin. by apply elem_of_nil in Hin. Qed.

(** ** The strategies *)

(** The strategies that test the position settle their instances within
    the bounds that [activateChunk] gives the chunk. *)
Lemma tested_populate_settles fuel st s c x z s' c' :
  testsPosition st = true ->
  populateWith fuel st s c x z = Done (s', c') ->
  settles (insideXZ (chunkBoundsOf (cChunkSize (config s)) x z)) s c s' c'.
Proof.
  destruct st as [g|m r|l cv|m v|m a h]; simpl; [| |discriminate|discriminate|discriminate];
    intros _.
  - unfold GridScatterSystem.populateChunk.
    destruct (GridScatterSystem.columns _ _ _ _ _) as [st| |] eqn:Hcols; try discriminate.
    cbn [bind]. intros [= <- <-].
    apply (grid_columns_tested _ _ (settles_refl _) (settles_trans _) (settles_push _))
      in Hcols.
    revert Hcols. by apply settles_weaken.
  - unfold RadialScatterSystem.populateChunk, RadialScatterSystem.populate.
    destruct (RadialScatterSystem.placeLoop _ _ _ _ _ _ _) as [[e st]| |] eqn:Hloop;
      try discriminate.
    cbn [bind]. intros [= <- <-].
    apply (radial_placeLoop_tested _ _ (settles_refl _) (settles_trans _) (settles_push _))
      in Hloop.
    revert Hloop. by apply settles_weaken.
Qed.

(** A box volume settles its instances within its own bounds. *)
Lemma box_populate_settles fuel m v s c x z s' c' :
  VolumeScatterSystem.volumeType v = VolumeScatterSystem.Box ->
  populateWith fuel (VolumeStrategy m v) s c x z = Done (s', c') ->
  settles (insideXZ (VolumeScatterSystem.bounds v)) s c s' c'.
Proof.
  intros Hbox. simpl. unfold VolumeScatterSystem.populateChunk.
  destruct (VolumeScatterSystem.placeLoop _ _ _ _ _ _ _) as [st| |] eqn:Hloop;
    try discriminate.
  cbn [bind]. intros [= <- <-].
  by apply (volume_placeLoop_tested _ _ (settles_refl _) (settles_trans _) (settles_push _)
              _ _ _ _ _ _ _ _ Hbox eq_refl) in Hloop.
Qed.

End Whereabouts.

(* ===================================================================== *)
(** * The properties *)
(* ===================================================================== *)

Import Core BaseScatterSystem Streaming Props Lifecycle.

(** C1: for every sequence of [acquire()] and [release()] calls on a pool
    constructed with a capacity [maxInstances] (a count, so not negative),
    the number of active instances is at most [maxInstances], and the next
    [acquire()] returns [null] exactly when the free list is empty and the
    running id counter has reached [maxInstances].  Every prefix of a
    sequence is a sequence, so the bound holds at all times. *)
Theorem pool_capacity_invariant (maxInstances : Z) (calls : list InstancePool.call) :
  0 <= maxInstances ->
  let p := InstancePool.run (InstancePool.new maxInstances) calls in
  InstancePool.getActiveCount p <= maxInstances /\
  (fst (InstancePool.acquire p) = None <->
   InstancePool.freeIds p = [] /\ InstancePool.nextId p = maxInstances).
Proof.
  intros Hmax p.
  assert (Hwf : wf p) by apply PoolFacts.wf_run, PoolFacts.wf_new.
  assert (Hm : InstancePool.maxInstances p = maxInstances)
    by apply PoolFacts.maxInstances_run.
  split.
  - pose proof (PoolFacts.wf_active_count p Hwf). lia.
  - rewrite PoolFacts.acquire_None_iff, Hm.
    pose proof (wf_next p Hwf). intuition lia.
Qed.

Lemma pool_capacity_invariant_witness :
  let p := InstancePool.run (InstancePool.new 2)
             [InstancePool.Acquire; InstancePool.Acquire; InstancePool.Acquire;
              InstancePool.Release 0; InstancePool.Acquire] in
  InstancePool.getActiveCount p <= 2 /\
  (fst (InstancePool.acquire p) = None <->
   InstancePool.freeIds p = [] /\ InstancePool.nextId p = 2).
Proof. apply pool_capacity_invariant. lia. Defined.

(** C2: in every program, whatever else it does (other objects, the clock,
    [Math.random()]) and in whatever order, two noise fields built from the
    same seed are the field of that seed and answer every [noise2D] query,
    and every [fbm2D] query with the same parameters, with the same number;
    two [SeededRandom] objects built from the same seed and given the same
    calls return the same numbers, those that the seed and the calls alone
    determine; and building or calling them draws nothing from
    [Math.random()]: the stream has been read once per call of
    [Math.random()] that the program itself makes. *)
Theorem same_seed_same_output (now : JS.number) (stream : nat -> JS.number)
    (sc : list Determinism.action) (outs : list Determinism.result)
    (w' : Determinism.world) (seed : JS.number) :
  Determinism.run sc (Determinism.genesis now stream) = Some (outs, w') ->
  (forall i j n1 n2,
     sc !! i = Some (Determinism.NewPerlinNoise seed) ->
     outs !! i = Some (Determinism.Field n1) ->
     sc !! j = Some (Determinism.NewPerlinNoise seed) ->
     outs !! j = Some (Determinism.Field n2) ->
     n1 = PerlinNoise.new seed /\
     (forall x y, PerlinNoise.noise2D n1 x y = PerlinNoise.noise2D n2 x y) /\
     (forall fuel x y octaves persistence lacunarity scale,
        PerlinNoise.fbm2D fuel n1 x y octaves persistence lacunarity scale
        = PerlinNoise.fbm2D fuel n2 x y octaves persistence lacunarity scale)) /\
  (forall i j a1 a2,
     sc !! i = Some (Determinism.NewSeededRandom seed) ->
     outs !! i = Some (Determinism.Ref a1) ->
     sc !! j = Some (Determinism.NewSeededRandom seed) ->
     outs !! j = Some (Determinism.Ref a2) ->
     Determinism.callsOn a1 sc = Determinism.callsOn a2 sc ->
     Determinism.answersOn a1 sc outs = Determinism.answersOn a2 sc outs /\
     Determinism.answersOn a1 sc outs
     = Determinism.drive (Determinism.callsOn a1 sc) (SeededRandom.new seed)) /\
  Determinism.randomUsed w' = Determinism.randomCalls sc.
Proof.
  intros Hrun.
  pose proof (HeapFacts.wellFormed_genesis now stream) as Hwf.
  split; [|split].
  - intros i j n1 n2 Hi Ho1 Hj Ho2.
    rewrite (HeapFacts.field_of_built _ _ _ _ _ _ _ Hrun Hi Ho1).
    rewrite (HeapFacts.field_of_built _ _ _ _ _ _ _ Hrun Hj Ho2).
    by repeat split.
  - intros i j a1 a2 Hi Ho1 Hj Ho2 Hcalls.
    rewrite (HeapFacts.answers_of_built _ _ _ _ _ _ _ Hwf Hrun Hi Ho1).
    rewrite (HeapFacts.answers_of_built _ _ _ _ _ _ _ Hwf Hrun Hj Ho2).
    by rewrite Hcalls.
  - by destruct (HeapFacts.run_frame _ _ _ _ Hwf Hrun) as (_ & _ & ->).
Qed.

Lemma same_seed_same_output_witness :
  exists outs w',
    Determinism.run Scenarios.twins (Determinism.genesis 1000 (fun _ => 0.25%float))
    = Some (outs, w') /\
    Determinism.answersOn 0 Scenarios.twins outs
    = Determinism.answersOn 2 Scenarios.twins outs /\
    (exists n1 n2,
       outs !! 2%nat = Some (Determinism.Field n1) /\
       outs !! 9%nat = Some (Determinism.Field n2) /\
       forall x y, PerlinNoise.noise2D n1 x y = PerlinNoise.noise2D n2 x y) /\
    Determinism.randomUsed w' = 1%nat.
Proof.
  assert (Hrun : exists outs w' n1 n2,
            Determinism.run Scenarios.twins
              (Determinism.genesis 1000 (fun _ => 0.25%float)) = Some (outs, w') /\
            outs !! 0%nat = Some (Determinism.Ref 0) /\
            outs !! 5%nat = Some (Determinism.Ref 2) /\
            outs !! 2%nat = Some (Determinism.Field n1) /\
            outs !! 9%nat = Some (Determinism.Field n2)).
  { eexists _, _, _, _.
    split; [vm_compute; reflexivity|].
    split; [vm_compute; reflexivity|].
    split; [vm_compute; reflexivity|].
    split; [vm_compute; reflexivity | vm_compute; reflexivity]. }
  destruct Hrun as (outs & w' & n1 & n2 & Hrun & H0 & H5 & H2 & H9).
  destruct (same_seed_same_output _ _ _ _ _ 42%float Hrun) as (_ & Hgen & Hent).
  destruct (same_seed_same_output _ _ _ _ _ 7%float Hrun) as (Hfield & _ & _).
  exists outs, w'. split; [exact Hrun|]. split; [|split].
  - exact (proj1 (Hgen 0%nat 5%nat 0%nat 2%nat eq_refl H0 eq_refl H5 eq_refl)).
  - exists n1, n2. split; [exact H2|]. split; [exact H9|].
    exact (proj1 (proj2 (Hfield 2%nat 9%nat n1 n2 eq_refl H2 eq_refl H9))).
  - exact Hent.
Defined.

(** C3: for a chunk activated at center [(x, z)] under any global seed, the
    seed of the chunk's noise field (built by [activateChunk]) and of the
    chunk's generator (built by [populateChunk]) is the unsigned 32-bit
    value of [(x * 73856093) XOR (z * 19349663) XOR globalSeed]. *)
Theorem chunk_seed_is_the_xor_formula (fuel : nat) (g : GridScatterSystem.Grid)
    (s : System) (c : ChunkData) (x z : JS.number) :
  let seed := chunkSeedSpec x z (cRandomSeed (config s)) in
  0 <= seed < 2 ^ 32 /\
  noiseGenerator (freshChunk s x z) = Some (PerlinNoise.new (JS.ofZ seed)) /\
  chunkRng (config s) x z = SeededRandom.new (JS.ofZ seed) /\
  GridScatterSystem.populateChunk fuel g s c x z
  = (let* st := GridScatterSystem.columns fuel g
                  (populateBounds (cChunkSize (config s)) x z) 0
                  (GridScatterSystem.placing (SeededRandom.new (JS.ofZ seed)) s c) in
     Done (GridScatterSystem.sys st, GridScatterSystem.chunk st)).
Proof.
  intros seed. subst seed. rewrite <- SeedFacts.chunkSeed_spec.
  split; [|repeat split].
  unfold chunkSeed, JS.ushr0. apply Z.mod_pos_bound. lia.
Qed.

(** C4: with levels [{0: 1.0, 100: 0.5}] and blend distance 20 the
    multiplier computed at camera distance 110 is 0.5, not the
    interpolated 0.75: the last level never blends.  The first level blends toward the
    next over the distances [0, 20) and falls back to its own multiplier at
    20, so the multiplier jumps there from 0.5125 (at 19.5) to 1. *)
Theorem lod_multiplier_is_not_blended_at_110 :
  getLODDensityMultiplier Scenarios.lodSystem 110 0 = 0.5%float /\
  getLODDensityMultiplier Scenarios.lodSystem 19.5 0 = 0.5125%float /\
  getLODDensityMultiplier Scenarios.lodSystem 20 0 = 1%float.
Proof. vm_compute. repeat split; reflexivity. Qed.

(** C5: the grid scenario (grid size (2,2), cell size 10, random offset 0,
    seed 42, center at the origin, defaults elsewhere), updated once for a
    camera at the origin that sees the whole grid, places exactly four
    instances, and the converter holds them at (-5,0,-5), (-5,0,5),
    (5,0,-5) and (5,0,5): the exact cell centers. *)
Theorem grid_two_by_two_places_four_cell_centers :
  exists s,
    Scenarios.gridAfterUpdate = Done s /\
    InstancePool.getActiveCount (instancePool s) = 4 /\
    Scenarios.placements s =
      [(0, Some (THREE.vec3 (-5) 0 (-5))); (1, Some (THREE.vec3 (-5) 0 5));
       (2, Some (THREE.vec3 5 0 (-5))); (3, Some (THREE.vec3 5 0 5))].
Proof.
  eexists. split; [vm_compute; reflexivity|]. split; vm_compute; reflexivity.
Qed.

(** C6: along every sequence of frames of a strategy whose [populateChunk]
    keeps the pool discipline, the handles active in the pool are exactly
    the handles held by chunks, each held once; deactivating a chunk
    releases each of its handles exactly once (the free list grows by the
    chunk's instance list and these handles stop being active); and a frame
    in which no chunk is visible returns the pool's active count to 0. *)
Theorem handles_are_released_exactly_once
    (populateChunk : Populate) (now : JS.number) (cfg : BaseScatterConfig)
    (fs : list (list (JS.number * JS.number))) (s : System) :
  Disciplined populateChunk ->
  frames populateChunk fs (Core.init (Core.new now cfg)) = Done s ->
  Balanced s /\
  (forall key chunk, mapGet key (chunks s) = Some chunk ->
     NoDup (instances chunk) /\
     (forall id, id ∈ instances chunk ->
        id ∈ InstancePool.activeInstances (instancePool s)) /\
     InstancePool.freeIds (instancePool (deactivateChunk key s))
       = InstancePool.freeIds (instancePool s) ++ instances chunk /\
     InstancePool.activeInstances (instancePool (deactivateChunk key s))
       = InstancePool.activeInstances (instancePool s) ∖ list_to_set (instances chunk) /\
     mapGet key (chunks (deactivateChunk key s))
       = Some (chunkData [] false (noiseGenerator chunk) (bounds chunk))) /\
  (exists s', streamChunks populateChunk [] s = Done s' /\
              InstancePool.getActiveCount (instancePool s') = 0).
Proof.
  intros Hd Hrun.
  assert (Hb : Balanced s).
  { eapply frames_Balanced; [exact Hd | | exact Hrun].
    apply (Balanced_ext (Core.new now cfg)); [done | done | apply Balanced_new]. }
  split; [done|]. split.
  - intros key chunk Hget.
    destruct (deactivateChunk_spec key chunk s Hb Hget) as (_ & Hfree & Hact & Hchunks).
    destruct (mapGet_Some key chunk (chunks s) Hget) as (m1 & m2 & Hm & _).
    pose proof (bal_nodup s Hb) as Hnd. unfold heldBy in Hnd.
    rewrite Hm, flat_map_app in Hnd. simpl in Hnd.
    apply NoDup_app in Hnd as (_ & _ & Hnd). apply NoDup_app in Hnd as (Hnd & _ & _).
    split; [done|]. split.
    + intros id Hid. apply (bal_active s Hb). unfold heldBy.
      rewrite Hm, flat_map_app. simpl. set_solver.
    + split; [done|]. split; [done|]. by rewrite Hchunks, mapGet_mapSet_eq.
  - destruct (streamChunks_nil populateChunk s Hb) as (s' & Hs' & _ & _ & Hzero).
    by exists s'.
Qed.

Lemma handles_are_released_exactly_once_witness :
  exists s,
    frames Scenarios.gridPopulate Scenarios.toggling
      (Core.init (Core.new 0 (GridScatterSystem.base Scenarios.gridScenario))) = Done s /\
    Balanced s /\
    exists s', streamChunks Scenarios.gridPopulate [] s = Done s' /\
               InstancePool.getActiveCount (instancePool s') = 0.
Proof.
  assert (Hrun : exists s,
    frames Scenarios.gridPopulate Scenarios.toggling
      (Core.init (Core.new 0 (GridScatterSystem.base Scenarios.gridScenario))) = Done s).
  { eexists. vm_compute. reflexivity. }
  destruct Hrun as [s Hrun]. exists s. split; [exact Hrun|].
  destruct (handles_are_released_exactly_once Scenarios.gridPopulate 0
              (GridScatterSystem.base Scenarios.gridScenario) Scenarios.toggling s
              (Discipline.grid_disciplined _ _) Hrun) as (Hb & _ & Hz).
  split; [exact Hb | exact Hz].
Defined.



(** C8: a curve of length 1 sampled with spacing 5 has a point list of one
    point; [generateCurvePoints] then throws a [TypeError] while computing
    the tangent of that point (it reads [curvePoints[-1]]).  On a point list
    of one point [populateChunk] evaluates [t = 0 / (1 - 1)], which is NaN,
    and with two handles and [alignToNormal] off it throws a [TypeError] on
    the handle that NaN indexes: the division by [pointCount - 1] is not
    guarded. *)
Theorem single_point_curve_divides_by_zero (l : CurveScatterSystem.RotationLib) :
  CurveScatterSystem.getPoints Scenarios.unitSegment 0
    = [THREE.vec3 nan nan nan] /\
  CurveScatterSystem.generateCurvePoints Scenarios.sparseCurve = TypeError /\
  PrimFloat.is_nan (CurveScatterSystem.curveParam 0 1) = true /\
  CurveScatterSystem.populateChunk 8 l Scenarios.onePointCurve
    Scenarios.unalignedSystem
    (freshChunk Scenarios.unalignedSystem 0 0) 0%float 0%float
    = TypeError.
Proof. vm_compute. repeat split; reflexivity. Qed.

(** C9: for the noise field of seed 42, [noise2D(0.625, 72.5)] is
    1.0389976501464844, above 1, and [noise2D(0.375, 64.5)] is
    -0.061647415161132812, below 0; [fbm2D] with one octave returns the
    former.  The values of [noise2D] and [fbm2D] are not confined to
    [0, 1]. *)
Theorem noise_leaves_the_unit_interval :
  let n := PerlinNoise.new 42 in
  PerlinNoise.noise2D n 0.625 72.5 = 1.0389976501464844%float /\
  PerlinNoise.noise2D n 0.375 64.5 = (-0.061647415161132812)%float /\
  PerlinNoise.fbm2D 1 n 0.625 72.5 1 0.5 2 1 = Some 1.0389976501464844%float /\
  (1 <? 1.0389976501464844)%float = true /\
  (-0.061647415161132812 <? 0)%float = true.
Proof. vm_compute. repeat split; reflexivity. Qed.

(** C10: [sampleDensityMap] returns 1.0 whenever no pixel data is loaded,
    and whenever the texture coordinate [(u, v)] computed for the world
    position lies outside [0,1] x [0,1] (the test [u < 0 || u > 1 || v < 0
    || v > 1] of the source succeeds). *)
Theorem density_map_is_full_outside (s : System) (worldX worldZ : JS.number) :
  densityMapData s = None \/
  (exists dm, cDensityMap (config s) = Some dm /\
     let (u, v) := densityUV dm worldX worldZ in
     (u <? 0)%float || (1 <? u)%float || (v <? 0)%float || (1 <? v)%float = true) ->
  sampleDensityMap s worldX worldZ = 1%float.
Proof.
  unfold sampleDensityMap. intros [-> | (dm & -> & Hout)]; [reflexivity|].
  destruct (densityMapData s); [|reflexivity].
  destruct (densityMapTexture s); [|reflexivity].
  destruct (densityUV dm worldX worldZ) as [u v].
  rewrite Hout. reflexivity.
Qed.

Lemma density_map_is_full_outside_witness :
  sampleDensityMap Scenarios.mappedSystem 12 5 = 1%float /\
  sampleDensityMap Scenarios.mappedSystem 5 5 = 0%float.
Proof.
  split.
  - apply density_map_is_full_outside. right. eexists. split; [reflexivity|].
    vm_compute. reflexivity.
  - vm_compute. reflexivity.
Defined.

(* ===================================================================== *)
(** * Further properties of the code *)
(* ===================================================================== *)

(** ** utils/InstancePool.ts *)

(** X1: [hasCapacity()] answers [true] exactly when the next [acquire()]
    returns a handle rather than [null], in every state of the pool. *)
Theorem has_capacity_tells_whether_acquire_succeeds (p : InstancePool.t) :
  InstancePool.hasCapacity p = true <-> fst (InstancePool.acquire p) <> None.
Proof.
  unfold InstancePool.hasCapacity, InstancePool.acquire.
  destruct (InstancePool.pop (InstancePool.freeIds p)) as [[id rest]|] eqn:Hpop.
  - apply PoolFacts.pop_Some in Hpop. rewrite Hpop, length_app. simpl.
    replace (length rest + 1)%nat with (S (length rest)) by lia. simpl.
    split; [discriminate | done].
  - apply PoolFacts.pop_None in Hpop. rewrite Hpop. simpl.
    destruct (InstancePool.nextId p <? InstancePool.maxInstances p); simpl;
      split; (done || discriminate).
Qed.

(** X2: releasing an active handle and acquiring again returns that very
    handle and restores the pool to the state before the release. *)
Theorem released_handle_is_reused_first (p : InstancePool.t) (id : Z) :
  id ∈ InstancePool.activeInstances p ->
  InstancePool.acquire (InstancePool.release id p) = (Some id, p).
Proof.
  intros Hin. rewrite (PoolFacts.release_active p id Hin).
  unfold InstancePool.acquire. simpl. rewrite PoolFacts.pop_snoc.
  destruct p as [act free next max]. simpl in *.
  by rewrite <- (union_difference_singleton_L id act Hin).
Qed.

Lemma released_handle_is_reused_first_witness :
  let p := InstancePool.serveAll (InstancePool.new 3)
             [InstancePool.DoAcquire; InstancePool.DoAcquire] in
  InstancePool.acquire (InstancePool.release 0 p) = (Some 0, p).
Proof.
  apply released_handle_is_reused_first. apply (bool_decide_unpack _). vm_compute. reflexivity.
Defined.

(** X3: releasing a handle twice has the effect of releasing it once: the
    second call finds the handle no longer active and leaves the free list
    alone. *)
Theorem releasing_twice_is_releasing_once (p : InstancePool.t) (id : Z) :
  InstancePool.release id (InstancePool.release id p) = InstancePool.release id p.
Proof.
  unfold InstancePool.release at 2 3.
  destruct (decide (id ∈ InstancePool.activeInstances p)) as [Hin|Hout].
  - apply PoolFacts.release_inactive. simpl. set_solver.
  - by apply PoolFacts.release_inactive.
Qed.

(** X4: after any sequence of [acquire()], [release()] and [clear()] calls
    on a pool of capacity [maxInstances], the figures of [getStats()] add
    up: every handle allocated so far is either active or on the free list
    ([active + free = total]), and [0 <= active <= total <= max]. *)
Theorem pool_statistics_add_up (maxInstances : Z) (rs : list InstancePool.request) :
  0 <= maxInstances ->
  let p := InstancePool.serveAll (InstancePool.new maxInstances) rs in
  let '(active, total, max) := InstancePool.getStats p in
  active + Z.of_nat (length (InstancePool.freeIds p)) = total /\
  0 <= active <= total /\ total <= max /\ max = maxInstances.
Proof.
  intros Hmax p. unfold InstancePool.getStats, InstancePool.getActiveCount.
  assert (Hwf : wf p) by apply PoolLedger.wf_serveAll, PoolFacts.wf_new.
  assert (Hc : conserved p).
  { apply PoolLedger.conserved_serveAll;
      [apply PoolFacts.wf_new | apply PoolLedger.conserved_new]. }
  assert (Hm : InstancePool.maxInstances p = maxInstances)
    by apply PoolLedger.maxInstances_serveAll.
  pose proof (wf_next p Hwf). unfold conserved in Hc. lia.
Qed.

Lemma pool_statistics_add_up_witness :
  let p := InstancePool.serveAll (InstancePool.new 2)
             [InstancePool.DoAcquire; InstancePool.DoAcquire; InstancePool.DoRelease 0;
              InstancePool.DoClear; InstancePool.DoAcquire] in
  let '(active, total, max) := InstancePool.getStats p in
  active + Z.of_nat (length (InstancePool.freeIds p)) = total /\
  0 <= active <= total /\ total <= max /\ max = 2.
Proof. apply pool_statistics_add_up. lia. Defined.

(** X5: a new pool of capacity [n] hands out the handles 0, 1, ..., n-1 in
    this order, and answers [null] to every call after them. *)
Theorem new_pool_hands_out_consecutive_handles (n extra : nat) :
  fst (InstancePool.acquireMany (n + extra) (InstancePool.new (Z.of_nat n)))
  = map (fun i => Some (Z.of_nat i)) (seq 0 n) ++ repeat None extra.
Proof. by apply PoolLedger.acquireMany_fresh. Qed.

(** X6: after any sequence of [acquire()], [release()] and [clear()] calls,
    a handle that [acquire()] returns lies in [0, maxInstances), was not
    active before the call and is active after it, and is no longer on the
    free list; and whatever calls follow, as long as none of them releases
    this handle or clears the pool, [acquire()] does not return it again. *)
Theorem acquire_never_returns_a_handle_in_use
    (maxInstances : Z) (rs : list InstancePool.request) (id : Z) (p' : InstancePool.t) :
  let p := InstancePool.serveAll (InstancePool.new maxInstances) rs in
  InstancePool.acquire p = (Some id, p') ->
  0 <= id < maxInstances /\
  (id ∉ InstancePool.activeInstances p) /\
  InstancePool.activeInstances p' = {[id]} ∪ InstancePool.activeInstances p /\
  (id ∉ InstancePool.freeIds p') /\
  (forall later,
     Forall (fun r => r <> InstancePool.DoRelease id /\ r <> InstancePool.DoClear) later ->
     fst (InstancePool.acquire (InstancePool.serveAll p' later)) <> Some id).
Proof.
  intros p Hacq.
  assert (Hwf : wf p) by apply PoolLedger.wf_serveAll, PoolFacts.wf_new.
  assert (Hm : InstancePool.maxInstances p = maxInstances)
    by apply PoolLedger.maxInstances_serveAll.
  destruct (PoolFacts.acquire_Some p p' id Hwf Hacq) as (Hfresh & Hact & Hmax' & Hwf').
  assert (Hin : id ∈ InstancePool.activeInstances p') by (rewrite Hact; set_solver).
  pose proof (wf_active p' Hwf' id Hin) as Hlt. pose proof (wf_next p' Hwf') as Hnext.
  split; [lia|]. split; [done|]. split; [done|]. split.
  - intros Hfree. by apply (wf_disjoint p' Hwf' id Hfree).
  - intros later Hlater Hagain.
    pose proof (PoolLedger.held_serveAll later p' id Hwf' Hin Hlater) as Hheld.
    pose proof (PoolLedger.wf_serveAll later p' Hwf') as Hwfl.
    destruct (InstancePool.acquire (InstancePool.serveAll p' later)) as [got q] eqn:Hq.
    simpl in Hagain. subst got.
    by destruct (PoolFacts.acquire_Some _ _ _ Hwfl Hq) as (Hnot & _).
Qed.

Lemma acquire_never_returns_a_handle_in_use_witness :
  let p := InstancePool.serveAll (InstancePool.new 3)
             [InstancePool.DoAcquire; InstancePool.DoAcquire; InstancePool.DoRelease 0] in
  0 <= 0 < 3 /\
  (0 ∉ InstancePool.activeInstances p) /\
  InstancePool.activeInstances (snd (InstancePool.acquire p))
    = {[0]} ∪ InstancePool.activeInstances p /\
  (0 ∉ InstancePool.freeIds (snd (InstancePool.acquire p))) /\
  fst (InstancePool.acquire
         (InstancePool.serveAll (snd (InstancePool.acquire p))
            [InstancePool.DoRelease 1; InstancePool.DoAcquire])) <> Some 0.
Proof.
  intros p.
  destruct (acquire_never_returns_a_handle_in_use 3
              [InstancePool.DoAcquire; InstancePool.DoAcquire; InstancePool.DoRelease 0]
              0 (snd (InstancePool.acquire p)))
    as (H1 & H2 & H3 & H4 & H5); [vm_compute; reflexivity|].
  split; [exact H1|]. split; [exact H2|]. split; [exact H3|]. split; [exact H4|].
  apply H5. repeat constructor; discriminate.
Defined.

(** ** core/BaseScatterSystem.ts: the frames of [updateChunks] *)

(** X7: a frame of [updateChunks] leaves active exactly the chunks whose
    keys it found visible: every visible chunk is stored and active when the
    frame ends, and every other stored chunk is inactive.  This holds from
    any state, for every strategy whose [populateChunk] keeps the pool
    discipline. *)
Theorem frame_leaves_exactly_the_visible_chunks_active
    (populateChunk : Populate) (centers : list (JS.number * JS.number))
    (s s' : System) (key : Key) :
  Disciplined populateChunk ->
  streamChunks populateChunk centers s = Done s' ->
  (exists chunk, mapGet key (chunks s') = Some chunk /\ isActive chunk = true)
  <-> key ∈ keysOf centers.
Proof.
  intros Hd Hs. rewrite <- FrameFacts.dormant_false. by apply (FrameFacts.streamChunks_dormant populateChunk _ s).
Qed.

Lemma frame_leaves_exactly_the_visible_chunks_active_witness :
  exists s',
    streamChunks Scenarios.gridPopulate [(32, 32); (-32, -32)]%float
      (Core.init (Core.new 0 (GridScatterSystem.base Scenarios.gridScenario))) = Done s' /\
    ((exists chunk, mapGet (getChunkKey 32 32) (chunks s') = Some chunk /\
                    isActive chunk = true)
     <-> getChunkKey 32 32 ∈ keysOf [(32, 32); (-32, -32)]%float).
Proof.
  assert (Hrun : exists s',
    streamChunks Scenarios.gridPopulate [(32, 32); (-32, -32)]%float
      (Core.init (Core.new 0 (GridScatterSystem.base Scenarios.gridScenario))) = Done s').
  { eexists. vm_compute. reflexivity. }
  destruct Hrun as [s' Hrun]. exists s'. split; [exact Hrun|].
  exact (frame_leaves_exactly_the_visible_chunks_active Scenarios.gridPopulate _ _ s'
           (getChunkKey 32 32) (Discipline.grid_disciplined _ _) Hrun).
Defined.

(** X8: a second frame that finds the same chunk centers visible changes
    nothing at all: no chunk is populated again (not even one that the pool
    left short of instances), none is deactivated, no event is reported, and
    the pool and the converter are untouched. *)
Theorem frame_with_unchanged_view_changes_nothing
    (populateChunk : Populate) (centers : list (JS.number * JS.number))
    (s s1 : System) :
  Disciplined populateChunk ->
  streamChunks populateChunk centers s = Done s1 ->
  streamChunks populateChunk centers s1 = Done s1.
Proof.
  intros Hd Hs.
  pose proof (fun k => FrameFacts.streamChunks_dormant populateChunk centers s s1 k Hd Hs) as Hdm.
  unfold streamChunks.
  rewrite FrameFacts.visitAll_awake by (intros k Hk; by apply Hdm).
  simpl. rewrite FrameFacts.deactivateStale_settled; [done|].
  intros k Hk. apply FrameFacts.elem_collect. right. by apply Hdm.
Qed.

Lemma frame_with_unchanged_view_changes_nothing_witness :
  exists s1,
    streamChunks Scenarios.gridPopulate [(32, 32); (-32, -32)]%float
      (Core.init (Core.new 0 (GridScatterSystem.base Scenarios.gridScenario))) = Done s1 /\
    streamChunks Scenarios.gridPopulate [(32, 32); (-32, -32)]%float s1 = Done s1.
Proof.
  assert (Hrun : exists s1,
    streamChunks Scenarios.gridPopulate [(32, 32); (-32, -32)]%float
      (Core.init (Core.new 0 (GridScatterSystem.base Scenarios.gridScenario))) = Done s1).
  { eexists. vm_compute. reflexivity. }
  destruct Hrun as [s1 Hrun]. exists s1. split; [exact Hrun|].
  exact (frame_with_unchanged_view_changes_nothing Scenarios.gridPopulate _ _ s1
           (Discipline.grid_disciplined _ _) Hrun).
Defined.

(** X9: along every sequence of frames from a new system, the calls of
    [onChunkActivated] and [onChunkDeactivated] pair up chunk by chunk (an
    activation is never reported for a chunk that is active, nor a
    deactivation for one that is not), and the chunks whose last event is an
    activation are exactly the chunks stored active. *)
Theorem chunk_events_pair_up
    (populateChunk : Populate) (now : JS.number) (cfg : BaseScatterConfig)
    (fs : list (list (JS.number * JS.number))) (s : System) :
  Disciplined populateChunk ->
  frames populateChunk fs (Core.init (Core.new now cfg)) = Done s ->
  exists live,
    replay (events s) [] = Some live /\
    forall key, key ∈ live <->
      exists chunk, mapGet key (chunks s) = Some chunk /\ isActive chunk = true.
Proof.
  intros Hd Hrun.
  destruct (FrameFacts.paired_frames populateChunk fs _ s Hd (FrameFacts.paired_new now cfg) Hrun)
    as (live & Hrep & Hlive).
  exists live. split; [done|]. intros key. by rewrite Hlive, FrameFacts.dormant_false.
Qed.

Lemma chunk_events_pair_up_witness :
  exists s live,
    frames Scenarios.gridPopulate Scenarios.toggling
      (Core.init (Core.new 0 (GridScatterSystem.base Scenarios.gridScenario))) = Done s /\
    replay (events s) [] = Some live.
Proof.
  assert (Hrun : exists s,
    frames Scenarios.gridPopulate Scenarios.toggling
      (Core.init (Core.new 0 (GridScatterSystem.base Scenarios.gridScenario))) = Done s).
  { eexists. vm_compute. reflexivity. }
  destruct Hrun as [s Hrun].
  destruct (chunk_events_pair_up Scenarios.gridPopulate 0
              (GridScatterSystem.base Scenarios.gridScenario) Scenarios.toggling s
              (Discipline.grid_disciplined _ _) Hrun) as (live & Hrep & _).
  exists s, live. split; [exact Hrun | exact Hrep].
Defined.

(** ** The strategies' [update(camera)] *)

(** X10: for the grid, the radial, the curve, the volume and the heightmap
    strategy alike, after any sequence of [update(camera)] calls on a newly
    constructed system the books balance: the handles active in the pool
    are exactly the handles held by the chunks, no handle is held twice,
    and a chunk that is not active holds none. *)
Theorem updates_keep_the_books_balanced
    (fuel : nat) (st : Strategy) (now : JS.number) (cfg : BaseScatterConfig)
    (cams : list THREE.Camera) (s : System) :
  updatesWith fuel st cams (Core.init (Core.new now cfg)) = Done s ->
  NoDup (heldBy (chunks s)) /\
  (forall id, id ∈ heldBy (chunks s) <->
              id ∈ InstancePool.activeInstances (instancePool s)) /\
  (forall key chunk, mapGet key (chunks s) = Some chunk ->
     isActive chunk = false -> instances chunk = []).
Proof.
  intros Hrun.
  destruct (UpdateFacts.updatesWith_Sound _ _ _ _ _ (Upkeep.Sound_new now cfg) Hrun) as [Hb _].
  split; [apply Hb|]. split; [apply Hb|].
  intros key chunk Hget. apply (bal_inactive s Hb key). by apply mapGet_elem.
Qed.

Lemma updates_keep_the_books_balanced_witness :
  exists s,
    updatesWith 8 (GridStrategy (GridScatterSystem.newGrid Scenarios.cornerScenario))
      [Scenarios.cornerCamera; Scenarios.cornerCamera]
      (Core.init (Core.new 0 (GridScatterSystem.base Scenarios.cornerScenario))) = Done s /\
    NoDup (heldBy (chunks s)) /\
    (forall id, id ∈ heldBy (chunks s) <->
                id ∈ InstancePool.activeInstances (instancePool s)).
Proof.
  assert (Hrun : exists s,
    updatesWith 8 (GridStrategy (GridScatterSystem.newGrid Scenarios.cornerScenario))
      [Scenarios.cornerCamera; Scenarios.cornerCamera]
      (Core.init (Core.new 0 (GridScatterSystem.base Scenarios.cornerScenario))) = Done s).
  { eexists. vm_compute. reflexivity. }
  destruct Hrun as [s Hrun]. exists s. split; [exact Hrun|].
  destruct (updates_keep_the_books_balanced _ _ _ _ _ s Hrun) as (Hnd & Hact & _).
  split; [exact Hnd | exact Hact].
Defined.

(** X11: after any sequence of [update(camera)] calls on a newly
    constructed system, every handle that a chunk holds is a valid index of
    the converter (the pool never hands out a handle that
    [setInstanceTransform] rejects as an invalid instance index) and the
    converter holds the transform written for it. *)
Theorem held_handles_have_transforms
    (fuel : nat) (st : Strategy) (now : JS.number) (cfg : BaseScatterConfig)
    (cams : list THREE.Camera) (s : System)
    (key : Key) (chunk : ChunkData) (id : Z) :
  updatesWith fuel st cams (Core.init (Core.new now cfg)) = Done s ->
  mapGet key (chunks s) = Some chunk -> id ∈ instances chunk ->
  Converter.inRange (converter s) id = true /\
  is_Some (Converter.transforms (converter s) !! id).
Proof.
  intros Hrun. apply Upkeep.Sound_held.
  exact (UpdateFacts.updatesWith_Sound _ _ _ _ _ (Upkeep.Sound_new now cfg) Hrun).
Qed.

(** X12: after an [update(camera)] of an initialised system, every active
    chunk is one that this update found in view of the camera, by the
    strategy's own test: within the visibility range (for the grid and the
    heightmap, not culled by the frustum either; for the heightmap, with
    its center inside the world square). *)
Theorem active_chunks_are_in_view
    (fuel : nat) (st : Strategy) (cam : THREE.Camera) (s s' : System)
    (key : Key) (chunk : ChunkData) :
  isInitialized s = true ->
  updateWith fuel st cam s = Done s' ->
  mapGet key (chunks s') = Some chunk -> isActive chunk = true ->
  exists x z, key = getChunkKey x z /\ inView st cam s x z.
Proof.
  intros Hinit Hu Hget Hact.
  destruct (Views.update_streams _ _ _ _ _ Hu) as [[Hfalse _]|(centers & Hrun & Hq)];
    [congruence|].
  assert (Hk : key ∈ keysOf centers).
  { apply (FrameFacts.streamChunks_dormant _ _ _ _ key
             (Placement.Tidy_Disciplined _ (Placement.strategy_tidy fuel st)) Hrun).
    apply FrameFacts.dormant_false. by exists chunk. }
  apply list_elem_of_fmap in Hk as ([x z] & -> & Hin).
  exists x, z. split; [done|].
  rewrite Forall_forall in Hq. by apply (Hq (x, z)).
Qed.

Lemma held_handles_have_transforms_witness :
  exists s chunk,
    updatesWith 8 (GridStrategy (GridScatterSystem.newGrid Scenarios.cornerScenario))
      [Scenarios.cornerCamera]
      (Core.init (Core.new 0 (GridScatterSystem.base Scenarios.cornerScenario))) = Done s /\
    mapGet (getChunkKey (-32) (-32)) (chunks s) = Some chunk /\
    instances chunk = [0] /\
    Converter.inRange (converter s) 0 = true /\
    is_Some (Converter.transforms (converter s) !! 0).
Proof.
  assert (Hrun : exists s chunk,
    updatesWith 8 (GridStrategy (GridScatterSystem.newGrid Scenarios.cornerScenario))
      [Scenarios.cornerCamera]
      (Core.init (Core.new 0 (GridScatterSystem.base Scenarios.cornerScenario))) = Done s /\
    mapGet (getChunkKey (-32) (-32)) (chunks s) = Some chunk /\
    instances chunk = [0]).
  { eexists _, _. split; [vm_compute; reflexivity|]. split; vm_compute; reflexivity. }
  destruct Hrun as (s & chunk & Hrun & Hget & Hinst).
  exists s, chunk. split; [exact Hrun|]. split; [exact Hget|]. split; [exact Hinst|].
  apply (held_handles_have_transforms _ _ _ _ _ s _ chunk 0 Hrun Hget).
  rewrite Hinst. apply list_elem_of_singleton. reflexivity.
Defined.

Lemma active_chunks_are_in_view_witness :
  exists s' chunk,
    updateWith 8 (GridStrategy (GridScatterSystem.newGrid Scenarios.cornerScenario))
      Scenarios.cornerCamera
      (Core.init (Core.new 0 (GridScatterSystem.base Scenarios.cornerScenario))) = Done s' /\
    mapGet (getChunkKey (-32) (-32)) (chunks s') = Some chunk /\
    exists x z,
      getChunkKey (-32) (-32) = getChunkKey x z /\
      inView (GridStrategy (GridScatterSystem.newGrid Scenarios.cornerScenario))
        Scenarios.cornerCamera
        (Core.init (Core.new 0 (GridScatterSystem.base Scenarios.cornerScenario))) x z.
Proof.
  assert (Hrun : exists s' chunk,
    updateWith 8 (GridStrategy (GridScatterSystem.newGrid Scenarios.cornerScenario))
      Scenarios.cornerCamera
      (Core.init (Core.new 0 (GridScatterSystem.base Scenarios.cornerScenario))) = Done s' /\
    mapGet (getChunkKey (-32) (-32)) (chunks s') = Some chunk /\
    isActive chunk = true).
  { eexists _, _. split; [vm_compute; reflexivity|]. split; vm_compute; reflexivity. }
  destruct Hrun as (s' & chunk & Hrun & Hget & Hact).
  exists s', chunk. split; [exact Hrun|]. split; [exact Hget|].
  exact (active_chunks_are_in_view _ _ _
           (Core.init (Core.new 0 (GridScatterSystem.base Scenarios.cornerScenario)))
           s' _ chunk eq_refl Hrun Hget Hact).
Defined.

(** X13: after an [update(camera)] of an initialised curve system, the
    chunk of every curve point that lies within the visibility range of the
    camera is stored and active. *)
Theorem curve_points_in_range_have_active_chunks
    (fuel : nat) (l : CurveScatterSystem.RotationLib) (c : CurveScatterSystem.CurveSystem)
    (cam : THREE.Camera) (s s' : System) (point : THREE.Vector3) :
  isInitialized s = true ->
  CurveScatterSystem.update fuel l c cam s = Done s' ->
  point ∈ CurveScatterSystem.curvePoints c ->
  (CurveScatterSystem.distanceTo point (THREE.position cam)
     <=? cVisibilityRange (config s))%float = true ->
  exists chunk,
    mapGet (keyOfPoint (cChunkSize (config s)) point) (chunks s') = Some chunk /\
    isActive chunk = true.
Proof.
  intros Hinit Hu Hin Hr. apply FrameFacts.dormant_false.
  by apply (Views.curve_update_complete fuel l c cam s).
Qed.

Lemma curve_points_in_range_have_active_chunks_witness :
  let s := Core.init (Core.new 0 (Scenarios.plainConfig 42)) in
  let point := THREE.vec3 0.5 0 0 in
  exists s',
    CurveScatterSystem.update 8 Scenarios.levelLib Scenarios.threePointCurve
      Scenarios.originCamera s = Done s' /\
    exists chunk,
      mapGet (keyOfPoint (cChunkSize (config s)) point) (chunks s') = Some chunk /\
      isActive chunk = true.
Proof.
  intros s point.
  assert (Hrun : exists s',
    CurveScatterSystem.update 8 Scenarios.levelLib Scenarios.threePointCurve
      Scenarios.originCamera s = Done s').
  { eexists. vm_compute. reflexivity. }
  destruct Hrun as [s' Hrun]. exists s'. split; [exact Hrun|].
  apply (curve_points_in_range_have_active_chunks 8 Scenarios.levelLib
           Scenarios.threePointCurve Scenarios.originCamera s s' point eq_refl Hrun).
  - assert (Hpts : CurveScatterSystem.curvePoints Scenarios.threePointCurve
                   = [THREE.vec3 0 0 0; THREE.vec3 0.5 0 0; THREE.vec3 1 0 0])
      by (vm_compute; reflexivity).
    rewrite Hpts. apply list_elem_of_further, list_elem_of_here.
  - vm_compute. reflexivity.
Defined.

(** X14: after any sequence of [update(camera)] calls on a newly
    constructed system, the figures of [getStats()] agree with the chunk
    table: [instances.active] is the total number of handles in the
    instance lists of the stored chunks, [0 <= instances.active <=
    instances.total], [instances.total] does not exceed a non-negative
    [instances.max], and [chunks.active <= chunks.total]. *)
Theorem system_statistics_agree_with_the_chunks
    (fuel : nat) (st : Strategy) (now : JS.number) (cfg : BaseScatterConfig)
    (cams : list THREE.Camera) (s : System) (meshCount : nat) :
  updatesWith fuel st cams (Core.init (Core.new now cfg)) = Done s ->
  let stats := getStats meshCount s in
  instancesActive stats = Z.of_nat (length (heldBy (chunks s))) /\
  0 <= instancesActive stats <= instancesTotal stats /\
  instancesTotal stats <= Z.max 0 (instancesMax stats) /\
  (chunksActive stats <= chunksTotal stats)%nat.
Proof.
  intros Hrun stats.
  destruct (UpdateFacts.updatesWith_Sound _ _ _ _ _ (Upkeep.Sound_new now cfg) Hrun)
    as [Hb _].
  pose proof (bal_pool s Hb) as Hwf. pose proof (wf_next _ Hwf) as Hnext.
  subst stats. unfold getStats, InstancePool.getStats. simpl.
  split; [by apply UpdateFacts.Balanced_count|]. split.
  - split; [unfold InstancePool.getActiveCount; lia|].
    apply PoolFacts.size_below; [lia | apply Hwf].
  - split; [lia|].
    rewrite <- (length_map snd (chunks s)). apply UpdateFacts.filter_length_le.
Qed.

Lemma system_statistics_agree_with_the_chunks_witness :
  exists s,
    updatesWith 8 (GridStrategy (GridScatterSystem.newGrid Scenarios.cornerScenario))
      [Scenarios.cornerCamera]
      (Core.init (Core.new 0 (GridScatterSystem.base Scenarios.cornerScenario))) = Done s /\
    instancesActive (getStats 1 s) = Z.of_nat (length (heldBy (chunks s))) /\
    (chunksActive (getStats 1 s) <= chunksTotal (getStats 1 s))%nat.
Proof.
  assert (Hrun : exists s,
    updatesWith 8 (GridStrategy (GridScatterSystem.newGrid Scenarios.cornerScenario))
      [Scenarios.cornerCamera]
      (Core.init (Core.new 0 (GridScatterSystem.base Scenarios.cornerScenario))) = Done s).
  { eexists. vm_compute. reflexivity. }
  destruct Hrun as [s Hrun]. exists s. split; [exact Hrun|].
  destruct (system_statistics_agree_with_the_chunks _ _ _ _ _ s 1%nat Hrun)
    as (Hact & _ & _ & Hch).
  split; [exact Hact | exact Hch].
Defined.

(** X15: [setDensity(density)] on a system reached by updates stores the
    density and, through [regenerateAll()], hands [updateChunks] a system in
    which every handle has been returned to the pool and no chunk is stored,
    after one [onChunkDeactivated] call for every chunk that was stored,
    in the order of the table and whether the chunk was active or not;
    nothing else of the setup has changed. *)
Theorem set_density_regenerates_from_nothing
    (fuel : nat) (st : Strategy) (now : JS.number) (cfg : BaseScatterConfig)
    (cams : list THREE.Camera) (s : System)
    (updateChunks : System -> Outcome System) (density : JS.number) :
  updatesWith fuel st cams (Core.init (Core.new now cfg)) = Done s ->
  exists s1,
    setDensity updateChunks density s = updateChunks s1 /\
    config s1 = withDensity density (config s) /\
    chunks s1 = [] /\
    InstancePool.getActiveCount (instancePool s1) = 0 /\
    events s1 = events s ++ map ChunkDeactivated (map fst (chunks s)) /\
    currentCamera s1 = currentCamera s /\ isInitialized s1 = isInitialized s.
Proof.
  intros Hrun.
  destruct (UpdateFacts.updatesWith_Sound _ _ _ _ _ (Upkeep.Sound_new now cfg) Hrun)
    as [Hb _].
  set (s0 := setConfig (withDensity density (config s)) s).
  assert (Hb0 : Balanced s0) by (by apply (Balanced_ext s)).
  destruct (Regeneration.regenerate_clears s0 Hb0)
    as (Hchunks & Hzero & Hev & (Hcfg & Hinit & _ & _ & _ & _ & Hcam) & _).
  exists (setChunks [] (deactivateAll s0)).
  split; [done|]. split; [done|]. split; [done|]. split; [done|]. by split.
Qed.

Lemma set_density_regenerates_from_nothing_witness :
  let g := GridScatterSystem.newGrid Scenarios.cornerScenario in
  exists s s1,
    updatesWith 8 (GridStrategy g) [Scenarios.cornerCamera]
      (Core.init (Core.new 0 (GridScatterSystem.base Scenarios.cornerScenario))) = Done s /\
    setDensity (GridScatterSystem.updateChunks 8 g) 2 s
      = GridScatterSystem.updateChunks 8 g s1 /\
    chunks s1 = [] /\
    InstancePool.getActiveCount (instancePool s1) = 0.
Proof.
  intros g.
  assert (Hrun : exists s,
    updatesWith 8 (GridStrategy g) [Scenarios.cornerCamera]
      (Core.init (Core.new 0 (GridScatterSystem.base Scenarios.cornerScenario))) = Done s).
  { eexists. vm_compute. reflexivity. }
  destruct Hrun as [s Hrun]. exists s.
  destruct (set_density_regenerates_from_nothing _ _ _ _ _ s
              (GridScatterSystem.updateChunks 8 g) 2%float Hrun)
    as (s1 & Hset & _ & Hchunks & Hzero & _).
  exists s1. split; [exact Hrun|]. split; [exact Hset|]. split; [exact Hchunks | exact Hzero].
Defined.

(** ** Noise, levels of detail and the density map *)

(** X16: at a point whose two coordinates have a zero fractional part
    ([x - Math.floor(x)] is 0), [noise2D] is exactly 0.5, whatever the
    permutation table: the gradient of the near corner vanishes there and
    the other corners enter with weight [fade(0) = 0]. *)
Theorem noise_is_one_half_at_lattice_points
    (n : PerlinNoise.t) (x y : JS.number) :
  (x - JS.floor x)%float = 0%float -> (y - JS.floor y)%float = 0%float ->
  PerlinNoise.noise2D n x y = 0.5%float.
Proof.
  intros Hx Hy. unfold PerlinNoise.noise2D. rewrite Hx, Hy.
  apply NoiseFacts.lattice_value.
Qed.

Lemma noise_is_one_half_at_lattice_points_witness :
  PerlinNoise.noise2D (PerlinNoise.new 42) 3 (-7) = 0.5%float.
Proof.
  apply (noise_is_one_half_at_lattice_points (PerlinNoise.new 42) 3 (-7));
    vm_compute; reflexivity.
Defined.

(** X17: with noise enabled and [octaves] not above zero (zero, negative
    or NaN), the loop of [fbm2D] never runs, [fbm2D] returns [0 / 0], which
    is NaN, and, [Math.pow] sending NaN to NaN for the configured power,
    [shouldPlaceInstance] answers false at every position. *)
Theorem noise_without_octaves_places_nothing
    (m : MathLib) (fuel : nat) (s : System) (x z : JS.number)
    (noise : PerlinNoise.t) :
  let cfg := cNoise (config s) in
  nEnabled cfg = true ->
  (0 <? nOctaves cfg)%float = false ->
  (forall b, is_nan b = true -> is_nan (pow m b (nPower cfg)) = true) ->
  PerlinNoise.fbm2D fuel noise x z (nOctaves cfg) (nPersistence cfg)
    (nLacunarity cfg) (nScale cfg) = Some nan /\
  shouldPlaceInstance m fuel s x z noise = Some false.
Proof.
  intros cfg Hen Hoct Hpow.
  assert (Hfbm : PerlinNoise.fbm2D fuel noise x z (nOctaves cfg) (nPersistence cfg)
                   (nLacunarity cfg) (nScale cfg) = Some nan).
  { unfold PerlinNoise.fbm2D. by rewrite NoiseFacts.fbmLoop_no_octave. }
  split; [done|].
  unfold shouldPlaceInstance, getNoiseValue. fold cfg. rewrite Hen, Hfbm. simpl.
  f_equal. apply FloatFacts.leb_nan_r, Hpow, FloatFacts.add_nan_l. reflexivity.
Qed.

Lemma noise_without_octaves_places_nothing_witness :
  let m := mathLib (fun b _ => b) (fun a => a) (fun a => a) (fun a _ => a) in
  let s := Core.new 0
             (baseConfig 1 None 40 None None None None None (Some 42%float)
                (Some (noiseConfig true None (Some 0%float) None None None None None None))
                None None) in
  shouldPlaceInstance m 0 s 3.5 (-7.25) (PerlinNoise.mk []) = Some false.
Proof.
  intros m s.
  apply (noise_without_octaves_places_nothing m 0 s 3.5 (-7.25) (PerlinNoise.mk [])).
  - reflexivity.
  - reflexivity.
  - intros b Hb. exact Hb.
Defined.

(** X18: without blending ([blendDistance] absent, zero, negative or NaN)
    [getLODDensityMultiplier] returns the density multiplier of the last
    level, in the order of the [levels] array, whose distance does not
    exceed the camera's planar distance to the chunk, and 1 when there is
    none; [getLODScaleMultiplier] returns the scale multiplier of the same
    level (1 when the level has none), with or without blending. The
    levels are not sorted: a later level with a smaller distance wins. *)
Theorem lod_picks_the_last_level_within_distance
    (s : System) (cam : THREE.Camera) (l : LODConfig) (x z : JS.number) :
  currentCamera s = Some cam -> cLod (config s) = Some l ->
  let d := planarDistance cam x z in
  let pick := find (fun lvl => (distance lvl <=? d)%float) (rev (levels l)) in
  getLODScaleMultiplier s x z =
    match pick with
    | Some lvl => orElse (scaleMultiplier lvl) 1.0%float
    | None => 1.0%float
    end /\
  ((0 <? orElse (blendDistance l) 0)%float = false ->
   getLODDensityMultiplier s x z =
     match pick with
     | Some lvl => densityMultiplier lvl
     | None => 1.0%float
     end).
Proof.
  intros Hcam Hlod d pick. subst d pick.
  unfold getLODScaleMultiplier, getLODDensityMultiplier. rewrite Hcam, Hlod.
  destruct (levels l) as [|l0 lv] eqn:Hlv; [done|]. split.
  - rewrite LodFacts.scale_scan by done. by rewrite firstn_all.
  - intros Hb. rewrite LodFacts.density_scan by done. by rewrite firstn_all.
Qed.

Lemma lod_picks_the_last_level_within_distance_witness :
  let far := lodLevel 100 0.5 (Some 2%float) in
  let near := lodLevel 50 0.25 None in
  let s := setCamera (THREE.camera (THREE.vec3 0 0 0) (fun _ => true))
             (Core.new 0
                (baseConfig 1 None 400 None None None None None (Some 42%float) None
                   (Some (lodConfig [far; near] None)) None)) in
  getLODScaleMultiplier s 120 0 = 1.0%float /\
  getLODDensityMultiplier s 120 0 = 0.25%float.
Proof.
  intros far near s.
  destruct (lod_picks_the_last_level_within_distance s
              (THREE.camera (THREE.vec3 0 0 0) (fun _ => true))
              (lodConfig [far; near] None) 120 0 eq_refl eq_refl) as [Hs Hd].
  split; [exact Hs | exact (Hd eq_refl)].
Defined.

(** X19: [sampleDensityMap] does not clamp what it cannot compare: when a
    map is loaded and the texture coordinate [u] of the position is NaN (a
    NaN coordinate, or a position on a bound of a box of zero width) while
    [v] lies in [0, 1], the bounds test lets the position through, the
    pixel index is NaN, the read finds nothing, and the result is NaN
    rather than a density of [0, 1]. *)
Theorem density_map_sample_of_a_nan_coordinate_is_nan
    (s : System) (data : list Z) (img : Image) (dm : DensityMapConfig)
    (worldX worldZ : JS.number) :
  densityMapData s = Some data -> densityMapTexture s = Some img ->
  cDensityMap (config s) = Some dm ->
  is_nan (fst (densityUV dm worldX worldZ)) = true ->
  (snd (densityUV dm worldX worldZ) <? 0)%float = false ->
  (1 <? snd (densityUV dm worldX worldZ))%float = false ->
  is_nan (sampleDensityMap s worldX worldZ) = true.
Proof.
  intros Hdata Himg Hdm Hu Hv0 Hv1. unfold sampleDensityMap.
  rewrite Hdata, Himg, Hdm. destruct (densityUV dm worldX worldZ) as [u v].
  simpl in Hu, Hv0, Hv1.
  rewrite (FloatFacts.ltb_nan_l u 0 Hu), (FloatFacts.ltb_nan_r 1 u Hu), Hv0, Hv1.
  simpl.
  apply FloatFacts.mul_nan_l, FloatFacts.div_nan_l.
  set (k := (_ + channelOffset _)%float).
  assert (Hk : is_nan k = true).
  { subst k. apply FloatFacts.add_nan_l, FloatFacts.mul_nan_l, FloatFacts.add_nan_r,
      FloatFacts.floor_nan, FloatFacts.mul_nan_l, Hu. }
  unfold readByte, JS.arrayIndex, JS.floorZ.
  apply FloatFacts.is_nan_spec in Hk. by rewrite Hk.
Qed.

Lemma density_map_sample_of_a_nan_coordinate_is_nan_witness :
  let dm := densityMapConfig None
              (THREE.box2 (THREE.vec2 5 0) (THREE.vec2 5 10)) None in
  let s := loadDensityMap (image 2 2) [255; 255; 255; 255]
             (Core.new 0
                (baseConfig 1 None 40 None None None None None (Some 42%float) None
                   None (Some dm))) in
  is_nan (sampleDensityMap s 5 4) = true.
Proof.
  intros dm s.
  apply (density_map_sample_of_a_nan_coordinate_is_nan s [255; 255; 255; 255]
           (image 2 2) dm 5 4); reflexivity.
Defined.

(** ** The brush *)

(** X20: in a session of calls on a brush ([paint], [erase], [clearAll]
    and the setters) created on a system that updates have brought to some
    state, the chunks are not touched and the brush and the chunks never
    share a handle: the brush stores each of its handles once, and a
    handle is active in the pool exactly when a chunk holds it or the
    brush stores it, never both. *)
Theorem brush_and_chunks_never_share_a_handle
    (fuel0 : nat) (st : Strategy) (now0 : JS.number) (cfg0 : BaseScatterConfig)
    (cams : list THREE.Camera) (s : System)
    (fuel : nat) (m : MathLib) (now : JS.number) (cfg : ScatterBrush.BrushConfig)
    (cs : list ScatterBrush.BrushCall) (b' : ScatterBrush.t) (s' : System) :
  updatesWith fuel0 st cams (Core.init (Core.new now0 cfg0)) = Done s ->
  ScatterBrush.calls fuel m cs (ScatterBrush.new now cfg, s) = Done (b', s') ->
  chunks s' = chunks s /\
  NoDup (paintedKeys b') /\
  (forall id, id ∈ InstancePool.activeInstances (instancePool s') <->
              id ∈ heldBy (chunks s') \/ id ∈ paintedKeys b') /\
  (forall id, id ∈ paintedKeys b' -> id ∉ heldBy (chunks s')) /\
  InstancePool.getActiveCount (instancePool s')
  = Z.of_nat (length (heldBy (chunks s'))) + Z.of_nat (ScatterBrush.getPaintedCount b').
Proof.
  intros Hrun Hcalls.
  destruct (UpdateFacts.updatesWith_Sound _ _ _ _ _ (Upkeep.Sound_new now0 cfg0) Hrun)
    as [Hb _].
  destruct (BrushFacts.calls_Owns _ _ _ _ _ _ _ _
              (BrushFacts.Owns_new now cfg s (bal_pool s Hb)) Hcalls) as (Hown & Hch).
  rewrite Hch. split; [done|]. split; [apply Hown|]. split; [|split].
  - intros id. rewrite (own_active _ _ _ Hown), elem_of_union, elem_of_list_to_set.
    by rewrite (bal_active s Hb).
  - intros id Hid Hheld. apply (own_fresh _ _ _ Hown id Hid). by apply (bal_active s Hb).
  - rewrite (BrushFacts.Owns_count _ _ _ Hown). f_equal.
    rewrite <- (UpdateFacts.Balanced_count s Hb). done.
Qed.

Lemma brush_and_chunks_never_share_a_handle_witness :
  exists s b' s',
    updatesWith 8 (GridStrategy (GridScatterSystem.newGrid Scenarios.cornerScenario))
      [Scenarios.cornerCamera]
      (Core.init (Core.new 0 (GridScatterSystem.base Scenarios.cornerScenario))) = Done s /\
    ScatterBrush.calls 8 Scenarios.eastward Scenarios.strokeAndErase
      (ScatterBrush.new 7 Scenarios.roundBrush, s) = Done (b', s') /\
    chunks s' = chunks s /\
    NoDup (paintedKeys b').
Proof.
  assert (Hrun : exists s b' s',
    updatesWith 8 (GridStrategy (GridScatterSystem.newGrid Scenarios.cornerScenario))
      [Scenarios.cornerCamera]
      (Core.init (Core.new 0 (GridScatterSystem.base Scenarios.cornerScenario))) = Done s /\
    ScatterBrush.calls 8 Scenarios.eastward Scenarios.strokeAndErase
      (ScatterBrush.new 7 Scenarios.roundBrush, s) = Done (b', s')).
  { eexists _, _, _. split; [vm_compute; reflexivity | vm_compute; reflexivity]. }
  destruct Hrun as (s & b' & s' & Hrun & Hcalls). exists s, b', s'.
  split; [exact Hrun|]. split; [exact Hcalls|].
  destruct (brush_and_chunks_never_share_a_handle _ _ _ _ _ s _ _ _ _ _ b' s' Hrun Hcalls)
    as (Hch & Hnd & _).
  split; [exact Hch | exact Hnd].
Defined.

(** X21: [erase] returns the number of painted instances it removed: in a
    session on a system brought to some state by updates, the brush stores
    that many instances fewer after the call and the pool has that many
    active handles fewer; the chunks are not touched. *)
Theorem erase_reports_what_it_released
    (fuel0 : nat) (st : Strategy) (now0 : JS.number) (cfg0 : BaseScatterConfig)
    (cams : list THREE.Camera) (s : System)
    (fuel : nat) (m : MathLib) (now : JS.number) (cfg : ScatterBrush.BrushConfig)
    (cs : list ScatterBrush.BrushCall) (b1 : ScatterBrush.t) (s1 : System)
    (center : THREE.Vector3) (n : nat) (b' : ScatterBrush.t) (s' : System) :
  updatesWith fuel0 st cams (Core.init (Core.new now0 cfg0)) = Done s ->
  ScatterBrush.calls fuel m cs (ScatterBrush.new now cfg, s) = Done (b1, s1) ->
  ScatterBrush.erase center b1 s1 = (n, b', s') ->
  (ScatterBrush.getPaintedCount b' + n = ScatterBrush.getPaintedCount b1)%nat /\
  InstancePool.getActiveCount (instancePool s') + Z.of_nat n
  = InstancePool.getActiveCount (instancePool s1) /\
  chunks s' = chunks s1.
Proof.
  intros Hrun Hcalls Herase.
  destruct (UpdateFacts.updatesWith_Sound _ _ _ _ _ (Upkeep.Sound_new now0 cfg0) Hrun)
    as [Hb _].
  destruct (BrushFacts.calls_Owns _ _ _ _ _ _ _ _
              (BrushFacts.Owns_new now cfg s (bal_pool s Hb)) Hcalls) as (Hown1 & _).
  destruct (BrushFacts.erase_Owns _ _ _ _ _ _ _ Hown1 Herase) as (Hown' & Hch & Hlen).
  split; [done|]. split; [|done].
  rewrite (BrushFacts.Owns_count _ _ _ Hown1), (BrushFacts.Owns_count _ _ _ Hown'). lia.
Qed.

Lemma erase_reports_what_it_released_witness :
  exists s b1 s1 n b' s',
    updatesWith 8 (GridStrategy (GridScatterSystem.newGrid Scenarios.cornerScenario))
      [Scenarios.cornerCamera]
      (Core.init (Core.new 0 (GridScatterSystem.base Scenarios.cornerScenario))) = Done s /\
    ScatterBrush.calls 8 Scenarios.eastward
      [ScatterBrush.Paint (THREE.vec3 0 0 0) None]
      (ScatterBrush.new 7 Scenarios.roundBrush, s) = Done (b1, s1) /\
    ScatterBrush.erase (THREE.vec3 0 0 0) b1 s1 = (n, b', s') /\
    (ScatterBrush.getPaintedCount b' + n = ScatterBrush.getPaintedCount b1)%nat.
Proof.
  assert (Hrun : exists s b1 s1 n b' s',
    updatesWith 8 (GridStrategy (GridScatterSystem.newGrid Scenarios.cornerScenario))
      [Scenarios.cornerCamera]
      (Core.init (Core.new 0 (GridScatterSystem.base Scenarios.cornerScenario))) = Done s /\
    ScatterBrush.calls 8 Scenarios.eastward
      [ScatterBrush.Paint (THREE.vec3 0 0 0) None]
      (ScatterBrush.new 7 Scenarios.roundBrush, s) = Done (b1, s1) /\
    ScatterBrush.erase (THREE.vec3 0 0 0) b1 s1 = (n, b', s')).
  { eexists _, _, _, _, _, _.
    split; [vm_compute; reflexivity | split; [vm_compute; reflexivity | vm_compute; reflexivity]]. }
  destruct Hrun as (s & b1 & s1 & n & b' & s' & Hrun & Hcalls & Herase).
  exists s, b1, s1, n, b', s'.
  split; [exact Hrun|]. split; [exact Hcalls|]. split; [exact Herase|].
  destruct (erase_reports_what_it_released _ _ _ _ _ s _ _ _ _ _ b1 s1 _ n b' s'
              Hrun Hcalls Herase) as (Hlen & _).
  exact Hlen.
Defined.

(** X22: [clearAll()] returns every handle of the brush to the pool: after
    it the brush stores nothing, the handles it stored are on the free
    list in the order in which they were painted, and the pool's active
    handles are again exactly those that were active before the brush was
    created, the chunks' own. *)
Theorem clear_all_returns_every_painted_handle
    (fuel0 : nat) (st : Strategy) (now0 : JS.number) (cfg0 : BaseScatterConfig)
    (cams : list THREE.Camera) (s : System)
    (fuel : nat) (m : MathLib) (now : JS.number) (cfg : ScatterBrush.BrushConfig)
    (cs : list ScatterBrush.BrushCall) (b1 : ScatterBrush.t) (s1 : System)
    (b' : ScatterBrush.t) (s' : System) :
  updatesWith fuel0 st cams (Core.init (Core.new now0 cfg0)) = Done s ->
  ScatterBrush.calls fuel m cs (ScatterBrush.new now cfg, s) = Done (b1, s1) ->
  ScatterBrush.clearAll b1 s1 = (b', s') ->
  ScatterBrush.getPaintedCount b' = 0%nat /\
  InstancePool.activeInstances (instancePool s')
  = InstancePool.activeInstances (instancePool s) /\
  InstancePool.freeIds (instancePool s')
  = InstancePool.freeIds (instancePool s1) ++ paintedKeys b1 /\
  chunks s' = chunks s.
Proof.
  intros Hrun Hcalls Hclear.
  destruct (UpdateFacts.updatesWith_Sound _ _ _ _ _ (Upkeep.Sound_new now0 cfg0) Hrun)
    as [Hb _].
  destruct (BrushFacts.calls_Owns _ _ _ _ _ _ _ _
              (BrushFacts.Owns_new now cfg s (bal_pool s Hb)) Hcalls) as (Hown1 & Hch1).
  pose proof (BrushFacts.clearAll_Owns _ _ _ Hown1) as H. rewrite Hclear in H.
  destruct H as (_ & Hch & Hempty & Hact & Hfree).
  split; [unfold ScatterBrush.getPaintedCount; by rewrite Hempty|].
  split; [done|]. split; [done | congruence].
Qed.

Lemma clear_all_returns_every_painted_handle_witness :
  exists s b1 s1 b' s',
    updatesWith 8 (GridStrategy (GridScatterSystem.newGrid Scenarios.cornerScenario))
      [Scenarios.cornerCamera]
      (Core.init (Core.new 0 (GridScatterSystem.base Scenarios.cornerScenario))) = Done s /\
    ScatterBrush.calls 8 Scenarios.eastward Scenarios.strokeAndErase
      (ScatterBrush.new 7 Scenarios.roundBrush, s) = Done (b1, s1) /\
    ScatterBrush.clearAll b1 s1 = (b', s') /\
    InstancePool.activeInstances (instancePool s')
    = InstancePool.activeInstances (instancePool s).
Proof.
  assert (Hrun : exists s b1 s1,
    updatesWith 8 (GridStrategy (GridScatterSystem.newGrid Scenarios.cornerScenario))
      [Scenarios.cornerCamera]
      (Core.init (Core.new 0 (GridScatterSystem.base Scenarios.cornerScenario))) = Done s /\
    ScatterBrush.calls 8 Scenarios.eastward Scenarios.strokeAndErase
      (ScatterBrush.new 7 Scenarios.roundBrush, s) = Done (b1, s1)).
  { eexists _, _, _. split; [vm_compute; reflexivity | vm_compute; reflexivity]. }
  destruct Hrun as (s & b1 & s1 & Hrun & Hcalls).
  destruct (ScatterBrush.clearAll b1 s1) as [b' s'] eqn:Hclear.
  exists s, b1, s1, b', s'.
  split; [exact Hrun|]. split; [exact Hcalls|]. split; [exact Hclear|].
  destruct (clear_all_returns_every_painted_handle _ _ _ _ _ s _ _ _ _ _ b1 s1 b' s'
              Hrun Hcalls Hclear) as (_ & Hact & _).
  exact Hact.
Defined.

(** X23: the setters of the brush clamp numbers and let NaN through:
    after [setRadius(r)] the radius is at least 0.1, after [setStrength(w)]
    the strength lies in [0, 1], after [setDensity(d)] the density is at
    least 1, unless the argument is NaN (for the density: unless the
    result is NaN), which is stored as NaN; and a brush whose strength is
    NaN paints nothing. *)
Theorem brush_setters_clamp_numbers_and_pass_nan
    (b : ScatterBrush.t) (r w d : JS.number) :
  (if is_nan r then is_nan (ScatterBrush.radius (ScatterBrush.setRadius r b)) = true
   else (0.1 <=? ScatterBrush.radius (ScatterBrush.setRadius r b))%float = true) /\
  (if is_nan w then is_nan (ScatterBrush.strength (ScatterBrush.setStrength w b)) = true
   else (0 <=? ScatterBrush.strength (ScatterBrush.setStrength w b))%float = true /\
        (ScatterBrush.strength (ScatterBrush.setStrength w b) <=? 1)%float = true) /\
  (is_nan (ScatterBrush.density (ScatterBrush.setDensity d b)) = true \/
   (1 <=? ScatterBrush.density (ScatterBrush.setDensity d b))%float = true) /\
  (is_nan w = true ->
   forall fuel m center heightProvider s,
     ScatterBrush.paint fuel m center heightProvider (ScatterBrush.setStrength w b) s
     = Done ([], ScatterBrush.setStrength w b, s)).
Proof.
  split; [|split; [|split]]; simpl.
  - destruct (is_nan r) eqn:Hr.
    + rewrite FloatFacts.max_nan; [done | by rewrite Hr, orb_true_r].
    + by destruct (FloatFacts.max_spec 0.1 r eq_refl Hr) as (_ & H & _).
  - pose proof (FloatFacts.clamp_unit w) as H. simpl in H.
    destruct (is_nan w); [done|]. by destruct H as (? & ? & _).
  - destruct (is_nan (JS.floor d)) eqn:Hd.
    + left. rewrite FloatFacts.max_nan; [done | by rewrite Hd, orb_true_r].
    + right. by destruct (FloatFacts.max_spec 1 (JS.floor d) eq_refl Hd) as (_ & H & _).
  - intros Hw fuel m center hp s. unfold ScatterBrush.paint. simpl.
    rewrite (FloatFacts.min_nan 1 w) by (by rewrite Hw, orb_true_r).
    change (JS.max 0 nan) with nan.
    assert (Hcount : (0 <? JS.floor (ScatterBrush.density b * nan))%float = false).
    { apply FloatFacts.ltb_nan_r, FloatFacts.floor_nan, FloatFacts.mul_nan_r. reflexivity. }
    destruct fuel; simpl; by rewrite Hcount.
Qed.

(** ** The blender *)

(** X24: the weights of the layers have no influence on what [update(camera)]
    does: storing a weight with [setLayerWeight] before an update or after
    it comes to the same blender, the same layer systems and the same
    failures. *)
Theorem layer_weights_do_not_influence_updates
    (camera : THREE.Camera) (n : String.string) (w : JS.number) (b : ScatterBlender.t) :
  ScatterBlender.update camera (ScatterBlender.setLayerWeight n w b)
  = let* b' := ScatterBlender.update camera b in
    Done (ScatterBlender.setLayerWeight n w b').
Proof.
  unfold ScatterBlender.update, ScatterBlender.setLayerWeight.
  pose proof (BlenderFacts.updateLayers_reweigh camera n (JS.max 0 (JS.min 1 w))
                (ScatterBlender.scatterLayers b)) as H.
  destruct (ScatterBlender.layerGet n (ScatterBlender.scatterLayers b)) as [layer|] eqn:Hget;
    simpl.
  - destruct (ScatterBlender.isInitialized b); simpl; [|by rewrite Hget].
    destruct (JS.rem _ _ =? 0)%float; simpl; [|by rewrite Hget].
    unfold reweigh in H. rewrite H.
    destruct (ScatterBlender.updateLayers camera (ScatterBlender.scatterLayers b))
      as [m'| |]; simpl; try done.
    by destruct (ScatterBlender.layerGet n m').
  - destruct (ScatterBlender.isInitialized b); simpl; [|by rewrite Hget].
    destruct (JS.rem _ _ =? 0)%float; simpl; [|by rewrite Hget].
    destruct (ScatterBlender.updateLayers camera (ScatterBlender.scatterLayers b))
      as [m'| |] eqn:Hu; simpl; try done.
    by rewrite (H m' eq_refl).
Qed.

(** X25: a blender whose [updateInterval] is zero (or NaN) never updates
    its layers: [frameCount % updateInterval] is NaN, which differs from 0,
    so every [update(camera)] of the initialised blender returns after
    advancing the frame counter. *)
Theorem blender_with_zero_interval_never_updates
    (camera : THREE.Camera) (b : ScatterBlender.t) :
  ScatterBlender.isInitialized b = true ->
  (ScatterBlender.updateInterval b =? 0)%float = true \/
    is_nan (ScatterBlender.updateInterval b) = true ->
  ScatterBlender.update camera b
  = Done (ScatterBlender.mk (ScatterBlender.scatterLayers b) (ScatterBlender.blendMask b)
            (ScatterBlender.blendMaskData b) (ScatterBlender.worldBounds b)
            (ScatterBlender.updateInterval b) (ScatterBlender.frameCount b + 1)%float true).
Proof.
  intros Hinit Hint. unfold ScatterBlender.update. rewrite Hinit. simpl.
  assert (Hrem : JS.rem (ScatterBlender.frameCount b + 1)%float
                   (ScatterBlender.updateInterval b) = nan).
  { destruct Hint as [H0|Hn]; [by apply BlenderFacts.rem_zero | by apply BlenderFacts.rem_nan]. }
  rewrite Hrem. reflexivity.
Qed.

Lemma blender_with_zero_interval_never_updates_witness :
  exists b',
    ScatterBlender.update Scenarios.cornerCamera Scenarios.meadowLayer = Done b' /\
    ScatterBlender.scatterLayers b' = ScatterBlender.scatterLayers Scenarios.meadowLayer /\
    ScatterBlender.frameCount b' = 1%float.
Proof.
  eexists. split.
  - apply (blender_with_zero_interval_never_updates Scenarios.cornerCamera
             Scenarios.meadowLayer eq_refl). left. reflexivity.
  - split; reflexivity.
Defined.

(** X26: [setLayerWeight(name, weight)] changes the weight of the layer of
    that name and nothing else: the names and their order are kept, every
    other layer is unchanged, the layer keeps its system, and its weight
    becomes NaN for a NaN argument and otherwise a number of [0, 1], equal
    to the argument when the argument is one; for a name without layer the
    call does nothing. *)
Theorem set_layer_weight_clamps_one_layer
    (n : String.string) (w : JS.number) (b : ScatterBlender.t) :
  let b' := ScatterBlender.setLayerWeight n w b in
  ScatterBlender.getLayerNames b' = ScatterBlender.getLayerNames b /\
  (forall n', n' <> n -> ScatterBlender.getLayer n' b' = ScatterBlender.getLayer n' b) /\
  match ScatterBlender.getLayer n b with
  | None => b' = b
  | Some layer =>
      exists layer',
        ScatterBlender.getLayer n b' = Some layer' /\
        ScatterBlender.name layer' = ScatterBlender.name layer /\
        ScatterBlender.system layer' = ScatterBlender.system layer /\
        if is_nan w then is_nan (ScatterBlender.weight layer') = true
        else (0 <=? ScatterBlender.weight layer')%float = true /\
             (ScatterBlender.weight layer' <=? 1)%float = true /\
             ((0 <=? w)%float = true -> (w <=? 1)%float = true ->
              (ScatterBlender.weight layer' =? w)%float = true)
  end.
Proof.
  intros b'. subst b'.
  unfold ScatterBlender.setLayerWeight, ScatterBlender.getLayer,
    ScatterBlender.getLayerNames.
  destruct (ScatterBlender.layerGet n (ScatterBlender.scatterLayers b)) as [layer|] eqn:Hget;
    [|done].
  simpl. split; [apply BlenderFacts.keys_layerSet; by rewrite Hget|].
  split; [intros n' Hne; by apply BlenderFacts.layerGet_layerSet_ne|].
  eexists. split; [apply BlenderFacts.layerGet_layerSet_eq|]. simpl.
  split; [done|]. split; [done|]. apply FloatFacts.clamp_unit.
Qed.

(** ** Where the instances are *)

(** X27: the grid and the radial system keep every instance inside the
    chunk that holds it: after any sequence of [update(camera)] calls on a
    newly constructed system, each handle in the instance list of a stored
    chunk has a transform in the converter whose position lies within the
    bounds of that chunk along x and z. *)
Theorem instances_lie_inside_their_chunk
    (fuel : nat) (st : Strategy) (now : JS.number) (cfg : BaseScatterConfig)
    (cams : list THREE.Camera) (s : System)
    (key : Key) (chunk : ChunkData) (id : Z) :
  testsPosition st = true ->
  updatesWith fuel st cams (Core.init (Core.new now cfg)) = Done s ->
  mapGet key (chunks s) = Some chunk -> id ∈ instances chunk ->
  exists t,
    Converter.transforms (converter s) !! id = Some t /\
    let p := Converter.position t in
    (THREE.x (THREE.min (bounds chunk)) <=? THREE.x p)%float = true /\
    (THREE.x p <=? THREE.x (THREE.max (bounds chunk)))%float = true /\
    (THREE.z (THREE.min (bounds chunk)) <=? THREE.z p)%float = true /\
    (THREE.z p <=? THREE.z (THREE.max (bounds chunk)))%float = true.
Proof.
  intros Hst Hrun Hget Hid.
  apply (Whereabouts.updatesWith_Located insideXZ fuel st
           (fun s c x z s' c' => Whereabouts.tested_populate_settles fuel st s c x z s' c' Hst)
           cams _ s (Upkeep.Sound_new now cfg) (Whereabouts.Located_new _ now cfg) Hrun
           key chunk id);
    [by apply mapGet_elem | done].
Qed.

Lemma instances_lie_inside_their_chunk_witness :
  exists s chunk t,
    updatesWith 8 (GridStrategy (GridScatterSystem.newGrid Scenarios.cornerScenario))
      [Scenarios.cornerCamera]
      (Core.init (Core.new 0 (GridScatterSystem.base Scenarios.cornerScenario))) = Done s /\
    mapGet (getChunkKey (-32) (-32)) (chunks s) = Some chunk /\
    instances chunk = [0] /\
    Converter.transforms (converter s) !! 0 = Some t /\
    (THREE.x (THREE.min (bounds chunk)) <=? THREE.x (Converter.position t))%float = true.
Proof.
  assert (Hrun : exists s chunk,
    updatesWith 8 (GridStrategy (GridScatterSystem.newGrid Scenarios.cornerScenario))
      [Scenarios.cornerCamera]
      (Core.init (Core.new 0 (GridScatterSystem.base Scenarios.cornerScenario))) = Done s /\
    mapGet (getChunkKey (-32) (-32)) (chunks s) = Some chunk /\
    instances chunk = [0]).
  { eexists _, _. split; [vm_compute; reflexivity|].
    split; [vm_compute; reflexivity | vm_compute; reflexivity]. }
  destruct Hrun as (s & chunk & Hrun & Hget & Hinst).
  destruct (instances_lie_inside_their_chunk 8
              (GridStrategy (GridScatterSystem.newGrid Scenarios.cornerScenario))
              _ _ _ s _ chunk 0 eq_refl Hrun Hget)
    as (t & Ht & Hx & _).
  { rewrite Hinst. apply list_elem_of_singleton. reflexivity. }
  exists s, chunk, t.
  split; [exact Hrun|]. split; [exact Hget|]. split; [exact Hinst|].
  split; [exact Ht | exact Hx].
Defined.

(** X28: a volume system of type box keeps every instance within the
    bounds of the volume along x and z: after any sequence of
    [update(camera)] calls on a newly constructed system, each handle in
    the instance list of a stored chunk has a transform in the converter
    whose position lies between the faces of the volume's box. *)
Theorem box_volume_keeps_instances_inside_its_bounds
    (fuel : nat) (m : MathLib) (v : VolumeScatterSystem.Volume)
    (now : JS.number) (cfg : BaseScatterConfig)
    (cams : list THREE.Camera) (s : System)
    (key : Key) (chunk : ChunkData) (id : Z) :
  VolumeScatterSystem.volumeType v = VolumeScatterSystem.Box ->
  updatesWith fuel (VolumeStrategy m v) cams (Core.init (Core.new now cfg)) = Done s ->
  mapGet key (chunks s) = Some chunk -> id ∈ instances chunk ->
  exists t,
    Converter.transforms (converter s) !! id = Some t /\
    let p := Converter.position t in
    let b := VolumeScatterSystem.bounds v in
    (THREE.x (THREE.min b) <=? THREE.x p)%float = true /\
    (THREE.x p <=? THREE.x (THREE.max b))%float = true /\
    (THREE.z (THREE.min b) <=? THREE.z p)%float = true /\
    (THREE.z p <=? THREE.z (THREE.max b))%float = true.
Proof.
  intros Hbox Hrun Hget Hid.
  apply (Whereabouts.updatesWith_Located
           (fun _ => insideXZ (VolumeScatterSystem.bounds v)) fuel (VolumeStrategy m v)
           (fun s c x z s' c' =>
              Whereabouts.box_populate_settles fuel m v s c x z s' c' Hbox)
           cams _ s (Upkeep.Sound_new now cfg) (Whereabouts.Located_new _ now cfg) Hrun
           key chunk id);
    [by apply mapGet_elem | done].
Qed.

Lemma box_volume_keeps_instances_inside_its_bounds_witness :
  let v := VolumeScatterSystem.newVolume Scenarios.crate in
  exists s chunk t,
    updatesWith 8 (VolumeStrategy Scenarios.atAngleZero v) [Scenarios.cornerCamera]
      (Core.init (Core.new 0 (VolumeScatterSystem.base Scenarios.crate))) = Done s /\
    mapGet (getChunkKey (-32) (-32)) (chunks s) = Some chunk /\
    instances chunk = [0; 1; 2; 3] /\
    Converter.transforms (converter s) !! 3 = Some t /\
    (THREE.x (Converter.position t) <=? THREE.x (THREE.max (VolumeScatterSystem.bounds v)))%float
    = true.
Proof.
  intros v.
  assert (Hrun : exists s chunk,
    updatesWith 8 (VolumeStrategy Scenarios.atAngleZero v) [Scenarios.cornerCamera]
      (Core.init (Core.new 0 (VolumeScatterSystem.base Scenarios.crate))) = Done s /\
    mapGet (getChunkKey (-32) (-32)) (chunks s) = Some chunk /\
    instances chunk = [0; 1; 2; 3]).
  { eexists _, _. split; [vm_compute; reflexivity|].
    split; [vm_compute; reflexivity | vm_compute; reflexivity]. }
  destruct Hrun as (s & chunk & Hrun & Hget & Hinst).
  destruct (box_volume_keeps_instances_inside_its_bounds 8 Scenarios.atAngleZero v
              _ _ _ s _ chunk 3 eq_refl Hrun Hget)
    as (t & Ht & _ & Hx & _).
  { rewrite Hinst. apply list_elem_of_In. simpl. tauto. }
  exists s, chunk, t.
  split; [exact Hrun|]. split; [exact Hget|]. split; [exact Hinst|].
  split; [exact Ht | exact Hx].
Defined.
